(** * Merkle accumulator proofs: multi-proofs, append proofs and the on-chain verifier

    A shallow embedding of the flag multi-proof module (boolean-array and
    compact forms), of the append-proof module and of the Solidity reference
    verifier, followed by the properties the specification states about
    them. *)

From Stdlib Require Import ZArith List Bool Lia.
Import ListNotations.
Local Open Scope Z_scope.

(* ================================================================= *)
(** * JavaScript values *)

Module JS.

(** Exceptions.  The three [Error]s thrown by the modules are named after
    the error kind of the specification they fall under; [TypeError] is
    the runtime error raised when [undefined] reaches [Buffer.from],
    [Buffer.concat] or [Buffer.compare]. *)
Inductive exn : Type :=
| UnsortedIndices    (* Error('Indices must be in ascending order.') *)
| CapacityExceeded   (* Error('Proof too large for bit flags.') *)
| MalformedProof     (* Error('Cannot infer indices without orders in proof.') *)
| TypeError.

Inductive result (A : Type) : Type :=
| Ok (a : A)
| Throw (e : exn).
Arguments Ok {A} a.
Arguments Throw {A} e.

Definition bind {A B} (r : result A) (k : A -> result B) : result B :=
  match r with
  | Ok a => k a
  | Throw e => Throw e
  end.

(** ** 32-bit integer operators on numbers *)

Definition toUint32 (x : Z) : Z := x mod 2 ^ 32.
Definition toInt32 (x : Z) : Z := (x + 2 ^ 31) mod 2 ^ 32 - 2 ^ 31.

(** [x >>> n] *)
Definition ushr (x n : Z) : Z := Z.shiftr (toUint32 x) (Z.land n 31).
(** [x << n] *)
Definition shl (x n : Z) : Z := toInt32 (Z.shiftl (toInt32 x) (Z.land n 31)).
(** [x & y] *)
Definition band (x y : Z) : Z := Z.land (toInt32 x) (toInt32 y).
(** [x | y] *)
Definition bor (x y : Z) : Z := Z.lor (toInt32 x) (toInt32 y).

(** ** Array cursors

    A cursor is an integer until [%= 0] turns it into [NaN]. *)
Inductive num : Type :=
| Int (z : Z)
| NaN.

Definition incr (n : num) : num :=
  match n with Int z => Int (z + 1) | NaN => NaN end.

Definition decr (n : num) : num :=
  match n with Int z => Int (z - 1) | NaN => NaN end.

(** [n % m] *)
Definition rem (n : num) (m : Z) : num :=
  match n with
  | Int z => if m =? 0 then NaN else Int (Z.rem z m)
  | NaN => NaN
  end.

Definition num_eqb (a b : num) : bool :=
  match a, b with
  | Int x, Int y => x =? y
  | NaN, NaN => true
  | _, _ => false
  end.

(** [n === 0] *)
Definition isZero (n : num) : bool :=
  match n with Int z => z =? 0 | NaN => false end.

(** ** Arrays

    An array that is written by index is a map from property keys to
    values: reading a key that was never written gives [undefined]
    ([None]), writing past the end or at [NaN] creates the property. *)
Definition array (A : Type) : Type := num -> option A.

Definition ofList {A} (l : list A) : array A :=
  fun k =>
    match k with
    | Int z => if z <? 0 then None else nth_error l (Z.to_nat z)
    | NaN => None
    end.

Definition set {A} (a : array A) (k : num) (v : option A) : array A :=
  fun k' => if num_eqb k k' then v else a k'.

(** Arrays of numbers and flags indexed by integers only; an absent
    entry reads as the default. *)
Definition upd {A} (a : Z -> A) (k : Z) (v : A) : Z -> A :=
  fun k' => if k =? k' then v else a k'.

(** [l[i]] on an array that is only read. *)
Definition get {A} (l : list A) (i : Z) : option A :=
  if i <? 0 then None else nth_error l (Z.to_nat i).

(** [l[i]] on an array whose slots may hold [undefined]. *)
Definition getOpt {A} (l : list (option A)) (i : Z) : option A :=
  match get l i with Some v => v | None => None end.

(** [l[i]] used as a condition: [undefined] is falsy. *)
Definition truthy (l : list bool) (i : nat) : bool := nth i l false.

Definition isUndefined {A} (v : option A) : bool :=
  match v with Some _ => false | None => true end.

(** [l.filter((d) => d)] on an array of buffers and [undefined]s. *)
Fixpoint defined {A} (l : list (option A)) : list A :=
  match l with
  | [] => []
  | Some v :: l' => v :: defined l'
  | None :: l' => defined l'
  end.

Definition zseq (lo : Z) (n : nat) : list Z :=
  map (fun k => lo + Z.of_nat k) (seq 0 n).

End JS.

Import JS.

Notation "'let*' x ':=' r 'in' k" := (bind r (fun x => k))
  (at level 10, x name, r at level 100, k at level 200).

(* ================================================================= *)
(** * Hash primitive, 32-byte words and the tree builder *)

Module Common.

(** A 32-byte buffer, as the big-endian integer it holds. *)
Definition Buffer : Type := Z.

Section Hash.

(** The 2-to-1 compression function [keccak256(a || b)]. *)
Variable keccak : Buffer -> Buffer -> Buffer.
(** [options.sortedHash] *)
Variable sortedHash : bool.

(** Modelled from the spec: the ordered hash of section 4.1 (the module
    that defines the hash functions is not part of the sources). *)
Definition hashNode (left right : Buffer) : Buffer := keccak left right.

(** Modelled from the spec: the sorted hash of section 4.1, operands
    compared as big-endian integers. *)
Definition sortHashNode (left right : Buffer) : Buffer :=
  keccak (Z.min left right) (Z.max left right).

(** [options.hashFunction]: the variant selected by [sortedHash]. *)
Definition hashFunction : Buffer -> Buffer -> Buffer :=
  if sortedHash then sortHashNode else hashNode.

(** A call of [options.hashFunction] on two array reads: both variants
    hand their operands to [Buffer.concat] or [Buffer.compare], which
    raise a [TypeError] on [undefined]. *)
Definition callHash (left right : option Buffer) : result Buffer :=
  match left, right with
  | Some l, Some r => Ok (hashFunction l r)
  | _, _ => Throw TypeError
  end.

(** [Buffer.from(b)] *)
Definition bufferFrom (b : option Buffer) : result Buffer :=
  match b with
  | Some v => Ok v
  | None => Throw TypeError
  end.

(** Modelled from the spec: the leaf image [H(0^32, leaf)] of section 3. *)
Definition leafImage (element : Buffer) : Buffer := hashNode 0 element.

(** Modelled from the spec: [L], the smallest power of two that is at
    least [max(N, 1)] (section 4.2). *)
Definition leafCountOf (N : Z) : Z := 2 ^ Z.log2_up (Z.max N 1).

(** Modelled from the spec: rule 2 of section 4.2 for one node. *)
Definition parentOf (l r : option Buffer) : option Buffer :=
  match l, r with
  | Some a, Some b => Some (hashFunction a b)
  | Some a, None => Some a
  | _, _ => None
  end.

(** Modelled from the spec: step 1 of section 4.2,
    [node[L+i] = H(0^32, elements[i])]. *)
Fixpoint fillLeaves (L i : Z) (elements : list Buffer)
         (node : Z -> option Buffer) : Z -> option Buffer :=
  match elements with
  | [] => node
  | e :: rest => fillLeaves L (i + 1) rest (upd node (L + i) (Some (leafImage e)))
  end.

(** Modelled from the spec: step 2 of section 4.2, for [i] from [n]
    down to 1. *)
Fixpoint fillNodes (n : nat) (node : Z -> option Buffer) : Z -> option Buffer :=
  match n with
  | O => node
  | S n' =>
      let i := Z.of_nat n in
      fillNodes n' (upd node i (parentOf (node (2 * i)) (node (2 * i + 1))))
  end.

Definition nodesOf (elements : list Buffer) : Z -> option Buffer :=
  let L := leafCountOf (Z.of_nat (length elements)) in
  fillNodes (Z.to_nat (L - 1)) (fillLeaves L 0 elements (fun _ => None)).

(** Modelled from the spec: the tree builder of section 4.2 (the tree
    class is not part of the sources).  The node array has length
    [2 L]; slot 0 is unused and absent slots hold [undefined]. *)
Definition buildTree (elements : list Buffer) : list (option Buffer) :=
  let L := leafCountOf (Z.of_nat (length elements)) in
  map (nodesOf elements) (zseq 0 (Z.to_nat (2 * L))).

(** Modelled from the spec: [root = H(N as 32 bytes, node[1])] if
    [N > 0], else [0^32]. *)
Definition rootOf (N : Z) (internalRoot : option Buffer) : Buffer :=
  match internalRoot with
  | Some r => if 0 <? N then hashNode N r else 0
  | None => 0
  end.

End Hash.

(** Modelled from the spec: the 32-byte word helpers of the utilities
    module (not part of the sources).  A count is stored big-endian and
    left-padded (section 6) and read back from the low four bytes, a
    count being below [2^32] (section 3); a bit stream is stored with bit
    [i] holding step [i] (section 4.4). *)
Definition to32ByteBuffer (n : Z) : Buffer := n.
Definition from32ByteBuffer (b : Buffer) : Z := b mod 2 ^ 32.
Definition bigIntTo32ByteBuffer (x : Z) : Buffer := x.
Definition bufferToBigInt (b : Buffer) : Z := b.

Fixpoint toBigIntBoolSet (booleans : list bool) : Z :=
  match booleans with
  | [] => 0
  | b :: rest => Z.b2z b + 2 * toBigIntBoolSet rest
  end.

Definition to32ByteBoolBuffer (booleans : list bool) : Buffer :=
  bigIntTo32ByteBuffer (toBigIntBoolSet booleans).

(** Modelled from the spec: [bitCount32], the number of set bits of a
    32-bit count ([k = popcount(N)], section 4.5). *)
Fixpoint popcount (bits : nat) (n : Z) : Z :=
  match bits with
  | O => 0
  | S b => Z.b2z (Z.odd n) + popcount b (n / 2)
  end.

Definition bitCount32 (n : Z) : Z := popcount 32 (toUint32 n).

End Common.

Import Common.

(* ================================================================= *)
(** * The flag multi-proof module *)

Module MultiProofs.

(** The object returned by the generators. *)
Record proof : Type := mkProof {
  compactProof : list Buffer;
  elementCount : Z;
  decommitments : list Buffer;
  flags : list bool;
  skips : list bool;
  orders : option (list bool)
}.

(** The object returned by [getRoot]; [getRootBits] returns the array
    slot as it is, which may be [undefined]. *)
Record rootResult : Type := mkRoot {
  root : option Buffer;
  rootElementCount : Z
}.

(** The object returned by [getNewRoot]. *)
Record newRootResult : Type := mkNewRoot {
  oldRoot : option Buffer;
  newRoot : option Buffer;
  newRootElementCount : Z
}.

(** The arrays of [generateBooleans]. *)
Record genState : Type := mkGen {
  known : Z -> bool;
  relevant : Z -> bool;
  genDecommitments : list (option Buffer);
  genFlags : list bool;
  genSkips : list bool;
  genOrders : list bool
}.

(** The cursors and the circular buffer of [getRoot]. *)
Record rootState : Type := mkState {
  hashes : array Buffer;
  readIndex : num;
  writeIndex : num;
  decommitmentIndex : Z
}.

(** The cursors and the two buffers of [getNewRoot]. *)
Record newRootState : Type := mkNewState {
  oldHashes : array Buffer;
  updateHashes : array Buffer;
  newReadIndex : num;
  newWriteIndex : num;
  newDecommitmentIndex : Z
}.

(** The arrays of [getIndices].  An absent entry of [indices] reads as
    [0] under [|=], one of [groupedWithNext] is falsy, one of
    [bitsPushed] reads as [NaN] under [++]. *)
Record indexState : Type := mkIndex {
  indices : Z -> Z;
  groupedWithNext : Z -> bool;
  bitsPushed : Z -> num;
  leafIndex : Z
}.

Section WithHash.

Variable keccak : Buffer -> Buffer -> Buffer.
Variable sortedHash : bool.

Let hashFunction := hashFunction keccak sortedHash.
Let callHash := callHash keccak sortedHash.

(** ** generateBooleans *)

(** The first loop: the sortedness check and the marking of the
    leaves and of their parents; [previous] is [indices[i - 1]]. *)
Fixpoint markLeaves (leafCount : Z) (previous : option Z) (indices : list Z)
         (known relevant : Z -> bool) : result ((Z -> bool) * (Z -> bool)) :=
  match indices with
  | [] => Ok (known, relevant)
  | index :: rest =>
      if match previous with Some p => p >? index | None => false end
      then Throw UnsortedIndices
      else markLeaves leafCount (Some index) rest
                      (upd known (leafCount + index) true)
                      (upd relevant (ushr (leafCount + index) 1) true)
  end.

(** The body of the second loop at node [i]. *)
Definition genStep (tree : list (option Buffer)) (i : Z) (s : genState) : genState :=
  let leftChildIndex := shl i 1 in
  let left := known s leftChildIndex in
  let right := known s (leftChildIndex + 1) in
  let sibling := getOpt tree (leftChildIndex + Z.b2z left) in
  let decommitments :=
    if xorb left right then genDecommitments s ++ [sibling] else genDecommitments s in
  let known' := upd (known s) i (left || right) in
  if relevant s i
  then mkGen known' (upd (relevant s) (ushr i 1) true) decommitments
             (genFlags s ++ [Bool.eqb left right])
             (genSkips s ++ [isUndefined sibling])
             (genOrders s ++ [left])
  else mkGen known' (relevant s) decommitments (genFlags s) (genSkips s) (genOrders s).

(** [for (let i = n; i > 0; i--)] *)
Fixpoint genLoop (tree : list (option Buffer)) (n : nat) (s : genState) : genState :=
  match n with
  | O => s
  | S n' => genLoop tree n' (genStep tree (Z.of_nat n) s)
  end.

Definition generateBooleans (tree : list (option Buffer)) (elementCount : Z)
           (indices : list Z) : result proof :=
  let leafCount := ushr (Z.of_nat (length tree)) 1 in
  let* marked := markLeaves leafCount None indices (fun _ => false) (fun _ => false) in
  let s := genLoop tree (Z.to_nat (leafCount - 1))
                   (mkGen (fst marked) (snd marked) [] [] [] []) in
  Ok (mkProof [] elementCount (defined (genDecommitments s))
              (genFlags s) (genSkips s)
              (if sortedHash then None else Some (genOrders s))).

(** ** generateBits *)

Definition generateBits (tree : list (option Buffer)) (elemCount : Z)
           (indices : list Z) : result proof :=
  let* p := generateBooleans tree elemCount indices in
  if Z.of_nat (length (flags p)) >? 255 then Throw CapacityExceeded
  else
    let stopMask := Z.shiftl 1 (Z.of_nat (length (flags p))) in
    let proof :=
      match orders p with
      | Some o => to32ByteBoolBuffer o :: decommitments p
      | None => decommitments p
      end in
    let flagsAsBits := bigIntTo32ByteBuffer (Z.lor (toBigIntBoolSet (flags p)) stopMask) in
    let skipsAsBits := bigIntTo32ByteBuffer (Z.lor (toBigIntBoolSet (skips p)) stopMask) in
    Ok (mkProof ([to32ByteBuffer (elementCount p); flagsAsBits; skipsAsBits] ++ proof)
                (elementCount p) [] [] [] None).

Definition generate (compact : bool) (tree : list (option Buffer)) (elemCount : Z)
           (indices : list Z) : result proof :=
  if compact then generateBits tree elemCount indices
  else generateBooleans tree elemCount indices.

(** ** getRootBooleans *)

(** One turn of the automaton, given the three bits of the step. *)
Definition rootStep (decommitments : list Buffer) (leafCount : Z)
           (flag skip order : bool) (s : rootState) : result rootState :=
  if skip then
    Ok (mkState (set (hashes s) (writeIndex s) (hashes s (readIndex s)))
                (rem (incr (readIndex s)) leafCount)
                (rem (incr (writeIndex s)) leafCount)
                (decommitmentIndex s))
  else
    let right := if flag then hashes s (readIndex s)
                 else get decommitments (decommitmentIndex s) in
    let readIndex1 := rem (if flag then incr (readIndex s) else readIndex s) leafCount in
    let decommitmentIndex' :=
      if flag then decommitmentIndex s else decommitmentIndex s + 1 in
    let left := hashes s readIndex1 in
    let* h := (if order then callHash left right else callHash right left) in
    Ok (mkState (set (hashes s) (writeIndex s) (Some h))
                (rem (incr readIndex1) leafCount)
                (rem (incr (writeIndex s)) leafCount)
                decommitmentIndex').

(** [(writeIndex === 0 ? leafCount : writeIndex) - 1] *)
Definition rootIndexOf (leafCount : Z) (writeIndex : num) : num :=
  decr (if isZero writeIndex then Int leafCount else writeIndex).

(** [for (let i = ...; i < hashCount; i++)], with [n] turns left. *)
Fixpoint rootLoop (flags skips orders : list bool) (decommitments : list Buffer)
         (leafCount : Z) (n i : nat) (s : rootState) : result rootState :=
  match n with
  | O => Ok s
  | S n' =>
      let* s' := rootStep decommitments leafCount
                     (truthy flags i) (truthy skips i) (truthy orders i) s in
      rootLoop flags skips orders decommitments leafCount n' (S i) s'
  end.

Definition initState (leafs : list Buffer) : rootState :=
  mkState (ofList (rev leafs)) (Int 0) (Int 0) 0.

Definition getRootBooleans (leafs : list Buffer) (elementCount : Z)
           (flags skips orders : list bool) (decommitments : list Buffer)
  : result rootResult :=
  let hashCount := length flags in
  let leafCount := Z.of_nat (length leafs) in
  let* s := rootLoop flags skips orders decommitments leafCount hashCount 0 (initState leafs) in
  let* r := bufferFrom (hashes s (rootIndexOf leafCount (writeIndex s))) in
  Ok (mkRoot (Some r) elementCount).

(** ** getRootBits *)

(** A BigInt used as a condition. *)
Definition nonzero (x : Z) : bool := negb (x =? 0).

(** [while (true)]: [None] when the turns run out. *)
Fixpoint bitsLoop (fuel : nat) (flags skips : Z) (orders : option Z)
         (decommitments : list Buffer) (leafCount : Z) (elementCount : Z)
         (bitCheck : Z) (s : rootState) : option (result rootResult) :=
  match fuel with
  | O => None
  | S fuel' =>
      let flag := Z.land flags bitCheck in
      if nonzero (Z.land skips bitCheck) && nonzero flag then
        Some (Ok (mkRoot (hashes s (rootIndexOf leafCount (writeIndex s))) elementCount))
      else
        let order :=
          match orders with
          | Some o => nonzero o && nonzero (Z.land o bitCheck)
          | None => false
          end in
        match rootStep decommitments leafCount (nonzero flag)
                       (nonzero (Z.land skips bitCheck)) order s with
        | Ok s' => bitsLoop fuel' flags skips orders decommitments leafCount
                            elementCount (Z.shiftl bitCheck 1) s'
        | Throw e => Some (Throw e)
        end
  end.

(** A word of the compact proof handed to [from32ByteBuffer] or
    [bufferToBigInt], which fail on [undefined]. *)
Definition word (compactProof : list Buffer) (i : Z) : result Buffer :=
  bufferFrom (get compactProof i).

Definition getRootBits (fuel : nat) (leafs : list Buffer) (compactProof : list Buffer)
  : option (result rootResult) :=
  match word compactProof 0 with
  | Throw e => Some (Throw e)
  | Ok w0 =>
  match word compactProof 1 with
  | Throw e => Some (Throw e)
  | Ok w1 =>
  match word compactProof 2 with
  | Throw e => Some (Throw e)
  | Ok w2 =>
  match (if sortedHash then Ok None
         else let* w3 := word compactProof 3 in Ok (Some (bufferToBigInt w3))) with
  | Throw e => Some (Throw e)
  | Ok orders =>
      let decommitments := skipn (if sortedHash then 3 else 4) compactProof in
      bitsLoop fuel (bufferToBigInt w1) (bufferToBigInt w2) orders decommitments
               (Z.of_nat (length leafs)) (from32ByteBuffer w0) 1 (initState leafs)
  end end end end.

(** [getRoot]: the defaults of the optional arguments are written at
    the call ([orders] defaults to the empty array). *)
Definition getRoot (fuel : nat) (leafs : list Buffer) (compactProof : list Buffer)
           (elementCount : Z) (flags skips : list bool) (orders : option (list bool))
           (decommitments : list Buffer) : option (result rootResult) :=
  match compactProof with
  | _ :: _ => getRootBits fuel leafs compactProof
  | [] => Some (getRootBooleans leafs elementCount flags skips
                                (match orders with Some o => o | None => [] end)
                                decommitments)
  end.

(** ** getNewRootBooleans *)

Definition newRootStep (decommitments : list Buffer) (leafCount : Z)
           (flag skip order : bool) (s : newRootState) : result newRootState :=
  if skip then
    Ok (mkNewState
          (set (oldHashes s) (newWriteIndex s) (oldHashes s (newReadIndex s)))
          (set (updateHashes s) (newWriteIndex s) (updateHashes s (newReadIndex s)))
          (rem (incr (newReadIndex s)) leafCount)
          (rem (incr (newWriteIndex s)) leafCount)
          (newDecommitmentIndex s))
  else
    let right := if flag then oldHashes s (newReadIndex s)
                 else get decommitments (newDecommitmentIndex s) in
    let newRight := if flag then updateHashes s (newReadIndex s)
                    else get decommitments (newDecommitmentIndex s) in
    let readIndex1 :=
      rem (if flag then incr (newReadIndex s) else newReadIndex s) leafCount in
    let decommitmentIndex' :=
      if flag then newDecommitmentIndex s else newDecommitmentIndex s + 1 in
    let left := oldHashes s readIndex1 in
    let newLeft := updateHashes s readIndex1 in
    let* h := (if order then callHash left right else callHash right left) in
    let* h' := (if order then callHash newLeft newRight else callHash newRight newLeft) in
    Ok (mkNewState (set (oldHashes s) (newWriteIndex s) (Some h))
                   (set (updateHashes s) (newWriteIndex s) (Some h'))
                   (rem (incr readIndex1) leafCount)
                   (rem (incr (newWriteIndex s)) leafCount)
                   decommitmentIndex').

Fixpoint newRootLoop (flags skips orders : list bool) (decommitments : list Buffer)
         (leafCount : Z) (n i : nat) (s : newRootState) : result newRootState :=
  match n with
  | O => Ok s
  | S n' =>
      let* s' := newRootStep decommitments leafCount
                        (truthy flags i) (truthy skips i) (truthy orders i) s in
      newRootLoop flags skips orders decommitments leafCount n' (S i) s'
  end.

Definition getNewRootBooleans (leafs updateLeafs : list Buffer) (elementCount : Z)
           (flags skips orders : list bool) (decommitments : list Buffer)
  : result newRootResult :=
  let hashCount := length flags in
  let leafCount := Z.of_nat (length leafs) in
  let* s := newRootLoop flags skips orders decommitments leafCount hashCount 0
                   (mkNewState (ofList (rev leafs)) (ofList (rev updateLeafs))
                               (Int 0) (Int 0) 0) in
  let rootIndex := rootIndexOf leafCount (newWriteIndex s) in
  let* r := bufferFrom (oldHashes s rootIndex) in
  let* r' := bufferFrom (updateHashes s rootIndex) in
  Ok (mkNewRoot (Some r) (Some r') elementCount).

(** ** getNewRootBits *)

Fixpoint newBitsLoop (fuel : nat) (flags skips : Z) (orders : option Z)
         (decommitments : list Buffer) (leafCount : Z) (elementCount : Z)
         (bitCheck : Z) (s : newRootState) : option (result newRootResult) :=
  match fuel with
  | O => None
  | S fuel' =>
      let flag := Z.land flags bitCheck in
      if nonzero (Z.land skips bitCheck) && nonzero flag then
        let rootIndex := rootIndexOf leafCount (newWriteIndex s) in
        Some (let* r := bufferFrom (oldHashes s rootIndex) in
              let* r' := bufferFrom (updateHashes s rootIndex) in
              Ok (mkNewRoot (Some r) (Some r') elementCount))
      else
        let order :=
          match orders with
          | Some o => nonzero o && nonzero (Z.land o bitCheck)
          | None => false
          end in
        match newRootStep decommitments leafCount (nonzero flag)
                          (nonzero (Z.land skips bitCheck)) order s with
        | Ok s' => newBitsLoop fuel' flags skips orders decommitments leafCount
                               elementCount (Z.shiftl bitCheck 1) s'
        | Throw e => Some (Throw e)
        end
  end.

Definition getNewRootBits (fuel : nat) (leafs updateLeafs : list Buffer)
           (compactProof : list Buffer) : option (result newRootResult) :=
  match word compactProof 0 with
  | Throw e => Some (Throw e)
  | Ok w0 =>
  match word compactProof 1 with
  | Throw e => Some (Throw e)
  | Ok w1 =>
  match word compactProof 2 with
  | Throw e => Some (Throw e)
  | Ok w2 =>
  match (if sortedHash then Ok None
         else let* w3 := word compactProof 3 in Ok (Some (bufferToBigInt w3))) with
  | Throw e => Some (Throw e)
  | Ok orders =>
      let decommitments := skipn (if sortedHash then 3 else 4) compactProof in
      newBitsLoop fuel (bufferToBigInt w1) (bufferToBigInt w2) orders decommitments
                  (Z.of_nat (length leafs)) (from32ByteBuffer w0) 1
                  (mkNewState (ofList (rev leafs)) (ofList (rev updateLeafs))
                              (Int 0) (Int 0) 0)
  end end end end.

Definition getNewRoot (fuel : nat) (leafs updatedLeafs : list Buffer)
           (compactProof : list Buffer) (elementCount : Z) (flags skips : list bool)
           (orders : option (list bool)) (decommitments : list Buffer)
  : option (result newRootResult) :=
  match compactProof with
  | _ :: _ => getNewRootBits fuel leafs updatedLeafs compactProof
  | [] => Some (getNewRootBooleans leafs updatedLeafs elementCount flags skips
                                   (match orders with Some o => o | None => [] end)
                                   decommitments)
  end.

End WithHash.

(** ** getIndices *)

(** The operand of a shift: [NaN] converts to [0]. *)
Definition int32Of (n : num) : Z :=
  match n with Int z => z | NaN => 0 end.

(** [indices[leafIndex] |= 1 << bitsPushed[leafIndex]] *)
Definition pushBit (s : indexState) : indexState :=
  let j := leafIndex s in
  mkIndex (upd (indices s) j (bor (indices s j) (shl 1 (int32Of (bitsPushed s j)))))
          (groupedWithNext s) (bitsPushed s) j.

(** [bitsPushed[leafIndex]++] *)
Definition countBit (s : indexState) : indexState :=
  let j := leafIndex s in
  mkIndex (indices s) (groupedWithNext s) (upd (bitsPushed s) j (incr (bitsPushed s j))) j.

(** The three inner [while (true)] loops share one body: the bit is set
    when [setBit] holds; the leaf is counted; at leaf [0] the cursor
    wraps and the loop ends; otherwise the cursor moves down and the loop
    ends unless the leaf was grouped with the next one.  The loop of the
    [flags[i]] branch also marks the leaf as grouped ([mark]).  [None]
    when the turns run out. *)
Fixpoint walk (fuel : nat) (leafCount : Z) (setBit mark : bool) (s : indexState)
  : option indexState :=
  match fuel with
  | O => None
  | S fuel' =>
      let s1 := countBit (if setBit then pushBit s else s) in
      let j := leafIndex s1 in
      if j =? 0 then
        Some (mkIndex (indices s1) (groupedWithNext s1) (bitsPushed s1) (leafCount - 1))
      else
        let grouped := groupedWithNext s1 j in
        let s2 := mkIndex (indices s1)
                          (if mark then upd (groupedWithNext s1) j true
                           else groupedWithNext s1)
                          (bitsPushed s1) (j - 1) in
        if negb grouped then Some s2 else walk fuel' leafCount setBit mark s2
  end.

(** One hash step: the body of the [for] loop, and of the outer
    [while (true)] after the stop test. *)
Definition indexStep (fuel : nat) (leafCount : Z) (flag skip order : bool)
           (s : indexState) : option indexState :=
  if skip then walk fuel leafCount false false s
  else
    match (if flag then walk fuel leafCount order true s else Some s) with
    | None => None
    | Some s1 => walk fuel leafCount (negb order) false s1
    end.

(** [Array(leafCount).fill(...)] for the three arrays, and
    [leafIndex = leafCount - 1]. *)
Definition initIndex (leafCount : Z) : indexState :=
  mkIndex (fun _ => 0) (fun _ => false)
          (fun j => if (0 <=? j) && (j <? leafCount) then Int 0 else NaN)
          (leafCount - 1).

(** The elements of the array [indices]. *)
Definition elementsOf (leafCount : Z) (s : indexState) : list Z :=
  map (indices s) (zseq 0 (Z.to_nat leafCount)).

(** [for (let i = 0; i < hashCount; i++)], with [n] turns left. *)
Fixpoint indexLoop (fuel : nat) (flags skips orders : list bool) (leafCount : Z)
         (n i : nat) (s : indexState) : option indexState :=
  match n with
  | O => Some s
  | S n' =>
      match indexStep fuel leafCount (truthy flags i) (truthy skips i) (truthy orders i) s with
      | None => None
      | Some s' => indexLoop fuel flags skips orders leafCount n' (S i) s'
      end
  end.

Definition getIndicesWithBooleans (fuel : nat) (leafCount : Z) (flags skips orders : list bool)
  : option (result (list Z)) :=
  if (length orders =? 0)%nat then Some (Throw MalformedProof)
  else
    match indexLoop fuel flags skips orders leafCount (length flags) 0
                    (initIndex leafCount) with
    | None => None
    | Some s => Some (Ok (elementsOf leafCount s))
    end.

(** [while (true)] over the bit sets: [None] when the turns run out. *)
Fixpoint indexBitsLoop (fuel : nat) (flags skips orders : Z) (leafCount : Z)
         (bitCheck : Z) (s : indexState) : option indexState :=
  match fuel with
  | O => None
  | S fuel' =>
      let flag := nonzero (Z.land flags bitCheck) in
      let skip := nonzero (Z.land skips bitCheck) in
      if skip && flag then Some s
      else
        match indexStep fuel' leafCount flag skip (nonzero (Z.land orders bitCheck)) s with
        | None => None
        | Some s' =>
            indexBitsLoop fuel' flags skips orders leafCount (Z.shiftl bitCheck 1) s'
        end
  end.

Definition getIndicesWithBits (fuel : nat) (leafCount : Z) (compactProof : list Buffer)
  : option (result (list Z)) :=
  match word compactProof 1 with
  | Throw e => Some (Throw e)
  | Ok w1 =>
  match word compactProof 2 with
  | Throw e => Some (Throw e)
  | Ok w2 =>
  match word compactProof 3 with
  | Throw e => Some (Throw e)
  | Ok w3 =>
      match indexBitsLoop fuel (bufferToBigInt w1) (bufferToBigInt w2) (bufferToBigInt w3)
                          leafCount 1 (initIndex leafCount) with
      | None => None
      | Some s => Some (Ok (elementsOf leafCount s))
      end
  end end end.

(** [getIndices]: the defaults of the optional arguments are written at
    the call. *)
Definition getIndices (fuel : nat) (leafCount : Z) (compactProof : list Buffer)
           (flags skips orders : list bool) : option (result (list Z)) :=
  match compactProof with
  | _ :: _ => getIndicesWithBits fuel leafCount compactProof
  | [] => getIndicesWithBooleans fuel leafCount flags skips orders
  end.

End MultiProofs.

(* ================================================================= *)
(** * The append-proof module *)

Module AppendProofs.

(** The object returned by [generate]. *)
Record proof : Type := mkProof {
  compactProof : list Buffer;
  elementCount : Z;
  decommitments : list Buffer
}.

(** The object returned by [getRoot]. *)
Record rootResult : Type := mkRoot {
  root : option Buffer;
  rootElementCount : Z
}.

(** The object returned by [getNewRoot]. *)
Record newRootResult : Type := mkNewRoot {
  oldRoot : option Buffer;
  newRoot : option Buffer;
  newRootElementCount : Z
}.

(** [appendLeafs: Array<Buffer> | Buffer] *)
Inductive appendArg : Type :=
| Single (appendLeaf : Buffer)
| Multi (appendLeafs : list Buffer).

(** The variables of [getNewRootMulti]. *)
Record multiState : Type := mkMulti {
  decommitmentIndex : Z;
  hash : option Buffer;
  appendHashes : Z -> option Buffer;
  upperBound : Z;
  writeIndex : Z;
  readIndex : Z;
  offset : Z;
  index : Z
}.

(** A computation that reads [decommitments]: its outcome and the
    indices it read, in the order of the reads. *)
Definition traced (A : Type) : Type := (result A * list Z)%type.

Section WithHash.

Variable keccak : Buffer -> Buffer -> Buffer.
Variable sortedHash : bool.

Let callHash := callHash keccak sortedHash.

(** ** generate *)

(** [for (let i = ...; i > 1; i >>>= 1)]: [None] when the turns run out. *)
Fixpoint generateLoop (fuel : nat) (tree : list (option Buffer)) (i : Z)
         (decommitments : list (option Buffer)) : option (list (option Buffer)) :=
  match fuel with
  | O => None
  | S fuel' =>
      if i >? 1 then
        generateLoop fuel' tree (ushr i 1)
                     (if negb (band i 1 =? 0) || (i =? 2)
                      then getOpt tree (i - 1) :: decommitments
                      else decommitments)
      else Some decommitments
  end.

(** [decommitments.map(Buffer.from)] *)
Fixpoint buffersFrom (l : list (option Buffer)) : result (list Buffer) :=
  match l with
  | [] => Ok []
  | d :: rest =>
      let* b := bufferFrom d in
      let* bs := buffersFrom rest in
      Ok (b :: bs)
  end.

Definition generate (fuel : nat) (compact : bool) (tree : list (option Buffer))
           (elementCount : Z) : option (result proof) :=
  let leafCount := ushr (Z.of_nat (length tree)) 1 in
  match generateLoop fuel tree (leafCount + elementCount) [] with
  | None => None
  | Some decommitments =>
      Some (let* buffers := buffersFrom decommitments in
            if compact
            then Ok (mkProof (to32ByteBuffer elementCount :: buffers) 0 [])
            else Ok (mkProof [] elementCount buffers))
  end.

(** The arguments after [if (compactProof.length > 0) { ... }]. *)
Definition unpack (compactProof : list Buffer) (elementCount : Z)
           (decommitments : list Buffer) : result (Z * list Buffer) :=
  match compactProof with
  | [] => Ok (elementCount, decommitments)
  | w0 :: rest => Ok (from32ByteBuffer w0, rest)
  end.

(** ** getRoot *)

(** [while (index > 0)], with [index] turns left. *)
Fixpoint rootLoop (index : nat) (decommitments : list Buffer) (hash : option Buffer)
         (reads : list Z) : traced (option Buffer) :=
  match index with
  | O => (Ok hash, reads)
  | S index' =>
      let reads' := reads ++ [Z.of_nat index'] in
      match callHash (get decommitments (Z.of_nat index')) hash with
      | Ok h => rootLoop index' decommitments (Some h) reads'
      | Throw e => (Throw e, reads')
      end
  end.

Definition getRoot (compactProof : list Buffer) (elementCount : Z)
           (decommitments : list Buffer) : traced rootResult :=
  match unpack compactProof elementCount decommitments with
  | Throw e => (Throw e, [])
  | Ok (elementCount, decommitments) =>
      let index := bitCount32 elementCount - 1 in
      let hash := get decommitments index in
      match rootLoop (Z.to_nat index) decommitments hash [index] with
      | (Ok h, reads) => (Ok (mkRoot h elementCount), reads)
      | (Throw e, reads) => (Throw e, reads)
      end
  end.

(** ** getNewRootSingle *)

Fixpoint newRootLoop (index : nat) (decommitments : list Buffer)
         (appendHash hash : option Buffer) (reads : list Z)
  : traced (option Buffer * option Buffer) :=
  match index with
  | O => (Ok (hash, appendHash), reads)
  | S index' =>
      let i := Z.of_nat index' in
      match callHash (get decommitments i) appendHash with
      | Throw e => (Throw e, reads ++ [i])
      | Ok a =>
          match callHash (get decommitments i) hash with
          | Throw e => (Throw e, reads ++ [i; i])
          | Ok h => newRootLoop index' decommitments (Some a) (Some h) (reads ++ [i; i])
          end
      end
  end.

Definition getNewRootSingle (appendLeaf : Buffer) (compactProof : list Buffer)
           (elementCount : Z) (decommitments : list Buffer) : traced newRootResult :=
  match unpack compactProof elementCount decommitments with
  | Throw e => (Throw e, [])
  | Ok (elementCount, decommitments) =>
      let index := bitCount32 elementCount - 1 in
      let hash := get decommitments index in
      match callHash (get decommitments index) (Some appendLeaf) with
      | Throw e => (Throw e, [index; index])
      | Ok appendHash =>
          match newRootLoop (Z.to_nat index) decommitments (Some appendHash) hash
                            [index; index] with
          | (Ok (h, a), reads) => (Ok (mkNewRoot h a elementCount), reads)
          | (Throw e, reads) => (Throw e, reads)
          end
      end
  end.

(** ** getNewRootMulti *)

(** One turn of [while (upperBound > 0)]. *)
Definition multiStep (decommitments : list Buffer) (s : multiState) (reads : list Z)
  : traced multiState :=
  let merged : traced multiState :=
    if (writeIndex s =? 0) && negb (band (index s) 1 =? 0) then
      match callHash (get decommitments (decommitmentIndex s))
                     (appendHashes s (readIndex s)) with
      | Throw e => (Throw e, reads ++ [decommitmentIndex s])
      | Ok a =>
          let appendHashes' := upd (appendHashes s) (writeIndex s) (Some a) in
          let decommitmentIndex' := decommitmentIndex s - 1 in
          if decommitmentIndex' >=? 0 then
            match callHash (get decommitments decommitmentIndex') (hash s) with
            | Throw e => (Throw e, reads ++ [decommitmentIndex s; decommitmentIndex'])
            | Ok h =>
                (Ok (mkMulti decommitmentIndex' (Some h) appendHashes' (upperBound s)
                             (writeIndex s + 1) (readIndex s + 1) (offset s)
                             (index s + 1)),
                 reads ++ [decommitmentIndex s; decommitmentIndex'])
            end
          else
            (Ok (mkMulti decommitmentIndex' (hash s) appendHashes' (upperBound s)
                         (writeIndex s + 1) (readIndex s + 1) (offset s) (index s + 1)),
             reads ++ [decommitmentIndex s])
      end
    else if index s <? upperBound s then
      match callHash (appendHashes s (readIndex s)) (appendHashes s (readIndex s + 1)) with
      | Throw e => (Throw e, reads)
      | Ok a =>
          (Ok (mkMulti (decommitmentIndex s) (hash s)
                       (upd (appendHashes s) (writeIndex s) (Some a)) (upperBound s)
                       (writeIndex s + 1) (readIndex s + 2) (offset s) (index s + 2)),
           reads)
      end
    else (Ok s, reads) in
  match merged with
  | (Throw e, reads') => (Throw e, reads')
  | (Ok s1, reads') =>
      if index s1 >=? upperBound s1 then
        let appendHashes' :=
          if index s1 =? upperBound s1
          then upd (appendHashes s1) (writeIndex s1) (appendHashes s1 (readIndex s1))
          else appendHashes s1 in
        (Ok (mkMulti (decommitmentIndex s1) (hash s1) appendHashes'
                     (ushr (upperBound s1) 1) 0 0 (ushr (offset s1) 1)
                     (ushr (offset s1) 1)),
         reads')
      else (Ok s1, reads')
  end.

(** [while (upperBound > 0)]: [None] when the turns run out. *)
Fixpoint multiLoop (fuel : nat) (decommitments : list Buffer) (s : multiState)
         (reads : list Z) : option (traced multiState) :=
  match fuel with
  | O => None
  | S fuel' =>
      if upperBound s >? 0 then
        match multiStep decommitments s reads with
        | (Ok s', reads') => multiLoop fuel' decommitments s' reads'
        | (Throw e, reads') => Some (Throw e, reads')
        end
      else Some (Ok s, reads)
  end.

(** [appendLeafs.map((leaf) => leaf)] as an array written by index. *)
Definition arrayOf (l : list Buffer) : Z -> option Buffer := get l.

Definition getNewRootMulti (fuel : nat) (appendLeafs : list Buffer)
           (compactProof : list Buffer) (elementCount : Z)
           (decommitments : list Buffer) : option (traced newRootResult) :=
  match unpack compactProof elementCount decommitments with
  | Throw e => Some (Throw e, [])
  | Ok (elementCount, decommitments) =>
      let decommitmentIndex := bitCount32 elementCount - 1 in
      let s := mkMulti decommitmentIndex (get decommitments decommitmentIndex)
                       (arrayOf appendLeafs)
                       (elementCount + Z.of_nat (length appendLeafs) - 1)
                       0 0 elementCount elementCount in
      match multiLoop fuel decommitments s [decommitmentIndex] with
      | None => None
      | Some (Throw e, reads) => Some (Throw e, reads)
      | Some (Ok s', reads) =>
          Some (Ok (mkNewRoot (hash s') (appendHashes s' 0) elementCount), reads)
      end
  end.

Definition getNewRoot (fuel : nat) (appendLeafs : appendArg) (compactProof : list Buffer)
           (elementCount : Z) (decommitments : list Buffer)
  : option (traced newRootResult) :=
  match appendLeafs with
  | Single appendLeaf =>
      Some (getNewRootSingle appendLeaf compactProof elementCount decommitments)
  | Multi appendLeafs =>
      getNewRootMulti fuel appendLeafs compactProof elementCount decommitments
  end.

End WithHash.

(** The variables of [appendMulti]. *)
Record appendState : Type := mkAppend {
  appendDecommitmentIndex : Z;
  appendedHashes : Z -> option Buffer;
  appendUpperBound : Z;
  appendWriteIndex : Z;
  appendReadIndex : Z;
  appendOffset : Z;
  appendIndex : Z
}.

Section Appending.

Variable keccak : Buffer -> Buffer -> Buffer.
Variable sortedHash : bool.

Let callHash := callHash keccak sortedHash.

(** ** appendSingle *)

(** [while (index > 0)], with [index] turns left. *)
Fixpoint appendSingleLoop (index : nat) (decommitments : list Buffer)
         (appendHash : Buffer) : result Buffer :=
  match index with
  | O => Ok appendHash
  | S index' =>
      let* a := callHash (get decommitments (Z.of_nat index')) (Some appendHash) in
      appendSingleLoop index' decommitments a
  end.

Definition appendSingle (appendLeaf : Buffer) (elementCount : Z)
           (decommitments : list Buffer) : result Buffer :=
  appendSingleLoop (Z.to_nat (bitCount32 elementCount)) decommitments appendLeaf.

(** ** appendMulti *)

(** One turn of [while (upperBound > 0)]. *)
Definition appendStep (decommitments : list Buffer) (s : appendState)
  : result appendState :=
  let* s1 :=
    (if (appendWriteIndex s =? 0) && negb (band (appendIndex s) 1 =? 0) then
       let* a := callHash (get decommitments (appendDecommitmentIndex s))
                          (appendedHashes s (appendReadIndex s)) in
       Ok (mkAppend (appendDecommitmentIndex s - 1)
                    (upd (appendedHashes s) (appendWriteIndex s) (Some a))
                    (appendUpperBound s) (appendWriteIndex s + 1)
                    (appendReadIndex s + 1) (appendOffset s) (appendIndex s + 1))
     else if appendIndex s <? appendUpperBound s then
       let* a := callHash (appendedHashes s (appendReadIndex s))
                          (appendedHashes s (appendReadIndex s + 1)) in
       Ok (mkAppend (appendDecommitmentIndex s)
                    (upd (appendedHashes s) (appendWriteIndex s) (Some a))
                    (appendUpperBound s) (appendWriteIndex s + 1)
                    (appendReadIndex s + 2) (appendOffset s) (appendIndex s + 2))
     else Ok s) in
  if appendIndex s1 >=? appendUpperBound s1 then
    let hashes' :=
      if appendIndex s1 =? appendUpperBound s1
      then upd (appendedHashes s1) (appendWriteIndex s1)
               (appendedHashes s1 (appendReadIndex s1))
      else appendedHashes s1 in
    Ok (mkAppend (appendDecommitmentIndex s1) hashes' (ushr (appendUpperBound s1) 1)
                 0 0 (ushr (appendOffset s1) 1) (ushr (appendOffset s1) 1))
  else Ok s1.

(** [while (upperBound > 0)]: [None] when the turns run out. *)
Fixpoint appendLoop (fuel : nat) (decommitments : list Buffer) (s : appendState)
  : option (result appendState) :=
  match fuel with
  | O => None
  | S fuel' =>
      if appendUpperBound s >? 0 then
        match appendStep decommitments s with
        | Ok s' => appendLoop fuel' decommitments s'
        | Throw e => Some (Throw e)
        end
      else Some (Ok s)
  end.

(** The result is [appendHashes[0]], which may be [undefined]. *)
Definition appendMulti (fuel : nat) (appendLeafs : list Buffer) (elementCount : Z)
           (decommitments : list Buffer) : option (result (option Buffer)) :=
  let s := mkAppend (bitCount32 elementCount - 1) (get appendLeafs)
                    (elementCount + Z.of_nat (length appendLeafs) - 1)
                    0 0 elementCount elementCount in
  match appendLoop fuel decommitments s with
  | None => None
  | Some (Throw e) => Some (Throw e)
  | Some (Ok s') => Some (Ok (appendedHashes s' 0))
  end.

End Appending.

End AppendProofs.

(* ================================================================= *)
(** * The on-chain verifier *)

Module Flag_Multi_Proofs.

(** A call returns or reverts (a failed bounds check or a remainder by
    zero). *)
Inductive outcome (A : Type) : Type :=
| Returned (a : A)
| Reverted.
Arguments Returned {A} a.
Arguments Reverted {A}.

(** [uint256] and [bytes32] values are integers below [2^256]. *)
Definition wrap (x : Z) : Z := x mod 2 ^ 256.

(** [b.length] of a [bytes32]. *)
Definition bytes32_length (b : Z) : Z := 32.

(** [a[i]] on a memory array. *)
Definition load (a : list Z) (i : Z) : outcome Z :=
  match get a i with
  | Some v => Returned v
  | None => Reverted
  end.

(** [a[i] = v] on a memory array. *)
Fixpoint storeAt (a : list Z) (i : nat) (v : Z) : option (list Z) :=
  match a, i with
  | [], _ => None
  | _ :: rest, O => Some (v :: rest)
  | x :: rest, S i' =>
      match storeAt rest i' v with
      | Some rest' => Some (x :: rest')
      | None => None
      end
  end.

Definition store (a : list Z) (i : Z) (v : Z) : outcome (list Z) :=
  if i <? 0 then Reverted
  else match storeAt a (Z.to_nat i) v with
       | Some a' => Returned a'
       | None => Reverted
       end.

(** [x %= m] *)
Definition modulo (x m : Z) : outcome Z :=
  if m =? 0 then Reverted else Returned (x mod m).

Record loopState : Type := mkLoop {
  hashes : list Z;
  hash_read_index : Z;
  hash_write_index : Z;
  decommitment_index : Z;
  bit_check : Z
}.

Section Contract.

Variable keccak : Z -> Z -> Z.
(** The stored root. *)
Variable root : Z.

Definition hash_node (left right : Z) : Z := keccak left right.

Definition hash_pair (a b : Z) : Z :=
  if a <? b then hash_node a b else hash_node b a.

(** The body of the second loop of [verify]. *)
Definition verifyStep (leaf_count flags skips : Z) (decommitments : list Z)
           (s : loopState) : outcome loopState :=
  if Z.land skips (bit_check s) =? bit_check s then
    match load (hashes s) (hash_read_index s) with
    | Reverted => Reverted
    | Returned v =>
    match store (hashes s) (hash_write_index s) v with
    | Reverted => Reverted
    | Returned hashes' =>
    match modulo (wrap (hash_read_index s + 1)) leaf_count with
    | Reverted => Reverted
    | Returned read =>
    match modulo (wrap (hash_write_index s + 1)) leaf_count with
    | Reverted => Reverted
    | Returned write =>
        Returned (mkLoop hashes' read write (decommitment_index s)
                         (wrap (Z.shiftl (bit_check s) 1)))
    end end end end
  else
    let flag := Z.land flags (bit_check s) =? bit_check s in
    match (if flag then load (hashes s) (hash_read_index s)
           else load decommitments (decommitment_index s)) with
    | Reverted => Reverted
    | Returned left_ =>
    match modulo (if flag then wrap (hash_read_index s + 1) else hash_read_index s)
                 leaf_count with
    | Reverted => Reverted
    | Returned read1 =>
    match load (hashes s) read1 with
    | Reverted => Reverted
    | Returned right_ =>
    match store (hashes s) (hash_write_index s) (hash_pair left_ right_) with
    | Reverted => Reverted
    | Returned hashes' =>
    match modulo (wrap (read1 + 1)) leaf_count with
    | Reverted => Reverted
    | Returned read =>
    match modulo (wrap (hash_write_index s + 1)) leaf_count with
    | Reverted => Reverted
    | Returned write =>
        Returned (mkLoop hashes' read write
                         (if flag then decommitment_index s
                          else wrap (decommitment_index s + 1))
                         (wrap (Z.shiftl (bit_check s) 1)))
    end end end end end end.

(** [for (uint256 i = 0; i < hash_count; i++)], with [n] turns left. *)
Fixpoint verifyLoop (n : nat) (leaf_count flags skips : Z) (decommitments : list Z)
         (s : loopState) : outcome loopState :=
  match n with
  | O => Returned s
  | S n' =>
      match verifyStep leaf_count flags skips decommitments s with
      | Returned s' => verifyLoop n' leaf_count flags skips decommitments s'
      | Reverted => Reverted
      end
  end.

Definition verify (element_count : Z) (elements : list Z) (hash_count : Z)
           (flags skips : Z) (decommitments : list Z) : outcome bool :=
  if negb (bytes32_length flags =? hash_count) && negb (bytes32_length skips =? hash_count)
  then Returned false
  else
    let leaf_count := Z.of_nat (length elements) in
    let hashes := map (fun element => hash_node 0 element) elements in
    match verifyLoop (Z.to_nat hash_count) leaf_count flags skips decommitments
                     (mkLoop hashes 0 0 0 1) with
    | Reverted => Reverted
    | Returned s =>
        match load (Flag_Multi_Proofs.hashes s)
                   (wrap ((if hash_write_index s =? 0 then leaf_count
                           else hash_write_index s) - 1)) with
        | Reverted => Reverted
        | Returned h => Returned (hash_node element_count h =? root)
        end
    end.

End Contract.

(** The memory of [update]: the two buffers and the cursors. *)
Record updateState : Type := mkUpdate {
  old_hashes : list Z;
  new_hashes : list Z;
  read_index : Z;
  write_index : Z;
  next_decommitment : Z;
  check : Z
}.

(** A step of a call after another one, unless that one reverted. *)
Definition andThen {A B} (r : outcome A) (k : A -> outcome B) : outcome B :=
  match r with
  | Returned a => k a
  | Reverted => Reverted
  end.

Notation "'let!' x ':=' r 'in' k" := (andThen r (fun x => k))
  (at level 10, x name, r at level 100, k at level 200).

Section Transactions.

Variable keccak : Z -> Z -> Z.
(** The stored root before the call. *)
Variable root : Z.

Let hash_node := hash_node keccak.
Let hash_pair := hash_pair keccak.

(** The body of the second loop of [update].  As in the source,
    [new_left] is read from [hashes], not from [new_hashes]. *)
Definition updateStep (leaf_count flags skips : Z) (decommitments : list Z)
           (s : updateState) : outcome updateState :=
  if Z.land skips (check s) =? check s then
    let! v := load (old_hashes s) (read_index s) in
    let! hashes' := store (old_hashes s) (write_index s) v in
    let! v' := load (new_hashes s) (read_index s) in
    let! new_hashes' := store (new_hashes s) (write_index s) v' in
    let! read := modulo (wrap (read_index s + 1)) leaf_count in
    let! write := modulo (wrap (write_index s + 1)) leaf_count in
    Returned (mkUpdate hashes' new_hashes' read write (next_decommitment s)
                       (wrap (Z.shiftl (check s) 1)))
  else
    let flag := Z.land flags (check s) =? check s in
    let! left_ := (if flag then load (old_hashes s) (read_index s)
                   else load decommitments (next_decommitment s)) in
    let! new_left := (if flag then load (old_hashes s) (read_index s)
                      else load decommitments (next_decommitment s)) in
    let! read1 := modulo (if flag then wrap (read_index s + 1) else read_index s)
                         leaf_count in
    let! right_ := load (old_hashes s) read1 in
    let! hashes' := store (old_hashes s) (write_index s) (hash_pair left_ right_) in
    let! new_right := load (new_hashes s) read1 in
    let! new_hashes' := store (new_hashes s) (write_index s)
                              (hash_pair new_left new_right) in
    let! read := modulo (wrap (read1 + 1)) leaf_count in
    let! write := modulo (wrap (write_index s + 1)) leaf_count in
    Returned (mkUpdate hashes' new_hashes' read write
                       (if flag then next_decommitment s
                        else wrap (next_decommitment s + 1))
                       (wrap (Z.shiftl (check s) 1))).

(** [for (uint256 i = 0; i < hash_count; i++)], with [n] turns left. *)
Fixpoint updateLoop (n : nat) (leaf_count flags skips : Z) (decommitments : list Z)
         (s : updateState) : outcome updateState :=
  match n with
  | O => Returned s
  | S n' =>
      andThen (updateStep leaf_count flags skips decommitments s)
              (updateLoop n' leaf_count flags skips decommitments)
  end.

(** [update]: the root it stores, unless the call reverts (a failed
    bounds check, a remainder by zero or the failed [require]).  The
    first loop reads [new_elements] at every index of [elements]. *)
Definition update (element_count : Z) (elements new_elements : list Z)
           (hash_count flags skips : Z) (decommitments : list Z) : outcome Z :=
  let leaf_count := Z.of_nat (length elements) in
  if (length new_elements <? length elements)%nat then Reverted
  else
    let hashes := map (fun element => hash_node 0 element) elements in
    let new_hashes :=
      map (fun element => hash_node 0 element)
          (firstn (length elements) new_elements) in
    let! s := updateLoop (Z.to_nat hash_count) leaf_count flags skips decommitments
                         (mkUpdate hashes new_hashes 0 0 0 1) in
    let read := wrap ((if write_index s =? 0 then leaf_count else write_index s) - 1) in
    let! h := load (old_hashes s) read in
    if hash_node element_count h =? root then
      let! h' := load (Flag_Multi_Proofs.new_hashes s) read in
      Returned (hash_node element_count h')
    else Reverted.

(** [data_used] after the loop over the elements. *)
Definition dataUsed (elements : list Z) : Z :=
  fold_left hash_node elements 0.

(** [use]: the data of the event it emits, unless the call reverts. *)
Definition use (element_count : Z) (elements : list Z) (hash_count flags skips : Z)
           (decommitments : list Z) : outcome Z :=
  let! valid := verify keccak root element_count elements hash_count flags skips
                       decommitments in
  if valid then Returned (dataUsed elements) else Reverted.

(** [new_elements] of [use_and_update]: the values [data_used] takes. *)
Fixpoint usedSoFar (data_used : Z) (elements : list Z) : list Z :=
  match elements with
  | [] => []
  | element :: rest =>
      let data_used' := hash_node data_used element in
      data_used' :: usedSoFar data_used' rest
  end.

(** [use_and_update]: the root it stores and the data of the event it
    emits, unless the call reverts. *)
Definition use_and_update (element_count : Z) (elements : list Z)
           (hash_count flags skips : Z) (decommitments : list Z) : outcome (Z * Z) :=
  let! root' := update element_count elements (usedSoFar 0 elements) hash_count flags
                       skips decommitments in
  Returned (root', dataUsed elements).

End Transactions.

End Flag_Multi_Proofs.

(* ================================================================= *)
(** * Definitions used by the statements *)

(** ** Levels of the tree *)

Module Subtrees.
Section S.
Variable keccak : Buffer -> Buffer -> Buffer.
Variable sortedHash : bool.
Variable elements : list Buffer.

(** The node of level [k] (leaves are level 0) at position [t]. *)
Fixpoint sub (k : nat) (t : Z) : option Buffer :=
  match k with
  | O => if (0 <=? t) && (t <? Z.of_nat (length elements))
         then Some (leafImage keccak (nth (Z.to_nat t) elements 0)) else None
  | S k' => parentOf keccak sortedHash (sub k' (2 * t)) (sub k' (2 * t + 1))
  end.

(** The number of levels below the root. *)
Definition depthOf : nat := Z.to_nat (Z.log2_up (Z.max (Z.of_nat (length elements)) 1)).
End S.
End Subtrees.
Import Subtrees.

(** ** The verifier as a queue automaton *)

Import MultiProofs.

Module Queue.
Section Q.
Variable keccak : Buffer -> Buffer -> Buffer.
Variable sortedHash : bool.
Local Abbreviation hashFunction := (hashFunction keccak sortedHash).

(** One turn of the automaton on a first-in first-out queue. *)
Definition qstep (flag skip order : bool) (q decs : list Buffer)
  : option (list Buffer * list Buffer) :=
  if skip then
    match q with
    | x :: q' => Some (q' ++ [x], decs)
    | [] => None
    end
  else if flag then
    match q with
    | r :: l :: q' => Some (q' ++ [if order then hashFunction l r else hashFunction r l], decs)
    | _ => None
    end
  else
    match q, decs with
    | l :: q', d :: decs' =>
        Some (q' ++ [if order then hashFunction l d else hashFunction d l], decs')
    | _, _ => None
    end.

Fixpoint qrun (flags skips orders : list bool) (q decs : list Buffer)
  : option (list Buffer * list Buffer) :=
  match flags with
  | [] => Some (q, decs)
  | f :: flags' =>
      match qstep f (hd false skips) (hd false orders) q decs with
      | Some (q', decs') => qrun flags' (tl skips) (tl orders) q' decs'
      | None => None
      end
  end.

(** The circular buffer [hs] with cursors [r] and [w] holds the queue [q]. *)
Definition repr (m : Z) (hs : array Buffer) (r w : Z) (q : list Buffer) : Prop :=
  0 <= r < m /\ Z.of_nat (length q) <= m /\
  w = (r + Z.of_nat (length q)) mod m /\
  forall k, (k < length q)%nat -> hs (Int ((r + Z.of_nat k) mod m)) = nth_error q k.

(** Number of turns that consume a decommitment. *)
Fixpoint consumed (flags skips : list bool) : Z :=
  match flags with
  | [] => 0
  | f :: flags' =>
      (if negb f && negb (hd false skips) then 1 else 0) + consumed flags' (tl skips)
  end.
End Q.
End Queue.
Import Queue.

(** ** The generator's invariant *)

Module Gen.
Section Values.
(** What a node stands for: its hash for the verifier, its leaves for
    index inference. *)
Context {V : Type}.
Variable Tv : Z -> option V.

(** The value of node [j] when it is known. *)
Definition kv (known : Z -> bool) (j : Z) : list V :=
  if known j then match Tv j with Some v => [v] | None => [] end else [].

Definition knownVals (known : Z -> bool) (lo : Z) (n : nat) : list V :=
  flat_map (kv known) (zseq lo n).

(** The queue of the verifier when the generator is about to visit node
    [n]: the known nodes among [n+1 .. 2n+1], highest first. *)
Definition queueAt (known : Z -> bool) (n : nat) : list V :=
  rev (knownVals known (Z.of_nat n + 1) (S n)).
End Values.

Section G.
Variable Tv : Z -> option Buffer.
Variable tree : list (option Buffer).
Variable L : Z.
Variable sortedHash : bool.

(** The state of the generator before node [n] is visited. *)
Definition Inv (n : nat) (s : genState) : Prop :=
  (forall j, known s j = true -> Z.of_nat n < j < 2 * L /\ Tv j <> None) /\
  (forall j, 1 <= j <= Z.of_nat n ->
             relevant s j = known s (2 * j) || known s (2 * j + 1)) /\
  (forall j, Z.of_nat n < j < 2 * L -> known s j = false -> getOpt tree j = Tv j).

Definition clearOut (s : genState) : genState :=
  mkGen (known s) (relevant s) [] [] [] [].

Definition appOut (s o : genState) : genState :=
  mkGen (known o) (relevant o)
        (genDecommitments s ++ genDecommitments o)
        (genFlags s ++ genFlags o) (genSkips s ++ genSkips o) (genOrders s ++ genOrders o).

(** No step carries both bits, and the two streams have one length. *)
Fixpoint noStop (flags skips : list bool) : Prop :=
  match flags, skips with
  | [], [] => True
  | f :: flags', s :: skips' => f && s = false /\ noStop flags' skips'
  | _, _ => False
  end.

(** The [orders] array as the verifier receives it. *)
Definition seen (ol : list bool) : list bool := if sortedHash then [] else ol.
End G.
End Gen.
Import Gen.

(** ** Index lists *)

Module Inputs.
(** [indices[i - 1] < indices[i]] for every [i]. *)
Fixpoint strictlyAscending (l : list Z) : bool :=
  match l with
  | x :: (y :: _) as rest => (x <? y) && strictlyAscending rest
  | _ => true
  end.

(** [indices[i - 1] <= indices[i]] for every [i]. *)
Fixpoint ascending (l : list Z) : bool :=
  match l with
  | x :: (y :: _) as rest => (x <=? y) && ascending rest
  | _ => true
  end.

(** Every index lies in [[0, N)]. *)
Definition inRange (N : Z) (l : list Z) : bool :=
  forallb (fun i => (0 <=? i) && (i <? N)) l.

Definition elementAt (elements : list Buffer) (i : Z) : Buffer :=
  nth (Z.to_nat i) elements 0.

(** The leaf images of the elements at the given indices, in the order
    of the indices. *)
Definition leafsAt (keccak : Buffer -> Buffer -> Buffer)
           (elements : list Buffer) (indices : list Z) : list Buffer :=
  map (fun i => leafImage keccak (elementAt elements i)) indices.

(** The marks left by the first loop of the generator. *)
Definition knownLeaf (L : Z) (indices : list Z) (j : Z) : bool :=
  existsb (fun index => L + index =? j) indices.

Definition relevantParent (L : Z) (indices : list Z) (j : Z) : bool :=
  existsb (fun index => ushr (L + index) 1 =? j) indices.
End Inputs.
Import Inputs.

(** ** Updated element lists *)

Module Updates.
(** The new element for position [t], if [t] is one of the indices. *)
Fixpoint replacement (t : Z) (indices : list Z) (newElements : list Buffer) : option Buffer :=
  match indices, newElements with
  | i :: indices', e :: newElements' =>
      if i =? t then Some e else replacement t indices' newElements'
  | _, _ => None
  end.

(** The elements with the positions [indices] replaced by [newElements]. *)
Definition updateElements (elements : list Buffer) (indices : list Z)
           (newElements : list Buffer) : list Buffer :=
  map (fun t => match replacement t indices newElements with
                | Some e => e
                | None => elementAt elements t
                end)
      (zseq 0 (length elements)).
End Updates.
Import Updates.

(** ** Bit streams *)

Module Streams.
(** A bit stream with its stop bit. *)
Definition withStop (l : list bool) : Z :=
  Z.lor (toBigIntBoolSet l) (Z.shiftl 1 (Z.of_nat (length l))).

(** The [orders] word as [getRootBits] reads it, and the array it
    stands for. *)
Definition ordersWord (orders : option (list bool)) : option Z :=
  match orders with
  | Some o => Some (bufferToBigInt (to32ByteBoolBuffer o))
  | None => None
  end.
End Streams.
Import Streams.

(** ** Read traces *)

Module Reads.
(** [n - 1, n - 2, ..., 0] *)
Fixpoint countdown (n : nat) : list Z :=
  match n with
  | O => []
  | S n' => Z.of_nat n' :: countdown n'
  end.

(** [n - 1, n - 1, n - 2, n - 2, ..., 0, 0] *)
Fixpoint countdownTwice (n : nat) : list Z :=
  match n with
  | O => []
  | S n' => Z.of_nat n' :: Z.of_nat n' :: countdownTwice n'
  end.
End Reads.
Import Reads.

(** ** The frontier of an append *)

Import AppendProofs.

Module Frontier.
Section F.
Variable keccak : Buffer -> Buffer -> Buffer.
Variable sortedHash : bool.
Variable elements : list Buffer.

(** The roots of the perfect subtrees on the left of the frontier, lowest
    level first: level [k] contributes the node on the left of position
    [n] when [n], the element count shifted right [k] times, is odd. *)
Fixpoint frontier (bits : nat) (k : nat) (n : Z) : list Buffer :=
  match bits with
  | O => []
  | S bits' =>
      (if Z.odd n
       then match Subtrees.sub keccak sortedHash elements k (n - 1) with
            | Some v => [v]
            | None => []
            end
       else [])
        ++ frontier bits' (S k) (n / 2)
  end.

(** The fold of the verifier: each decommitment goes on the left. *)
Fixpoint foldUp (acc : Buffer) (F : list Buffer) : Buffer :=
  match F with
  | [] => acc
  | f :: F' => foldUp (hashFunction keccak sortedHash f acc) F'
  end.

(** One step of the old-root fold: the first decommitment starts it. *)
Definition foldStep (acc : option Buffer) (f : Buffer) : Buffer :=
  match acc with
  | None => f
  | Some a => hashFunction keccak sortedHash f a
  end.

(** The root folded from [acc] through the decommitments [F], lowest
    level first. *)
Definition rootFrom (acc : option Buffer) (F : list Buffer) : option Buffer :=
  fold_left (fun a f => Some (foldStep a f)) F acc.
End F.
End Frontier.
Import Frontier.

(** ** Levels of a multi-append *)

Module Levels.
Section Defs.
Variable keccak : Buffer -> Buffer -> Buffer.
Variable sortedHash : bool.
Variables E A : list Buffer.
Variable decs : list Buffer.

(** [offset] and [upperBound] at level [k]: the element count and the last
    position after the append, shifted right [k] times. *)
Definition offsetAt (k : nat) : Z := Z.of_nat (length E) / 2 ^ Z.of_nat k.
Definition boundAt (k : nat) : Z :=
  (Z.of_nat (length E) + Z.of_nat (length A) - 1) / 2 ^ Z.of_nat k.

Definition oldRootOf : option Buffer :=
  rootFrom keccak sortedHash None (frontier keccak sortedHash E 32 0 (Z.of_nat (length E))).

(** The decommitments not yet merged: those of level [k] and above while
    the merge of level [k] is pending ([index] odd), those above level [k]
    afterwards. *)
Definition remaining (k : nat) (s : multiState) : list Buffer :=
  if Z.odd (index s)
  then frontier keccak sortedHash E 32 k (offsetAt k)
  else frontier keccak sortedHash E 32 (S k) (offsetAt (S k)).

(** [hash] has absorbed the decommitments already merged and the next one. *)
Definition hashInv (hash : option Buffer) (Frem : list Buffer) : Prop :=
  match Frem with
  | [] => hash = oldRootOf
  | _ :: rest =>
      exists h, hash = Some h /\ rootFrom keccak sortedHash (Some h) rest = oldRootOf
  end.

(** The state of [getNewRootMulti] at the top of the loop, while it works
    on level [k]. *)
Record Good (k : nat) (s : multiState) : Prop := mkGood {
  g_offset : offset s = offsetAt k;
  g_bound : upperBound s = boundAt k;
  g_index : offsetAt k <= index s <= boundAt k;
  g_read : readIndex s = index s - offsetAt k;
  g_write : 0 <= writeIndex s /\
            if Z.odd (index s)
            then index s = offsetAt k /\ writeIndex s = 0
            else 2 * (offsetAt (S k) + writeIndex s) = index s;
  g_out : forall t, 0 <= t < writeIndex s ->
            appendHashes s t = sub keccak sortedHash (E ++ A) (S k) (offsetAt (S k) + t);
  g_in : forall t, readIndex s <= t <= boundAt k - offsetAt k ->
            appendHashes s t = sub keccak sortedHash (E ++ A) k (offsetAt k + t);
  g_decs : exists consumed, decs = rev (remaining k s) ++ consumed;
  g_next : decommitmentIndex s = Z.of_nat (length (remaining k s)) - 1;
  g_hash : hashInv (hash s) (remaining k s)
}.

(** A bound on the turns of the loop still to come. *)
Definition turnsLeft (s : multiState) : Z := 3 * upperBound s - (index s - offset s).
End Defs.
End Levels.
Import Levels.

(** ** Index inference as a queue of leaf groups *)

Import MultiProofs.

Module Inference.
(** A leaf of a multi-proof during index inference: its position in the
    index list, the bits of its index found so far and their number. *)
Record leaf : Type := mkLeaf {
  position : Z;
  found : Z;
  pushed : Z
}.

(** The leaves below one node, highest position first. *)
Definition group : Type := list leaf.

(** One more bit of a leaf, as [indices[j] |= 1 << bitsPushed[j]] and
    [bitsPushed[j]++] leave it. *)
Definition pushLeaf (bit : bool) (l : leaf) : leaf :=
  mkLeaf (position l)
         (if bit then bor (found l) (shl 1 (pushed l)) else found l)
         (pushed l + 1).

Definition push (bit : bool) (g : group) : group := map (pushLeaf bit) g.

(** [hi, hi - 1, ...], [n] positions. *)
Fixpoint down (hi : Z) (n : nat) : list Z :=
  match n with
  | O => []
  | S n' => hi :: down (hi - 1) n'
  end.

(** The positions of a group descend one by one. *)
Definition consecutive (g : group) : Prop :=
  map position g = down (position (hd (mkLeaf 0 0 0) g)) (length g).

(** The last leaf of [r] is next to the first leaf of [l]. *)
Definition adjacent (r l : group) : bool :=
  match rev r, l with
  | x :: _, y :: _ => position x =? position y + 1
  | _, _ => false
  end.

(** One step on the queue of groups: a skipped or a single node moves to
    the back with one more bit, two nodes merge. *)
Definition gstep (flag skip order : bool) (Q : list group) : option (list group) :=
  if skip then
    match Q with
    | g :: Q' => Some (Q' ++ [push false g])
    | [] => None
    end
  else if flag then
    match Q with
    | r :: l :: Q' =>
        if adjacent r l then Some (Q' ++ [push order r ++ push (negb order) l]) else None
    | _ => None
    end
  else
    match Q with
    | l :: Q' => Some (Q' ++ [push (negb order) l])
    | [] => None
    end.

Fixpoint grun (flags skips orders : list bool) (Q : list group) : option (list group) :=
  match flags with
  | [] => Some Q
  | f :: flags' =>
      match gstep f (hd false skips) (hd false orders) Q with
      | Some Q' => grun flags' (tl skips) (tl orders) Q'
      | None => None
      end
  end.

(** A leaf of the proof, before any bit of its index is known. *)
Definition fresh (p : Z) : group := [mkLeaf p 0 0].

(** The arrays hold the leaf. *)
Definition holds (s : indexState) (l : leaf) : Prop :=
  indices s (position l) = found l /\ bitsPushed s (position l) = Int (pushed l).

(** Every leaf of the group but the last is marked as grouped with the
    next one; the last one is not, unless it is leaf 0. *)
Fixpoint linked (s : indexState) (g : group) : Prop :=
  match g with
  | [] => True
  | l :: rest =>
      match rest with
      | [] => position l = 0 \/ groupedWithNext s (position l) = false
      | _ :: _ => groupedWithNext s (position l) = true /\ linked s rest
      end
  end.

Definition sound (s : indexState) (g : group) : Prop :=
  g <> [] /\ consecutive g /\ linked s g /\
  Forall (fun l => 0 <= position l /\ holds s l) g.

(** The arrays and the cursor hold the queue [Q]: from the cursor down
    to leaf 0, then from the last leaf down to the cursor. *)
Definition irepr (m : Z) (s : indexState) (Q : list group) : Prop :=
  0 <= leafIndex s < m /\
  map position (concat Q)
    = down (leafIndex s) (Z.to_nat (leafIndex s + 1))
      ++ down (m - 1) (Z.to_nat (m - 1 - leafIndex s)) /\
  Forall (sound s) Q.

(** The number of indices below [x]: in an ascending list, the position
    of the first index that is not below [x]. *)
Definition below (indices : list Z) (x : Z) : Z :=
  Z.of_nat (length (filter (fun i => i <? x) indices)).

(** The height of node [i] above the leaves, in a tree of [2^depth] leaf
    slots, and the first of the elements below it. *)
Definition heightOf (depth i : Z) : Z := depth - Z.log2 i.
Definition firstOf (depth i : Z) : Z := i * 2 ^ heightOf depth i - 2 ^ depth.

(** The leaves of the proof below node [i], highest position first,
    each with the bits of its index that the path up to [i] gives. *)
Definition leavesOf (depth : Z) (indices : list Z) (i : Z) : group :=
  let k := heightOf depth i in
  let lo := firstOf depth i in
  map (fun j => mkLeaf j (nth (Z.to_nat j) indices 0 - lo) k)
      (down (below indices (lo + 2 ^ k) - 1)
            (Z.to_nat (below indices (lo + 2 ^ k) - below indices lo))).

Definition groupOf (depth : Z) (indices : list Z) (i : Z) : option group :=
  Some (leavesOf depth indices i).

(** A node is known to the generator when a leaf of the proof lies
    below it. *)
Definition knownBelow (depth L : Z) (indices : list Z) (n : nat) (s : genState) : Prop :=
  forall j, Z.of_nat n < j < 2 * L ->
    known s j = (below indices (firstOf depth j)
                 <? below indices (firstOf depth j + 2 ^ heightOf depth j)).
End Inference.
Import Inference.

(** ** Sample inputs *)

Module Examples.
(** A small two-argument function in place of the hash, to run the
    definitions on concrete trees. *)
Definition toy (a b : Buffer) : Buffer := (a * 31 + b * 17 + 5) mod 1000003.

Definition sample : list Buffer := [11; 22; 33; 44; 55].

(** [n] distinct elements. *)
Definition many (n : nat) : list Buffer := map (fun k => 1000 + Z.of_nat k) (seq 0 n).

(** The boolean-array proof of the positions 1 and 3 of [sample]. *)
Definition sampleProof : MultiProofs.proof :=
  match MultiProofs.generate false false (buildTree toy false sample) 5 [1; 3] with
  | Ok p => p
  | Throw _ => MultiProofs.mkProof [] 0 [] [] [] None
  end.
End Examples.
Import Examples.

(** A hypothesis on concrete data is settled by evaluation. *)
Ltac evaluate :=
  first [ reflexivity | discriminate | lia
        | vm_compute; first [ reflexivity | discriminate | intro; discriminate | lia ] ].

(** ** Appending without the old root *)

Import AppendProofs.

Module Appends.
(** The variables [appendMulti] shares with [getNewRootMulti]. *)
Definition forget (s : multiState) : appendState :=
  mkAppend (decommitmentIndex s) (appendHashes s) (upperBound s) (writeIndex s)
           (readIndex s) (offset s) (index s).
End Appends.
Import Appends.

(** ** Appending to the empty tree *)

Module FreshTree.
Section Defs.
Variable keccak : Buffer -> Buffer -> Buffer.
Variable sortedHash : bool.
Variable A : list Buffer.

(** The state of [appendMulti] on the empty tree at the top of the
    loop, while it works on level [k]: the nodes of the next level
    written so far, and the nodes of this level not yet read. *)
Record Fresh (k : nat) (s : appendState) : Prop := mkFresh {
  f_offset : appendOffset s = 0;
  f_bound : appendUpperBound s = Levels.boundAt [] A k;
  f_write : 0 <= appendWriteIndex s;
  f_index : appendIndex s = 2 * appendWriteIndex s;
  f_read : appendReadIndex s = appendIndex s;
  f_left : appendIndex s <= Levels.boundAt [] A k /\
           (0 < Levels.boundAt [] A k -> appendIndex s < Levels.boundAt [] A k);
  f_out : forall t, 0 <= t < appendWriteIndex s ->
            appendedHashes s t = Subtrees.sub keccak sortedHash A (S k) t;
  f_in : forall t, appendReadIndex s <= t <= Levels.boundAt [] A k ->
            appendedHashes s t = Subtrees.sub keccak sortedHash A k t
}.
End Defs.
End FreshTree.
Import FreshTree.

(** ** The roots of a compact update *)

Import MultiProofs.

Module CompactUpdates.
Section C.
Variable keccak : Buffer -> Buffer -> Buffer.
Variable sortedHash : bool.

(** What [getNewRootBits] returns at the stop bit. *)
Definition rootsOf (m N : Z) (s : newRootState) : result newRootResult :=
  let rootIndex := rootIndexOf m (newWriteIndex s) in
  let* r := bufferFrom (oldHashes s rootIndex) in
  let* r' := bufferFrom (updateHashes s rootIndex) in
  Ok (mkNewRoot (Some r) (Some r') N).
End C.
End CompactUpdates.
Import CompactUpdates.

(** ** The on-chain update as a queue of pairs *)

Module OnChain.
Section U.
Variable keccak : Z -> Z -> Z.
Local Abbreviation hash_pair := (Flag_Multi_Proofs.hash_pair keccak).

(** One turn of [update] on a first-in first-out queue of pairs, the
    hash of the old tree and the hash [update] computes for the new
    one: in a step on two nodes of the queue the first operand is the
    old hash for both. *)
Definition ustep (flag skip : bool) (q : list (Z * Z)) (decs : list Z)
  : option (list (Z * Z) * list Z) :=
  if skip then
    match q with
    | x :: q' => Some (q' ++ [x], decs)
    | [] => None
    end
  else if flag then
    match q with
    | (a, _) :: (b, b') :: q' => Some (q' ++ [(hash_pair a b, hash_pair a b')], decs)
    | _ => None
    end
  else
    match q, decs with
    | (b, b') :: q', d :: decs' => Some (q' ++ [(hash_pair d b, hash_pair d b')], decs')
    | _, _ => None
    end.

Fixpoint urun (flags skips : list bool) (q : list (Z * Z)) (decs : list Z)
  : option (list (Z * Z) * list Z) :=
  match flags with
  | [] => Some (q, decs)
  | f :: flags' =>
      match ustep f (hd false skips) q decs with
      | Some (q', decs') => urun flags' (tl skips) q' decs'
      | None => None
      end
  end.
End U.

(** Node [j] lies on the path from the leaf of the element [x] to the
    root, in a tree of [2^depth] leaf slots. *)
Definition onPath (depth x j : Z) : Prop :=
  Inference.firstOf depth j <= x
  < Inference.firstOf depth j + 2 ^ Inference.heightOf depth j.

(** A pair of the queue stands for node [j]: its first component is
    the node of the old tree, and on the path of [x] its second
    component is the node of the tree [T1]. *)
Definition standsFor (T T1 : Z -> option Z) (depth x : Z) (j : Z) (p : Z * Z) : Prop :=
  T j = Some (fst p) /\ (onPath depth x j -> T1 j = Some (snd p)).
End OnChain.
Import OnChain.

(* ================================================================= *)
(** * Arithmetic, arrays and the tree builder *)

(** ** Facts on the 32-bit operators *)

Lemma ushr_1 x : 0 <= x < 2 ^ 32 -> ushr x 1 = x / 2.
Proof.
  intros H. unfold ushr, toUint32. rewrite Z.mod_small by lia.
  change (Z.land 1 31) with 1. now rewrite Z.shiftr_div_pow2 by lia.
Qed.

Lemma toInt32_small x : - 2 ^ 31 <= x < 2 ^ 31 -> toInt32 x = x.
Proof. intros H. unfold toInt32. rewrite Z.mod_small; lia. Qed.

Lemma shl_1 x : 0 <= x < 2 ^ 30 -> shl x 1 = 2 * x.
Proof.
  intros H. unfold shl. change (Z.land 1 31) with 1.
  rewrite (toInt32_small x) by lia.
  rewrite Z.shiftl_mul_pow2 by lia. rewrite toInt32_small; lia.
Qed.

(** ** Facts on arrays *)

Lemma zseq_S lo n : zseq lo (S n) = lo :: zseq (lo + 1) n.
Proof.
  unfold zseq. simpl. rewrite Z.add_0_r. f_equal.
  rewrite <- seq_shift, map_map. apply map_ext. intros; lia.
Qed.

Lemma zseq_app lo n m : zseq lo (n + m) = zseq lo n ++ zseq (lo + Z.of_nat n) m.
Proof.
  revert lo. induction n; intros lo.
  - simpl. now rewrite Z.add_0_r.
  - change (S n + m)%nat with (S (n + m)). rewrite !zseq_S, IHn. simpl.
    do 3 f_equal. lia.
Qed.

Lemma zseq_length lo n : length (zseq lo n) = n.
Proof. unfold zseq. now rewrite length_map, length_seq. Qed.

Lemma zseq_nth_error lo n k : (k < n)%nat -> nth_error (zseq lo n) k = Some (lo + Z.of_nat k).
Proof.
  intros H. unfold zseq. rewrite nth_error_map, nth_error_seq.
  destruct (Nat.ltb_spec k n); [reflexivity | lia].
Qed.

Lemma in_zseq lo n j : In j (zseq lo n) <-> lo <= j < lo + Z.of_nat n.
Proof.
  unfold zseq. rewrite in_map_iff. split.
  - intros (k & <- & Hk). apply in_seq in Hk. lia.
  - intros H. exists (Z.to_nat (j - lo)). split; [lia | apply in_seq; lia].
Qed.

Lemma get_map_zseq {A} (f : Z -> A) n j :
  0 <= j < Z.of_nat n -> get (map f (zseq 0 n)) j = Some (f j).
Proof.
  intros H. unfold get. destruct (Z.ltb_spec j 0); [lia |].
  rewrite nth_error_map, zseq_nth_error by lia. simpl. f_equal. f_equal. lia.
Qed.

Lemma get_out {A} (l : list A) j : Z.of_nat (length l) <= j -> get l j = None.
Proof.
  intros H. unfold get. destruct (Z.ltb_spec j 0); [reflexivity |].
  apply nth_error_None. lia.
Qed.

Lemma upd_eq {A} (a : Z -> A) k v : upd a k v k = v.
Proof. unfold upd. now rewrite Z.eqb_refl. Qed.

Lemma upd_neq {A} (a : Z -> A) k v j : k <> j -> upd a k v j = a j.
Proof. intros H. unfold upd. destruct (Z.eqb_spec k j); [contradiction | reflexivity]. Qed.

Lemma defined_app {A} (l l' : list (option A)) : defined (l ++ l') = defined l ++ defined l'.
Proof.
  induction l as [| [v |] l IH]; simpl; [reflexivity | now rewrite IH | exact IH].
Qed.

(** ** The built tree *)

Section Tree.

Variable keccak : Buffer -> Buffer -> Buffer.
Variable sortedHash : bool.

Local Abbreviation nodesOf := (nodesOf keccak sortedHash).
Local Abbreviation buildTree := (buildTree keccak sortedHash).
Local Abbreviation parentOf := (parentOf keccak sortedHash).
Local Abbreviation leafImage := (leafImage keccak).
Local Abbreviation fillLeaves := (fillLeaves keccak).
Local Abbreviation fillNodes := (fillNodes keccak sortedHash).

Lemma fillLeaves_other L i els node j :
  j < L + i \/ L + i + Z.of_nat (length els) <= j ->
  fillLeaves L i els node j = node j.
Proof.
  revert i node. induction els as [| e els IH]; intros i node H; simpl; [reflexivity |].
  rewrite IH by (simpl length in H; lia).
  apply upd_neq. simpl length in H. lia.
Qed.

Lemma fillLeaves_leaf L i els node k :
  (k < length els)%nat ->
  fillLeaves L i els node (L + i + Z.of_nat k) = Some (leafImage (nth k els 0)).
Proof.
  revert i node k. induction els as [| e els IH]; intros i node k H; simpl in *; [lia |].
  destruct k as [| k].
  - rewrite fillLeaves_other by lia. rewrite Z.add_0_r. apply upd_eq.
  - replace (L + i + Z.of_nat (S k)) with (L + (i + 1) + Z.of_nat k) by lia.
    apply IH. lia.
Qed.

Lemma fillNodes_above n node j : Z.of_nat n < j -> fillNodes n node j = node j.
Proof.
  revert node. induction n as [| n IH]; intros node H; [reflexivity |].
  cbn [Common.fillNodes]. rewrite IH by lia. apply upd_neq. lia.
Qed.

Lemma fillNodes_below n node j : j <= 0 -> fillNodes n node j = node j.
Proof.
  revert node. induction n as [| n IH]; intros node H; [reflexivity |].
  cbn [Common.fillNodes]. rewrite IH by lia. apply upd_neq. lia.
Qed.

Lemma fillNodes_node n node i :
  1 <= i <= Z.of_nat n ->
  fillNodes n node i =
  parentOf (fillNodes n node (2 * i)) (fillNodes n node (2 * i + 1)).
Proof.
  revert node. induction n as [| n IH]; intros node H; [lia |].
  cbn [Common.fillNodes].
  destruct (Z.eq_dec i (Z.of_nat (S n))) as [-> | Hne].
  - set (node' := upd node _ _).
    rewrite (fillNodes_above n node' (Z.of_nat (S n))) by lia.
    rewrite (fillNodes_above n node' (2 * Z.of_nat (S n))) by lia.
    rewrite (fillNodes_above n node' (2 * Z.of_nat (S n) + 1)) by lia.
    subst node'. rewrite upd_eq, !upd_neq by lia. reflexivity.
  - apply IH. lia.
Qed.

Lemma leafCountOf_pos N : 1 <= leafCountOf N.
Proof.
  unfold leafCountOf. pose proof (Z.log2_up_nonneg (Z.max N 1)).
  pose proof (Z.pow_pos_nonneg 2 (Z.log2_up (Z.max N 1))). lia.
Qed.

Lemma leafCountOf_ge N : N <= leafCountOf N.
Proof.
  unfold leafCountOf.
  destruct (Z.le_gt_cases N 1) as [H | H].
  - pose proof (leafCountOf_pos N). unfold leafCountOf in *. lia.
  - rewrite Z.max_l by lia. apply Z.log2_up_spec in H. lia.
Qed.

Lemma leafCountOf_bound N k : 0 <= k -> N <= 2 ^ k -> leafCountOf N <= 2 ^ k.
Proof.
  intros Hk H. unfold leafCountOf.
  apply Z.pow_le_mono_r; [lia |].
  destruct (Z.le_gt_cases N 1) as [H1 | H1].
  - rewrite Z.max_r by lia. change (Z.log2_up 1) with 0. lia.
  - rewrite Z.max_l by lia. 
    apply Z.log2_up_le_pow2; lia.
Qed.

Section Built.

Variable elements : list Buffer.
Let N := Z.of_nat (length elements).
Let L := leafCountOf N.
Local Abbreviation sub := (Subtrees.sub keccak sortedHash elements).
Local Abbreviation depthOf := (Subtrees.depthOf elements).

Lemma nodesOf_leaf k :
  (k < length elements)%nat ->
  nodesOf elements (L + Z.of_nat k) = Some (leafImage (nth k elements 0)).
Proof.
  intros H. unfold Common.nodesOf. fold N. fold L.
  pose proof (leafCountOf_pos N). fold L in H0.
  rewrite fillNodes_above by lia.
  replace (L + Z.of_nat k) with (L + 0 + Z.of_nat k) by lia.
  now apply fillLeaves_leaf.
Qed.

Lemma nodesOf_absent j : L + N <= j -> nodesOf elements j = None.
Proof.
  intros H. unfold Common.nodesOf. fold N. fold L.
  pose proof (leafCountOf_pos N). fold L in H0.
  rewrite fillNodes_above by lia.
  rewrite fillLeaves_other by (fold N; lia). reflexivity.
Qed.

Lemma nodesOf_zero j : j <= 0 -> nodesOf elements j = None.
Proof.
  intros H. unfold Common.nodesOf. fold N. fold L.
  pose proof (leafCountOf_pos N). fold L in H0.
  rewrite fillNodes_below by lia.
  rewrite fillLeaves_other by (fold N; lia). reflexivity.
Qed.

Lemma nodesOf_node i :
  1 <= i < L ->
  nodesOf elements i = parentOf (nodesOf elements (2 * i)) (nodesOf elements (2 * i + 1)).
Proof.
  intros H. unfold Common.nodesOf. fold N. fold L.
  apply fillNodes_node. lia.
Qed.

Lemma buildTree_length : Z.of_nat (length (buildTree elements)) = 2 * L.
Proof.
  unfold Common.buildTree. fold N. fold L. rewrite length_map, zseq_length.
  pose proof (leafCountOf_pos N). fold L in H. lia.
Qed.

Lemma buildTree_get j : getOpt (buildTree elements) j = nodesOf elements j.
Proof.
  unfold getOpt.
  destruct (Z.lt_ge_cases j 0) as [Hneg | Hpos].
  - unfold get. destruct (Z.ltb_spec j 0); [| lia]. now rewrite nodesOf_zero by lia.
  - destruct (Z.lt_ge_cases j (2 * L)) as [Hin | Hout].
    + unfold Common.buildTree. fold N. fold L. now rewrite get_map_zseq by lia.
    + rewrite get_out by (rewrite buildTree_length; lia).
      pose proof (leafCountOf_ge N). fold L in H.
      now rewrite nodesOf_absent by lia.
Qed.

Lemma parentOf_defined l r : parentOf l r <> None <-> l <> None.
Proof. destruct l, r; simpl; split; congruence. Qed.

Lemma sub_defined k t : 0 <= t -> sub k t <> None <-> t * 2 ^ Z.of_nat k < N.
Proof.
  revert t. induction k as [| k IH]; intros t Ht.
  - cbn [Subtrees.sub]. fold N. rewrite Z.mul_1_r.
    destruct (Z.leb_spec 0 t), (Z.ltb_spec t N); simpl; split; intros; try congruence; lia.
  - cbn [Subtrees.sub]. rewrite parentOf_defined, IH by lia.
    rewrite Nat2Z.inj_succ, Z.pow_succ_r by lia. split; intros; lia.
Qed.

Lemma L_pow : L = 2 ^ Z.of_nat depthOf.
Proof.
  unfold L, leafCountOf, Subtrees.depthOf. fold N. rewrite Z2Nat.id; [reflexivity |].
  apply Z.log2_up_nonneg.
Qed.

Lemma nodesOf_sub k t :
  (k <= depthOf)%nat -> 0 <= t < 2 ^ Z.of_nat (depthOf - k) ->
  nodesOf elements (2 ^ Z.of_nat (depthOf - k) + t) = sub k t.
Proof.
  revert t. induction k as [| k IH]; intros t Hk Ht.
  - rewrite Nat.sub_0_r in *. rewrite <- L_pow in *. cbn [Subtrees.sub]. fold N.
    destruct (Z.leb_spec 0 t); [| lia]. cbn [andb].
    destruct (Z.ltb_spec t N).
    + replace t with (Z.of_nat (Z.to_nat t)) at 1 by lia.
      apply nodesOf_leaf. lia.
    + apply nodesOf_absent. lia.
  - cbn [Subtrees.sub].
    assert (Hp : 2 ^ Z.of_nat (depthOf - k) = 2 * 2 ^ Z.of_nat (depthOf - S k)).
    { replace (depthOf - k)%nat with (S (depthOf - S k)) by lia.
      rewrite Nat2Z.inj_succ, Z.pow_succ_r by lia. reflexivity. }
    assert (Hpos : 0 < 2 ^ Z.of_nat (depthOf - S k)) by (apply Z.pow_pos_nonneg; lia).
    assert (HL : 2 ^ Z.of_nat (depthOf - k) <= L).
    { rewrite L_pow. apply Z.pow_le_mono_r; lia. }
    rewrite nodesOf_node by lia.
    rewrite <- (IH (2 * t)) by lia. rewrite <- (IH (2 * t + 1)) by lia.
    rewrite Hp. f_equal; f_equal; lia.
Qed.

Lemma level_decompose d i :
  1 <= i < 2 ^ Z.of_nat d ->
  exists k t, (k < d)%nat /\ 0 <= t < 2 ^ Z.of_nat (d - 1 - k) /\
              i = 2 ^ Z.of_nat (d - 1 - k) + t.
Proof.
  induction d as [| d IH]; intros H.
  - simpl in H. lia.
  - rewrite Nat2Z.inj_succ, Z.pow_succ_r in H by lia.
    destruct (Z.lt_ge_cases i (2 ^ Z.of_nat d)) as [Hlt | Hge].
    + destruct IH as (k & t & Hk & Ht & Hi); [lia |].
      exists (S k), t. replace (S d - 1 - S k)%nat with (d - 1 - k)%nat by lia.
      repeat split; try lia.
    + exists O, (i - 2 ^ Z.of_nat d).
      replace (S d - 1 - 0)%nat with d by lia. repeat split; lia.
Qed.

Lemma nodesOf_sibling i :
  1 <= i < L -> nodesOf elements (2 * i + 1) <> None -> nodesOf elements (2 * i) <> None.
Proof.
  intros Hi. rewrite L_pow in Hi.
  destruct (level_decompose _ _ Hi) as (k & t & Hk & Ht & ->).
  assert (Hp : 2 ^ Z.of_nat (depthOf - k) = 2 * 2 ^ Z.of_nat (depthOf - 1 - k)).
  { replace (depthOf - k)%nat with (S (depthOf - 1 - k)) by lia.
    rewrite Nat2Z.inj_succ, Z.pow_succ_r by lia. reflexivity. }
  replace (2 * (2 ^ Z.of_nat (depthOf - 1 - k) + t) + 1)
    with (2 ^ Z.of_nat (depthOf - k) + (2 * t + 1)) by lia.
  replace (2 * (2 ^ Z.of_nat (depthOf - 1 - k) + t))
    with (2 ^ Z.of_nat (depthOf - k) + 2 * t) by lia.
  rewrite !nodesOf_sub by lia.
  rewrite !sub_defined by lia.
  assert (0 < 2 ^ Z.of_nat k) by (apply Z.pow_pos_nonneg; lia). nia.
Qed.

Lemma nodesOf_root : nodesOf elements 1 = sub depthOf 0.
Proof.
  rewrite <- nodesOf_sub by (rewrite ?Nat.sub_diag; simpl; lia).
  rewrite Nat.sub_diag. reflexivity.
Qed.

Lemma nodesOf_level j :
  1 <= j < 2 * L ->
  exists k t, (k <= depthOf)%nat /\ 0 <= t < 2 ^ Z.of_nat (depthOf - k) /\
              j = 2 ^ Z.of_nat (depthOf - k) + t /\ nodesOf elements j = sub k t.
Proof.
  intros Hj. rewrite L_pow in Hj.
  assert (Hj' : 1 <= j < 2 ^ Z.of_nat (S depthOf)).
  { rewrite Nat2Z.inj_succ, Z.pow_succ_r by lia. lia. }
  destruct (level_decompose _ _ Hj') as (k & t & Hk & Ht & Hjt).
  replace (S depthOf - 1 - k)%nat with (depthOf - k)%nat in * by lia.
  exists k, t. repeat split; try lia. rewrite Hjt. apply nodesOf_sub; lia.
Qed.

Lemma nodesOf_defined_iff j :
  1 <= j < 2 * L ->
  exists k t, 0 <= t /\ j = 2 ^ Z.of_nat (depthOf - k) + t /\
              (nodesOf elements j <> None <-> t * 2 ^ Z.of_nat k < N).
Proof.
  intros Hj. destruct (nodesOf_level j Hj) as (k & t & Hk & Ht & Hjt & Hs).
  exists k, t. repeat split; try lia; rewrite Hs; apply sub_defined; lia.
Qed.

End Built.

Local Abbreviation sub := (Subtrees.sub keccak sortedHash).

Lemma nodesOf_shape (E E' : list Buffer) j :
  length E = length E' -> nodesOf E j = None <-> nodesOf E' j = None.
Proof.
  intros Hlen.
  destruct (Z.lt_ge_cases j 1) as [Hlo | Hlo].
  { rewrite !nodesOf_zero by lia. tauto. }
  destruct (Z.lt_ge_cases j (2 * leafCountOf (Z.of_nat (length E)))) as [Hhi | Hhi].
  - assert (Hj : 1 <= j < 2 * leafCountOf (Z.of_nat (length E))) by lia.
    destruct (nodesOf_level E j Hj) as (k & t & Hk & Ht & Hjt & Hs).
    assert (Hs' : nodesOf E' j = sub E' k t).
    { rewrite Hjt. unfold Subtrees.depthOf. rewrite Hlen. apply nodesOf_sub.
      - unfold Subtrees.depthOf in *. rewrite <- Hlen. assumption.
      - unfold Subtrees.depthOf in *. rewrite <- Hlen. assumption. }
    rewrite Hs, Hs'.
    pose proof (sub_defined E k t ltac:(lia)) as H1.
    pose proof (sub_defined E' k t ltac:(lia)) as H2.
    rewrite <- Hlen in H2.
    destruct (sub E k t), (sub E' k t); split; intros; try reflexivity; try discriminate;
      exfalso.
    + assert (Hc : @None Buffer <> None) by (apply H2, H1; discriminate). congruence.
    + assert (Hc : @None Buffer <> None) by (apply H1, H2; discriminate). congruence.
  - pose proof (leafCountOf_ge (Z.of_nat (length E))).
    pose proof (leafCountOf_pos (Z.of_nat (length E))).
    rewrite (nodesOf_absent E) by lia.
    rewrite (nodesOf_absent E') by (rewrite <- Hlen; lia). tauto.
Qed.

End Tree.

(* ================================================================= *)
(** * The circular buffer is a queue *)

Import MultiProofs.

Section Sim.
Variable keccak : Buffer -> Buffer -> Buffer.
Variable sortedHash : bool.
Local Abbreviation hashFunction := (hashFunction keccak sortedHash).
Local Abbreviation qstep := (qstep keccak sortedHash).
Local Abbreviation qrun := (qrun keccak sortedHash).
Local Abbreviation rootStep := (rootStep keccak sortedHash).
Local Abbreviation rootLoop := (rootLoop keccak sortedHash).

Lemma set_eq {A} (a : array A) k v : set a k v k = v.
Proof. unfold set. destruct k; simpl; now rewrite ?Z.eqb_refl. Qed.

Lemma set_neq_int {A} (a : array A) x y v : x <> y -> set a (Int x) v (Int y) = a (Int y).
Proof. intros H. unfold set. simpl. destruct (Z.eqb_spec x y); [contradiction | reflexivity]. Qed.

Lemma rem_incr r m : 0 <= r -> 0 < m -> rem (incr (Int r)) m = Int ((r + 1) mod m).
Proof.
  intros Hr Hm. simpl. destruct (Z.eqb_spec m 0); [lia |].
  now rewrite Z.rem_mod_nonneg by lia.
Qed.

Lemma rem_small r m : 0 <= r < m -> rem (Int r) m = Int r.
Proof.
  intros H. simpl. destruct (Z.eqb_spec m 0); [lia |].
  rewrite Z.rem_mod_nonneg by lia. now rewrite Z.mod_small.
Qed.

Lemma repr_init leafs :
  leafs <> [] ->
  repr (Z.of_nat (length leafs)) (ofList (rev leafs)) 0 0 (rev leafs).
Proof.
  intros Hne. assert (0 < length leafs)%nat by (destruct leafs; simpl; [congruence | lia]).
  unfold repr. rewrite length_rev. repeat split; try lia.
  - rewrite Z.add_0_l. now rewrite Z.mod_same by lia.
  - intros k Hk. rewrite Z.add_0_l, Z.mod_small by lia. simpl.
    destruct (Z.ltb_spec (Z.of_nat k) 0); [lia |]. now rewrite Nat2Z.id.
Qed.

Lemma repr_pop m hs r w x q :
  repr m hs r w (x :: q) ->
  hs (Int r) = Some x /\ repr m hs ((r + 1) mod m) w q.
Proof.
  intros (Hr & Hlen & Hw & Hk). simpl length in *. split.
  - specialize (Hk O ltac:(simpl; lia)). simpl in Hk.
    now rewrite Z.add_0_r, Z.mod_small in Hk by lia.
  - assert (Hm : 0 < m) by lia.
    pose proof (Z.mod_pos_bound (r + 1) m Hm).
    unfold repr. repeat split; try lia.
    + rewrite Hw. rewrite Zplus_mod_idemp_l. f_equal. lia.
    + intros k Hlt. rewrite Zplus_mod_idemp_l.
      specialize (Hk (S k) ltac:(simpl; lia)). simpl nth_error in Hk.
      rewrite <- Hk. do 3 f_equal. lia.
Qed.

Lemma repr_push m hs r w q v :
  repr m hs r w q -> Z.of_nat (length q) < m ->
  repr m (set hs (Int w) (Some v)) r ((w + 1) mod m) (q ++ [v]).
Proof.
  intros (Hr & Hlen & Hw & Hk) Hlt. unfold repr. rewrite length_app. simpl length.
  repeat split; try lia.
  - rewrite Hw, Zplus_mod_idemp_l. f_equal. lia.
  - intros k Hkl.
    destruct (Nat.eq_dec k (length q)) as [-> | Hne].
    + rewrite <- Hw, set_eq. rewrite nth_error_app2, Nat.sub_diag by lia. reflexivity.
    + rewrite nth_error_app1 by lia. rewrite <- Hk by lia.
      apply set_neq_int. rewrite Hw. intros Heq.
      assert (Hd : (r + Z.of_nat (length q) - (r + Z.of_nat k)) mod m = 0).
      { rewrite Zminus_mod, Heq, Z.sub_diag. apply Z.mod_0_l. lia. }
      replace (r + Z.of_nat (length q) - (r + Z.of_nat k))
        with (Z.of_nat (length q) - Z.of_nat k) in Hd by lia.
      rewrite Z.mod_small in Hd by lia. lia.
Qed.

Lemma get_skipn {A} (l : list A) di d rest :
  0 <= di -> skipn (Z.to_nat di) l = d :: rest ->
  get l di = Some d /\ skipn (Z.to_nat (di + 1)) l = rest.
Proof.
  intros Hdi H. unfold get. destruct (Z.ltb_spec di 0); [lia |]. split.
  - rewrite <- (firstn_skipn (Z.to_nat di) l) at 1.
    assert (Hl : (Z.to_nat di <= length l)%nat).
    { destruct (Nat.le_gt_cases (Z.to_nat di) (length l)); [assumption |].
      rewrite skipn_all2 in H by lia. discriminate. }
    rewrite nth_error_app2 by (rewrite length_firstn; lia).
    rewrite length_firstn, Nat.min_l, Nat.sub_diag, H by lia. reflexivity.
  - replace (Z.to_nat (di + 1)) with (1 + Z.to_nat di)%nat by lia.
    rewrite <- skipn_skipn, H. reflexivity.
Qed.

(** A turn that succeeds on the queue succeeds on the circular buffer. *)
Lemma rootStep_sim decs m f s o hs r w di q ds q' ds' :
  repr m hs r w q -> 0 <= di -> skipn (Z.to_nat di) decs = ds ->
  qstep f s o q ds = Some (q', ds') ->
  exists hs' r' w' di',
    rootStep decs m f s o (mkState hs (Int r) (Int w) di) = Ok (mkState hs' (Int r') (Int w') di') /\
    repr m hs' r' w' q' /\ 0 <= di' /\ skipn (Z.to_nat di') decs = ds' /\
    di' = di + (if negb f && negb s then 1 else 0).
Proof.
  intros Hrepr Hdi Hds Hq.
  assert (Hm : 0 < m) by (destruct Hrepr; lia).
  assert (Hr : 0 <= r < m) by (destruct Hrepr; lia).
  assert (Hw : 0 <= w < m).
  { destruct Hrepr as (_ & _ & -> & _). apply Z.mod_pos_bound. lia. }
  unfold Queue.qstep in Hq. unfold MultiProofs.rootStep. cbn [hashes readIndex writeIndex decommitmentIndex].
  destruct s.
  - (* skip *)
    destruct q as [| x q0]; [discriminate |]. injection Hq as <- <-.
    destruct (repr_pop _ _ _ _ _ _ Hrepr) as (Hx & Hrepr').
    rewrite Hx, !rem_incr by lia.
    eexists _, _, _, _. split; [reflexivity |]. split.
    + apply repr_push; [assumption |]. destruct Hrepr as (_ & Hl & _). simpl in Hl. lia.
    + rewrite andb_false_r. repeat split; auto; lia.
  - destruct f.
    + (* both operands from the buffer *)
      destruct q as [| x [| y q0]]; try discriminate. injection Hq as <- <-.
      destruct (repr_pop _ _ _ _ _ _ Hrepr) as (Hx & Hrepr').
      destruct (repr_pop _ _ _ _ _ _ Hrepr') as (Hy & Hrepr'').
      assert (Hr1 : 0 <= (r + 1) mod m < m) by (apply Z.mod_pos_bound; lia).
      rewrite Hx, !rem_incr by lia. rewrite Hy.
      destruct Hrepr as (_ & Hl & _). simpl in Hl.
      destruct o; (eexists _, _, _, _; split; [simpl; reflexivity |]; split;
        [apply repr_push; try assumption; lia | simpl; repeat split; auto; lia]).
    + (* one operand from the decommitments *)
      destruct q as [| x q0]; [discriminate |].
      destruct ds as [| d ds0]; [discriminate |]. injection Hq as <- <-.
      destruct (repr_pop _ _ _ _ _ _ Hrepr) as (Hx & Hrepr').
      destruct (get_skipn _ _ _ _ Hdi Hds) as (Hd & Hrest).
      rewrite Hd, rem_small by lia. rewrite Hx, !rem_incr by lia.
      destruct Hrepr as (_ & Hl & _). simpl in Hl.
      destruct o; (eexists _, _, _, _; split; [simpl; reflexivity |]; split;
        [apply repr_push; try assumption; lia | simpl; repeat split; auto; lia]).
Qed.

Lemma truthy_skipn l i : truthy l i = hd false (skipn i l).
Proof.
  unfold truthy. revert l. induction i; intros [| b l]; simpl; auto.
Qed.

Lemma skipn_S_tl {A} (l : list A) i : skipn (S i) l = tl (skipn i l).
Proof.
  revert l. induction i as [| i IH]; intros [| b l]; try reflexivity.
  change (skipn (S (S i)) (b :: l)) with (skipn (S i) l).
  change (skipn (S i) (b :: l)) with (skipn i l). apply IH.
Qed.

Lemma rootLoop_sim flags skips orders decs m :
  forall n i hs r w di q q' ds',
    n = length (skipn i flags) ->
    repr m hs r w q -> 0 <= di ->
    qrun (skipn i flags) (skipn i skips) (skipn i orders) q (skipn (Z.to_nat di) decs)
      = Some (q', ds') ->
    exists hs' r' w',
      rootLoop flags skips orders decs m n i (mkState hs (Int r) (Int w) di)
        = Ok (mkState hs' (Int r') (Int w')
                      (di + consumed (skipn i flags) (skipn i skips))) /\
      repr m hs' r' w' q'.
Proof.
  induction n as [| n IH]; intros i hs r w di q q' ds' Hn Hrepr Hdi Hq.
  - destruct (skipn i flags) eqn:E; [| discriminate]. simpl in Hq. injection Hq as <- <-.
    simpl. rewrite Z.add_0_r. eauto.
  - destruct (skipn i flags) as [| f fl] eqn:E; [discriminate |].
    cbn [Queue.qrun] in Hq.
    destruct (qstep f _ _ q _) as [[q1 ds1] |] eqn:Hstep; [| discriminate].
    destruct (rootStep_sim decs m _ _ _ _ _ _ _ _ _ _ _ Hrepr Hdi eq_refl Hstep)
      as (hs1 & r1 & w1 & di1 & Hs & Hrepr1 & Hdi1 & Hds1 & Hdi1').
    cbn [MultiProofs.rootLoop].
    rewrite !truthy_skipn, E. cbn [hd]. rewrite Hs. cbn [bind].
    assert (Efl : skipn (S i) flags = fl) by (rewrite skipn_S_tl, E; reflexivity).
    destruct (IH (S i) hs1 r1 w1 di1 q1 q' ds') as (hs' & r' & w' & Hloop & Hrepr');
      try assumption.
    + rewrite Efl. simpl in Hn. lia.
    + rewrite Efl, !skipn_S_tl, Hds1. exact Hq.
    + exists hs', r', w'. split; [| assumption].
      rewrite Hloop. do 2 f_equal. rewrite Efl, skipn_S_tl. cbn [consumed]. lia.
Qed.

(** The slot read at the end holds the last element of the queue. *)
Lemma repr_last m hs r w q v :
  repr m hs r w (q ++ [v]) -> hs (rootIndexOf m (Int w)) = Some v.
Proof.
  intros (Hr & Hlen & Hw & Hk). rewrite length_app in *. simpl length in *.
  specialize (Hk (length q) ltac:(lia)).
  rewrite nth_error_app2, Nat.sub_diag in Hk by lia. simpl in Hk. rewrite <- Hk.
  unfold rootIndexOf, isZero, decr. f_equal.
  destruct (Z.eqb_spec w 0) as [-> | Hne].
  - f_equal.
    assert (Hz : (r + Z.of_nat (length q) + 1) mod m = 0).
    { rewrite Hw. f_equal. lia. }
    destruct (Z.eq_dec (r + Z.of_nat (length q) + 1) m) as [He | Hn].
    + rewrite Z.mod_small; lia.
    + assert (m < r + Z.of_nat (length q) + 1).
      { destruct (Z.lt_ge_cases (r + Z.of_nat (length q) + 1) m); [| lia].
        rewrite Z.mod_small in Hz by lia. lia. }
      replace (r + Z.of_nat (length q)) with ((r + Z.of_nat (length q) - m) + 1 * m) by lia.
      rewrite Z.mod_add by lia. rewrite Z.mod_small by lia.
      replace (r + Z.of_nat (length q) + 1) with ((r + Z.of_nat (length q) + 1 - m) + 1 * m) in Hz by lia.
      rewrite Z.mod_add in Hz by lia. rewrite Z.mod_small in Hz by lia. lia.
  - f_equal. 
    assert (Hwb : 0 <= w < m) by (rewrite Hw; apply Z.mod_pos_bound; lia).
    assert (Hz : (w - 1) mod m = (r + Z.of_nat (length q)) mod m).
    { rewrite Hw. rewrite Zminus_mod_idemp_l. f_equal. lia. }
    rewrite <- Hz. rewrite Z.mod_small; lia.
Qed.

End Sim.

(* ================================================================= *)
(** * What the generator emits, the queue automaton consumes *)

Section Values.
Context {V : Type}.
Variable Tv : Z -> option V.
Local Abbreviation kv := (kv Tv).
Local Abbreviation knownVals := (knownVals Tv).
Local Abbreviation queueAt := (queueAt Tv).

Lemma knownVals_ext known known' lo n :
  (forall j, lo <= j < lo + Z.of_nat n -> known j = known' j) ->
  knownVals known lo n = knownVals known' lo n.
Proof.
  intros H. unfold Gen.knownVals. 
  assert (Hin : forall j, In j (zseq lo n) -> Gen.kv Tv known j = Gen.kv Tv known' j).
  { intros j Hj. apply in_zseq in Hj. unfold Gen.kv. now rewrite H. }
  revert Hin. generalize (zseq lo n). intros l.
  induction l as [| a l IH]; intros Hin; simpl; [reflexivity |].
  rewrite (Hin a) by (simpl; auto). f_equal. apply IH. intros j Hj. apply Hin. simpl; auto.
Qed.

Lemma knownVals_app known lo n m :
  knownVals known lo (n + m) = knownVals known lo n ++ knownVals known (lo + Z.of_nat n) m.
Proof. unfold Gen.knownVals. now rewrite zseq_app, flat_map_app. Qed.

Lemma kv_rev known j : rev (kv known j) = kv known j.
Proof. unfold Gen.kv. destruct (known j), (Tv j); reflexivity. Qed.

Lemma queue_split known n i :
  i = Z.of_nat n + 1 ->
  queueAt known (S n) =
  kv known (2 * i + 1) ++ kv known (2 * i) ++ rev (knownVals known (i + 1) n).
Proof.
  intros Hi. unfold Gen.queueAt.
  replace (Z.of_nat (S n) + 1) with (i + 1) by lia.
  replace (S (S n)) with (n + 2)%nat by lia.
  rewrite knownVals_app. unfold Gen.knownVals at 2. rewrite !zseq_S.
  cbn [flat_map zseq map seq]. rewrite app_nil_r, !rev_app_distr, !kv_rev.
  replace (i + 1 + Z.of_nat n) with (2 * i) by lia.
  now rewrite app_assoc.
Qed.

Lemma queue_next known n i b :
  i = Z.of_nat n + 1 ->
  queueAt (upd known i b) n =
  rev (knownVals known (i + 1) n) ++ kv (upd known i b) i.
Proof.
  intros Hi. unfold Gen.queueAt. rewrite <- Hi.
  unfold Gen.knownVals at 1. rewrite zseq_S. cbn [flat_map].
  rewrite rev_app_distr, kv_rev. f_equal. f_equal.
  apply knownVals_ext. intros j Hj. apply upd_neq. lia.
Qed.
End Values.

Section GenProofs.
Variable keccak : Buffer -> Buffer -> Buffer.
Variable sortedHash : bool.
Variable Tv : Z -> option Buffer.
Variable tree : list (option Buffer).
Variable L : Z.

Local Abbreviation hashFunction := (hashFunction keccak sortedHash).
Local Abbreviation parentOf := (parentOf keccak sortedHash).
Local Abbreviation qstep := (qstep keccak sortedHash).
Local Abbreviation qrun := (qrun keccak sortedHash).
Local Abbreviation kv := (kv Tv).
Local Abbreviation knownVals := (knownVals Tv).
Local Abbreviation queueAt := (queueAt Tv).
Local Abbreviation Inv := (Inv Tv tree L).

Local Abbreviation seen := (Gen.seen sortedHash).
Local Abbreviation queue_split := (queue_split Tv).
Local Abbreviation queue_next := (queue_next Tv).
Hypothesis HL : 1 <= L <= 2 ^ 30.
Hypothesis Hnode : forall i, 1 <= i < L -> Tv i = parentOf (Tv (2 * i)) (Tv (2 * i + 1)).
Hypothesis Hgnode : forall i, 1 <= i < L ->
  getOpt tree i = parentOf (getOpt tree (2 * i)) (getOpt tree (2 * i + 1)).
Hypothesis Hshape : forall j, getOpt tree j = None <-> Tv j = None.
Hypothesis Hsib : forall i, 1 <= i < L -> Tv (2 * i + 1) <> None -> Tv (2 * i) <> None.

Lemma hashFunction_comm a b : sortedHash = true -> hashFunction a b = hashFunction b a.
Proof.
  intros H. unfold Common.hashFunction. rewrite H. unfold sortHashNode.
  now rewrite Z.min_comm, Z.max_comm.
Qed.

Lemma genStep_eq i s :
  0 <= i < 2 ^ 30 ->
  genStep tree i s =
  let left := known s (2 * i) in
  let right := known s (2 * i + 1) in
  let sibling := getOpt tree (2 * i + Z.b2z left) in
  let decommitments :=
    if xorb left right then genDecommitments s ++ [sibling] else genDecommitments s in
  let known' := upd (known s) i (left || right) in
  if relevant s i
  then mkGen known' (upd (relevant s) (i / 2) true) decommitments
             (genFlags s ++ [Bool.eqb left right])
             (genSkips s ++ [isUndefined sibling])
             (genOrders s ++ [left])
  else mkGen known' (relevant s) decommitments (genFlags s) (genSkips s) (genOrders s).
Proof.
  intros Hi. unfold genStep. rewrite shl_1 by lia. rewrite ushr_1 by lia. reflexivity.
Qed.

Lemma genStep_app i s : genStep tree i s = appOut s (genStep tree i (clearOut s)).
Proof.
  unfold genStep, appOut, clearOut. cbn [known relevant genDecommitments genFlags genSkips genOrders].
  destruct (relevant s i), (xorb _ _); cbn [known relevant genDecommitments genFlags genSkips genOrders];
    rewrite ?app_nil_r; reflexivity.
Qed.

Lemma clearOut_genStep i s : clearOut (genStep tree i (clearOut s)) = clearOut (genStep tree i s).
Proof.
  unfold genStep, clearOut. cbn [known relevant].
  destruct (relevant s i); reflexivity.
Qed.

Lemma appOut_assoc a b c : appOut (appOut a b) c = appOut a (appOut b c).
Proof. unfold appOut. simpl. now rewrite !app_assoc. Qed.

Lemma genLoop_app n : forall s, genLoop tree n s = appOut s (genLoop tree n (clearOut s)).
Proof.
  induction n as [| n IH]; intros s.
  - simpl. unfold appOut, clearOut. simpl. rewrite !app_nil_r. now destruct s.
  - cbn [genLoop]. rewrite IH. rewrite (IH (genStep tree _ (clearOut s))).
    rewrite clearOut_genStep. rewrite (genStep_app _ s) at 1.
    apply appOut_assoc.
Qed.

Lemma Inv_known_false n s j : Inv n s -> j <= Z.of_nat n -> known s j = false.
Proof.
  intros (H1 & _) Hj. destruct (known s j) eqn:E; [apply H1 in E; lia | reflexivity].
Qed.

Lemma Inv_relevant n s i :
  Inv n s -> 1 <= i <= Z.of_nat n ->
  relevant s i = known s (2 * i) || known s (2 * i + 1).
Proof. intros (_ & H2 & _) Hi. now apply H2. Qed.

Lemma Tv_parent_defined i :
  1 <= i < L -> Tv (2 * i) <> None \/ Tv (2 * i + 1) <> None -> Tv i <> None.
Proof.
  intros Hi H. rewrite Hnode by assumption. apply parentOf_defined.
  destruct H as [H | H]; [assumption | now apply Hsib].
Qed.

Lemma Inv_step n s i :
  i = Z.of_nat n + 1 -> Inv (S n) s -> i < L -> Inv n (genStep tree i s).
Proof.
  intros Hi HInv HiL.
  pose proof (Inv_relevant _ _ i HInv ltac:(lia)) as Hrel.
  pose proof (Inv_known_false _ _ i HInv ltac:(lia)) as Hki.
  destruct HInv as (H1 & H2 & H3).
  rewrite genStep_eq by lia. cbv zeta.
  set (l := known s (2 * i)) in *. set (r := known s (2 * i + 1)) in *.
  assert (Hk1 : forall j, upd (known s) i (l || r) j = true ->
                          Z.of_nat n < j < 2 * L /\ Tv j <> None).
  { intros j Hj. unfold upd in Hj. destruct (Z.eqb_spec i j) as [Heq | Hne]; [subst j |].
    - split; [lia |]. apply Tv_parent_defined; [lia |].
      apply orb_true_iff in Hj. destruct Hj as [Hj | Hj]; [left | right].
      + now apply (H1 (2 * i)).
      + now apply (H1 (2 * i + 1)).
    - destruct (H1 j Hj). split; [lia | assumption]. }
  assert (Hk3 : forall j, Z.of_nat n < j < 2 * L -> upd (known s) i (l || r) j = false ->
                          getOpt tree j = Tv j).
  { intros j Hj Hf. unfold upd in Hf. destruct (Z.eqb_spec i j) as [Heq | Hne]; [subst j |].
    - apply orb_false_iff in Hf. destruct Hf as [Hl Hr].
      rewrite Hnode, Hgnode by lia. f_equal; apply H3; try lia; assumption.
    - apply H3; [lia | assumption]. }
  destruct (relevant s i) eqn:Erel; unfold Gen.Inv; cbn [known relevant];
    (split; [exact Hk1 | split; [| exact Hk3]]).
  - intros j Hj. unfold upd. rewrite <- Hrel. 
    destruct (Z.eqb_spec (i / 2) j) as [Hd | Hd].
    + assert (Hc : i = 2 * j \/ i = 2 * j + 1).
      { pose proof (Z.div_mod i 2 ltac:(lia)). pose proof (Z.mod_pos_bound i 2 ltac:(lia)). lia. }
      destruct Hc as [Hc | Hc].
      * destruct (Z.eqb_spec i (2 * j)); [reflexivity | lia].
      * destruct (Z.eqb_spec i (2 * j + 1)); [now rewrite orb_true_r | lia].
    + assert (Hc : i <> 2 * j /\ i <> 2 * j + 1).
      { pose proof (Z.div_mod i 2 ltac:(lia)). pose proof (Z.mod_pos_bound i 2 ltac:(lia)). lia. }
      destruct (Z.eqb_spec i (2 * j)); [lia |].
      destruct (Z.eqb_spec i (2 * j + 1)); [lia |]. apply H2. lia.
  - intros j Hj. rewrite <- Hrel.
    assert (Hsame : forall k, upd (known s) i false k = known s k).
    { intros k. unfold upd. destruct (Z.eqb_spec i k); [subst k; now rewrite Hki | reflexivity]. }
    rewrite !Hsame. apply H2. lia.
Qed.

Lemma seen_hd o l : hd false (seen (o :: l)) = o && negb sortedHash.
Proof. unfold Gen.seen. destruct sortedHash; simpl; [now rewrite andb_false_r | now rewrite andb_true_r]. Qed.

Lemma seen_tl o l : tl (seen (o :: l)) = seen l.
Proof. unfold Gen.seen. destruct sortedHash; reflexivity. Qed.

Lemma pick_order a b :
  (if negb sortedHash then hashFunction a b else hashFunction b a) = hashFunction a b.
Proof.
  pose proof (hashFunction_comm b a) as H. destruct sortedHash; simpl; auto.
Qed.

Lemma Inv_known_defined n s j : Inv n s -> known s j = true -> exists v, Tv j = Some v.
Proof.
  intros (H1 & _) Hj. destruct (H1 j Hj) as [_ Hd].
  destruct (Tv j) as [v |]; [eauto | congruence].
Qed.

Lemma gen_sound n : forall s,
  Inv n s -> Z.of_nat n < L ->
  let o := genLoop tree n (clearOut s) in
  Inv 0 o /\
  qrun (genFlags o) (genSkips o) (seen (genOrders o))
       (queueAt (known s) n) (defined (genDecommitments o))
    = Some (queueAt (known o) 0, []) /\
  noStop (genFlags o) (genSkips o) /\
  length (genOrders o) = length (genFlags o) /\
  Z.of_nat (length (defined (genDecommitments o))) = consumed (genFlags o) (genSkips o) /\
  (queueAt (known s) n <> [] -> queueAt (known o) 0 <> []).
Proof.
  induction n as [| n IH]; intros s HInv HnL.
  - cbn [genLoop]. unfold clearOut at 2 3 4 5 6 7 8 9. cbn -[Z.of_nat Gen.queueAt].
    split; [exact HInv |]. repeat split; auto.
  - set (i := Z.of_nat n + 1).
    assert (Hi : i = Z.of_nat n + 1) by reflexivity. clearbody i.
    cbn [genLoop]. replace (Z.of_nat (S n)) with i in * by lia.
    rewrite genLoop_app.
    set (s1 := genStep tree i (clearOut s)).
    assert (HInv1 : Inv n s1) by (apply Inv_step; [assumption | exact HInv | lia]).
    destruct (IH s1 HInv1 ltac:(lia)) as (HI0 & Hrun & Hns & Hlen & Hcons & Hne).
    set (o' := genLoop tree n (clearOut s1)) in *.
    pose proof (Inv_relevant _ _ i HInv ltac:(lia)) as Hrel.
    set (l := known s (2 * i)) in *. set (r := known s (2 * i + 1)) in *.
    assert (Hl : l = true -> exists v, Tv (2 * i) = Some v)
      by (intros E; now apply (Inv_known_defined _ _ _ HInv)).
    assert (Hr : r = true -> exists v, Tv (2 * i + 1) = Some v)
      by (intros E; now apply (Inv_known_defined _ _ _ HInv)).
    assert (Hunk : forall j, i < j < 2 * L -> known s j = false -> getOpt tree j = Tv j).
    { intros j Hj1 Hj3. destruct HInv as (_ & _ & H3). apply H3; [lia | assumption]. }
    assert (Hk1 : known s1 = upd (known s) i (l || r)).
    { subst s1. rewrite genStep_eq by lia. cbv zeta. cbn [clearOut known relevant].
      destruct (relevant s i); reflexivity. }
    rewrite Hk1 in Hrun, Hne. rewrite queue_next in Hrun, Hne by assumption.
    rewrite (queue_split _ _ i) by assumption.
    set (mid := rev (knownVals (known s) (i + 1) n)) in *.
    assert (Hs1 : genFlags s1 = (if l || r then [Bool.eqb l r] else []) /\
                  genSkips s1 = (if l || r then [isUndefined (getOpt tree (2 * i + Z.b2z l))]
                                 else []) /\
                  genOrders s1 = (if l || r then [l] else []) /\
                  genDecommitments s1 =
                    (if xorb l r then [getOpt tree (2 * i + Z.b2z l)] else [])).
    { subst s1. rewrite genStep_eq by lia. cbv zeta.
      cbn [clearOut known relevant genFlags genSkips genOrders genDecommitments].
      rewrite Hrel. fold l. fold r. destruct l, r; repeat split; reflexivity. }
    destruct Hs1 as (Hf & Hsk & Ho & Hd).
    unfold appOut. cbn [known relevant genFlags genSkips genOrders genDecommitments].
    unfold Gen.kv. fold l. fold r. unfold Gen.kv in Hrun, Hne. rewrite upd_eq in Hrun, Hne.
    assert (Hpar : Tv i = parentOf (Tv (2 * i)) (Tv (2 * i + 1))) by (apply Hnode; lia).
    destruct l eqn:El, r eqn:Er; cbn [orb xorb Bool.eqb Z.b2z] in Hf, Hsk, Ho, Hd, Hrun, Hne;
      rewrite Hf, Hsk, Ho, Hd;
      try (destruct (Hl eq_refl) as [a Ha]); try (destruct (Hr eq_refl) as [b Hb]).
    + (* both children known *)
      rewrite Ha, Hb in *. cbn [Common.parentOf] in Hpar. rewrite Hpar in Hrun, Hne.
      assert (Hsib' : isUndefined (getOpt tree (2 * i + 1)) = false).
      { destruct (getOpt tree (2 * i + 1)) eqn:E; [reflexivity |].
        apply Hshape in E. congruence. }
      rewrite Hsib'. cbn [app defined Queue.qrun hd tl].
      split; [exact HI0 |]. split; [| repeat split; auto; cbn [noStop consumed length hd tl negb andb]; try lia; try (intros _; apply Hne; destruct mid; simpl; congruence)].
      rewrite seen_hd, seen_tl. cbn [andb Queue.qstep]. rewrite pick_order. exact Hrun.
    + (* left child known *)
      rewrite Ha in *. 
      destruct (Tv (2 * i + 1)) as [b |] eqn:Hb.
      * assert (Hg : getOpt tree (2 * i + 1) = Some b).
        { rewrite <- Hb. apply Hunk; [lia | exact Er]. }
        rewrite Hg. cbn [Common.parentOf] in Hpar. rewrite Hpar in Hrun, Hne.
        cbn [app defined Queue.qrun hd tl isUndefined].
        split; [exact HI0 |]. split; [| repeat split; auto; cbn [noStop consumed length hd tl negb andb defined app]; try lia; try (intros _; apply Hne; destruct mid; simpl; congruence)].
        rewrite seen_hd, seen_tl. cbn [andb Queue.qstep]. rewrite pick_order. exact Hrun.
      * assert (Hg : getOpt tree (2 * i + 1) = None) by (now apply Hshape).
        rewrite Hg. cbn [Common.parentOf] in Hpar. rewrite Hpar in Hrun, Hne.
        cbn [app defined Queue.qrun hd tl isUndefined].
        split; [exact HI0 |]. split; [| repeat split; auto; cbn [noStop consumed length hd tl negb andb defined app]; try lia; try (intros _; apply Hne; destruct mid; simpl; congruence)].
        rewrite seen_hd, seen_tl. cbn [andb Queue.qstep]. exact Hrun.
    + (* right child known *)
      rewrite Hb in *.
      assert (Ha' : exists a, Tv (2 * i) = Some a).
      { destruct (Tv (2 * i)) as [a |] eqn:E; [eauto |].
        exfalso. apply (Hsib i); [lia | congruence | assumption]. }
      destruct Ha' as [a Ha]. rewrite Ha in *.
      assert (Hg : getOpt tree (2 * i + 0) = Some a).
      { rewrite Z.add_0_r, <- Ha. apply Hunk; [lia | exact El]. }
      rewrite Hg. cbn [Common.parentOf] in Hpar. rewrite Hpar in Hrun, Hne.
      cbn [app defined Queue.qrun hd tl isUndefined].
      split; [exact HI0 |]. split; [| repeat split; auto; cbn [noStop consumed length hd tl negb andb defined app]; try lia; try (intros _; apply Hne; destruct mid; simpl; congruence)].
      rewrite seen_hd, seen_tl. cbn [andb Queue.qstep]. exact Hrun.
    + (* no child known *)
      cbn [app]. rewrite app_nil_r in Hrun, Hne.
      split; [exact HI0 |]. repeat split; auto.
Qed.

End GenProofs.

(* ================================================================= *)
(** * Marking the leaves *)

Section Mark.
Variable L : Z.

Lemma markLeaves_ok : forall I prev k r,
  ascending (match prev with Some p => p :: I | None => I end) = true ->
  exists k' r',
    markLeaves L prev I k r = Ok (k', r') /\
    (forall j, k' j = knownLeaf L I j || k j) /\
    (forall j, r' j = relevantParent L I j || r j).
Proof.
  induction I as [| x I IH]; intros prev k r Hs.
  - exists k, r. repeat split; reflexivity.
  - cbn [markLeaves].
    assert (Hgt : match prev with Some p => p >? x | None => false end = false).
    { destruct prev as [p |]; [| reflexivity]. cbn [ascending] in Hs.
      apply andb_true_iff in Hs. destruct Hs as [Hs _]. 
      apply Z.leb_le in Hs. rewrite Z.gtb_ltb. apply Z.ltb_ge. lia. }
    rewrite Hgt.
    assert (Hs' : ascending (x :: I) = true).
    { destruct prev as [p |]; [| assumption]. cbn [ascending] in Hs.
      apply andb_true_iff in Hs. apply Hs. }
    destruct (IH (Some x) (upd k (L + x) true) (upd r (ushr (L + x) 1) true) Hs')
      as (k' & r' & Hm & Hk & Hr).
    exists k', r'. split; [exact Hm |]. split; intros j.
    + rewrite Hk. unfold knownLeaf. cbn [existsb]. unfold upd.
      destruct (L + x =? j); simpl; [now rewrite orb_true_r | reflexivity].
    + rewrite Hr. unfold relevantParent. cbn [existsb]. unfold upd.
      destruct (ushr (L + x) 1 =? j); simpl; [now rewrite orb_true_r | reflexivity].
Qed.

Lemma markLeaves_throw : forall I prev k r,
  ascending (match prev with Some p => p :: I | None => I end) = false ->
  markLeaves L prev I k r = Throw UnsortedIndices.
Proof.
  induction I as [| x I IH]; intros prev k r Hs.
  - destruct prev; discriminate.
  - cbn [markLeaves]. destruct prev as [p |].
    + cbn [ascending] in Hs. destruct (Z.leb_spec p x) as [Hle | Hgt].
      * replace (p >? x) with false by (symmetry; rewrite Z.gtb_ltb; apply Z.ltb_ge; lia).
        apply (IH (Some x)). exact Hs.
      * replace (p >? x) with true by (symmetry; rewrite Z.gtb_ltb; apply Z.ltb_lt; lia).
        reflexivity.
    + apply (IH (Some x)). exact Hs.
Qed.

Lemma strictly_ascending l : strictlyAscending l = true -> ascending l = true.
Proof.
  induction l as [| x [| y l] IH]; intros H; try reflexivity.
  cbn [strictlyAscending ascending] in *. apply andb_true_iff in H. destruct H as [H1 H2].
  apply andb_true_iff. split; [| now apply IH]. apply Z.ltb_lt in H1. apply Z.leb_le. lia.
Qed.

End Mark.

Section Generate.
Variable sortedHash : bool.

Lemma generateBooleans_throws tree N I :
  generateBooleans sortedHash tree N I = Throw UnsortedIndices <-> ascending I = false.
Proof.
  unfold generateBooleans. split.
  - intros H. destruct (ascending I) eqn:E; [| reflexivity].
    destruct (markLeaves_ok (ushr (Z.of_nat (length tree)) 1) I None
                            (fun _ => false) (fun _ => false) E) as (k & r & Hm & _).
    rewrite Hm in H. discriminate.
  - intros H. now rewrite markLeaves_throw.
Qed.

Lemma generateBooleans_succeeds tree N I :
  (exists p, generateBooleans sortedHash tree N I = Ok p) <-> ascending I = true.
Proof.
  split.
  - intros [p H]. destruct (ascending I) eqn:E; [reflexivity |].
    apply (generateBooleans_throws tree N I) in E. congruence.
  - intros E. unfold generateBooleans.
    destruct (markLeaves_ok (ushr (Z.of_nat (length tree)) 1) I None
                            (fun _ => false) (fun _ => false) E) as (k & r & Hm & _).
    rewrite Hm. cbn [bind]. eauto.
Qed.
End Generate.

(* ================================================================= *)
(** * Generated proofs verify *)

Section Indices.

Lemma existsb_orb {A} (f g h : A -> bool) l :
  (forall x, In x l -> f x = g x || h x) ->
  existsb f l = existsb g l || existsb h l.
Proof.
  induction l as [| a l IH]; intros H; [reflexivity |].
  cbn [existsb]. rewrite IH by (intros x Hx; apply H; simpl; auto).
  rewrite (H a) by (simpl; auto).
  destruct (g a), (h a), (existsb g l), (existsb h l); reflexivity.
Qed.

Lemma inRange_forall N I x : inRange N I = true -> In x I -> 0 <= x < N.
Proof.
  unfold inRange. rewrite forallb_forall. intros H Hx. specialize (H x Hx).
  apply andb_true_iff in H. destruct H as [H1 H2].
  apply Z.leb_le in H1. apply Z.ltb_lt in H2. lia.
Qed.

Lemma knownLeaf_true L I j : knownLeaf L I j = true <-> exists x, In x I /\ j = L + x.
Proof.
  unfold knownLeaf. rewrite existsb_exists. split; intros (x & Hx & He); exists x; split; auto.
  - apply Z.eqb_eq in He. lia.
  - apply Z.eqb_eq. lia.
Qed.

Lemma knownLeaf_false L I x : knownLeaf L I (L + x) = false -> ~ In x I.
Proof.
  intros H Hin. assert (knownLeaf L I (L + x) = true) by (apply knownLeaf_true; eauto).
  congruence.
Qed.

Lemma strictly_head_lt x I : strictlyAscending (x :: I) = true -> Forall (fun y => x < y) I.
Proof.
  revert x. induction I as [| y I IH]; intros x H; [constructor |].
  cbn [strictlyAscending] in H. apply andb_true_iff in H. destruct H as [H1 H2].
  apply Z.ltb_lt in H1. constructor; [assumption |].
  eapply Forall_impl; [| apply IH; exact H2]. simpl. intros; lia.
Qed.

Lemma strictly_tail x I : strictlyAscending (x :: I) = true -> strictlyAscending I = true.
Proof.
  destruct I as [| y I]; [reflexivity |]. cbn [strictlyAscending].
  intros H. apply andb_true_iff in H. apply H.
Qed.

End Indices.

Section Start.
Variable keccak : Buffer -> Buffer -> Buffer.
Variable sortedHash : bool.
(** The elements the proof is generated from, and those it is checked
    against: they differ at the proved indices only. *)
Variables E E' : list Buffer.
Variable I : list Z.

Local Abbreviation N := (Z.of_nat (length E)).
Local Abbreviation L := (leafCountOf (Z.of_nat (length E))).
Local Abbreviation tree := (buildTree keccak sortedHash E).
Local Abbreviation Tv := (nodesOf keccak sortedHash E').

Hypothesis Hlen : length E' = length E.
Hypothesis HN : N <= 2 ^ 30.
Hypothesis Hasc : strictlyAscending I = true.
Hypothesis Hrange : inRange N I = true.
Hypothesis Hagree : forall t, 0 <= t < N -> ~ In t I -> elementAt E' t = elementAt E t.

Lemma L_bounds : 1 <= L <= 2 ^ 30.
Proof. split; [apply leafCountOf_pos | apply leafCountOf_bound; lia]. Qed.

Lemma N_le_L : N <= L.
Proof. apply leafCountOf_ge. Qed.

Lemma Tv_node i :
  1 <= i < L -> Tv i = parentOf keccak sortedHash (Tv (2 * i)) (Tv (2 * i + 1)).
Proof. intros H. apply nodesOf_node. now rewrite Hlen. Qed.

Lemma tree_node i :
  1 <= i < L ->
  getOpt tree i = parentOf keccak sortedHash (getOpt tree (2 * i)) (getOpt tree (2 * i + 1)).
Proof. intros H. rewrite !buildTree_get. now apply nodesOf_node. Qed.

Lemma tree_shape j : getOpt tree j = None <-> Tv j = None.
Proof. rewrite buildTree_get. apply nodesOf_shape. now rewrite Hlen. Qed.

Lemma Tv_sibling i : 1 <= i < L -> Tv (2 * i + 1) <> None -> Tv (2 * i) <> None.
Proof. intros H. apply nodesOf_sibling. now rewrite Hlen. Qed.

Lemma Tv_leaf x :
  0 <= x < N -> Tv (L + x) = Some (leafImage keccak (elementAt E' x)).
Proof.
  intros Hx. replace x with (Z.of_nat (Z.to_nat x)) at 1 by lia.
  rewrite <- Hlen. rewrite (nodesOf_leaf keccak sortedHash E' (Z.to_nat x)) by lia.
  reflexivity.
Qed.

Lemma tree_leaf x :
  0 <= x < N -> getOpt tree (L + x) = Some (leafImage keccak (elementAt E x)).
Proof.
  intros Hx. rewrite buildTree_get. replace x with (Z.of_nat (Z.to_nat x)) at 1 by lia.
  rewrite (nodesOf_leaf keccak sortedHash E (Z.to_nat x)) by lia. reflexivity.
Qed.

Lemma start_Inv k r :
  (forall j, k j = knownLeaf L I j) ->
  (forall j, r j = relevantParent L I j) ->
  Inv Tv tree L (Z.to_nat (L - 1)) (mkGen k r [] [] [] []).
Proof.
  intros Hk Hr. pose proof L_bounds as HL. pose proof N_le_L as HNL.
  unfold Inv. cbn [known relevant]. rewrite Z2Nat.id by lia. repeat split.
  - rewrite Hk in H. apply knownLeaf_true in H. destruct H as (x & Hx & ->).
    pose proof (inRange_forall _ _ _ Hrange Hx). lia.
  - rewrite Hk in H. apply knownLeaf_true in H. destruct H as (x & Hx & ->).
    pose proof (inRange_forall _ _ _ Hrange Hx). lia.
  - rewrite Hk in H. apply knownLeaf_true in H. destruct H as (x & Hx & ->).
    pose proof (inRange_forall _ _ _ Hrange Hx). rewrite Tv_leaf by lia. discriminate.
  - intros j Hj. rewrite Hr, !Hk. unfold relevantParent, knownLeaf.
    apply existsb_orb. intros x Hx.
    pose proof (inRange_forall _ _ _ Hrange Hx).
    rewrite ushr_1 by lia.
    pose proof (Z.div_mod (L + x) 2 ltac:(lia)). pose proof (Z.mod_pos_bound (L + x) 2 ltac:(lia)).
    destruct (Z.eqb_spec ((L + x) / 2) j), (Z.eqb_spec (L + x) (2 * j)),
      (Z.eqb_spec (L + x) (2 * j + 1)); simpl; try reflexivity; lia.
  - intros j Hj Hf. rewrite Hk in Hf.
    replace j with (L + (j - L)) in * by lia.
    destruct (Z.lt_ge_cases (j - L) N) as [Hin | Hout].
    + rewrite Tv_leaf, tree_leaf by lia. f_equal. f_equal. symmetry.
      apply Hagree; [lia |]. now apply knownLeaf_false in Hf.
    + rewrite buildTree_get. rewrite nodesOf_absent by lia.
      symmetry. apply nodesOf_absent. rewrite Hlen. lia.
Qed.

Lemma knownVals_indices k : forall n a J,
  (forall j, L + a <= j -> k j = knownLeaf L J j) ->
  strictlyAscending J = true ->
  Forall (fun x => a <= x < a + Z.of_nat n /\ 0 <= x < N) J ->
  knownVals Tv k (L + a) n = leafsAt keccak E' J.
Proof.
  induction n as [| n IH]; intros a J Hk HJ HF.
  - destruct J as [| x J]; [reflexivity |]. inversion HF; subst. lia.
  - unfold knownVals. rewrite zseq_S. cbn [flat_map]. fold (knownVals Tv k (L + a + 1) n).
    replace (L + a + 1) with (L + (a + 1)) by lia.
    destruct J as [| x J].
    + unfold kv. rewrite Hk by lia. cbn [knownLeaf existsb app].
      apply (IH (a + 1) []); [intros j Hj; apply Hk; lia | reflexivity | constructor].
    + inversion HF as [| ? ? [Hx1 Hx2] HF']; subst.
      pose proof (strictly_head_lt _ _ HJ) as Hlt.
      destruct (Z.eq_dec x a) as [-> | Hne].
      * unfold kv. rewrite Hk by lia. unfold knownLeaf at 1. cbn [existsb].
        rewrite Z.eqb_refl. cbn [orb]. rewrite Tv_leaf by lia. cbn [app leafsAt map].
        f_equal. apply IH.
        -- intros j Hj. rewrite Hk by lia. unfold knownLeaf. cbn [existsb].
           destruct (Z.eqb_spec (L + a) j); [lia | reflexivity].
        -- eapply strictly_tail; eassumption.
        -- rewrite Forall_forall in *. intros y Hy. specialize (HF' y Hy).
           specialize (Hlt y Hy). lia.
      * assert (Hka : k (L + a) = false).
        { rewrite Hk by lia. destruct (knownLeaf L (x :: J) (L + a)) eqn:Ek; [| reflexivity].
          apply knownLeaf_true in Ek. destruct Ek as (y & [-> | Hy] & He); [lia |].
          rewrite Forall_forall in Hlt. specialize (Hlt y Hy). lia. }
        unfold kv. rewrite Hka. cbn [app]. apply IH.
        -- intros j Hj. apply Hk. lia.
        -- assumption.
        -- constructor; [lia |]. rewrite Forall_forall in *. intros y Hy.
           specialize (HF' y Hy). specialize (Hlt y Hy). lia.
Qed.

Lemma start_queue k :
  (forall j, k j = knownLeaf L I j) ->
  queueAt Tv k (Z.to_nat (L - 1)) = rev (leafsAt keccak E' I).
Proof.
  intros Hk. pose proof L_bounds as HL. pose proof N_le_L as HNL.
  unfold queueAt. f_equal. rewrite Z2Nat.id by lia.
  replace (L - 1 + 1) with (L + 0) by lia.
  apply knownVals_indices; [intros; apply Hk | assumption |].
  rewrite Forall_forall. intros x Hx. pose proof (inRange_forall _ _ _ Hrange Hx). lia.
Qed.

Lemma queue_root k :
  (forall j, k j = true -> Tv j <> None) ->
  queueAt Tv k 0 <> [] -> exists v, queueAt Tv k 0 = [v] /\ Tv 1 = Some v.
Proof.
  intros Hk. unfold queueAt, knownVals. rewrite zseq_S. cbn [zseq seq map flat_map rev app].
  rewrite app_nil_r. unfold kv. change (Z.of_nat 0 + 1) with 1.
  destruct (k 1) eqn:Ek; [| simpl; intros Hc; congruence].
  destruct (Tv 1) as [v |] eqn:Ev; simpl; [eauto | intros Hc; congruence].
Qed.

(** What the generator returns, and how the queue automaton runs on it. *)
Lemma generated :
  exists o,
    generateBooleans sortedHash tree N I =
      Ok (mkProof [] N (defined (genDecommitments o)) (genFlags o) (genSkips o)
                  (if sortedHash then None else Some (genOrders o))) /\
    qrun keccak sortedHash (genFlags o) (genSkips o) (seen sortedHash (genOrders o))
         (rev (leafsAt keccak E' I)) (defined (genDecommitments o))
      = Some (queueAt Tv (known o) 0, []) /\
    noStop (genFlags o) (genSkips o) /\
    length (genOrders o) = length (genFlags o) /\
    Z.of_nat (length (defined (genDecommitments o))) = consumed (genFlags o) (genSkips o) /\
    (I <> [] -> exists v, queueAt Tv (known o) 0 = [v] /\ Tv 1 = Some v).
Proof.
  pose proof L_bounds as HL.
  unfold generateBooleans. rewrite buildTree_length.
  rewrite ushr_1 by lia. replace (2 * L / 2) with L by (rewrite Z.mul_comm, Z.div_mul; lia).
  destruct (markLeaves_ok L I None (fun _ => false) (fun _ => false)
                          (strictly_ascending _ Hasc)) as (k & r & Hm & Hk & Hr).
  rewrite Hm. cbn [bind fst snd].
  assert (Hk' : forall j, k j = knownLeaf L I j) by (intros j; rewrite Hk; apply orb_false_r).
  assert (Hr' : forall j, r j = relevantParent L I j) by (intros j; rewrite Hr; apply orb_false_r).
  pose proof (start_Inv k r Hk' Hr') as HInv.
  destruct (gen_sound keccak sortedHash Tv tree L HL Tv_node tree_node tree_shape Tv_sibling
                      (Z.to_nat (L - 1)) _ HInv ltac:(lia))
    as (HI0 & Hrun & Hns & Hlo & Hcons & Hne).
  cbn [clearOut known relevant] in *.
  set (o := genLoop tree (Z.to_nat (L - 1)) (mkGen k r [] [] [] [])) in *.
  rewrite (start_queue k Hk') in Hrun, Hne.
  exists o. repeat split; try assumption.
  intros HI. apply queue_root.
  - intros j Hj. destruct HI0 as (H1 & _). now apply H1.
  - apply Hne. unfold leafsAt. destruct I; [congruence |]. simpl.
    intros Hc. apply app_eq_nil in Hc. destruct Hc; discriminate.
Qed.

(** The verifier on the generated proof and the images of the checked
    elements. *)
Lemma verified p :
  I <> [] ->
  generateBooleans sortedHash tree N I = Ok p ->
  exists v s,
    Tv 1 = Some v /\
    rootLoop keccak sortedHash (flags p) (skips p)
             (match orders p with Some o => o | None => [] end) (decommitments p)
             (Z.of_nat (length (leafsAt keccak E' I))) (length (flags p)) 0
             (initState (leafsAt keccak E' I)) = Ok s /\
    hashes s (rootIndexOf (Z.of_nat (length (leafsAt keccak E' I))) (writeIndex s)) = Some v /\
    decommitmentIndex s = consumed (flags p) (skips p).
Proof.
  intros HI Hp. destruct generated as (o & Hg & Hrun & Hns & Hlo & Hcons & Hroot).
  rewrite Hg in Hp. injection Hp as <-. cbn [flags skips orders decommitments].
  destruct (Hroot HI) as (v & Hq & Hv). rewrite Hq in Hrun.
  assert (Hleafs : leafsAt keccak E' I <> []).
  { unfold leafsAt. destruct I; [congruence | discriminate]. }
  replace (match (if sortedHash then None else Some (genOrders o)) with
           | Some o0 => o0 | None => [] end) with (seen sortedHash (genOrders o))
    by (unfold seen; destruct sortedHash; reflexivity).
  destruct (rootLoop_sim keccak sortedHash (genFlags o) (genSkips o)
              (seen sortedHash (genOrders o)) (defined (genDecommitments o))
              (Z.of_nat (length (leafsAt keccak E' I)))
              (length (genFlags o)) 0 _ 0 0 0 _ _ _ eq_refl (repr_init _ Hleafs)
              ltac:(lia) Hrun)
    as (hs' & r' & w' & Hloop & Hrepr).
  exists v, (mkState hs' (Int r') (Int w') (0 + consumed (genFlags o) (genSkips o))).
  repeat split; try assumption.
  apply (repr_last _ _ r' w' [] v). exact Hrepr.
Qed.

End Start.

(* ================================================================= *)
(** * The update automaton *)

Section NewSim.
Variable keccak : Buffer -> Buffer -> Buffer.
Variable sortedHash : bool.
Local Abbreviation qstep := (qstep keccak sortedHash).
Local Abbreviation qrun := (qrun keccak sortedHash).
Local Abbreviation newRootStep := (newRootStep keccak sortedHash).
Local Abbreviation newRootLoop := (newRootLoop keccak sortedHash).

Lemma newRootStep_sim decs m f s o hs hs' r w di q q' ds q1 ds1 q1' ds1' :
  repr m hs r w q -> repr m hs' r w q' -> 0 <= di -> skipn (Z.to_nat di) decs = ds ->
  qstep f s o q ds = Some (q1, ds1) ->
  qstep f s o q' ds = Some (q1', ds1') ->
  exists hs1 hs1' r1 w1 di1,
    newRootStep decs m f s o (mkNewState hs hs' (Int r) (Int w) di)
      = Ok (mkNewState hs1 hs1' (Int r1) (Int w1) di1) /\
    repr m hs1 r1 w1 q1 /\ repr m hs1' r1 w1 q1' /\
    0 <= di1 /\ skipn (Z.to_nat di1) decs = ds1 /\ ds1' = ds1.
Proof.
  intros Hrepr Hrepr' Hdi Hds Hq Hq'.
  assert (Hm : 0 < m) by (destruct Hrepr; lia).
  assert (Hr : 0 <= r < m) by (destruct Hrepr; lia).
  assert (Hw : 0 <= w < m).
  { destruct Hrepr as (_ & _ & -> & _). apply Z.mod_pos_bound. lia. }
  unfold Queue.qstep in Hq, Hq'. unfold MultiProofs.newRootStep.
  cbn [oldHashes updateHashes newReadIndex newWriteIndex newDecommitmentIndex].
  destruct s.
  - destruct q as [| x q0]; [discriminate |]. injection Hq as <- <-.
    destruct q' as [| x' q0']; [discriminate |]. injection Hq' as <- <-.
    destruct (repr_pop _ _ _ _ _ _ Hrepr) as (Hx & Hp).
    destruct (repr_pop _ _ _ _ _ _ Hrepr') as (Hx' & Hp').
    rewrite Hx, Hx', !rem_incr by lia.
    destruct Hrepr as (_ & Hl & _). destruct Hrepr' as (_ & Hl' & _). simpl in Hl, Hl'.
    eexists _, _, _, _, _. split; [reflexivity |].
    split; [apply repr_push; [assumption | lia] |].
    split; [apply repr_push; [assumption | lia] |]. auto.
  - destruct f.
    + destruct q as [| x [| y q0]]; try discriminate. injection Hq as <- <-.
      destruct q' as [| x' [| y' q0']]; try discriminate. injection Hq' as <- <-.
      destruct (repr_pop _ _ _ _ _ _ Hrepr) as (Hx & Hp).
      destruct (repr_pop _ _ _ _ _ _ Hp) as (Hy & Hp2).
      destruct (repr_pop _ _ _ _ _ _ Hrepr') as (Hx' & Hp').
      destruct (repr_pop _ _ _ _ _ _ Hp') as (Hy' & Hp2').
      assert (Hr1 : 0 <= (r + 1) mod m < m) by (apply Z.mod_pos_bound; lia).
      rewrite Hx, Hx', !rem_incr by lia. rewrite Hy, Hy'.
      destruct Hrepr as (_ & Hl & _). destruct Hrepr' as (_ & Hl' & _). simpl in Hl, Hl'.
      destruct o; (eexists _, _, _, _, _; split; [simpl; reflexivity |];
        split; [apply repr_push; [assumption | lia] |];
        split; [apply repr_push; [assumption | lia] |]; auto).
    + destruct q as [| x q0]; [discriminate |].
      destruct q' as [| x' q0']; [discriminate |].
      destruct ds as [| d ds0]; [discriminate |].
      injection Hq as <- <-. injection Hq' as <- <-.
      destruct (repr_pop _ _ _ _ _ _ Hrepr) as (Hx & Hp).
      destruct (repr_pop _ _ _ _ _ _ Hrepr') as (Hx' & Hp').
      destruct (get_skipn _ _ _ _ Hdi Hds) as (Hd & Hrest).
      rewrite Hd, rem_small by lia. rewrite Hx, Hx', !rem_incr by lia.
      destruct Hrepr as (_ & Hl & _). destruct Hrepr' as (_ & Hl' & _). simpl in Hl, Hl'.
      destruct o; (eexists _, _, _, _, _; split; [simpl; reflexivity |];
        split; [apply repr_push; [assumption | lia] |];
        split; [apply repr_push; [assumption | lia] |]; repeat split; auto; lia).
Qed.

Lemma newRootLoop_sim flags skips orders decs m :
  forall n i hs hs' r w di q q' qf qf' ds ds',
    n = length (skipn i flags) ->
    repr m hs r w q -> repr m hs' r w q' -> 0 <= di ->
    qrun (skipn i flags) (skipn i skips) (skipn i orders) q (skipn (Z.to_nat di) decs)
      = Some (qf, ds) ->
    qrun (skipn i flags) (skipn i skips) (skipn i orders) q' (skipn (Z.to_nat di) decs)
      = Some (qf', ds') ->
    exists hs1 hs1' r1 w1 di1,
      newRootLoop flags skips orders decs m n i (mkNewState hs hs' (Int r) (Int w) di)
        = Ok (mkNewState hs1 hs1' (Int r1) (Int w1) di1) /\
      repr m hs1 r1 w1 qf /\ repr m hs1' r1 w1 qf'.
Proof.
  induction n as [| n IH]; intros i hs hs' r w di q q' qf qf' ds ds' Hn Hrepr Hrepr' Hdi Hq Hq'.
  - destruct (skipn i flags) eqn:E; [| discriminate]. simpl in Hq, Hq'.
    injection Hq as <- <-. injection Hq' as <- <-. simpl. eauto 10.
  - destruct (skipn i flags) as [| f fl] eqn:E; [discriminate |].
    cbn [Queue.qrun] in Hq, Hq'.
    destruct (qstep f _ _ q _) as [[q1 ds1] |] eqn:Hstep; [| discriminate].
    destruct (qstep f _ _ q' _) as [[q1' ds1'] |] eqn:Hstep'; [| discriminate].
    destruct (newRootStep_sim decs m _ _ _ _ _ _ _ _ _ _ _ _ _ _ _ Hrepr Hrepr' Hdi eq_refl
                              Hstep Hstep')
      as (hs1 & hs1' & r1 & w1 & di1 & Hs & Hr1 & Hr1' & Hdi1 & Hds1 & Heq).
    subst ds1'.
    cbn [MultiProofs.newRootLoop].
    rewrite !truthy_skipn, E. cbn [hd]. rewrite Hs. cbn [bind].
    assert (Efl : skipn (S i) flags = fl) by (rewrite skipn_S_tl, E; reflexivity).
    apply (IH (S i) hs1 hs1' r1 w1 di1 q1 q1' qf qf' ds ds'); try assumption.
    + rewrite Efl. simpl in Hn. lia.
    + rewrite Efl, !skipn_S_tl, Hds1. exact Hq.
    + rewrite Efl, !skipn_S_tl, Hds1. exact Hq'.
Qed.

End NewSim.

(* ================================================================= *)
(** * Multi-proofs: round trip, update, decommitments, index order *)

Section MultiProperties.
Variable keccak : Buffer -> Buffer -> Buffer.
Variable sortedHash : bool.

Local Abbreviation buildTree := (buildTree keccak sortedHash).
Local Abbreviation leafsAt := (leafsAt keccak).
Local Abbreviation generate := (generate sortedHash).
Local Abbreviation getRoot := (getRoot keccak sortedHash).
Local Abbreviation getNewRoot := (getNewRoot keccak sortedHash).
Local Abbreviation rootLoop := (rootLoop keccak sortedHash).

Lemma consumed_le flags : forall skips, 0 <= consumed flags skips <= Z.of_nat (length flags).
Proof.
  induction flags as [| f flags IH]; intros skips; [simpl; lia |].
  cbn [consumed length]. specialize (IH (tl skips)).
  destruct (negb f && negb (hd false skips)); lia.
Qed.

Lemma qrun_nil flags skips orders ds r :
  qrun keccak sortedHash flags skips orders [] ds = Some r -> flags = [].
Proof.
  destruct flags as [| f flags]; [reflexivity |]. cbn [qrun]. unfold qstep.
  destruct (hd false skips), f; discriminate.
Qed.

Lemma leafsAt_length E I : length (leafsAt E I) = length I.
Proof. unfold Inputs.leafsAt. apply length_map. Qed.

Lemma root_slot E r :
  getOpt (buildTree E) 1 = Some r <-> nodesOf keccak sortedHash E 1 = Some r.
Proof. now rewrite buildTree_get. Qed.

(** C1: for both hash variants, a tree of at most [2^30] elements and a
    non-empty, strictly ascending list of indices within range, the
    leaf images at the indices together with the flags, skips, orders and
    decommitments of the generated proof make [getRoot] return the
    internal root [tree[1]]; hashed with the element count it is the
    root of the tree. *)
Theorem multi_proof_roundtrip (elements : list Buffer) (indices : list Z) (fuel : nat) :
  Z.of_nat (length elements) <= 2 ^ 30 ->
  indices <> [] ->
  strictlyAscending indices = true ->
  inRange (Z.of_nat (length elements)) indices = true ->
  exists p r,
    generate false (buildTree elements) (Z.of_nat (length elements)) indices = Ok p /\
    getRoot fuel (leafsAt elements indices) [] (elementCount p)
            (flags p) (skips p) (orders p) (decommitments p)
      = Some (Ok (mkRoot (Some r) (Z.of_nat (length elements)))) /\
    getOpt (buildTree elements) 1 = Some r /\
    hashNode keccak (to32ByteBuffer (Z.of_nat (length elements))) r
      = rootOf keccak (Z.of_nat (length elements)) (getOpt (buildTree elements) 1).
Proof.
  intros HN HI Hasc Hrange.
  destruct (generated keccak sortedHash elements elements indices eq_refl HN Hasc Hrange
                      (fun _ _ _ => eq_refl)) as (o & Hg & _).
  destruct (verified keccak sortedHash elements elements indices eq_refl HN Hasc Hrange
                     (fun _ _ _ => eq_refl) _ HI Hg) as (v & s & Hv & Hloop & Hslot & _).
  eexists _, v. split; [exact Hg |].
  cbn [elementCount flags skips orders decommitments] in *.
  split; [| split].
  - unfold MultiProofs.getRoot, getRootBooleans. rewrite Hloop. cbn [bind].
    rewrite Hslot. reflexivity.
  - now apply root_slot.
  - rewrite (proj2 (root_slot _ _) Hv). unfold rootOf, to32ByteBuffer.
    destruct indices as [| x rest]; [congruence |].
    assert (0 <= x < Z.of_nat (length elements))
      by (apply (inRange_forall _ _ _ Hrange); simpl; auto).
    destruct (Z.ltb_spec 0 (Z.of_nat (length elements))); [reflexivity | lia].
Qed.

(** C6: a generated multi-proof holds as many decommitments as it has
    steps with neither the flag nor the skip bit set, at most one per
    step, and the loop of the verifier consumes exactly that many. *)
Theorem decommitment_count (elements : list Buffer) (indices : list Z) :
  Z.of_nat (length elements) <= 2 ^ 30 ->
  strictlyAscending indices = true ->
  inRange (Z.of_nat (length elements)) indices = true ->
  exists p s,
    generate false (buildTree elements) (Z.of_nat (length elements)) indices = Ok p /\
    Z.of_nat (length (decommitments p)) = consumed (flags p) (skips p) /\
    consumed (flags p) (skips p) <= Z.of_nat (length (flags p)) /\
    rootLoop (flags p) (skips p) (match orders p with Some o => o | None => [] end)
             (decommitments p) (Z.of_nat (length (leafsAt elements indices)))
             (length (flags p)) 0 (initState (leafsAt elements indices)) = Ok s /\
    decommitmentIndex s = Z.of_nat (length (decommitments p)).
Proof.
  intros HN Hasc Hrange.
  destruct (generated keccak sortedHash elements elements indices eq_refl HN Hasc Hrange
                      (fun _ _ _ => eq_refl)) as (o & Hg & Hrun & _ & _ & Hcons & _).
  destruct indices as [| x rest] eqn:EI.
  - cbn [Inputs.leafsAt map rev] in Hrun. pose proof (qrun_nil _ _ _ _ _ Hrun) as Hfl.
    eexists _, (initState []). split; [exact Hg |].
    cbn [elementCount flags skips orders decommitments].
    rewrite Hfl in *. cbn [consumed length MultiProofs.rootLoop] in *.
    cbn [Inputs.leafsAt map initState decommitmentIndex]. repeat split; try lia; reflexivity.
  - rewrite <- EI in *.
    assert (HI : indices <> []) by (rewrite EI; discriminate).
    destruct (verified keccak sortedHash elements elements indices eq_refl HN Hasc Hrange
                       (fun _ _ _ => eq_refl) _ HI Hg) as (v & s & Hv & Hloop & Hslot & Hdi).
    eexists _, s. split; [exact Hg |].
    cbn [elementCount flags skips orders decommitments] in *.
    pose proof (consumed_le (genFlags o) (genSkips o)).
    repeat split; try assumption; try lia.
Qed.

(** C7: generation throws the unsorted-indices error exactly when some
    index is smaller than the one before it (equal neighbours pass),
    and it succeeds on every strictly ascending list. *)
Theorem unsorted_indices_rejected (compact : bool) (tree : list (option Buffer)) (N : Z)
        (indices : list Z) :
  (generate compact tree N indices = Throw UnsortedIndices <-> ascending indices = false) /\
  (strictlyAscending indices = true -> exists p, generate false tree N indices = Ok p).
Proof.
  split.
  - unfold MultiProofs.generate, generateBits. destruct compact.
    + rewrite <- (generateBooleans_throws sortedHash tree N indices).
      destruct (generateBooleans sortedHash tree N indices) as [p | e]; cbn [bind].
      * destruct (Z.of_nat (length (flags p)) >? 255); split; discriminate.
      * tauto.
    + apply generateBooleans_throws.
  - intros H. apply generateBooleans_succeeds. now apply strictly_ascending.
Qed.

Lemma nth_map_in {A B} (f : A -> B) l n d d' :
  (n < length l)%nat -> nth n (map f l) d = f (nth n l d').
Proof.
  revert n. induction l as [| a l IH]; intros [| n] H; simpl in *; try lia; auto.
  apply IH. lia.
Qed.

Lemma updateElements_length E I R : length (updateElements E I R) = length E.
Proof. unfold updateElements. now rewrite length_map, zseq_length. Qed.

Lemma updateElements_at E I R t :
  0 <= t < Z.of_nat (length E) ->
  elementAt (updateElements E I R) t =
  match replacement t I R with Some e => e | None => elementAt E t end.
Proof.
  intros Ht. unfold elementAt at 1, updateElements.
  rewrite (nth_map_in _ _ _ _ 0) by (rewrite zseq_length; lia).
  unfold zseq. rewrite (nth_map_in _ _ _ _ O) by (rewrite length_seq; lia).
  rewrite seq_nth by lia.
  replace (0 + Z.of_nat (0 + Z.to_nat t)) with t by lia. reflexivity.
Qed.

Lemma replacement_absent t I R : ~ In t I -> replacement t I R = None.
Proof.
  revert R. induction I as [| i I IH]; intros R Hn; [reflexivity |].
  destruct R as [| e R]; [reflexivity |]. cbn [replacement].
  destruct (Z.eqb_spec i t) as [-> | Hne]; [exfalso; apply Hn; simpl; auto |].
  apply IH. intros Hin. apply Hn. simpl; auto.
Qed.

Lemma replacement_indices I : forall R,
  strictlyAscending I = true -> length R = length I ->
  map (fun x => replacement x I R) I = map Some R.
Proof.
  induction I as [| i I IH]; intros R Hs Hl; destruct R as [| e R]; try discriminate;
    [reflexivity |].
  cbn [map replacement]. rewrite Z.eqb_refl. f_equal.
  rewrite <- (IH R) by (try eapply strictly_tail; eauto).
  apply map_ext_in. intros x Hx.
  pose proof (strictly_head_lt _ _ Hs) as Hlt. rewrite Forall_forall in Hlt.
  specialize (Hlt x Hx). destruct (Z.eqb_spec i x); [lia | reflexivity].
Qed.

Lemma leafsAt_updated E I R :
  strictlyAscending I = true -> inRange (Z.of_nat (length E)) I = true ->
  length R = length I ->
  leafsAt (updateElements E I R) I = map (leafImage keccak) R.
Proof.
  intros Hs Hr Hl. unfold Inputs.leafsAt.
  transitivity (map (fun o => leafImage keccak (match o with Some e => e | None => 0 end))
                    (map (fun x => replacement x I R) I)).
  - rewrite map_map. apply map_ext_in. intros x Hx.
    pose proof (inRange_forall _ _ _ Hr Hx).
    rewrite updateElements_at by lia.
    assert (Hsome : In (replacement x I R) (map Some R)).
    { rewrite <- (replacement_indices I R) by assumption.
      apply (in_map (fun x => replacement x I R)). exact Hx. }
    apply in_map_iff in Hsome. destruct Hsome as (e & <- & _). reflexivity.
  - rewrite replacement_indices by assumption. rewrite map_map. reflexivity.
Qed.

Lemma seen_eq a b :
  (if sortedHash then None else Some a) = (if sortedHash then None else Some b) ->
  seen sortedHash a = seen sortedHash b.
Proof. unfold seen. destruct sortedHash; congruence. Qed.

(** C2: for a non-empty, strictly ascending list of indices within
    range and as many new elements, [getNewRoot] on the old and the new
    leaf images with the generated proof returns the internal root of the
    tree and the internal root of the tree with the positions replaced. *)
Theorem multi_proof_update (elements : list Buffer) (indices : list Z)
        (newElements : list Buffer) (fuel : nat) :
  Z.of_nat (length elements) <= 2 ^ 30 ->
  indices <> [] ->
  strictlyAscending indices = true ->
  inRange (Z.of_nat (length elements)) indices = true ->
  length newElements = length indices ->
  exists p r r',
    generate false (buildTree elements) (Z.of_nat (length elements)) indices = Ok p /\
    getNewRoot fuel (leafsAt elements indices) (map (leafImage keccak) newElements) []
               (elementCount p) (flags p) (skips p) (orders p) (decommitments p)
      = Some (Ok (mkNewRoot (Some r) (Some r') (Z.of_nat (length elements)))) /\
    getOpt (buildTree elements) 1 = Some r /\
    getOpt (buildTree (updateElements elements indices newElements)) 1 = Some r'.
Proof.
  intros HN HI Hasc Hrange Hlen.
  set (E' := updateElements elements indices newElements).
  assert (HlenE : length E' = length elements) by apply updateElements_length.
  assert (Hagree : forall t, 0 <= t < Z.of_nat (length elements) -> ~ In t indices ->
                             elementAt E' t = elementAt elements t).
  { intros t Ht Hn. unfold E'. rewrite updateElements_at by assumption.
    now rewrite replacement_absent. }
  destruct (generated keccak sortedHash elements elements indices eq_refl HN Hasc Hrange
                      (fun _ _ _ => eq_refl)) as (o & Hg & Hrun & _ & _ & _ & Hroot).
  destruct (generated keccak sortedHash elements E' indices HlenE HN Hasc Hrange Hagree)
    as (o' & Hg' & Hrun' & _ & _ & _ & Hroot').
  destruct (Hroot HI) as (v & Hq & Hv). destruct (Hroot' HI) as (v' & Hq' & Hv').
  rewrite Hq in Hrun. rewrite Hq' in Hrun'.
  rewrite Hg in Hg'. injection Hg' as Hd Hf Hs Ho.
  apply seen_eq in Ho. rewrite <- Hd, <- Hf, <- Hs, <- Ho in Hrun'.
  unfold E' in Hrun'. rewrite leafsAt_updated in Hrun' by assumption.
  assert (Hleafs : leafsAt elements indices <> []).
  { unfold Inputs.leafsAt. destruct indices; [congruence | discriminate]. }
  assert (Hnew : map (leafImage keccak) newElements <> []).
  { destruct newElements, indices; try discriminate; congruence. }
  assert (Hm : length (map (leafImage keccak) newElements) = length (leafsAt elements indices)).
  { now rewrite length_map, leafsAt_length. }
  pose proof (repr_init _ Hleafs) as Hr1. pose proof (repr_init _ Hnew) as Hr2.
  rewrite Hm in Hr2.
  destruct (newRootLoop_sim keccak sortedHash (genFlags o) (genSkips o)
              (seen sortedHash (genOrders o)) (defined (genDecommitments o))
              (Z.of_nat (length (leafsAt elements indices)))
              (length (genFlags o)) 0 _ _ 0 0 0 _ _ _ _ _ _ eq_refl Hr1 Hr2
              ltac:(lia) Hrun Hrun')
    as (hs1 & hs1' & r1 & w1 & di1 & Hloop & Hrepr & Hrepr').
  exists (mkProof [] (Z.of_nat (length elements)) (defined (genDecommitments o))
                  (genFlags o) (genSkips o)
                  (if sortedHash then None else Some (genOrders o))), v, v'.
  split; [exact Hg |]. cbn [elementCount flags skips orders decommitments].
  split; [| split].
  - unfold MultiProofs.getNewRoot, getNewRootBooleans.
    replace (match (if sortedHash then None else Some (genOrders o)) with
             | Some o0 => o0 | None => [] end) with (seen sortedHash (genOrders o))
      by (unfold seen; destruct sortedHash; reflexivity).
    rewrite Hloop. cbn [bind newWriteIndex oldHashes updateHashes].
    rewrite (repr_last _ _ r1 w1 [] v Hrepr), (repr_last _ _ r1 w1 [] v' Hrepr').
    reflexivity.
  - now apply root_slot.
  - now apply root_slot.
Qed.

End MultiProperties.

Lemma multi_proof_roundtrip_witness :
  exists p r,
    generate false false (buildTree toy false sample) (Z.of_nat (length sample)) [1; 3] = Ok p /\
    getRoot toy false 0 (leafsAt toy sample [1; 3]) [] (elementCount p)
            (flags p) (skips p) (orders p) (decommitments p)
      = Some (Ok (mkRoot (Some r) (Z.of_nat (length sample)))) /\
    getOpt (buildTree toy false sample) 1 = Some r /\
    hashNode toy (to32ByteBuffer (Z.of_nat (length sample))) r
      = rootOf toy (Z.of_nat (length sample)) (getOpt (buildTree toy false sample) 1).
Proof. apply (multi_proof_roundtrip toy false sample [1; 3] 0); evaluate. Defined.

(** The empty index list (C1): generation succeeds, and the verifier
    throws on the slot [-1] of its empty buffer. *)
Lemma multi_proof_roundtrip_empty_indices :
  strictlyAscending [] = true /\ inRange 5 [] = true /\
  exists p,
    generate false false (buildTree toy false sample) 5 [] = Ok p /\
    getRoot toy false 0 (leafsAt toy sample []) [] (elementCount p)
            (flags p) (skips p) (orders p) (decommitments p)
      = Some (Throw TypeError).
Proof. split; [reflexivity |]. split; [reflexivity |]. eexists. split; reflexivity. Qed.

Lemma multi_proof_update_witness :
  exists p r r',
    generate false false (buildTree toy false sample) (Z.of_nat (length sample)) [1; 3] = Ok p /\
    getNewRoot toy false 0 (leafsAt toy sample [1; 3]) (map (leafImage toy) [77; 88]) []
               (elementCount p) (flags p) (skips p) (orders p) (decommitments p)
      = Some (Ok (mkNewRoot (Some r) (Some r') (Z.of_nat (length sample)))) /\
    getOpt (buildTree toy false sample) 1 = Some r /\
    getOpt (buildTree toy false (updateElements sample [1; 3] [77; 88])) 1 = Some r'.
Proof. apply (multi_proof_update toy false sample [1; 3] [77; 88] 0); evaluate. Defined.

(** The empty index list (C2): the update automaton throws as well. *)
Lemma multi_proof_update_empty_indices :
  strictlyAscending [] = true /\ inRange 5 [] = true /\
  exists p,
    generate false false (buildTree toy false sample) 5 [] = Ok p /\
    getNewRoot toy false 0 (leafsAt toy sample []) (map (leafImage toy) []) []
               (elementCount p) (flags p) (skips p) (orders p) (decommitments p)
      = Some (Throw TypeError).
Proof. split; [reflexivity |]. split; [reflexivity |]. eexists. split; reflexivity. Qed.

Lemma decommitment_count_witness :
  exists p s,
    generate false false (buildTree toy false sample) (Z.of_nat (length sample)) [1; 3] = Ok p /\
    Z.of_nat (length (decommitments p)) = consumed (flags p) (skips p) /\
    consumed (flags p) (skips p) <= Z.of_nat (length (flags p)) /\
    rootLoop toy false (flags p) (skips p) (match orders p with Some o => o | None => [] end)
             (decommitments p) (Z.of_nat (length (leafsAt toy sample [1; 3])))
             (length (flags p)) 0 (initState (leafsAt toy sample [1; 3])) = Ok s /\
    decommitmentIndex s = Z.of_nat (length (decommitments p)).
Proof. apply (decommitment_count toy false sample [1; 3]); evaluate. Defined.

(** Two equal adjacent indices (C7): the list is not strictly ascending,
    and generation succeeds. *)
Lemma equal_adjacent_indices_accepted :
  strictlyAscending [2; 2] = false /\
  exists p, generate false false (buildTree toy false sample) 5 [2; 2] = Ok p.
Proof. split; [reflexivity |]. eexists. reflexivity. Qed.

(* ================================================================= *)
(** * Bit streams *)

Section Bits.

Lemma nonzero_land_pow2 x i : 0 <= i -> nonzero (Z.land x (2 ^ i)) = Z.testbit x i.
Proof.
  intros Hi. unfold nonzero. destruct (Z.testbit x i) eqn:E.
  - destruct (Z.eqb_spec (Z.land x (2 ^ i)) 0) as [H0 | H0]; [| reflexivity].
    assert (Hb : Z.testbit (Z.land x (2 ^ i)) i = true).
    { rewrite Z.land_spec, E, Z.pow2_bits_true by lia. reflexivity. }
    rewrite H0, Z.bits_0 in Hb. discriminate.
  - replace (Z.land x (2 ^ i)) with 0; [reflexivity |].
    symmetry. apply Z.bits_inj'. intros n Hn.
    rewrite Z.land_spec, Z.bits_0, Z.pow2_bits_eqb by lia.
    destruct (Z.eqb_spec i n) as [-> | Hne]; [now rewrite E | apply andb_false_r].
Qed.

Lemma shiftl_pow2 i : 0 <= i -> Z.shiftl (2 ^ i) 1 = 2 ^ (i + 1).
Proof. intros Hi. rewrite Z.shiftl_mul_pow2, Z.pow_add_r by lia. reflexivity. Qed.

Lemma testbit_boolset l : forall i, Z.testbit (toBigIntBoolSet l) (Z.of_nat i) = nth i l false.
Proof.
  induction l as [| b l IH]; intros i.
  - simpl. rewrite Z.bits_0. now destruct i.
  - cbn [toBigIntBoolSet]. rewrite Z.add_comm. destruct i as [| i].
    + simpl Z.of_nat. rewrite Z.testbit_0_r. reflexivity.
    + rewrite Nat2Z.inj_succ, Z.testbit_succ_r by lia. apply IH.
Qed.

Lemma boolset_nonneg l : 0 <= toBigIntBoolSet l.
Proof. induction l as [| [|] l IH]; cbn [toBigIntBoolSet Z.b2z]; lia. Qed.

Lemma boolset_bound l : toBigIntBoolSet l < 2 ^ Z.of_nat (length l).
Proof.
  induction l as [| b l IH]; [simpl; lia |].
  cbn [toBigIntBoolSet length]. rewrite Nat2Z.inj_succ, Z.pow_succ_r by lia.
  destruct b; cbn [Z.b2z]; lia.
Qed.

Lemma testbit_withStop l i :
  Z.testbit (withStop l) (Z.of_nat i) = nth i l false || (length l =? i)%nat.
Proof.
  unfold withStop. rewrite Z.lor_spec, testbit_boolset, Z.shiftl_1_l.
  rewrite Z.pow2_bits_eqb by lia. f_equal.
  destruct (Z.eqb_spec (Z.of_nat (length l)) (Z.of_nat i)), (Nat.eqb_spec (length l) i);
    try reflexivity; lia.
Qed.

Lemma noStop_nth fl : forall sl i,
  noStop fl sl -> length sl = length fl /\ truthy fl i && truthy sl i = false.
Proof.
  unfold truthy.
  induction fl as [| f fl IH]; intros [| s sl] i H; simpl in H; try contradiction.
  - split; [reflexivity | now destruct i].
  - destruct H as [H1 H2]. destruct (IH sl (pred i) H2) as [Hl Hn]. split; [simpl; lia |].
    destruct i as [| i]; [exact H1 | exact Hn].
Qed.

End Bits.

Section BitsEquiv.
Variable keccak : Buffer -> Buffer -> Buffer.
Variable sortedHash : bool.
Local Abbreviation bitsLoop := (bitsLoop keccak sortedHash).
Local Abbreviation rootLoop := (rootLoop keccak sortedHash).

Lemma order_bit orders i :
  match ordersWord orders with
  | Some o => nonzero o && nonzero (Z.land o (2 ^ Z.of_nat i))
  | None => false
  end = truthy (match orders with Some o => o | None => [] end) i.
Proof.
  unfold ordersWord, truthy. destruct orders as [o |]; [| now destruct i].
  unfold bufferToBigInt, to32ByteBoolBuffer, bigIntTo32ByteBuffer.
  rewrite nonzero_land_pow2, testbit_boolset by lia.
  destruct (nth i o false) eqn:E; [| apply andb_false_r].
  rewrite andb_true_r. unfold nonzero.
  destruct (Z.eqb_spec (toBigIntBoolSet o) 0) as [H0 | H0]; [| reflexivity].
  rewrite <- testbit_boolset, H0, Z.bits_0 in E. discriminate.
Qed.

(** On streams in which no step carries both bits, the loop over the
    words does what the loop over the arrays does, and then returns. *)
Lemma bitsLoop_equiv fl sl orders decs m N :
  noStop fl sl ->
  forall k i s fuel,
    (i + k = length fl)%nat -> (k < fuel)%nat ->
    bitsLoop fuel (withStop fl) (withStop sl) (ordersWord orders) decs m N
             (2 ^ Z.of_nat i) s =
    match rootLoop fl sl (match orders with Some o => o | None => [] end) decs m k i s with
    | Ok s' => Some (Ok (mkRoot (hashes s' (rootIndexOf m (writeIndex s'))) N))
    | Throw e => Some (Throw e)
    end.
Proof.
  intros Hns. induction k as [| k IH]; intros i s fuel Hik Hfuel;
    (destruct fuel as [| fuel]; [lia |]); cbn [MultiProofs.bitsLoop MultiProofs.rootLoop].
  - destruct (noStop_nth fl sl i Hns) as [Hl _].
    rewrite !nonzero_land_pow2, !testbit_withStop by lia.
    replace (length sl =? i)%nat with true by (symmetry; apply Nat.eqb_eq; lia).
    replace (length fl =? i)%nat with true by (symmetry; apply Nat.eqb_eq; lia).
    rewrite !orb_true_r. reflexivity.
  - destruct (noStop_nth fl sl i Hns) as [Hl Hn].
    rewrite !nonzero_land_pow2, !testbit_withStop by lia.
    replace (length sl =? i)%nat with false by (symmetry; apply Nat.eqb_neq; lia).
    replace (length fl =? i)%nat with false by (symmetry; apply Nat.eqb_neq; lia).
    rewrite !orb_false_r. fold (truthy fl i). fold (truthy sl i).
    rewrite andb_comm, Hn. rewrite order_bit.
    destruct (rootStep keccak sortedHash decs m (truthy fl i) (truthy sl i) _ s) as [s' | e];
      cbn [bind]; [| reflexivity].
    rewrite shiftl_pow2 by lia. replace (Z.of_nat i + 1) with (Z.of_nat (S i)) by lia.
    apply IH; lia.
Qed.

End BitsEquiv.

(* ================================================================= *)
(** * Compact multi-proofs *)

Section CompactProperties.
Variable keccak : Buffer -> Buffer -> Buffer.
Variable sortedHash : bool.

Local Abbreviation buildTree := (buildTree keccak sortedHash).
Local Abbreviation leafsAt := (leafsAt keccak).
Local Abbreviation generate := (generate sortedHash).
Local Abbreviation getRoot := (getRoot keccak sortedHash).
Local Abbreviation rootLoop := (rootLoop keccak sortedHash).

(** [getRootBits] on the words [generateBits] makes of a boolean proof. *)
Lemma getRootBits_generated fuel leafs N fl sl ol decs :
  0 <= N < 2 ^ 32 -> noStop fl sl -> (length fl < fuel)%nat ->
  let orders := if sortedHash then None else Some ol in
  getRootBits keccak sortedHash fuel leafs
    ([to32ByteBuffer N;
      bigIntTo32ByteBuffer (Z.lor (toBigIntBoolSet fl) (Z.shiftl 1 (Z.of_nat (length fl))));
      bigIntTo32ByteBuffer (Z.lor (toBigIntBoolSet sl) (Z.shiftl 1 (Z.of_nat (length fl))))]
       ++ match orders with
          | Some o => to32ByteBoolBuffer o :: decs
          | None => decs
          end) =
  match rootLoop fl sl (match orders with Some o => o | None => [] end) decs
                 (Z.of_nat (length leafs)) (length fl) 0 (initState leafs) with
  | Ok s' => Some (Ok (mkRoot (hashes s' (rootIndexOf (Z.of_nat (length leafs)) (writeIndex s'))) N))
  | Throw e => Some (Throw e)
  end.
Proof.
  intros HN Hns Hfuel orders.
  destruct (noStop_nth fl sl O Hns) as [Hl _].
  pose proof (bitsLoop_equiv keccak sortedHash fl sl orders decs (Z.of_nat (length leafs)) N
                             Hns (length fl) O (initState leafs) fuel eq_refl Hfuel) as Heq.
  change (2 ^ Z.of_nat 0) with 1 in Heq. rewrite <- Heq.
  unfold getRootBits, word, bufferFrom, get, bufferToBigInt, bigIntTo32ByteBuffer,
    from32ByteBuffer, to32ByteBuffer, withStop, ordersWord, orders.
  cbn [app nth_error Z.ltb Z.to_nat Z.compare Pos.to_nat Pos.iter_op Init.Nat.add].
  rewrite Z.mod_small by lia. rewrite Hl.
  destruct sortedHash; reflexivity.
Qed.

(** C4: for a non-empty, strictly ascending list of indices within
    range whose boolean-array proof has at most 255 steps, the compact
    proof exists, and [getRoot] returns the same root and element count
    on the compact proof as on the boolean-array proof. *)
Theorem compact_form_equivalence (elements : list Buffer) (indices : list Z)
        (proof : MultiProofs.proof) (fuel : nat) :
  Z.of_nat (length elements) <= 2 ^ 30 ->
  indices <> [] ->
  strictlyAscending indices = true ->
  inRange (Z.of_nat (length elements)) indices = true ->
  generate false (buildTree elements) (Z.of_nat (length elements)) indices = Ok proof ->
  Z.of_nat (length (flags proof)) <= 255 ->
  (length (flags proof) < fuel)%nat ->
  exists compact r,
    generate true (buildTree elements) (Z.of_nat (length elements)) indices = Ok compact /\
    getRoot fuel (leafsAt elements indices) (compactProof compact) (elementCount compact)
            (flags compact) (skips compact) (orders compact) (decommitments compact)
      = Some (Ok (mkRoot (Some r) (Z.of_nat (length elements)))) /\
    getRoot fuel (leafsAt elements indices) (compactProof proof) (elementCount proof)
            (flags proof) (skips proof) (orders proof) (decommitments proof)
      = Some (Ok (mkRoot (Some r) (Z.of_nat (length elements)))).
Proof.
  intros HN HI Hasc Hrange Hp H255 Hfuel.
  destruct (generated keccak sortedHash elements elements indices eq_refl HN Hasc Hrange
                      (fun _ _ _ => eq_refl)) as (o & Hg & _ & Hns & _).
  destruct (verified keccak sortedHash elements elements indices eq_refl HN Hasc Hrange
                     (fun _ _ _ => eq_refl) _ HI Hg) as (v & s & Hv & Hloop & Hslot & _).
  unfold MultiProofs.generate in Hp. rewrite Hg in Hp. injection Hp as <-.
  cbn [compactProof elementCount flags skips orders decommitments] in *.
  eexists _, v. split; [| split].
  - unfold MultiProofs.generate, generateBits. rewrite Hg. cbn [bind flags].
    replace (Z.of_nat (length (genFlags o)) >? 255) with false
      by (symmetry; rewrite Z.gtb_ltb; apply Z.ltb_ge; lia).
    reflexivity.
  - cbn [compactProof elementCount flags skips orders decommitments].
    unfold MultiProofs.getRoot. cbn [app].
    pose proof (getRootBits_generated fuel (leafsAt elements indices)
                  (Z.of_nat (length elements)) (genFlags o) (genSkips o) (genOrders o)
                  (defined (genDecommitments o)) ltac:(lia) Hns Hfuel) as Hbits.
    cbv zeta in Hbits. cbn [app] in Hbits. rewrite Hbits, Hloop, Hslot. reflexivity.
  - unfold MultiProofs.getRoot, getRootBooleans. rewrite Hloop. cbn [bind].
    rewrite Hslot. reflexivity.
Qed.

End CompactProperties.

Lemma compact_form_equivalence_witness :
  exists compact r,
    generate false true (buildTree toy false sample) (Z.of_nat (length sample)) [1; 3]
      = Ok compact /\
    getRoot toy false 10 (leafsAt toy sample [1; 3]) (compactProof compact)
            (elementCount compact) (flags compact) (skips compact) (orders compact)
            (decommitments compact)
      = Some (Ok (mkRoot (Some r) (Z.of_nat (length sample)))) /\
    getRoot toy false 10 (leafsAt toy sample [1; 3]) (compactProof sampleProof)
            (elementCount sampleProof) (flags sampleProof) (skips sampleProof)
            (orders sampleProof) (decommitments sampleProof)
      = Some (Ok (mkRoot (Some r) (Z.of_nat (length sample)))).
Proof.
  apply (compact_form_equivalence toy false sample [1; 3] sampleProof 10); evaluate.
Defined.

(** Where the two forms differ (C4): at the empty index list the compact
    form returns an undefined root and the boolean-array form throws; a
    proof of more than 255 steps has no compact form. *)
Lemma compact_form_differs :
  (exists p q,
     generate false false (buildTree toy false sample) 5 [] = Ok p /\
     generate false true (buildTree toy false sample) 5 [] = Ok q /\
     getRoot toy false 10 (leafsAt toy sample []) (compactProof p) (elementCount p)
             (flags p) (skips p) (orders p) (decommitments p)
       = Some (Throw TypeError) /\
     getRoot toy false 10 (leafsAt toy sample []) (compactProof q) (elementCount q)
             (flags q) (skips q) (orders q) (decommitments q)
       = Some (Ok (mkRoot None 5))) /\
  (strictlyAscending (zseq 0 257) = true /\
   exists p r,
     generate false false (buildTree toy false (many 257)) 257 (zseq 0 257) = Ok p /\
     length (flags p) = 264%nat /\
     getRoot toy false 10 (leafsAt toy (many 257) (zseq 0 257)) (compactProof p)
             (elementCount p) (flags p) (skips p) (orders p) (decommitments p)
       = Some (Ok (mkRoot (Some r) 257)) /\
     generate false true (buildTree toy false (many 257)) 257 (zseq 0 257)
       = Throw CapacityExceeded).
Proof.
  split.
  - eexists _, _. split; [vm_compute; reflexivity |]. split; [vm_compute; reflexivity |].
    split; vm_compute; reflexivity.
  - split; [vm_compute; reflexivity |].
    eexists _, _. split; [vm_compute; reflexivity |]. split; [vm_compute; reflexivity |].
    split; vm_compute; reflexivity.
Qed.

(* ================================================================= *)
(** * Words without a stop bit *)

Section NoStop.
Variable keccak : Buffer -> Buffer -> Buffer.
Variable sortedHash : bool.
Local Abbreviation rootStep := (rootStep keccak sortedHash).
Local Abbreviation bitsLoop := (bitsLoop keccak sortedHash).
Local Abbreviation callHash := (callHash keccak sortedHash).

Lemma callHash_throw l r e : callHash l r = Throw e -> e = TypeError.
Proof. unfold Common.callHash. destruct l, r; intros H; congruence. Qed.

Lemma rootStep_throw decs m f s o st e : rootStep decs m f s o st = Throw e -> e = TypeError.
Proof.
  unfold MultiProofs.rootStep. destruct s; [discriminate |].
  destruct o.
  - destruct (callHash _ _) eqn:E; cbn [bind]; [discriminate |].
    intros H. injection H as <-. eapply callHash_throw; eauto.
  - destruct (callHash _ _) eqn:E; cbn [bind]; [discriminate |].
    intros H. injection H as <-. eapply callHash_throw; eauto.
Qed.

Lemma rootStep_index decs m f s o st st' :
  rootStep decs m f s o st = Ok st' ->
  decommitmentIndex st' = decommitmentIndex st + (if negb f && negb s then 1 else 0).
Proof.
  unfold MultiProofs.rootStep. destruct s.
  - intros H. injection H as <-. cbn [decommitmentIndex]. rewrite andb_false_r. lia.
  - destruct (if o then _ else _) as [h | e]; cbn [bind]; [| discriminate].
    intros H. injection H as <-. cbn [decommitmentIndex]. destruct f; simpl; lia.
Qed.

Lemma rootStep_exhausted decs m o st :
  Z.of_nat (length decs) <= decommitmentIndex st ->
  rootStep decs m false false o st = Throw TypeError.
Proof.
  intros H. unfold MultiProofs.rootStep. rewrite get_out by assumption.
  unfold Common.callHash. destruct o, (hashes st (rem (readIndex st) m)); reflexivity.
Qed.

Lemma testbit_high x i : 0 <= x < 2 ^ 256 -> 256 <= i -> Z.testbit x i = false.
Proof.
  intros Hx Hi. destruct (Z.eq_dec x 0) as [-> | Hne]; [apply Z.bits_0 |].
  apply Z.bits_above_log2; [lia |].
  assert (Z.log2 x < 256) by (apply Z.log2_lt_pow2; lia). lia.
Qed.

Section Words.
Variables flags skips : Z.
Hypothesis Hflags : 0 <= flags < 2 ^ 256.
Hypothesis Hskips : 0 <= skips < 2 ^ 256.
Hypothesis Hnostop : Z.land flags skips = 0.

Lemma no_stop_at i :
  nonzero (Z.land skips (2 ^ Z.of_nat i)) && nonzero (Z.land flags (2 ^ Z.of_nat i)) = false.
Proof.
  rewrite !nonzero_land_pow2 by lia. rewrite andb_comm, <- Z.land_spec, Hnostop.
  apply Z.bits_0.
Qed.

Lemma bitsLoop_never_returns orders decs m N : forall fuel i s r,
  bitsLoop fuel flags skips orders decs m N (2 ^ Z.of_nat i) s <> Some (Ok r).
Proof.
  induction fuel as [| fuel IH]; intros i s r; cbn [MultiProofs.bitsLoop]; [discriminate |].
  rewrite no_stop_at.
  destruct (rootStep _ _ _ _ _ s) as [s' | e]; [| discriminate].
  rewrite shiftl_pow2 by lia. replace (Z.of_nat i + 1) with (Z.of_nat (S i)) by lia.
  apply IH.
Qed.

Lemma bitsLoop_fails orders decs m N : forall n i s fuel,
  0 <= decommitmentIndex s ->
  (Z.to_nat (256 - Z.of_nat i) +
   Z.to_nat (Z.of_nat (length decs) - decommitmentIndex s) <= n)%nat ->
  (n < fuel)%nat ->
  bitsLoop fuel flags skips orders decs m N (2 ^ Z.of_nat i) s = Some (Throw TypeError).
Proof.
  induction n as [| n IH]; intros i s fuel Hdi Hn Hfuel;
    (destruct fuel as [| fuel]; [lia |]); cbn [MultiProofs.bitsLoop]; rewrite no_stop_at.
  - rewrite !nonzero_land_pow2 by lia.
    rewrite (testbit_high flags), (testbit_high skips) by (assumption || lia).
    rewrite rootStep_exhausted by lia. reflexivity.
  - destruct (rootStep decs m _ _ _ s) as [s' | e] eqn:Estep.
    + rewrite shiftl_pow2 by lia. replace (Z.of_nat i + 1) with (Z.of_nat (S i)) by lia.
      pose proof (rootStep_index _ _ _ _ _ _ _ Estep) as Hdi'.
      apply IH; [destruct (negb _ && negb _); lia | | lia].
      destruct (Z.lt_ge_cases (Z.of_nat i) 256) as [Hlo | Hhi].
      * destruct (negb _ && negb _); lia.
      * rewrite !nonzero_land_pow2 in Estep, Hdi' by lia.
        rewrite (testbit_high flags), (testbit_high skips) in Estep, Hdi' by (assumption || lia).
        cbn [negb andb] in Hdi'.
        destruct (Z.le_gt_cases (Z.of_nat (length decs)) (decommitmentIndex s)) as [Hex | Hex].
        -- rewrite rootStep_exhausted in Estep by lia. discriminate.
        -- lia.
    + apply rootStep_throw in Estep. now subst e.
Qed.

End Words.

End NoStop.

(** C8: on a compact proof whose flags and skips words share no set bit,
    [getRoot] never returns a root, and with enough turns it ends: the
    caller receives the runtime error of a hash on an undefined operand
    (there is no test for a missing stop bit). *)
Theorem missing_stop_bit (keccak : Buffer -> Buffer -> Buffer) (sortedHash : bool)
          (leafs : list Buffer) (w0 flags skips : Buffer)
          (rest : list Buffer) (elementCount : Z) (fl sl : list bool)
          (ol : option (list bool)) (decs : list Buffer) :
    0 <= flags < 2 ^ 256 -> 0 <= skips < 2 ^ 256 -> Z.land flags skips = 0 ->
    (forall fuel r,
        getRoot keccak sortedHash fuel leafs (w0 :: flags :: skips :: rest)
                elementCount fl sl ol decs <> Some (Ok r)) /\
    (forall fuel, (257 + length rest <= fuel)%nat ->
        getRoot keccak sortedHash fuel leafs (w0 :: flags :: skips :: rest)
                elementCount fl sl ol decs = Some (Throw TypeError)).
Proof.
  intros Hf Hs Hno. unfold getRoot, getRootBits.
  change (word (w0 :: flags :: skips :: rest) 0) with (Ok w0).
  change (word (w0 :: flags :: skips :: rest) 1) with (Ok flags).
  change (word (w0 :: flags :: skips :: rest) 2) with (Ok skips).
  unfold bufferToBigInt. change 1 with (2 ^ Z.of_nat 0). split.
  - intros fuel r. destruct sortedHash.
    + apply bitsLoop_never_returns; assumption.
    + destruct rest as [| w3 rest'].
      * change (word [w0; flags; skips] 3) with (@Throw Buffer TypeError).
        cbn [bind]. discriminate.
      * change (word (w0 :: flags :: skips :: w3 :: rest') 3) with (Ok w3). cbn [bind].
        apply bitsLoop_never_returns; assumption.
  - intros fuel Hfuel. destruct sortedHash.
    + apply (bitsLoop_fails _ _ flags skips Hf Hs Hno _ _ _ _ (256 + length rest)%nat);
        cbn [initState decommitmentIndex skipn]; lia.
    + destruct rest as [| w3 rest'].
      * change (word [w0; flags; skips] 3) with (@Throw Buffer TypeError).
        cbn [bind]. reflexivity.
      * change (word (w0 :: flags :: skips :: w3 :: rest') 3) with (Ok w3). cbn [bind].
        apply (bitsLoop_fails _ _ flags skips Hf Hs Hno _ _ _ _ (256 + length rest')%nat);
          cbn [initState decommitmentIndex skipn length] in *; lia.
Qed.

Lemma missing_stop_bit_witness :
  (forall fuel r,
      getRoot toy false fuel [7] [1; 1; 2; 0] 0 [] [] None [] <> Some (Ok r)) /\
  (forall fuel, (257 + length [0] <= fuel)%nat ->
      getRoot toy false fuel [7] [1; 1; 2; 0] 0 [] [] None [] = Some (Throw TypeError)).
Proof. apply (missing_stop_bit toy false [7] 1 1 2 [0] 0 [] [] None []); evaluate. Defined.

(** Words without a stop bit (C8): the error that reaches the caller is
    the runtime error of the hash function. *)
Lemma missing_stop_bit_error :
  Z.land 1 2 = 0 /\
  getRoot toy false 300 [7] [1; 1; 2; 0] 0 [] [] None [] = Some (Throw TypeError) /\
  TypeError <> MalformedProof.
Proof. split; [reflexivity |]. split; [vm_compute; reflexivity | discriminate]. Qed.

(* ================================================================= *)
(** * The reads of the append verifier *)

Section AppendReads.
Import AppendProofs.
Variable keccak : Buffer -> Buffer -> Buffer.
Variable sortedHash : bool.
Local Abbreviation callHash := (Common.callHash keccak sortedHash).

Lemma popcount_nonneg bits : forall n, 0 <= popcount bits n <= Z.of_nat bits.
Proof.
  induction bits as [| bits IH]; intros n; [simpl; lia |].
  cbn [popcount]. specialize (IH (n / 2)). destruct (Z.odd n); cbn [Z.b2z]; lia.
Qed.

Lemma popcount_pos bits : forall n, 0 < n < 2 ^ Z.of_nat bits -> 1 <= popcount bits n.
Proof.
  induction bits as [| bits IH]; intros n Hn; [simpl in Hn; lia |].
  cbn [popcount]. pose proof (popcount_nonneg bits (n / 2)).
  destruct (Z.odd n) eqn:E; cbn [Z.b2z]; [lia |].
  rewrite Nat2Z.inj_succ, Z.pow_succ_r in Hn by lia.
  assert (Hev : n = 2 * (n / 2)).
  { rewrite <- Z.negb_even in E. apply negb_false_iff in E. apply Z.even_spec in E.
    destruct E as [m ->]. rewrite Z.mul_comm, Z.div_mul by lia. lia. }
  specialize (IH (n / 2) ltac:(lia)). lia.
Qed.

Lemma bitCount32_bounds N : 0 <= bitCount32 N <= 32.
Proof. unfold bitCount32. pose proof (popcount_nonneg 32 (toUint32 N)). lia. Qed.

Lemma bitCount32_pos N : 1 <= N < 2 ^ 32 -> 1 <= bitCount32 N.
Proof.
  intros H. unfold bitCount32, toUint32. rewrite Z.mod_small by lia.
  apply popcount_pos. change (2 ^ Z.of_nat 32) with (2 ^ 32). lia.
Qed.

Lemma get_in {A} (l : list A) i : 0 <= i < Z.of_nat (length l) -> exists v, get l i = Some v.
Proof.
  intros H. unfold get. destruct (Z.ltb_spec i 0); [lia |].
  destruct (nth_error l (Z.to_nat i)) eqn:E; [eauto |].
  apply nth_error_None in E. lia.
Qed.

Lemma get_negative {A} (l : list A) i : i < 0 -> get l i = None.
Proof. intros H. unfold get. destruct (Z.ltb_spec i 0); [reflexivity | lia]. Qed.

Lemma rootLoop_reads decs : forall n h reads,
  (n <= length decs)%nat ->
  exists r, rootLoop keccak sortedHash n decs (Some h) reads = (Ok (Some r), reads ++ countdown n).
Proof.
  induction n as [| n IH]; intros h reads Hn.
  - exists h. simpl. now rewrite app_nil_r.
  - cbn [rootLoop countdown].
    destruct (get_in decs (Z.of_nat n) ltac:(lia)) as [d Hd]. rewrite Hd.
    cbn [Common.callHash].
    destruct (IH (hashFunction keccak sortedHash d h) (reads ++ [Z.of_nat n]) ltac:(lia))
      as [r Hr].
    exists r. rewrite Hr. now rewrite <- app_assoc.
Qed.

Lemma newRootLoop_reads decs : forall n a h reads,
  (n <= length decs)%nat ->
  exists r r',
    newRootLoop keccak sortedHash n decs (Some a) (Some h) reads
      = (Ok (Some r, Some r'), reads ++ countdownTwice n).
Proof.
  induction n as [| n IH]; intros a h reads Hn.
  - exists h, a. simpl. now rewrite app_nil_r.
  - cbn [newRootLoop countdownTwice].
    destruct (get_in decs (Z.of_nat n) ltac:(lia)) as [d Hd]. rewrite Hd.
    cbn [Common.callHash].
    destruct (IH (hashFunction keccak sortedHash d a) (hashFunction keccak sortedHash d h)
                 (reads ++ [Z.of_nat n; Z.of_nat n]) ltac:(lia)) as (r & r' & Hr).
    exists r, r'. rewrite Hr. now rewrite <- app_assoc.
Qed.

Lemma countdown_bounds n i : In i (countdown n) -> 0 <= i < Z.of_nat n.
Proof.
  induction n as [| n IH]; intros H; [contradiction |].
  cbn [countdown In] in H. destruct H as [<- | H]; [lia | specialize (IH H); lia].
Qed.

Lemma countdownTwice_bounds n i : In i (countdownTwice n) -> 0 <= i < Z.of_nat n.
Proof.
  induction n as [| n IH]; intros H; [contradiction |].
  cbn [countdownTwice In] in H.
  destruct H as [<- | [<- | H]]; [lia | lia | specialize (IH H); lia].
Qed.

(** C10: [getRoot] and [getNewRoot] on a single leaf read
    [decommitments] at the indices [popcount(elementCount) - 1] down to
    0, all within bounds when [elementCount >= 1] and there are at least
    [popcount(elementCount)] decommitments; for [elementCount = 0] the
    first read is at index [-1] and no bound is tested. *)
Theorem append_reads_in_bounds (elementCount : Z) (decommitments : list Buffer)
        (appendLeaf : Buffer) (fuel : nat) :
  0 <= elementCount < 2 ^ 32 ->
  let k := Z.to_nat (bitCount32 elementCount) in
  (1 <= elementCount -> (k <= length decommitments)%nat ->
   (exists r, getRoot keccak sortedHash [] elementCount decommitments
              = (Ok r, countdown k)) /\
   (exists r, getNewRoot keccak sortedHash fuel (Single appendLeaf) [] elementCount
                         decommitments
              = Some (Ok r, countdownTwice k)) /\
   (forall i, In i (countdown k) \/ In i (countdownTwice k) ->
              0 <= i < Z.of_nat (length decommitments))) /\
  (elementCount = 0 ->
   getRoot keccak sortedHash [] elementCount decommitments
     = (Ok (mkRoot None 0), [-1]) /\
   getNewRoot keccak sortedHash fuel (Single appendLeaf) [] elementCount decommitments
     = Some (Throw TypeError, [-1; -1])).
Proof.
  intros HN k. split.
  - intros H1 Hk. pose proof (bitCount32_pos elementCount ltac:(lia)) as Hpos.
    assert (Hk' : k = S (Z.to_nat (bitCount32 elementCount - 1))) by (unfold k; lia).
    destruct (get_in decommitments (bitCount32 elementCount - 1) ltac:(lia)) as [d Hd].
    assert (Hz : bitCount32 elementCount - 1
                 = Z.of_nat (Z.to_nat (bitCount32 elementCount - 1))) by lia.
    split; [| split].
    + unfold getRoot, unpack. cbv zeta. rewrite Hd.
      destruct (rootLoop_reads decommitments (Z.to_nat (bitCount32 elementCount - 1)) d
                               [bitCount32 elementCount - 1] ltac:(lia)) as [r Hr].
      rewrite Hr. eexists. rewrite Hk'. cbn [countdown app]. rewrite <- Hz. reflexivity.
    + unfold getNewRoot, getNewRootSingle, unpack. cbv zeta. rewrite Hd.
      cbn [Common.callHash].
      destruct (newRootLoop_reads decommitments (Z.to_nat (bitCount32 elementCount - 1))
                  (hashFunction keccak sortedHash d appendLeaf) d
                  [bitCount32 elementCount - 1; bitCount32 elementCount - 1] ltac:(lia))
        as (r & r' & Hr).
      rewrite Hr. eexists. rewrite Hk'. cbn [countdownTwice app]. rewrite <- Hz. reflexivity.
    + intros i [Hi | Hi]; [apply countdown_bounds in Hi | apply countdownTwice_bounds in Hi];
        lia.
  - intros ->. split; reflexivity.
Qed.

End AppendReads.

Lemma append_reads_in_bounds_witness :
  let k := Z.to_nat (bitCount32 5) in
  (1 <= 5 -> (k <= length [21; 22])%nat ->
   (exists r, AppendProofs.getRoot toy false [] 5 [21; 22] = (Ok r, countdown k)) /\
   (exists r, AppendProofs.getNewRoot toy false 0 (AppendProofs.Single 9) [] 5 [21; 22]
              = Some (Ok r, countdownTwice k)) /\
   (forall i, In i (countdown k) \/ In i (countdownTwice k) ->
              0 <= i < Z.of_nat (length [21; 22]))) /\
  (5 = 0 ->
   AppendProofs.getRoot toy false [] 5 [21; 22] = (Ok (AppendProofs.mkRoot None 0), [-1]) /\
   AppendProofs.getNewRoot toy false 0 (AppendProofs.Single 9) [] 5 [21; 22]
     = Some (Throw TypeError, [-1; -1])).
Proof. apply (append_reads_in_bounds toy false 5 [21; 22] 9 0). evaluate. Defined.

(* ================================================================= *)
(** * Append proofs: the frontier *)

Import AppendProofs.

Section Levels.
Variable keccak : Buffer -> Buffer -> Buffer.
Variable sortedHash : bool.
Local Abbreviation sub := (sub keccak sortedHash).
Local Abbreviation parentOf := (parentOf keccak sortedHash).
Local Abbreviation hashFunction := (hashFunction keccak sortedHash).

Lemma pow2_pos k : 0 < 2 ^ Z.of_nat k.
Proof. apply Z.pow_pos_nonneg; lia. Qed.

Lemma pow2_S k : 2 ^ Z.of_nat (S k) = 2 * 2 ^ Z.of_nat k.
Proof. rewrite Nat2Z.inj_succ, Z.pow_succ_r by lia. reflexivity. Qed.

Lemma sub_undefined E k t :
  0 <= t -> Z.of_nat (length E) <= t * 2 ^ Z.of_nat k -> sub E k t = None.
Proof.
  intros Ht H. destruct (sub E k t) eqn:Es; [| reflexivity].
  assert (Hd : sub E k t <> None) by congruence.
  apply sub_defined in Hd; lia.
Qed.

Lemma sub_some E k t :
  0 <= t -> t * 2 ^ Z.of_nat k < Z.of_nat (length E) -> exists v, sub E k t = Some v.
Proof.
  intros Ht H. destruct (sub E k t) eqn:Es; [eauto |].
  assert (Hd : sub E k t <> None) by (apply sub_defined; assumption). congruence.
Qed.

(** A subtree that lies within the old elements is unchanged by an append. *)
Lemma sub_app E A k : forall t,
  0 <= t -> (t + 1) * 2 ^ Z.of_nat k <= Z.of_nat (length E) ->
  sub (E ++ A) k t = sub E k t.
Proof.
  induction k as [| k IH]; intros t Ht H.
  - simpl in H. cbn [Subtrees.sub]. rewrite length_app, Nat2Z.inj_add.
    destruct (Z.leb_spec 0 t); [| lia].
    destruct (Z.ltb_spec t (Z.of_nat (length E))); [| lia].
    destruct (Z.ltb_spec t (Z.of_nat (length E) + Z.of_nat (length A))); [| lia].
    cbn [andb]. rewrite app_nth1 by lia. reflexivity.
  - cbn [Subtrees.sub]. rewrite pow2_S in H. pose proof (pow2_pos k).
    rewrite !IH by nia. reflexivity.
Qed.

(** Above the top level the root is promoted unchanged. *)
Lemma sub_above E k :
  Z.of_nat (length E) <= 2 ^ Z.of_nat k -> sub E (S k) 0 = sub E k 0.
Proof.
  intros H. cbn [Subtrees.sub]. change (2 * 0) with 0. change (0 + 1) with 1.
  rewrite (sub_undefined E k 1) by lia.
  destruct (sub E k 0); reflexivity.
Qed.

Lemma sub_top E j : forall k,
  Z.of_nat (length E) <= 2 ^ Z.of_nat k -> sub E (k + j) 0 = sub E k 0.
Proof.
  induction j as [| j IH]; intros k H.
  - now rewrite Nat.add_0_r.
  - replace (k + S j)%nat with (S (k + j)) by lia. rewrite sub_above.
    + now apply IH.
    + etransitivity; [exact H |]. apply Z.pow_le_mono_r; lia.
Qed.

Lemma sub_root E k :
  Z.of_nat (length E) <= 2 ^ Z.of_nat k -> sub E k 0 = nodesOf keccak sortedHash E 1.
Proof.
  intros H. rewrite nodesOf_root.
  assert (Hd : Z.of_nat (length E) <= 2 ^ Z.of_nat (depthOf E)).
  { rewrite <- L_pow. apply leafCountOf_ge. }
  destruct (Nat.le_ge_cases k (depthOf E)) as [Hle | Hge].
  - replace (depthOf E) with (k + (depthOf E - k))%nat by lia. symmetry. now apply sub_top.
  - replace k with (depthOf E + (k - depthOf E))%nat by lia. now apply sub_top.
Qed.

Lemma frontier_zero E bits : forall k, frontier keccak sortedHash E bits k 0 = [].
Proof.
  induction bits as [| bits IH]; intros k; [reflexivity |].
  cbn [frontier]. change (Z.odd 0) with false. change (0 / 2) with 0. apply IH.
Qed.

Lemma frontier_S E bits k n :
  frontier keccak sortedHash E (S bits) k n =
  (if Z.odd n
   then match sub E k (n - 1) with Some v => [v] | None => [] end
   else []) ++ frontier keccak sortedHash E bits (S k) (n / 2).
Proof. reflexivity. Qed.

Lemma half_bound n bits : 0 <= n < 2 ^ Z.of_nat (S bits) -> 0 <= n / 2 < 2 ^ Z.of_nat bits.
Proof.
  intros Hn. rewrite pow2_S in Hn. split; [apply Z.div_pos; lia |].
  apply Z.div_lt_upper_bound; lia.
Qed.

Lemma frontier_fuel E bits : forall k n,
  0 <= n < 2 ^ Z.of_nat bits ->
  frontier keccak sortedHash E (S bits) k n = frontier keccak sortedHash E bits k n.
Proof.
  induction bits as [| bits IH]; intros k n Hn.
  - simpl in Hn. assert (n = 0) by lia. subst n. reflexivity.
  - rewrite (frontier_S E (S bits) k n), (frontier_S E bits k n). f_equal.
    apply IH. now apply half_bound.
Qed.

Lemma band_1 i : band i 1 = i mod 2.
Proof.
  unfold band. rewrite (toInt32_small 1) by lia.
  change 1 with (Z.ones 1). rewrite Z.land_ones by lia. change (2 ^ 1) with 2.
  unfold toInt32. rewrite Zminus_mod.
  rewrite (Z.mod_mod_divide (i + 2 ^ 31) (2 ^ 32) 2) by (exists (2 ^ 31); reflexivity).
  rewrite <- Zminus_mod. replace (i + 2 ^ 31 - 2 ^ 31) with i by lia. reflexivity.
Qed.

Lemma odd_mod2 n : (n mod 2 =? 0) = negb (Z.odd n).
Proof. rewrite Zmod_odd. destruct (Z.odd n); reflexivity. Qed.

Lemma buffersFrom_some l : buffersFrom (map Some l) = Ok l.
Proof. induction l as [| x l IH]; [reflexivity |]. cbn [map buffersFrom bufferFrom bind]. now rewrite IH. Qed.

Section Old.
Variable E : list Buffer.
Local Abbreviation N := (Z.of_nat (length E)).
Local Abbreviation d := (depthOf E).
Local Abbreviation tree := (buildTree keccak sortedHash E).
Local Abbreviation F := (frontier keccak sortedHash E 32).
Hypothesis HN1 : 1 <= N.
Hypothesis HN : N <= 2 ^ 30.

Lemma N_le_pow : N <= 2 ^ Z.of_nat d.
Proof. rewrite <- L_pow. apply leafCountOf_ge. Qed.

Lemma N_gt_half : (1 <= d)%nat -> 2 ^ Z.of_nat (d - 1) < N.
Proof.
  intros Hd. unfold depthOf in *.
  destruct (Z.le_gt_cases N 1) as [H1 | H1].
  - rewrite Z.max_r in Hd by lia. change (Z.log2_up 1) with 0 in Hd. simpl in Hd. lia.
  - rewrite Z.max_l in * by lia. pose proof (Z.log2_up_spec N H1) as Hs.
    replace (Z.of_nat (Z.to_nat (Z.log2_up N) - 1)) with (Z.pred (Z.log2_up N)) by lia.
    lia.
Qed.

Lemma depth_le_30 : (d <= 30)%nat.
Proof.
  assert (H : 2 ^ Z.of_nat d <= 2 ^ 30).
  { rewrite <- L_pow. apply leafCountOf_bound; lia. }
  apply Z.pow_le_mono_r_iff in H; lia.
Qed.

Lemma shifted_bounds k :
  (k <= d)%nat -> 0 <= N / 2 ^ Z.of_nat k <= 2 ^ Z.of_nat (d - k).
Proof.
  intros Hk. pose proof (pow2_pos k). split; [apply Z.div_pos; lia |].
  apply Z.div_le_upper_bound; [lia |].
  rewrite <- Z.pow_add_r by lia. replace (Z.of_nat k + Z.of_nat (d - k)) with (Z.of_nat d) by lia.
  apply N_le_pow.
Qed.

Lemma shifted_pos k : (k < d)%nat -> 1 <= N / 2 ^ Z.of_nat k.
Proof.
  intros Hk. pose proof (pow2_pos k). apply Z.div_le_lower_bound; [lia |].
  pose proof (N_gt_half ltac:(lia)).
  assert (2 ^ Z.of_nat k <= 2 ^ Z.of_nat (d - 1)) by (apply Z.pow_le_mono_r; lia). lia.
Qed.

Lemma shifted_half k : N / 2 ^ Z.of_nat k / 2 = N / 2 ^ Z.of_nat (S k).
Proof.
  pose proof (pow2_pos k). rewrite Z.div_div by lia. now rewrite pow2_S, Z.mul_comm.
Qed.

Lemma shifted_32 k : 0 <= N / 2 ^ Z.of_nat k < 2 ^ Z.of_nat 31.
Proof.
  pose proof (pow2_pos k). split; [apply Z.div_pos; lia |].
  apply Z.div_lt_upper_bound; [lia |]. change (2 ^ Z.of_nat 31) with (2 ^ 31). nia.
Qed.

(** The frontier element of level [k], when there is one. *)
Lemma frontier_head k :
  Z.odd (N / 2 ^ Z.of_nat k) = true ->
  exists v, sub E k (N / 2 ^ Z.of_nat k - 1) = Some v /\
            F k (N / 2 ^ Z.of_nat k) = v :: F (S k) (N / 2 ^ Z.of_nat (S k)).
Proof.
  intros Hodd. pose proof (pow2_pos k). pose proof (shifted_32 k) as Hb.
  assert (Hn1 : 1 <= N / 2 ^ Z.of_nat k).
  { destruct (Z.eq_dec (N / 2 ^ Z.of_nat k) 0) as [H0 | H0]; [rewrite H0 in Hodd; discriminate | lia]. }
  destruct (sub_some E k (N / 2 ^ Z.of_nat k - 1) ltac:(lia)) as [v Hv].
  { pose proof (Z.mul_div_le N (2 ^ Z.of_nat k) ltac:(lia)). nia. }
  exists v. split; [exact Hv |].
  rewrite (frontier_S E 31 k). rewrite Hodd, Hv. cbn [app]. f_equal.
  rewrite shifted_half. symmetry. apply frontier_fuel. apply shifted_32.
Qed.

Lemma frontier_skip k :
  Z.odd (N / 2 ^ Z.of_nat k) = false ->
  F k (N / 2 ^ Z.of_nat k) = F (S k) (N / 2 ^ Z.of_nat (S k)).
Proof.
  intros Hodd. rewrite (frontier_S E 31 k). rewrite Hodd. cbn [app].
  rewrite shifted_half. symmetry. apply frontier_fuel. apply shifted_32.
Qed.

Lemma generateLoop_spec : forall j k acc fuel,
  (k + j = d)%nat -> (j + 2 <= fuel)%nat ->
  generateLoop fuel tree (2 ^ Z.of_nat j + N / 2 ^ Z.of_nat k) acc =
  Some (map Some (rev (F k (N / 2 ^ Z.of_nat k))) ++ acc).
Proof.
  induction j as [| j IH]; intros k acc fuel Hkj Hfuel.
  - destruct fuel as [| [| fuel]]; try lia.
    assert (k = d) by lia. subst k.
    pose proof (shifted_bounds d ltac:(lia)) as Hb. rewrite Nat.sub_diag in Hb.
    change (2 ^ Z.of_nat 0) with 1 in *.
    assert (Hc : N / 2 ^ Z.of_nat d = 0 \/ N / 2 ^ Z.of_nat d = 1) by lia.
    destruct Hc as [Hc | Hc]; rewrite Hc.
    + rewrite frontier_zero. reflexivity.
    + destruct (frontier_head d) as (v & Hv & HF); [rewrite Hc; reflexivity |].
      rewrite Hc in HF, Hv. rewrite HF.
      assert (Hz : N / 2 ^ Z.of_nat (S d) = 0).
      { rewrite <- shifted_half, Hc. reflexivity. }
      rewrite Hz, frontier_zero.
      change (generateLoop (S (S fuel)) tree (1 + 1) acc) with
        (generateLoop (S fuel) tree (ushr 2 1) (getOpt tree 1 :: acc)).
      rewrite buildTree_get, <- (sub_root E d) by apply N_le_pow.
      change (1 - 1) with 0 in Hv. rewrite Hv. reflexivity.
  - destruct fuel as [| fuel]; [lia |].
    assert (Hk : (k < d)%nat) by lia.
    pose proof (shifted_bounds k ltac:(lia)) as Hb.
    pose proof (shifted_pos k Hk) as Hp.
    replace (d - k)%nat with (S j) in Hb by lia.
    set (n := N / 2 ^ Z.of_nat k) in *.
    assert (Hpj : 2 ^ Z.of_nat (S j) = 2 * 2 ^ Z.of_nat j) by apply pow2_S.
    pose proof (pow2_pos j) as Hpos.
    assert (H30 : 2 ^ Z.of_nat (S j) <= 2 ^ 30).
    { apply Z.pow_le_mono_r; [lia |]. pose proof depth_le_30. lia. }
    set (i := 2 ^ Z.of_nat (S j) + n).
    assert (Hi : 3 <= i < 2 ^ 32) by (unfold i; lia).
    cbn [generateLoop]. fold i.
    replace (i >? 1) with true by (symmetry; rewrite Z.gtb_ltb; apply Z.ltb_lt; lia).
    replace (i =? 2) with false by (symmetry; apply Z.eqb_neq; lia).
    rewrite orb_false_r, band_1.
    assert (Hmod : i mod 2 = n mod 2).
    { unfold i. rewrite Hpj, Z.add_comm, Z.mul_comm, Z.mod_add by lia. reflexivity. }
    rewrite Hmod, odd_mod2, negb_involutive.
    assert (Hhalf : ushr i 1 = 2 ^ Z.of_nat j + N / 2 ^ Z.of_nat (S k)).
    { rewrite ushr_1 by lia. unfold i. rewrite Hpj, Z.add_comm, Z.mul_comm.
      rewrite Z.div_add by lia. unfold n. rewrite shifted_half. lia. }
    rewrite Hhalf. rewrite IH by lia.
    destruct (Z.odd n) eqn:Hodd.
    + destruct (frontier_head k Hodd) as (v & Hv & HF). fold n in Hv, HF.
      rewrite HF. cbn [rev]. rewrite map_app, <- app_assoc. cbn [map app].
      do 3 f_equal. rewrite buildTree_get.
      replace (i - 1) with (2 ^ Z.of_nat (d - k) + (n - 1))
        by (unfold i; replace (d - k)%nat with (S j) by lia; lia).
      rewrite nodesOf_sub by (replace (d - k)%nat with (S j) by lia; lia).
      exact Hv.
    + pose proof (frontier_skip k Hodd) as HF. fold n in HF. rewrite HF. reflexivity.
Qed.

(** What [generate] returns for the tree. *)
Lemma generate_spec compact fuel :
  (33 <= fuel)%nat ->
  generate fuel compact tree N =
  Some (Ok (if compact
            then mkProof (to32ByteBuffer N :: rev (F O N)) 0 []
            else mkProof [] N (rev (F O N)))).
Proof.
  intros Hfuel. unfold generate. rewrite buildTree_length.
  pose proof (leafCountOf_pos N). pose proof (leafCountOf_bound N 30 ltac:(lia) HN).
  rewrite ushr_1 by lia.
  replace (2 * leafCountOf N / 2) with (leafCountOf N)
    by (rewrite Z.mul_comm, Z.div_mul; lia).
  rewrite L_pow.
  pose proof depth_le_30.
  pose proof (generateLoop_spec d O [] fuel ltac:(lia) ltac:(lia)) as Hg.
  change (2 ^ Z.of_nat 0) with 1 in Hg. rewrite Z.div_1_r in Hg. rewrite Hg.
  rewrite app_nil_r, buffersFrom_some. cbn [bind]. destruct compact; reflexivity.
Qed.

End Old.

Lemma floor_half N n k :
  n * 2 ^ Z.of_nat k <= N < (n + 1) * 2 ^ Z.of_nat k ->
  (n / 2) * 2 ^ Z.of_nat (S k) <= N < (n / 2 + 1) * 2 ^ Z.of_nat (S k).
Proof.
  intros H. rewrite pow2_S. pose proof (pow2_pos k).
  pose proof (Z.div_mod n 2 ltac:(lia)). pose proof (Z.mod_pos_bound n 2 ltac:(lia)). nia.
Qed.

Lemma odd_half n : Z.odd n = true -> 2 * (n / 2) = n - 1.
Proof.
  intros H. pose proof (Z.div_mod n 2 ltac:(lia)). rewrite Zmod_odd, H in H0. lia.
Qed.

Lemma even_half n : Z.odd n = false -> 2 * (n / 2) = n.
Proof.
  intros H. pose proof (Z.div_mod n 2 ltac:(lia)). rewrite Zmod_odd, H in H0. lia.
Qed.

Lemma floor_div N k :
  0 <= N -> (N / 2 ^ Z.of_nat k) * 2 ^ Z.of_nat k <= N < (N / 2 ^ Z.of_nat k + 1) * 2 ^ Z.of_nat k.
Proof.
  intros HN. pose proof (pow2_pos k).
  pose proof (Z.mul_div_le N (2 ^ Z.of_nat k) ltac:(lia)).
  pose proof (Z.mul_succ_div_gt N (2 ^ Z.of_nat k) ltac:(lia)). lia.
Qed.

(** The path from a last node up to the root, through the frontier of the
    old elements [E], in a tree over [E'] that keeps the complete subtrees
    of [E] and has at most one element more. *)
Section Path.
Variables E E' : list Buffer.
Hypothesis Hkeep : forall k t,
  0 <= t -> (t + 1) * 2 ^ Z.of_nat k <= Z.of_nat (length E) -> sub E' k t = sub E k t.
Hypothesis Hlast : Z.of_nat (length E') <= Z.of_nat (length E) + 1.

Lemma path_root : forall bits k n acc,
  n * 2 ^ Z.of_nat k <= Z.of_nat (length E) < (n + 1) * 2 ^ Z.of_nat k ->
  sub E' k n = Some acc -> 0 <= n < 2 ^ Z.of_nat bits ->
  rootFrom keccak sortedHash (Some acc) (frontier keccak sortedHash E bits k n)
    = sub E' (k + bits) 0.
Proof.
  induction bits as [| bits IH]; intros k n acc Hfl Hacc Hn.
  - simpl in Hn. assert (n = 0) by lia. subst n. rewrite Nat.add_0_r. now rewrite Hacc.
  - rewrite frontier_S. pose proof (pow2_pos k) as Hp.
    replace (k + S bits)%nat with (S k + bits)%nat by lia.
    pose proof (floor_half _ _ _ Hfl) as Hfl'. pose proof (half_bound _ _ Hn) as Hn'.
    destruct (Z.odd n) eqn:Hodd.
    + assert (Hn1 : 1 <= n) by (destruct (Z.eq_dec n 0); [subst; discriminate | lia]).
      destruct (sub_some E k (n - 1) ltac:(lia) ltac:(nia)) as [v Hv].
      rewrite Hv. cbn [app]. unfold rootFrom. cbn [fold_left foldStep].
      apply IH; try assumption.
      cbn [Subtrees.sub]. rewrite odd_half by assumption.
      replace (n - 1 + 1) with n by lia.
      rewrite Hkeep by (try lia; nia). rewrite Hv, Hacc. reflexivity.
    + cbn [app]. apply IH; try assumption.
      cbn [Subtrees.sub]. rewrite even_half by assumption. rewrite Hacc.
      rewrite (sub_undefined E' k (n + 1)) by (try lia; nia). reflexivity.
Qed.
End Path.

Section OldRoot.
Variable E : list Buffer.
Hypothesis HN1 : 1 <= Z.of_nat (length E).

Lemma frontier_root : forall bits k n,
  n * 2 ^ Z.of_nat k = Z.of_nat (length E) -> 1 <= n < 2 ^ Z.of_nat bits ->
  rootFrom keccak sortedHash None (frontier keccak sortedHash E bits k n)
    = sub E (k + bits) 0.
Proof.
  induction bits as [| bits IH]; intros k n Hex Hn.
  - simpl in Hn. lia.
  - rewrite frontier_S. pose proof (pow2_pos k) as Hp.
    replace (k + S bits)%nat with (S k + bits)%nat by lia.
    assert (Hfl : n * 2 ^ Z.of_nat k <= Z.of_nat (length E) < (n + 1) * 2 ^ Z.of_nat k) by nia.
    pose proof (floor_half _ _ _ Hfl) as Hfl'.
    assert (Hn0 : 0 <= n < 2 ^ Z.of_nat (S bits)) by lia.
    pose proof (half_bound _ _ Hn0) as Hn'.
    destruct (Z.odd n) eqn:Hodd.
    + destruct (sub_some E k (n - 1) ltac:(lia) ltac:(nia)) as [v Hv].
      rewrite Hv. cbn [app]. unfold rootFrom. cbn [fold_left foldStep].
      apply (path_root E E (fun _ _ _ _ => eq_refl) ltac:(lia)); try assumption.
      cbn [Subtrees.sub]. rewrite odd_half by assumption.
      replace (n - 1 + 1) with n by lia.
      rewrite Hv, (sub_undefined E k n) by (try lia; nia). reflexivity.
    + cbn [app]. apply IH.
      * rewrite pow2_S. pose proof (even_half n Hodd). nia.
      * pose proof (even_half n Hodd). lia.
Qed.

Lemma old_root :
  Z.of_nat (length E) < 2 ^ 32 ->
  rootFrom keccak sortedHash None (frontier keccak sortedHash E 32 O (Z.of_nat (length E)))
    = nodesOf keccak sortedHash E 1.
Proof.
  intros H. rewrite (frontier_root 32 O (Z.of_nat (length E))).
  - apply sub_root. change (2 ^ Z.of_nat (0 + 32)) with (2 ^ 32). lia.
  - change (2 ^ Z.of_nat 0) with 1. lia.
  - change (2 ^ Z.of_nat 32) with (2 ^ 32). lia.
Qed.

Lemma frontier_length : forall bits k n,
  n * 2 ^ Z.of_nat k <= Z.of_nat (length E) -> 0 <= n ->
  Z.of_nat (length (frontier keccak sortedHash E bits k n)) = popcount bits n.
Proof.
  induction bits as [| bits IH]; intros k n Hfl Hn; [reflexivity |].
  rewrite frontier_S, length_app, Nat2Z.inj_add. cbn [popcount].
  pose proof (pow2_pos k) as Hp.
  rewrite IH.
  - f_equal. destruct (Z.odd n) eqn:Hodd; [| reflexivity].
    assert (Hn1 : 1 <= n) by (destruct (Z.eq_dec n 0); [subst; discriminate | lia]).
    destruct (sub_some E k (n - 1) ltac:(lia) ltac:(nia)) as [v Hv]. rewrite Hv. reflexivity.
  - rewrite pow2_S. pose proof (Z.div_mod n 2 ltac:(lia)).
    pose proof (Z.mod_pos_bound n 2 ltac:(lia)). nia.
  - apply Z.div_pos; lia.
Qed.
End OldRoot.

End Levels.

(* ================================================================= *)
(** * Append proofs: a single leaf *)

Section AppendVerify.
Variable keccak : Buffer -> Buffer -> Buffer.
Variable sortedHash : bool.
Local Abbreviation sub := (sub keccak sortedHash).
Local Abbreviation hashFunction := (hashFunction keccak sortedHash).
Local Abbreviation rootFrom := (rootFrom keccak sortedHash).
Local Abbreviation frontier := (frontier keccak sortedHash).

Lemma get_middle {A} (l : list A) x r : get (l ++ x :: r) (Z.of_nat (length l)) = Some x.
Proof.
  unfold get. destruct (Z.ltb_spec (Z.of_nat (length l)) 0); [lia |].
  rewrite Nat2Z.id, nth_error_app2, Nat.sub_diag by lia. reflexivity.
Qed.

Lemma get_rev_middle {A} (l : list A) x r :
  get (rev l ++ x :: r) (Z.of_nat (length l)) = Some x.
Proof. rewrite <- (length_rev l). apply get_middle. Qed.

Lemma rootLoop_fold : forall Frem h consumed reads,
  exists reads',
    rootLoop keccak sortedHash (length Frem) (rev Frem ++ consumed) (Some h) reads
      = (Ok (rootFrom (Some h) Frem), reads').
Proof.
  induction Frem as [| f Frem IH]; intros h consumed reads.
  - eexists. reflexivity.
  - cbn [length rootLoop rev]. rewrite <- app_assoc. cbn [app].
    rewrite get_rev_middle. cbn [Common.callHash].
    destruct (IH (hashFunction f h) (f :: consumed) (reads ++ [Z.of_nat (length Frem)]))
      as [reads' Hr].
    rewrite Hr. eexists. reflexivity.
Qed.

Lemma newRootLoop_fold : forall Frem a h consumed reads,
  exists reads',
    newRootLoop keccak sortedHash (length Frem) (rev Frem ++ consumed) (Some a) (Some h) reads
      = (Ok (rootFrom (Some h) Frem, rootFrom (Some a) Frem), reads').
Proof.
  induction Frem as [| f Frem IH]; intros a h consumed reads.
  - eexists. reflexivity.
  - cbn [length newRootLoop rev]. rewrite <- app_assoc. cbn [app].
    rewrite get_rev_middle. cbn [Common.callHash].
    destruct (IH (hashFunction f a) (hashFunction f h) (f :: consumed)
                 (reads ++ [Z.of_nat (length Frem); Z.of_nat (length Frem)]))
      as [reads' Hr].
    rewrite Hr. eexists. reflexivity.
Qed.

Section Trees.
Variable E : list Buffer.
Local Abbreviation N := (Z.of_nat (length E)).
Local Abbreviation F := (frontier E 32 O N).
Hypothesis HN1 : 1 <= N.
Hypothesis HN : N < 2 ^ 30.

Lemma F_length : Z.of_nat (length F) = bitCount32 N.
Proof.
  unfold bitCount32, toUint32. rewrite Z.mod_small by lia.
  apply frontier_length; change (2 ^ Z.of_nat 0) with 1; lia.
Qed.

Lemma F_nonempty : exists f F', F = f :: F'.
Proof.
  pose proof F_length as Hl. pose proof (bitCount32_pos N ltac:(lia)).
  destruct F as [| f F']; [simpl in Hl; lia | eauto].
Qed.

(** The two roots [getNewRootSingle] returns on the generated
    decommitments. *)
Lemma single_roots x compactProof elementCount decommitments :
  unpack compactProof elementCount decommitments = Ok (N, rev F) ->
  exists reads,
    getNewRootSingle keccak sortedHash (leafImage keccak x) compactProof elementCount
                     decommitments
      = (Ok (mkNewRoot (nodesOf keccak sortedHash E 1)
                       (nodesOf keccak sortedHash (E ++ [x]) 1) N), reads).
Proof.
  intros Hu. unfold getNewRootSingle. rewrite Hu.
  destruct F_nonempty as (f & F' & HF).
  pose proof F_length as Hl. rewrite HF in Hl. cbn [length] in Hl.
  pose proof (old_root keccak sortedHash E HN1 ltac:(lia)) as Hold.
  rewrite HF in *. cbn [rev].
  replace (bitCount32 N - 1) with (Z.of_nat (length F')) by lia.
  rewrite get_rev_middle. cbn [Common.callHash]. rewrite Nat2Z.id.
  destruct (newRootLoop_fold F' (hashFunction f (leafImage keccak x)) f [f]
              [Z.of_nat (length F'); Z.of_nat (length F')]) as [reads Hr].
  rewrite Hr. exists reads. do 3 f_equal.
  - exact Hold.
  - change (rootFrom (Some (hashFunction f (leafImage keccak x))) F')
      with (rootFrom (Some (leafImage keccak x)) (f :: F')).
    rewrite <- HF.
    rewrite (path_root keccak sortedHash E (E ++ [x])).
    + apply sub_root. rewrite length_app, Nat2Z.inj_add. cbn [length].
      change (2 ^ Z.of_nat (0 + 32)) with (2 ^ 32). lia.
    + intros k t Ht Hc. now apply sub_app.
    + rewrite length_app, Nat2Z.inj_add. cbn [length]. lia.
    + change (2 ^ Z.of_nat 0) with 1. lia.
    + cbn [Subtrees.sub]. rewrite length_app, Nat2Z.inj_add. cbn [length].
      destruct (Z.leb_spec 0 N); [| lia].
      destruct (Z.ltb_spec N (N + Z.of_nat 1)); [| lia]. cbn [andb].
      rewrite Nat2Z.id, app_nth2, Nat.sub_diag by lia. reflexivity.
    + change (2 ^ Z.of_nat 32) with (2 ^ 32). lia.
Qed.

End Trees.
End AppendVerify.

(* ================================================================= *)
(** * Append proofs: several leaves *)

Section Multi.
Variable keccak : Buffer -> Buffer -> Buffer.
Variable sortedHash : bool.
Variables E A : list Buffer.
Variable decs : list Buffer.
Local Abbreviation sub := (sub keccak sortedHash).
Local Abbreviation hashFunction := (hashFunction keccak sortedHash).
Local Abbreviation rootFrom := (rootFrom keccak sortedHash).
Local Abbreviation F := (frontier keccak sortedHash E 32).
Local Abbreviation N := (Z.of_nat (length E)).
Local Abbreviation N2 := (Z.of_nat (length E) + Z.of_nat (length A)).
Local Abbreviation E2 := (E ++ A).
Local Abbreviation nk := (offsetAt E).
Local Abbreviation uk := (boundAt E A).
Local Abbreviation Good := (Good keccak sortedHash E A decs).
Local Abbreviation hashInv := (hashInv keccak sortedHash E).
Hypothesis HN1 : 1 <= N.
Hypothesis HA : 1 <= Z.of_nat (length A).
Hypothesis HN2 : N2 <= 2 ^ 30.

Lemma nk_S k : nk (S k) = nk k / 2.
Proof. unfold offsetAt. symmetry. apply shifted_half. Qed.

Lemma uk_S k : uk (S k) = uk k / 2.
Proof.
  unfold boundAt. pose proof (pow2_pos k). rewrite Z.div_div by lia.
  now rewrite pow2_S, Z.mul_comm.
Qed.

Lemma nk_bounds k : 0 <= nk k <= uk k /\ uk k < 2 ^ 30.
Proof.
  unfold offsetAt, boundAt. pose proof (pow2_pos k). repeat split.
  - apply Z.div_pos; lia.
  - apply Z.div_le_mono; lia.
  - apply Z.div_lt_upper_bound; [lia |]. nia.
Qed.

Lemma nk_floor k : nk k * 2 ^ Z.of_nat k <= N.
Proof. unfold offsetAt. pose proof (floor_div N k ltac:(lia)). lia. Qed.

Lemma uk_floor k : uk k * 2 ^ Z.of_nat k < N2 <= (uk k + 1) * 2 ^ Z.of_nat k.
Proof. unfold boundAt. pose proof (floor_div (N2 - 1) k ltac:(lia)). lia. Qed.

Lemma length_E2 : Z.of_nat (length E2) = N2.
Proof. now rewrite length_app, Nat2Z.inj_add. Qed.

(** Every position up to the bound holds a node. *)
Lemma input_defined k t : 0 <= t <= uk k -> exists v, sub E2 k t = Some v.
Proof.
  intros Ht. apply sub_some; [lia |]. rewrite length_E2.
  pose proof (uk_floor k). pose proof (pow2_pos k). nia.
Qed.

(** The node on the right of the bound is absent, so a last node on the
    left is promoted unchanged. *)
Lemma dangling k : Z.odd (uk k) = false -> sub E2 (S k) (uk (S k)) = sub E2 k (uk k).
Proof.
  intros Hev. cbn [Subtrees.sub]. rewrite uk_S, (even_half _ Hev).
  pose proof (nk_bounds k).
  rewrite (sub_undefined keccak sortedHash E2 k (uk k + 1)).
  - destruct (input_defined k (uk k) ltac:(lia)) as [v Hv]. rewrite Hv. reflexivity.
  - lia.
  - rewrite length_E2. pose proof (uk_floor k). lia.
Qed.

Lemma pair_up k t a b :
  sub E2 k (2 * t) = Some a -> sub E2 k (2 * t + 1) = Some b ->
  sub E2 (S k) t = Some (hashFunction a b).
Proof. intros Ha Hb. cbn [Subtrees.sub]. rewrite Ha, Hb. reflexivity. Qed.

Lemma remaining_next k :
  F (S k) (nk (S k)) = if Z.odd (nk (S k)) then F (S k) (nk (S k)) else F (S (S k)) (nk (S (S k))).
Proof.
  destruct (Z.odd (nk (S k))) eqn:Ho; [reflexivity |].
  apply frontier_skip; [lia | lia | exact Ho].
Qed.

(** Moving up a level re-establishes the invariant. *)
Lemma level_up k di hash ah :
  (forall t, 0 <= t <= uk (S k) - nk (S k) -> ah t = sub E2 (S k) (nk (S k) + t)) ->
  (exists consumed, decs = rev (F (S k) (nk (S k))) ++ consumed) ->
  di = Z.of_nat (length (F (S k) (nk (S k)))) - 1 ->
  hashInv hash (F (S k) (nk (S k))) ->
  Good (S k) (mkMulti di hash ah (ushr (uk k) 1) 0 0 (ushr (nk k) 1) (ushr (nk k) 1)).
Proof.
  intros Hin Hdecs Hdi Hh. pose proof (nk_bounds k) as Hb. pose proof (nk_bounds (S k)) as Hb'.
  rewrite !ushr_1 by lia. rewrite <- nk_S, <- uk_S.
  constructor; cbn [offset upperBound index readIndex writeIndex appendHashes
                    decommitmentIndex AppendProofs.hash]; unfold remaining;
    cbn [index]; rewrite <- ?remaining_next; try assumption; try lia.
  - split; [lia |]. destruct (Z.odd (nk (S k))) eqn:Ho; [lia |].
    pose proof (nk_S (S k)) as Hs. pose proof (even_half _ Ho). lia.
Qed.

Lemma step_pair k s reads :
  Good k s -> 1 <= uk k -> Z.odd (index s) = false ->
  exists k' s', multiStep keccak sortedHash decs s reads = (Ok s', reads) /\
                Good k' s' /\ turnsLeft s' < turnsLeft s.
Proof.
  destruct s as [di h ah u w r n i].
  intros [Hoff Hbd Hidx Hrd [Hw0 Hw] Hout Hin Hdecs Hnext Hhash] Hu Hodd.
  unfold remaining in *.
  cbn [offset upperBound index readIndex writeIndex appendHashes
       decommitmentIndex AppendProofs.hash] in *.
  rewrite Hodd in *. subst u n r.
  pose proof (nk_bounds k) as Hb. pose proof (nk_S k) as HnS. pose proof (uk_S k) as HuS.
  pose proof (Z.div_mod (nk k) 2 ltac:(lia)) as Hdm.
  pose proof (Z.mod_pos_bound (nk k) 2 ltac:(lia)) as Hmb.
  pose proof (Z.div_mod (uk k) 2 ltac:(lia)) as Hdu.
  pose proof (Z.mod_pos_bound (uk k) 2 ltac:(lia)) as Hmu.
  unfold multiStep, turnsLeft.
  cbn [offset upperBound index readIndex writeIndex appendHashes
       decommitmentIndex AppendProofs.hash].
  rewrite band_1, odd_mod2, Hodd. cbn [negb]. rewrite andb_false_r.
  destruct (Z.ltb_spec i (uk k)) as [Hlt | Hge].
  - destruct (input_defined k i ltac:(lia)) as [a Ha].
    destruct (input_defined k (i + 1) ltac:(lia)) as [b Hb'].
    rewrite (Hin (i - nk k)) by lia. rewrite (Hin (i - nk k + 1)) by lia.
    replace (nk k + (i - nk k)) with i by lia.
    replace (nk k + (i - nk k + 1)) with (i + 1) by lia.
    rewrite Ha, Hb'. cbn [Common.callHash].
    cbn [offset upperBound index readIndex writeIndex appendHashes
         decommitmentIndex AppendProofs.hash].
    assert (Hnew : sub E2 (S k) (nk (S k) + w) = Some (hashFunction a b)).
    { apply pair_up.
      - replace (2 * (nk (S k) + w)) with i by lia. exact Ha.
      - replace (2 * (nk (S k) + w) + 1) with (i + 1) by lia. exact Hb'. }
    rewrite Z.geb_leb. destruct (Z.leb_spec (uk k) (i + 2)) as [Hup | Hstay].
    + exists (S k). eexists. split; [reflexivity |]. split.
      * apply level_up; try assumption.
        intros t Ht.
        destruct (Z.eqb_spec (i + 2) (uk k)) as [Heq | Hne].
        -- destruct (Z.eq_dec t (w + 1)) as [-> | Hn1].
           ++ rewrite upd_eq, upd_neq by lia. rewrite (Hin (i - nk k + 2)) by lia.
              replace (nk k + (i - nk k + 2)) with (uk k) by lia.
              replace (nk (S k) + (w + 1)) with (uk (S k)) by lia.
              symmetry. apply dangling. rewrite <- Heq.
              rewrite Z.odd_add, Hodd. reflexivity.
           ++ rewrite upd_neq by lia.
              destruct (Z.eq_dec t w) as [-> | Hn2].
              ** now rewrite upd_eq.
              ** rewrite upd_neq by lia. apply Hout. lia.
        -- destruct (Z.eq_dec t w) as [-> | Hn2].
           ++ now rewrite upd_eq.
           ++ rewrite upd_neq by lia. apply Hout. lia.
      * cbn [offset upperBound index]. rewrite !ushr_1 by lia. lia.
    + exists k. eexists. split; [reflexivity |]. split.
      * constructor; unfold remaining;
          cbn [offset upperBound index readIndex writeIndex appendHashes
               decommitmentIndex AppendProofs.hash];
          rewrite ?Z.odd_add, ?Hodd; cbn [xorb Z.odd]; try assumption; try lia.
        -- intros t Ht. destruct (Z.eq_dec t w) as [-> | Hn2].
           ++ now rewrite upd_eq.
           ++ rewrite upd_neq by lia. apply Hout. lia.
        -- intros t Ht. rewrite upd_neq by lia. apply Hin. lia.
      * cbn [offset upperBound index]. lia.
  - assert (Hi : i = uk k) by lia.
    cbn [offset upperBound index readIndex writeIndex appendHashes
         decommitmentIndex AppendProofs.hash].
    rewrite Z.geb_leb. destruct (Z.leb_spec (uk k) i) as [_ | ?]; [| lia].
    destruct (Z.eqb_spec i (uk k)) as [_ | ?]; [| lia].
    exists (S k). eexists. split; [reflexivity |]. split.
    + apply level_up; try assumption.
      intros t Ht. destruct (Z.eq_dec t w) as [-> | Hn2].
      * rewrite upd_eq. rewrite (Hin (i - nk k)) by lia.
        replace (nk k + (i - nk k)) with (uk k) by lia.
        replace (nk (S k) + w) with (uk (S k)) by lia.
        symmetry. apply dangling. now rewrite <- Hi.
      * rewrite upd_neq by lia. apply Hout. lia.
    + cbn [offset upperBound index]. rewrite !ushr_1 by lia. lia.
Qed.

(** The end of a turn that merged a decommitment. *)
Lemma after_merge k di' h' ah1 (reads' : list Z) :
  1 <= uk k -> Z.odd (nk k) = true ->
  ah1 0 = sub E2 (S k) (nk (S k)) ->
  (forall t, 1 <= t <= uk k - nk k -> ah1 t = sub E2 k (nk k + t)) ->
  (exists consumed, decs = rev (F (S k) (nk (S k))) ++ consumed) ->
  di' = Z.of_nat (length (F (S k) (nk (S k)))) - 1 ->
  hashInv h' (F (S k) (nk (S k))) ->
  exists k' s',
    (if nk k + 1 >=? uk k
     then (Ok (mkMulti di' h'
                       (if nk k + 1 =? uk k then upd ah1 1 (ah1 1) else ah1)
                       (ushr (uk k) 1) 0 0 (ushr (nk k) 1) (ushr (nk k) 1)), reads')
     else (Ok (mkMulti di' h' ah1 (uk k) 1 1 (nk k) (nk k + 1)), reads'))
    = (Ok s', reads') /\ Good k' s' /\ turnsLeft s' < 3 * uk k.
Proof.
  intros Hu Hodd H0 Hin Hdecs Hdi Hh.
  pose proof (nk_bounds k) as Hb. pose proof (nk_S k) as HnS. pose proof (uk_S k) as HuS.
  pose proof (odd_half _ Hodd) as Hh2.
  pose proof (Z.div_mod (uk k) 2 ltac:(lia)) as Hdu.
  pose proof (Z.mod_pos_bound (uk k) 2 ltac:(lia)) as Hmu.
  assert (Hev : Z.odd (nk k + 1) = false) by (rewrite Z.odd_add, Hodd; reflexivity).
  rewrite Z.geb_leb. destruct (Z.leb_spec (uk k) (nk k + 1)) as [Hup | Hstay].
  - exists (S k). eexists. split; [reflexivity |]. split.
    + apply level_up; try assumption.
      intros t Ht. destruct (Z.eqb_spec (nk k + 1) (uk k)) as [Heq | Hne].
      * destruct (Z.eq_dec t 1) as [-> | Hn1].
        -- rewrite upd_eq. rewrite (Hin 1) by lia.
           replace (nk (S k) + 1) with (uk (S k)) by lia. rewrite Heq.
           symmetry. apply dangling. now rewrite <- Heq.
        -- rewrite upd_neq by lia. assert (t = 0) by lia. subst t.
           now rewrite Z.add_0_r.
      * assert (t = 0) by lia. subst t. now rewrite Z.add_0_r.
    + unfold turnsLeft. cbn [offset upperBound index]. rewrite !ushr_1 by lia. lia.
  - exists k. eexists. split; [reflexivity |]. split.
    + constructor; unfold remaining;
        cbn [offset upperBound index readIndex writeIndex appendHashes
             decommitmentIndex AppendProofs.hash];
        rewrite ?Hev; try assumption; try lia.
      intros t Ht. assert (t = 0) by lia. subst t. now rewrite Z.add_0_r.
    + unfold turnsLeft. cbn [offset upperBound index]. lia.
Qed.

Lemma hashInv_tail f rest h0 :
  hashInv (Some h0) (f :: rest) ->
  hashInv (match rest with
           | [] => Some h0
           | g :: _ => Some (hashFunction g h0)
           end) rest.
Proof.
  intros (h & Hh & Hr). injection Hh as <-.
  destruct rest as [| g rest'].
  - exact Hr.
  - exists (hashFunction g h0). split; [reflexivity | exact Hr].
Qed.

Lemma step_merge k s reads :
  Good k s -> 1 <= uk k -> Z.odd (index s) = true ->
  exists k' s' reads', multiStep keccak sortedHash decs s reads = (Ok s', reads') /\
                       Good k' s' /\ turnsLeft s' < turnsLeft s.
Proof.
  destruct s as [di h ah u w r n i].
  intros [Hoff Hbd Hidx Hrd [Hw0 Hw] Hout Hin Hdecs Hnext Hhash] Hu Hodd.
  unfold remaining in *.
  cbn [offset upperBound index readIndex writeIndex appendHashes
       decommitmentIndex AppendProofs.hash] in *.
  rewrite Hodd in *. destruct Hw as [Hi Hw]. subst u n r w.
  rewrite Hi in *. clear Hi i.
  pose proof (nk_bounds k) as Hb. pose proof (nk_S k) as HnS.
  assert (HNle : N <= 2 ^ 30) by lia.
  destruct (frontier_head keccak sortedHash E HN1 HNle k Hodd) as (v & Hv & HF).
  fold (nk k) in Hv, HF. fold (nk (S k)) in HF.
  rewrite HF in *. cbn [length rev] in *.
  destruct Hdecs as [consumed Hdecs]. rewrite <- app_assoc in Hdecs. cbn [app] in Hdecs.
  destruct Hhash as (h0 & -> & Hroot).
  destruct (input_defined k (nk k) ltac:(lia)) as [a Ha].
  assert (Hn1 : 1 <= nk k).
  { destruct (Z.eq_dec (nk k) 0) as [H0 | H0]; [rewrite H0 in Hodd; discriminate | lia]. }
  assert (Hnew : sub E2 (S k) (nk (S k)) = Some (hashFunction v a)).
  { apply pair_up.
    - rewrite HnS, (odd_half _ Hodd).
      rewrite sub_app; [exact Hv | lia |].
      pose proof (nk_floor k). lia.
    - rewrite HnS, (odd_half _ Hodd). replace (nk k - 1 + 1) with (nk k) by lia. exact Ha. }
  unfold multiStep, turnsLeft.
  cbn [offset upperBound index readIndex writeIndex appendHashes
       decommitmentIndex AppendProofs.hash].
  rewrite band_1, odd_mod2, Hodd. cbn [negb Z.eqb andb].
  replace (nk k - nk k) with 0 by lia.
  rewrite (Hin 0) by lia. rewrite Z.add_0_r, Ha.
  assert (Hdi : di = Z.of_nat (length (F (S k) (nk (S k))))) by lia.
  rewrite Hdi.
  assert (Hg1 : get decs (Z.of_nat (length (F (S k) (nk (S k))))) = Some v).
  { rewrite Hdecs. apply get_rev_middle. }
  rewrite Hg1. cbn [Common.callHash].
  pose proof (hashInv_tail v (F (S k) (nk (S k))) h0
                (ex_intro _ h0 (conj eq_refl Hroot))) as Htail.
  assert (Hah1 : forall t, 1 <= t <= uk k - nk k ->
                   upd ah 0 (Some (hashFunction v a)) t = sub E2 k (nk k + t)).
  { intros t Ht. rewrite upd_neq by lia. apply Hin. lia. }
  assert (Hah0 : upd ah 0 (Some (hashFunction v a)) 0 = sub E2 (S k) (nk (S k))).
  { now rewrite upd_eq. }
  destruct (F (S k) (nk (S k))) as [| g rest] eqn:HFr.
  - cbn [length Z.of_nat]. change (0 - 1 >=? 0) with false. cbv iota.
    cbn [offset upperBound index readIndex writeIndex appendHashes
         decommitmentIndex AppendProofs.hash].
    change (0 + 1) with 1.
    destruct (after_merge k (0 - 1) (Some h0) (upd ah 0 (Some (hashFunction v a)))
                (reads ++ [0]) Hu Hodd Hah0 Hah1) as (k' & s' & Hs & Hg & Hm).
    + rewrite HFr. exists (v :: consumed). exact Hdecs.
    + rewrite HFr. reflexivity.
    + rewrite HFr. exact Htail.
    + exists k', s', (reads ++ [0]). split; [exact Hs |]. split; [exact Hg | unfold turnsLeft in Hm; lia].
  - cbn [length rev] in *. rewrite <- app_assoc in Hdecs. cbn [app] in Hdecs.
    rewrite Nat2Z.inj_succ. unfold Z.succ.
    replace (Z.of_nat (length rest) + 1 - 1) with (Z.of_nat (length rest)) by lia.
    destruct (Z.geb_spec (Z.of_nat (length rest)) 0) as [_ | ?]; [| lia].
    assert (Hg2 : get decs (Z.of_nat (length rest)) = Some g).
    { rewrite Hdecs. apply get_rev_middle. }
    rewrite Hg2. cbn [Common.callHash].
    cbn [offset upperBound index readIndex writeIndex appendHashes
         decommitmentIndex AppendProofs.hash].
    change (0 + 1) with 1.
    destruct (after_merge k (Z.of_nat (length rest)) (Some (hashFunction g h0))
                (upd ah 0 (Some (hashFunction v a)))
                (reads ++ [Z.of_nat (length rest) + 1; Z.of_nat (length rest)])
                Hu Hodd Hah0 Hah1) as (k' & s' & Hs & Hg & Hm).
    + rewrite HFr. exists (v :: consumed). cbn [rev]. rewrite <- app_assoc. exact Hdecs.
    + rewrite HFr. cbn [length]. lia.
    + rewrite HFr. exact Htail.
    + exists k', s', (reads ++ [Z.of_nat (length rest) + 1; Z.of_nat (length rest)]).
      split; [exact Hs |]. split; [exact Hg | unfold turnsLeft in Hm; lia].
Qed.

Lemma multiStep_good k s reads :
  Good k s -> 1 <= uk k ->
  exists k' s' reads', multiStep keccak sortedHash decs s reads = (Ok s', reads') /\
                       Good k' s' /\ turnsLeft s' < turnsLeft s.
Proof.
  intros Hg Hu. destruct (Z.odd (index s)) eqn:Hodd.
  - now apply (step_merge k).
  - destruct (step_pair k s reads Hg Hu Hodd) as (k' & s' & H). eauto.
Qed.

Lemma turnsLeft_nonneg k s : Good k s -> 0 <= turnsLeft s.
Proof.
  intros Hg. unfold turnsLeft. pose proof (nk_bounds k).
  destruct Hg as [Hoff Hbd Hidx _ _ _ _ _ _ _]. lia.
Qed.

(** The loop ends, in a state that still satisfies the invariant. *)
Lemma multiLoop_good : forall fuel k s reads,
  Good k s -> turnsLeft s < Z.of_nat fuel ->
  exists k' s' reads',
    multiLoop keccak sortedHash fuel decs s reads = Some (Ok s', reads') /\
    Good k' s' /\ upperBound s' = 0.
Proof.
  induction fuel as [| fuel IH]; intros k s reads Hg Hfuel.
  - pose proof (turnsLeft_nonneg k s Hg). lia.
  - cbn [multiLoop]. pose proof (nk_bounds k) as Hb.
    pose proof (g_bound _ _ _ _ _ _ _ Hg) as Hu.
    destruct (Z.gtb_spec (upperBound s) 0) as [Hpos | Hzero].
    + destruct (multiStep_good k s reads Hg ltac:(lia)) as (k' & s' & reads' & Hs & Hg' & Hm).
      rewrite Hs. apply (IH k' s' reads' Hg'). lia.
    + exists k, s, reads. split; [reflexivity |]. split; [exact Hg | lia].
Qed.

(** What the final state holds. *)
Lemma good_final k s :
  Good k s -> upperBound s = 0 ->
  hash s = oldRootOf keccak sortedHash E /\
  appendHashes s 0 = nodesOf keccak sortedHash E2 1.
Proof.
  intros [Hoff Hbd Hidx Hrd [Hw0 Hw] Hout Hin Hdecs Hnext Hhash] Hu.
  pose proof (nk_bounds k) as Hb. pose proof (nk_S k) as HnS.
  assert (Hi : index s = 0) by lia. assert (Hn : nk k = 0) by lia.
  unfold remaining in Hhash. rewrite Hi in Hhash. cbn [Z.odd] in Hhash.
  rewrite HnS, Hn in Hhash. change (0 / 2) with 0 in Hhash.
  rewrite frontier_zero in Hhash. split; [exact Hhash |].
  rewrite (Hin 0) by lia. rewrite Hn. change (0 + 0) with 0.
  apply sub_root. rewrite length_E2. pose proof (uk_floor k). lia.
Qed.

End Multi.

Section MultiRoots.
Variable keccak : Buffer -> Buffer -> Buffer.
Variable sortedHash : bool.
Variables E A : list Buffer.
Local Abbreviation N := (Z.of_nat (length E)).
Local Abbreviation F := (frontier keccak sortedHash E 32 O N).
Hypothesis HN1 : 1 <= N.
Hypothesis HA : 1 <= Z.of_nat (length A).
Hypothesis HN2 : N + Z.of_nat (length A) <= 2 ^ 30.

Lemma good_start :
  Good keccak sortedHash E A (rev F) O
       (mkMulti (bitCount32 N - 1) (get (rev F) (bitCount32 N - 1))
                (arrayOf (map (leafImage keccak) A))
                (N + Z.of_nat (length (map (leafImage keccak) A)) - 1) 0 0 N N).
Proof.
  assert (HNle : N <= 2 ^ 30) by lia.
  assert (Hn0 : offsetAt E 0 = N) by (unfold offsetAt; change (2 ^ Z.of_nat 0) with 1; apply Z.div_1_r).
  assert (Hu0 : boundAt E A 0 = N + Z.of_nat (length A) - 1)
    by (unfold boundAt; change (2 ^ Z.of_nat 0) with 1; apply Z.div_1_r).
  assert (Hrem : (if Z.odd N then frontier keccak sortedHash E 32 0 (offsetAt E 0)
                  else frontier keccak sortedHash E 32 1 (offsetAt E 1)) = F).
  { destruct (Z.odd N) eqn:Ho; [now rewrite Hn0 |].
    symmetry. pose proof (frontier_skip keccak sortedHash E HN1 HNle 0) as Hs.
    change (2 ^ Z.of_nat 0) with 1 in Hs. rewrite Z.div_1_r in Hs. now apply Hs. }
  pose proof (F_length keccak sortedHash E HN1 ltac:(lia)) as Hl.
  destruct (F_nonempty keccak sortedHash E HN1 ltac:(lia)) as (f & F' & HF).
  rewrite length_map.
  constructor; unfold remaining;
    cbn [offset upperBound index readIndex writeIndex appendHashes
         decommitmentIndex AppendProofs.hash];
    rewrite ?Hrem, ?Hn0, ?Hu0; try lia.
  - split; [lia |]. destruct (Z.odd N) eqn:Ho; [lia |].
    pose proof (nk_S E 0) as Hs. rewrite Hn0 in Hs. pose proof (even_half _ Ho). lia.
  - intros t Ht. unfold arrayOf, get.
    destruct (Z.ltb_spec t 0); [lia |].
    rewrite nth_error_map. cbn [Subtrees.sub].
    rewrite length_app, Nat2Z.inj_add.
    destruct (Z.leb_spec 0 (N + t)); [| lia].
    destruct (Z.ltb_spec (N + t) (N + Z.of_nat (length A))); [| lia]. cbn [andb].
    rewrite app_nth2 by lia. replace (Z.to_nat (N + t) - length E)%nat with (Z.to_nat t) by lia.
    rewrite (nth_error_nth' A 0) by lia. reflexivity.
  - exists []. now rewrite app_nil_r.
  - unfold Levels.hashInv, oldRootOf. rewrite HF in *. cbn [rev length] in *.
    replace (bitCount32 N - 1) with (Z.of_nat (length F')) by lia.
    rewrite get_rev_middle. exists f. split; reflexivity.
Qed.

(** The two roots [getNewRootMulti] returns on the generated
    decommitments. *)
Lemma multi_roots fuel compactProof elementCount decommitments :
  unpack compactProof elementCount decommitments = Ok (N, rev F) ->
  3 * (N + Z.of_nat (length A)) <= Z.of_nat fuel ->
  exists reads,
    getNewRootMulti keccak sortedHash fuel (map (leafImage keccak) A) compactProof
                    elementCount decommitments
      = Some (Ok (mkNewRoot (nodesOf keccak sortedHash E 1)
                            (nodesOf keccak sortedHash (E ++ A) 1) N), reads).
Proof.
  intros Hu Hfuel. unfold getNewRootMulti. rewrite Hu.
  pose proof good_start as Hg.
  destruct (multiLoop_good keccak sortedHash E A (rev F) HN1 HA HN2 fuel O _
              [bitCount32 N - 1] Hg) as (k' & s' & reads' & Hs & Hg' & Hz).
  { unfold turnsLeft. cbn [offset upperBound index]. rewrite length_map. lia. }
  rewrite Hs. exists reads'.
  destruct (good_final keccak sortedHash E A (rev F) HN1 HA HN2 k' s' Hg' Hz) as [Hh Ha].
  rewrite Hh, Ha. unfold oldRootOf.
  rewrite (old_root keccak sortedHash E HN1) by lia. reflexivity.
Qed.

End MultiRoots.

(* ================================================================= *)
(** * Append consistency *)

Section AppendConsistency.
Variable keccak : Buffer -> Buffer -> Buffer.
Variable sortedHash : bool.
Local Abbreviation buildTree := (buildTree keccak sortedHash).
Local Abbreviation leafImage := (leafImage keccak).

Lemma root_defined (E : list Buffer) :
  1 <= Z.of_nat (length E) -> exists r, nodesOf keccak sortedHash E 1 = Some r.
Proof.
  intros H. rewrite nodesOf_root. apply sub_some; [lia |].
  pose proof (pow2_pos (depthOf E)). lia.
Qed.

Lemma unpack_generated (compact : bool) (N : Z) (decs : list Buffer) :
  0 <= N < 2 ^ 32 ->
  let p := if compact then mkProof (to32ByteBuffer N :: decs) 0 [] else mkProof [] N decs in
  unpack (compactProof p) (elementCount p) (decommitments p) = Ok (N, decs).
Proof.
  intros H. destruct compact; cbn; [| reflexivity].
  unfold from32ByteBuffer, to32ByteBuffer. now rewrite Z.mod_small by lia.
Qed.

(** C3: the append proof generated for a tree, verified together with the
    appended leaves, returns the root of the tree and the root of the
    tree over the elements followed by the appended ones, for several
    appended leaves and for a single one. *)
Theorem append_consistency (elements appended : list Buffer) (compact : bool) (fuel : nat) :
  1 <= Z.of_nat (length elements) ->
  appended <> [] ->
  Z.of_nat (length elements) + Z.of_nat (length appended) <= 2 ^ 30 ->
  (33 <= fuel)%nat ->
  3 * (Z.of_nat (length elements) + Z.of_nat (length appended)) <= Z.of_nat fuel ->
  exists p r r',
    generate fuel compact (buildTree elements) (Z.of_nat (length elements)) = Some (Ok p) /\
    getOpt (buildTree elements) 1 = Some r /\
    getOpt (buildTree (elements ++ appended)) 1 = Some r' /\
    (exists reads,
       getNewRoot keccak sortedHash fuel (Multi (map leafImage appended))
                  (compactProof p) (elementCount p) (decommitments p)
         = Some (Ok (mkNewRoot (Some r) (Some r') (Z.of_nat (length elements))), reads)) /\
    (forall x, appended = [x] ->
       exists reads,
         getNewRoot keccak sortedHash fuel (Single (leafImage x))
                    (compactProof p) (elementCount p) (decommitments p)
           = Some (Ok (mkNewRoot (Some r) (Some r') (Z.of_nat (length elements))), reads)).
Proof.
  intros HN1 HA HN2 Hgen Hfuel.
  assert (HlenA : 1 <= Z.of_nat (length appended)).
  { destruct appended; [contradiction | cbn [length]; lia]. }
  destruct (root_defined elements HN1) as [r Hr].
  destruct (root_defined (elements ++ appended)) as [r' Hr'].
  { rewrite length_app. lia. }
  pose proof (generate_spec keccak sortedHash elements HN1 ltac:(lia) compact fuel Hgen) as Hg.
  pose proof (unpack_generated compact (Z.of_nat (length elements))
                (rev (frontier keccak sortedHash elements 32 0 (Z.of_nat (length elements))))
                ltac:(lia)) as Hu.
  cbv zeta in Hu.
  eexists _, r, r'. split; [exact Hg |].
  rewrite !buildTree_get. split; [exact Hr |]. split; [exact Hr' |]. split.
  - cbn [getNewRoot].
    destruct (multi_roots keccak sortedHash elements appended HN1 HlenA HN2 fuel _ _ _ Hu Hfuel)
      as [reads Hm].
    exists reads. rewrite Hm, Hr, Hr'. reflexivity.
  - intros x ->. cbn [getNewRoot].
    destruct (single_roots keccak sortedHash elements HN1 ltac:(cbn [length] in HN2; lia)
                x _ _ _ Hu) as [reads Hs].
    exists reads. rewrite Hs, Hr, Hr'. reflexivity.
Qed.

End AppendConsistency.

Lemma append_consistency_witness :
  exists p r r',
    generate 40 true (buildTree toy false sample) (Z.of_nat (length sample))
      = Some (Ok p) /\
    getOpt (buildTree toy false sample) 1 = Some r /\
    getOpt (buildTree toy false (sample ++ [66])) 1 = Some r' /\
    (exists reads,
       getNewRoot toy false 40 (Multi (map (leafImage toy) [66]))
                  (compactProof p) (elementCount p) (decommitments p)
         = Some (Ok (mkNewRoot (Some r) (Some r') (Z.of_nat (length sample))), reads)) /\
    (forall x, [66] = [x] ->
       exists reads,
         getNewRoot toy false 40 (Single (leafImage toy x))
                    (compactProof p) (elementCount p) (decommitments p)
           = Some (Ok (mkNewRoot (Some r) (Some r') (Z.of_nat (length sample))), reads)).
Proof. apply (append_consistency toy false sample [66] true 40); evaluate. Defined.

(* ================================================================= *)
(** * Index inference on the proof of a single leaf *)

Import MultiProofs.

(** C5: the proof generated for the leaf of a one-element tree has no
    hash step; index inference over its boolean arrays throws, where the
    index list [[0]] was supplied, and inference over its compact form
    returns [[0]]. *)
Theorem index_inference_single_leaf (keccak : Buffer -> Buffer -> Buffer) (element : Buffer)
        (fuel : nat) :
  exists p q,
    generate false false (buildTree keccak false [element]) 1 [0] = Ok p /\
    flags p = [] /\ skips p = [] /\ orders p = Some [] /\
    getIndices fuel 1 (compactProof p) (flags p) (skips p) [] = Some (Throw MalformedProof) /\
    generate false true (buildTree keccak false [element]) 1 [0] = Ok q /\
    getIndices (S fuel) 1 (compactProof q) [] [] [] = Some (Ok [0]).
Proof.
  eexists _, _. split; [vm_compute; reflexivity |].
  repeat split; try reflexivity.
Qed.

(* ================================================================= *)
(** * Index inference: the arrays hold a queue of groups *)

Section Down.

Lemma down_length hi n : length (down hi n) = n.
Proof. revert hi. induction n as [| n IH]; intros hi; cbn [down length]; [| rewrite IH]; reflexivity. Qed.

Lemma down_app a : forall hi b, down hi (a + b) = down hi a ++ down (hi - Z.of_nat a) b.
Proof.
  induction a as [| a IH]; intros hi b.
  - cbn [down app Nat.add]. now rewrite Z.sub_0_r.
  - cbn [down app Nat.add]. rewrite IH.
    replace (hi - Z.of_nat (S a)) with (hi - 1 - Z.of_nat a) by lia. reflexivity.
Qed.

Lemma in_down n : forall hi j, In j (down hi n) <-> hi - Z.of_nat n < j <= hi.
Proof.
  induction n as [| n IH]; intros hi j; cbn [down In].
  - split; [tauto | lia].
  - rewrite IH. split; [intros [<- | H]; lia | intros H].
    destruct (Z.eq_dec hi j); [now left | right; lia].
Qed.

Lemma consecutive_cons l l' g :
  consecutive (l :: l' :: g) <-> position l = position l' + 1 /\ consecutive (l' :: g).
Proof.
  unfold consecutive. cbn [map hd length down]. split.
  - intros H. injection H as Hp Hr. split; [lia |].
    rewrite Hr, Hp. reflexivity.
  - intros [Hp Hr]. rewrite Hr, Hp.
    replace (position l' + 1 - 1) with (position l') by lia. reflexivity.
Qed.

Lemma consecutive_positions g l :
  consecutive g -> In l g ->
  position (hd (mkLeaf 0 0 0) g) - Z.of_nat (length g) < position l
    <= position (hd (mkLeaf 0 0 0) g).
Proof.
  intros Hc Hin. apply in_down. rewrite <- Hc. now apply in_map.
Qed.

End Down.

Section Walk.
Variable m : Z.

Lemma holds_ext s s' l :
  indices s' (position l) = indices s (position l) ->
  bitsPushed s' (position l) = bitsPushed s (position l) ->
  holds s l -> holds s' l.
Proof. unfold holds. intros -> ->. tauto. Qed.

Lemma linked_ext s s' g :
  (forall l, In l g -> groupedWithNext s' (position l) = groupedWithNext s (position l)) ->
  linked s g -> linked s' g.
Proof.
  induction g as [| l g IH]; intros Hext H; [exact I |].
  cbn [linked] in *. destruct g as [| l' g].
  - rewrite Hext by (now left). exact H.
  - destruct H as [H1 H2]. rewrite Hext by (now left). split; [exact H1 |].
    apply IH; [| exact H2]. intros x Hx. apply Hext. now right.
Qed.

(** A walk over the group at the cursor. *)
Lemma walk_group setBit mark : forall g s fuel,
  g <> [] -> consecutive g -> linked s g ->
  Forall (fun l => 0 <= position l /\ holds s l) g ->
  leafIndex s = position (hd (mkLeaf 0 0 0) g) ->
  (length g <= fuel)%nat ->
  exists s',
    walk fuel m setBit mark s = Some s' /\
    leafIndex s' = (if position (last g (mkLeaf 0 0 0)) =? 0 then m - 1
                    else position (last g (mkLeaf 0 0 0)) - 1) /\
    Forall (fun l => holds s' (pushLeaf setBit l)) g /\
    (forall j, ~ In j (map position g) ->
               indices s' j = indices s j /\ bitsPushed s' j = bitsPushed s j /\
               groupedWithNext s' j = groupedWithNext s j) /\
    (forall j, In j (map position g) ->
               groupedWithNext s' j
                 = if mark && negb (j =? 0) then true else groupedWithNext s j).
Proof.
  induction g as [| l g IH]; intros s fuel Hne Hc Hl Hh Hcur Hfuel; [contradiction |].
  destruct fuel as [| fuel]; [cbn [length] in Hfuel; lia |].
  inversion Hh as [| ? ? [Hpos [Hi Hb]] Hh']; subst.
  cbn [hd] in Hcur. cbn [walk].
  set (s1 := countBit (if setBit then pushBit s else s)).
  assert (Hs1 : leafIndex s1 = position l /\
                groupedWithNext s1 = groupedWithNext s /\
                indices s1 = (if setBit
                              then upd (indices s) (position l)
                                       (bor (found l) (shl 1 (pushed l)))
                              else indices s) /\
                bitsPushed s1 = upd (bitsPushed s) (position l) (Int (pushed l + 1))).
  { subst s1. unfold countBit, pushBit.
    destruct setBit; cbn [leafIndex groupedWithNext indices bitsPushed];
      rewrite ?Hcur, ?Hi, ?Hb; cbn [int32Of incr]; repeat split; reflexivity. }
  destruct Hs1 as (Hj & Hg1 & Hi1 & Hb1). rewrite Hj.
  assert (Hpush : indices s1 (position l) = found (pushLeaf setBit l) /\
                  bitsPushed s1 (position l) = Int (pushed (pushLeaf setBit l))).
  { rewrite Hi1, Hb1. unfold pushLeaf. cbn [found pushed]. rewrite upd_eq.
    destruct setBit; [now rewrite upd_eq | now split]. }
  assert (Hother : forall j, j <> position l ->
                     indices s1 j = indices s j /\ bitsPushed s1 j = bitsPushed s j).
  { intros j Hne'. rewrite Hi1, Hb1. rewrite upd_neq by congruence.
    destruct setBit; [now rewrite upd_neq by congruence | now split]. }
  destruct g as [| l' g].
  - (* the last leaf of the group *)
    cbn [linked] in Hl. cbn [last map In].
    destruct (Z.eqb_spec (position l) 0) as [H0 | H0].
    + eexists. split; [reflexivity |]. cbn [leafIndex indices bitsPushed groupedWithNext].
      split; [reflexivity |]. split; [repeat constructor; apply Hpush |]. split.
      * intros j Hn. destruct (Hother j) as [? ?]; [intros ->; apply Hn; now left |].
        now rewrite Hg1.
      * intros j [<- | []]. rewrite Hg1. destruct (Z.eqb_spec (position l) 0); [| contradiction].
        now rewrite andb_false_r.
    + destruct Hl as [Hl | Hl]; [contradiction |]. rewrite Hg1, Hl. cbn [negb].
      eexists. split; [reflexivity |]. cbn [leafIndex indices bitsPushed groupedWithNext].
      split; [reflexivity |]. split; [repeat constructor; apply Hpush |]. split.
      * intros j Hn. destruct (Hother j) as [? ?]; [intros ->; apply Hn; now left |].
        repeat split; try assumption.
        destruct mark; [| reflexivity].
        apply upd_neq. intros E. apply Hn. now left.
      * intros j [<- | []]. destruct (Z.eqb_spec (position l) 0); [contradiction |].
        rewrite ?Hg1. destruct mark; cbn [andb negb]; [apply upd_eq | reflexivity].
  - (* a leaf grouped with the next one *)
    apply consecutive_cons in Hc. destruct Hc as [Hp Hc].
    cbn [linked] in Hl. destruct Hl as [Hl1 Hl2].
    inversion Hh' as [| ? ? [Hpos' _] _]; subst.
    destruct (Z.eqb_spec (position l) 0) as [H0 | H0]; [lia |].
    rewrite Hg1, Hl1. cbn [negb].
    set (s2 := mkIndex (indices s1)
                       (if mark then upd (groupedWithNext s) (position l) true
                        else groupedWithNext s)
                       (bitsPushed s1) (position l - 1)).
    assert (Hbelow : forall x, In x (l' :: g) -> position x <> position l).
    { intros x Hx. pose proof (consecutive_positions _ x Hc Hx) as Hr. cbn [hd] in Hr. lia. }
    destruct (IH s2 fuel) as (s' & Hw & Hcur' & Hh2 & Hout & Hin); try assumption.
    + discriminate.
    + apply (linked_ext s); [| exact Hl2].
      intros x Hx. subst s2. cbn [groupedWithNext].
      destruct mark; [apply upd_neq; specialize (Hbelow x Hx); congruence | reflexivity].
    + rewrite Forall_forall in *. intros x Hx. destruct (Hh' x Hx) as [Hx0 Hxh].
      split; [exact Hx0 |]. destruct (Hother (position x) (Hbelow x Hx)) as [E1 E2].
      apply (holds_ext s); subst s2; cbn [indices bitsPushed]; assumption.
    + subst s2. cbn [leafIndex hd]. lia.
    + cbn [length] in *. lia.
    + exists s'. split; [exact Hw |]. split; [exact Hcur' |]. split; [| split].
      * constructor; [| exact Hh2].
        assert (Hnot : ~ In (position l) (map position (l' :: g))).
        { intros Hx. apply in_map_iff in Hx. destruct Hx as (x & Hx1 & Hx2).
          now apply (Hbelow x Hx2). }
        destruct (Hout _ Hnot) as (E1 & E2 & _). unfold holds.
        change (position (pushLeaf setBit l)) with (position l).
        rewrite E1, E2. subst s2. cbn [indices bitsPushed]. exact Hpush.
      * intros j Hn.
        change (~ (position l = j \/ In j (map position (l' :: g)))) in Hn.
        assert (Hn' : ~ In j (map position (l' :: g))) by tauto.
        destruct (Hout j Hn') as (E1 & E2 & E3). rewrite E1, E2, E3.
        subst s2. cbn [indices bitsPushed groupedWithNext].
        destruct (Hother j) as [? ?]; [intros E; apply Hn; left; congruence |].
        repeat split; try assumption.
        destruct mark; [apply upd_neq; intros E; apply Hn; now left | reflexivity].
      * intros j Hjin.
        change (position l = j \/ In j (map position (l' :: g))) in Hjin.
        destruct Hjin as [<- | Hjin].
        -- assert (Hnot : ~ In (position l) (map position (l' :: g))).
           { intros Hx. apply in_map_iff in Hx. destruct Hx as (x & Hx1 & Hx2).
             now apply (Hbelow x Hx2). }
           destruct (Hout _ Hnot) as (_ & _ & E3). rewrite E3. subst s2.
           cbn [groupedWithNext].
           destruct (Z.eqb_spec (position l) 0); [contradiction |].
           destruct mark; cbn [andb negb]; [apply upd_eq | reflexivity].
        -- rewrite (Hin j Hjin). subst s2. cbn [groupedWithNext].
           destruct mark; [| reflexivity]. cbn [andb].
           destruct (negb (j =? 0)); [reflexivity |].
           apply upd_neq. intros E. apply in_map_iff in Hjin.
           destruct Hjin as (x & Hx1 & Hx2). apply (Hbelow x Hx2). congruence.
Qed.

End Walk.

Section Move.
Variable m : Z.
Local Abbreviation dflt := (mkLeaf 0 0 0).

Lemma map_position_push b g : map position (push b g) = map position g.
Proof. unfold push. rewrite map_map. reflexivity. Qed.

Lemma hd_push b g : position (hd dflt (push b g)) = position (hd dflt g).
Proof. destruct g; reflexivity. Qed.

Lemma consecutive_push b g : consecutive g -> consecutive (push b g).
Proof.
  unfold consecutive. intros H. rewrite map_position_push, hd_push. unfold push.
  now rewrite length_map.
Qed.

Lemma linked_same s : forall g g', map position g = map position g' -> linked s g -> linked s g'.
Proof.
  induction g as [| l g IH]; intros [| l' g'] Hm H; try discriminate; [exact I |].
  cbn [map] in Hm. injection Hm as Hp Hm. cbn [linked] in *.
  destruct g as [| x g], g' as [| x' g']; try discriminate.
  - now rewrite <- Hp.
  - destruct H as [H1 H2]. rewrite <- Hp. split; [exact H1 | now apply IH].
Qed.

Lemma linked_app s r : forall l,
  (forall x, In x r -> groupedWithNext s (position x) = true) ->
  l <> [] -> linked s l -> linked s (r ++ l).
Proof.
  induction r as [| x r IH]; intros l Hr Hne Hl; [exact Hl |].
  cbn [app linked]. destruct (r ++ l) eqn:E.
  - destruct r, l; discriminate || contradiction.
  - split; [apply Hr; now left |]. rewrite <- E. apply IH; try assumption.
    intros y Hy. apply Hr. now right.
Qed.

Lemma consecutive_last : forall g,
  g <> [] -> consecutive g ->
  position (last g dflt) = position (hd dflt g) - Z.of_nat (length g) + 1.
Proof.
  induction g as [| l g IH]; intros Hne Hc; [contradiction |].
  destruct g as [| l' g]; [cbn [last hd length]; lia |].
  apply consecutive_cons in Hc. destruct Hc as [Hp Hc].
  change (last (l :: l' :: g) dflt) with (last (l' :: g) dflt).
  rewrite IH by (discriminate || assumption). cbn [hd length]. lia.
Qed.

Lemma consecutive_app r l :
  r <> [] -> l <> [] -> consecutive r -> consecutive l ->
  position (last r dflt) = position (hd dflt l) + 1 ->
  consecutive (r ++ l).
Proof.
  intros Hr Hl Hcr Hcl Hadj. unfold consecutive in *.
  rewrite map_app, length_app, down_app, Hcr, Hcl.
  rewrite (consecutive_last r Hr Hcr) in Hadj.
  destruct r as [| x r]; [contradiction |]. cbn [app hd] in *.
  do 2 f_equal. lia.
Qed.

Lemma NoDup_down n : forall hi, NoDup (down hi n).
Proof.
  induction n as [| n IH]; intros hi; cbn [down]; constructor; [| apply IH].
  rewrite in_down. lia.
Qed.

Lemma NoDup_cycle p :
  0 <= p < m ->
  NoDup (down p (Z.to_nat (p + 1)) ++ down (m - 1) (Z.to_nat (m - 1 - p))).
Proof.
  intros Hp. apply NoDup_app; try apply NoDup_down.
  intros a Ha Hb. apply in_down in Ha. apply in_down in Hb. lia.
Qed.

Lemma NoDup_disjoint {A} (l1 l2 : list A) a : NoDup (l1 ++ l2) -> In a l1 -> In a l2 -> False.
Proof.
  induction l1 as [| x l1 IH]; intros Hn H1 H2; [contradiction |].
  cbn [app] in Hn. inversion Hn as [| ? ? Hx Hn']; subst.
  destruct H1 as [-> | H1].
  - apply Hx. apply in_or_app. now right.
  - now apply IH.
Qed.

Lemma sound_ext s s' g :
  (forall x, In x g ->
     indices s' (position x) = indices s (position x) /\
     bitsPushed s' (position x) = bitsPushed s (position x) /\
     groupedWithNext s' (position x) = groupedWithNext s (position x)) ->
  sound s g -> sound s' g.
Proof.
  intros Hext (Hne & Hc & Hl & Hh). repeat split; try assumption.
  - apply (linked_ext s); [| exact Hl]. intros x Hx. now apply Hext.
  - rewrite Forall_forall in *. intros x Hx. destruct (Hh x Hx) as [H0 Hhx].
    split; [exact H0 |]. destruct (Hext x Hx) as (E1 & E2 & _).
    now apply (holds_ext s).
Qed.

(** The groups at the front of the queue, worked on, go to the back
    as one group. *)
Lemma move s s' front Q' g' :
  irepr m s (front ++ Q') ->
  map position g' = map position (concat front) ->
  sound s' g' ->
  leafIndex s' = (if position (last g' dflt) =? 0 then m - 1
                  else position (last g' dflt) - 1) ->
  (forall j, ~ In j (map position g') ->
             indices s' j = indices s j /\ bitsPushed s' j = bitsPushed s j /\
             groupedWithNext s' j = groupedWithNext s j) ->
  irepr m s' (Q' ++ [g']).
Proof.
  intros (Hp & Hpos & Hall) Hmap Hs' Hcur Hout.
  pose proof Hs' as (Hne & Hc & Hl & Hh).
  rewrite concat_app, map_app, <- Hmap in Hpos.
  pose proof (NoDup_cycle _ Hp) as Hnd. rewrite <- Hpos in Hnd.
  set (p := leafIndex s) in *. set (c := length g') in *.
  assert (Hc1 : (1 <= c)%nat) by (subst c; destruct g'; [contradiction | cbn [length]; lia]).
  unfold consecutive in Hc. fold c in Hc.
  assert (Hhd : position (hd dflt g') = p).
  { rewrite Hc in Hpos. destruct c as [| c']; [lia |].
    destruct (Z.to_nat (p + 1)) as [| P'] eqn:EP; [lia |].
    cbn [down app] in Hpos. now injection Hpos. }
  rewrite Hhd in Hc.
  assert (Hlast : position (last g' dflt) = p - Z.of_nat c + 1).
  { rewrite consecutive_last; [fold c; lia | assumption |].
    unfold consecutive. fold c. now rewrite Hhd. }
  assert (Hq : 0 <= p - Z.of_nat c + 1).
  { assert (Hin : In (p - Z.of_nat c + 1) (map position g')) by (rewrite Hc; apply in_down; lia).
    apply in_map_iff in Hin. destruct Hin as (x & Hx & Hxin).
    rewrite Forall_forall in Hh. destruct (Hh x Hxin). lia. }
  assert (Hrest : map position (concat Q')
                  = down (p - Z.of_nat c) (Z.to_nat (p + 1) - c)
                    ++ down (m - 1) (Z.to_nat (m - 1 - p))).
  { replace (Z.to_nat (p + 1)) with (c + (Z.to_nat (p + 1) - c))%nat in Hpos at 1 by lia.
    rewrite down_app, Hc, <- app_assoc in Hpos. now apply app_inv_head in Hpos. }
  rewrite Hlast in Hcur.
  split; [| split].
  - destruct (Z.eqb_spec (p - Z.of_nat c + 1) 0); lia.
  - rewrite concat_app, map_app. cbn [concat]. rewrite app_nil_r, Hrest, Hc, <- app_assoc.
    rewrite Hcur. destruct (Z.eqb_spec (p - Z.of_nat c + 1) 0) as [H0 | H0].
    + replace (Z.to_nat (p + 1) - c)%nat with O by lia. cbn [down app].
      replace (Z.to_nat (m - 1 - (m - 1))) with O by lia. cbn [down]. rewrite app_nil_r.
      replace (Z.to_nat (m - 1 + 1)) with (Z.to_nat (m - 1 - p) + c)%nat by lia.
      rewrite down_app. do 2 f_equal. lia.
    + replace (Z.to_nat (p - Z.of_nat c + 1 - 1 + 1)) with (Z.to_nat (p + 1) - c)%nat by lia.
      replace (p - Z.of_nat c + 1 - 1) with (p - Z.of_nat c) by lia. f_equal.
      replace (Z.to_nat (m - 1 - (p - Z.of_nat c)))
        with (Z.to_nat (m - 1 - p) + c)%nat by lia.
      rewrite down_app. do 2 f_equal. lia.
  - apply Forall_app. split; [| constructor; [exact Hs' | constructor]].
    apply Forall_app in Hall. destruct Hall as [_ Hall].
    rewrite Forall_forall in *. intros g0 Hg0. apply (sound_ext s); [| now apply Hall].
    intros x Hx. apply Hout. intros Hin.
    apply (NoDup_disjoint _ _ (position x) Hnd Hin).
    apply in_map. apply in_concat. eauto.
Qed.

End Move.

Section Steps.
Variable m : Z.
Local Abbreviation dflt := (mkLeaf 0 0 0).

Lemma irepr_front s g Q :
  irepr m s (g :: Q) ->
  sound s g /\ leafIndex s = position (hd dflt g) /\ (length g <= Z.to_nat m)%nat /\
  NoDup (map position g ++ map position (concat Q)).
Proof.
  intros (Hp & Hpos & Hall). inversion Hall as [| ? ? Hg Hall']; subst.
  cbn [concat] in Hpos. rewrite map_app in Hpos.
  pose proof (NoDup_cycle m _ Hp) as Hnd. rewrite <- Hpos in Hnd.
  split; [exact Hg |]. split; [| split; [| exact Hnd]].
  - destruct Hg as (Hne & _). destruct g as [| x g]; [contradiction |].
    destruct (Z.to_nat (leafIndex s + 1)) as [| P'] eqn:EP; [lia |].
    cbn [map down app hd] in *. now injection Hpos.
  - apply (f_equal (@length Z)) in Hpos.
    rewrite !length_app, !length_map, !down_length in Hpos. lia.
Qed.

Lemma last_push b g : position (last (push b g) dflt) = position (last g dflt).
Proof.
  induction g as [| l g IH]; [reflexivity |].
  destruct g as [| l' g]; [reflexivity |].
  change (push b (l :: l' :: g)) with (pushLeaf b l :: push b (l' :: g)).
  change (push b (l' :: g)) with (pushLeaf b l' :: push b g) in *.
  exact IH.
Qed.

Lemma last_app_nonempty {A} (r l : list A) d : l <> [] -> last (r ++ l) d = last l d.
Proof.
  intros Hl. induction r as [| x r IH]; [reflexivity |].
  cbn [app]. destruct (r ++ l) eqn:E; [destruct r, l; discriminate || contradiction |].
  cbn [last]. exact IH.
Qed.

Lemma push_nonempty b g : g <> [] -> push b g <> [].
Proof. destruct g; [contradiction | discriminate]. Qed.

(** A step that works on the group at the front alone. *)
Lemma single_sim fuel setBit s g Q :
  irepr m s (g :: Q) -> (Z.to_nat m <= fuel)%nat ->
  exists s', walk fuel m setBit false s = Some s' /\ irepr m s' (Q ++ [push setBit g]).
Proof.
  intros Hr Hfuel. destruct (irepr_front _ _ _ Hr) as ((Hne & Hc & Hl & Hh) & Hcur & Hlen & _).
  destruct (walk_group m setBit false g s fuel Hne Hc Hl Hh Hcur ltac:(lia))
    as (s' & Hw & Hcur' & Hh' & Hout & Hin).
  exists s'. split; [exact Hw |].
  apply (move m s s' [g] Q).
  - exact Hr.
  - cbn [concat]. now rewrite app_nil_r, map_position_push.
  - split; [now apply push_nonempty |]. split; [now apply consecutive_push |]. split.
    + apply (linked_same s' g); [now rewrite map_position_push |].
      apply (linked_ext s); [| exact Hl].
      intros x Hx. rewrite Hin by (now apply in_map). reflexivity.
    + unfold push. apply Forall_map. rewrite Forall_forall in *.
      intros x Hx. split; [apply (Hh x Hx) | apply (Hh' x Hx)].
  - rewrite last_push. exact Hcur'.
  - intros j Hj. apply Hout. now rewrite map_position_push in Hj.
Qed.

(** A step that merges the two groups at the front. *)
Lemma merge_sim fuel order s r l Q :
  irepr m s (r :: l :: Q) -> adjacent r l = true -> (Z.to_nat m <= fuel)%nat ->
  exists s1 s2,
    walk fuel m order true s = Some s1 /\
    walk fuel m (negb order) false s1 = Some s2 /\
    irepr m s2 (Q ++ [push order r ++ push (negb order) l]).
Proof.
  intros Hr Hadj Hfuel.
  destruct (irepr_front _ _ _ Hr) as ((Hne & Hc & Hl & Hh) & Hcur & Hlen & Hnd).
  pose proof Hr as (_ & _ & Hall).
  inversion Hall as [| ? ? _ Hall']; subst.
  inversion Hall' as [| ? ? (Hne2 & Hc2 & Hl2 & Hh2) _]; subst.
  assert (Hnext : position (last r dflt) = position (hd dflt l) + 1).
  { unfold adjacent in Hadj. destruct l as [| y l]; [contradiction |].
    destruct (rev r) as [| x rr] eqn:Er; [discriminate |].
    apply Z.eqb_eq in Hadj. cbn [hd].
    assert (Hrr : r = rev rr ++ [x]) by (rewrite <- (rev_involutive r), Er; reflexivity).
    rewrite Hrr, last_last. exact Hadj. }
  assert (Hl0 : 0 <= position (hd dflt l)).
  { destruct l as [| y l]; [contradiction |]. inversion Hh2 as [| ? ? [H0 _] _]. exact H0. }
  destruct (walk_group m order true r s fuel Hne Hc Hl Hh Hcur ltac:(lia))
    as (s1 & Hw1 & Hcur1 & Hh1 & Hout1 & Hin1).
  assert (Hdisj : forall x, In x l -> ~ In (position x) (map position r)).
  { intros x Hx Hin. apply (NoDup_disjoint _ _ (position x) Hnd Hin).
    cbn [concat]. rewrite map_app. apply in_or_app. left. now apply in_map. }
  assert (Hlen2 : (length l <= Z.to_nat m)%nat).
  { destruct Hr as (Hp & Hpos & _). apply (f_equal (@length Z)) in Hpos.
    cbn [concat] in Hpos.
    rewrite !length_map, !length_app, !down_length in Hpos. lia. }
  destruct (walk_group m (negb order) false l s1 fuel Hne2 Hc2) as
    (s2 & Hw2 & Hcur2 & Hh2' & Hout2 & Hin2).
  { apply (linked_ext s); [| exact Hl2]. intros x Hx. now apply Hout1, Hdisj. }
  { rewrite Forall_forall in *. intros x Hx. destruct (Hh2 x Hx) as [H0 Hx'].
    split; [exact H0 |]. destruct (Hout1 _ (Hdisj x Hx)) as (E1 & E2 & _).
    now apply (holds_ext s). }
  { rewrite Hcur1, Hnext. destruct (Z.eqb_spec (position (hd dflt l) + 1) 0); lia. }
  { lia. }
  exists s1, s2. split; [exact Hw1 |]. split; [exact Hw2 |].
  assert (Hdisj' : forall x, In x r -> ~ In (position x) (map position l)).
  { intros x Hx Hin. apply (NoDup_disjoint _ _ (position x) Hnd (in_map _ _ _ Hx)).
    cbn [concat]. rewrite map_app. apply in_or_app. now left. }
  assert (Hrpos : forall x, In x r -> position x <> 0).
  { intros x Hx. pose proof (consecutive_positions _ x Hc Hx) as Hb.
    rewrite (consecutive_last r Hne Hc) in Hnext. lia. }
  apply (move m s s2 [r; l] Q).
  - exact Hr.
  - cbn [concat]. now rewrite app_nil_r, !map_app, !map_position_push.
  - split; [| split; [| split]].
    + intros E. apply app_eq_nil in E. destruct E as [E _]. now apply (push_nonempty order r).
    + apply consecutive_app; try (now apply push_nonempty); try (now apply consecutive_push).
      now rewrite last_push, hd_push.
    + apply linked_app.
      * intros x Hx. unfold push in Hx. apply in_map_iff in Hx.
        destruct Hx as (y & <- & Hy). change (position (pushLeaf order y)) with (position y).
        destruct (Hout2 _ (Hdisj' y Hy)) as (_ & _ & E3). rewrite E3.
        rewrite Hin1 by (now apply in_map). cbn [andb].
        destruct (Z.eqb_spec (position y) 0); [now apply Hrpos in Hy | reflexivity].
      * now apply push_nonempty.
      * apply (linked_same s2 l); [now rewrite map_position_push |].
        apply (linked_ext s); [| exact Hl2]. intros x Hx.
        rewrite Hin2 by (now apply in_map). cbn [andb]. now apply Hout1, Hdisj.
    + apply Forall_app. unfold push. split; apply Forall_map; rewrite Forall_forall in *.
      * intros x Hx. split; [apply (Hh x Hx) |].
        destruct (Hout2 _ (Hdisj' x Hx)) as (E1 & E2 & _).
        apply (holds_ext s1); [exact E1 | exact E2 | apply (Hh1 x Hx)].
      * intros x Hx. split; [apply (Hh2 x Hx) | apply (Hh2' x Hx)].
  - rewrite last_app_nonempty by (now apply push_nonempty). rewrite last_push. exact Hcur2.
  - intros j Hj. rewrite map_app, !map_position_push in Hj.
    assert (Hj1 : ~ In j (map position r)) by (intros H; apply Hj, in_or_app; now left).
    assert (Hj2 : ~ In j (map position l)) by (intros H; apply Hj, in_or_app; now right).
    destruct (Hout1 j Hj1) as (E1 & E2 & E3). destruct (Hout2 j Hj2) as (F1 & F2 & F3).
    rewrite F1, F2, F3. auto.
Qed.

Lemma indexStep_sim fuel flag skip order s Q Q' :
  irepr m s Q -> gstep flag skip order Q = Some Q' -> (Z.to_nat m <= fuel)%nat ->
  exists s', indexStep fuel m flag skip order s = Some s' /\ irepr m s' Q'.
Proof.
  intros Hr Hstep Hfuel. unfold indexStep, gstep in *. destruct skip.
  - destruct Q as [| g Q0]; [discriminate |]. injection Hstep as <-.
    now apply single_sim.
  - destruct flag.
    + destruct Q as [| r [| l Q0]]; try discriminate.
      destruct (adjacent r l) eqn:Hadj; [| discriminate]. injection Hstep as <-.
      destruct (merge_sim fuel order s r l Q0 Hr Hadj Hfuel) as (s1 & s2 & H1 & H2 & H3).
      exists s2. rewrite H1. split; [exact H2 | exact H3].
    + destruct Q as [| l Q0]; [discriminate |]. injection Hstep as <-.
      now apply single_sim.
Qed.

Lemma truthy_hd l i : truthy l i = hd false (skipn i l).
Proof.
  unfold truthy. revert l. induction i as [| i IH]; intros [| b l]; try reflexivity.
  cbn [nth skipn]. apply IH.
Qed.

Lemma skipn_tl {A} (l : list A) i : skipn (S i) l = tl (skipn i l).
Proof.
  revert l. induction i as [| i IH]; intros [| b l]; try reflexivity.
  change (skipn (S (S i)) (b :: l)) with (skipn (S i) l).
  change (skipn (S i) (b :: l)) with (skipn i l). apply IH.
Qed.

(** The loop over the steps runs the queue of groups. *)
Lemma indexLoop_sim fuel flags skips orders : forall n i s Q Q',
  irepr m s Q -> (Z.to_nat m <= fuel)%nat ->
  length (skipn i flags) = n ->
  grun (skipn i flags) (skipn i skips) (skipn i orders) Q = Some Q' ->
  exists s', indexLoop fuel flags skips orders m n i s = Some s' /\ irepr m s' Q'.
Proof.
  induction n as [| n IH]; intros i s Q Q' Hr Hfuel Hlen Hrun.
  - destruct (skipn i flags); [| discriminate]. cbn [grun] in Hrun.
    injection Hrun as <-. exists s. split; [reflexivity | exact Hr].
  - destruct (skipn i flags) as [| f fl] eqn:Efl; [discriminate |].
    cbn [grun] in Hrun.
    destruct (gstep f (hd false (skipn i skips)) (hd false (skipn i orders)) Q)
      as [Q1 |] eqn:Hstep; [| discriminate].
    assert (Hf : truthy flags i = f) by (rewrite truthy_hd, Efl; reflexivity).
    cbn [indexLoop]. rewrite Hf, !truthy_hd.
    destruct (indexStep_sim fuel _ _ _ s Q Q1 Hr Hstep Hfuel) as (s1 & Hs1 & Hr1).
    rewrite Hs1. apply (IH (S i) s1 Q1 Q' Hr1 Hfuel).
    + rewrite skipn_tl, Efl. cbn [tl length] in *. lia.
    + rewrite !skipn_tl, Efl. exact Hrun.
Qed.

End Steps.

(* ================================================================= *)
(** * Index inference: the leaves below a node *)

Section Below.
Variable I : list Z.
Hypothesis Hasc : strictlyAscending I = true.
Local Abbreviation m := (Z.of_nat (length I)).

Lemma below_bounds x : 0 <= below I x <= m.
Proof. unfold below. pose proof (filter_length_le (fun i => i <? x) I). lia. Qed.

Lemma below_mono x y : x <= y -> below I x <= below I y.
Proof.
  intros Hxy. unfold below. clear Hasc. induction I as [| a l IH]; [reflexivity |].
  cbn [filter]. destruct (Z.ltb_spec a x), (Z.ltb_spec a y); cbn [length]; lia.
Qed.

End Below.

Lemma filter_above a x l :
  Forall (fun y => a < y) l -> x <= a -> filter (fun i => i <? x) l = [].
Proof.
  intros H Hx. induction H as [| y l Hy _ IH]; [reflexivity |].
  cbn [filter]. destruct (Z.ltb_spec y x); [lia | exact IH].
Qed.

(** In a strictly ascending list the indices below [x] are the first ones. *)
Lemma below_spec : forall I x j,
  strictlyAscending I = true -> (j < length I)%nat ->
  nth j I 0 < x <-> Z.of_nat j < below I x.
Proof.
  induction I as [| a l IH]; intros x j Hasc Hj; [cbn [length] in Hj; lia |].
  pose proof (strictly_head_lt _ _ Hasc) as Hlt.
  pose proof (strictly_tail _ _ Hasc) as Hl.
  unfold below. cbn [filter]. destruct (Z.ltb_spec a x) as [Hax | Hax].
  - cbn [length]. destruct j as [| j]; [cbn [nth]; split; lia |].
    cbn [nth length] in *. assert (Hj' : (j < length l)%nat) by lia.
    specialize (IH x j Hl Hj'). unfold below in IH.
    split; intros H; [apply IH in H | apply IH]; lia.
  - rewrite (filter_above a x l Hlt Hax). cbn [length].
    split; [| lia]. intros Hn. destruct j as [| j]; [cbn [nth] in Hn; lia |].
    cbn [nth length] in *. rewrite Forall_forall in Hlt.
    assert (Hj' : (j < length l)%nat) by lia.
    specialize (Hlt (nth j l 0) (nth_In _ _ Hj')). lia.
Qed.

Lemma below_all I N : inRange N I = true -> below I N = Z.of_nat (length I) /\ below I 0 = 0.
Proof.
  intros H. unfold below, inRange in *. rewrite forallb_forall in H.
  induction I as [| a l IH]; [split; reflexivity |].
  pose proof (H a (or_introl eq_refl)) as Ha. apply andb_true_iff in Ha.
  destruct Ha as [Ha0 HaN]. apply Z.leb_le in Ha0. apply Z.ltb_lt in HaN.
  destruct IH as [IH1 IH2]; [intros x Hx; apply H; now right |].
  cbn [filter]. destruct (Z.ltb_spec a N); [| lia]. destruct (Z.ltb_spec a 0); [lia |].
  cbn [length]. split; [lia | exact IH2].
Qed.

(** Setting a bit that is beyond the bits found so far adds its power. *)
Lemma push_bit f k : 0 <= k <= 29 -> 0 <= f < 2 ^ k -> bor f (shl 1 k) = f + 2 ^ k.
Proof.
  intros Hk Hf.
  assert (Hp : 2 ^ k <= 2 ^ 29) by (apply Z.pow_le_mono_r; lia).
  assert (Hs : shl 1 k = 2 ^ k).
  { unfold shl. rewrite (toInt32_small 1) by lia.
    assert (Hl : Z.land k 31 = k).
    { change 31 with (Z.ones 5). rewrite Z.land_ones by lia.
      apply Z.mod_small. change (2 ^ 5) with 32. lia. }
    rewrite Hl, Z.shiftl_1_l. apply toInt32_small. lia. }
  rewrite Hs. unfold bor. rewrite !toInt32_small by lia.
  assert (Hz : Z.land f (2 ^ k) = 0); [| rewrite Z.add_nocarry_lxor, Z.lxor_lor by exact Hz; reflexivity].
  apply Z.bits_inj'. intros n Hn. rewrite Z.land_spec, Z.bits_0, Z.pow2_bits_eqb by lia.
  destruct (Z.eqb_spec k n) as [<- | Hne]; [| apply andb_false_r].
  rewrite andb_true_r. destruct (Z.eq_dec f 0) as [-> | Hf0]; [apply Z.bits_0 |].
  apply Z.bits_above_log2; [lia |]. apply Z.log2_lt_pow2; lia.
Qed.

(** ** Heights and first elements of the nodes *)

Section Heights.
Variable d : Z.
Local Abbreviation L := (2 ^ d).

Lemma L_pos : 0 <= d -> 1 <= L.
Proof. intros Hd. pose proof (Z.pow_pos_nonneg 2 d). lia. Qed.

Lemma heightOf_inner i : 0 <= d -> 1 <= i < L -> 1 <= heightOf d i <= d.
Proof.
  intros Hd Hi. unfold heightOf. pose proof (Z.log2_nonneg i).
  assert (Z.log2 i < d) by (apply Z.log2_lt_pow2; lia). lia.
Qed.

Lemma heightOf_left i : 0 <= d -> 1 <= i -> heightOf d (2 * i) = heightOf d i - 1.
Proof. intros Hd Hi. unfold heightOf. rewrite Z.log2_double by lia. lia. Qed.

Lemma heightOf_right i : 0 <= d -> 1 <= i -> heightOf d (2 * i + 1) = heightOf d i - 1.
Proof. intros Hd Hi. unfold heightOf. rewrite Z.log2_succ_double by lia. lia. Qed.

Lemma pow_height i : 0 <= d -> 1 <= i < L -> 2 ^ heightOf d i = 2 * 2 ^ (heightOf d i - 1).
Proof.
  intros Hd Hi. pose proof (heightOf_inner i Hd Hi).
  rewrite <- Z.pow_succ_r by lia. f_equal. lia.
Qed.

Lemma firstOf_left i : 0 <= d -> 1 <= i < L -> firstOf d (2 * i) = firstOf d i.
Proof.
  intros Hd Hi. unfold firstOf. rewrite heightOf_left by lia.
  rewrite (pow_height i Hd Hi). lia.
Qed.

Lemma firstOf_right i : 0 <= d -> 1 <= i < L -> firstOf d (2 * i + 1) = firstOf d i + 2 ^ (heightOf d i - 1).
Proof.
  intros Hd Hi. unfold firstOf. rewrite heightOf_right by lia.
  rewrite (pow_height i Hd Hi). lia.
Qed.

Lemma heightOf_leaf j : 0 <= d -> L <= j < 2 * L -> heightOf d j = 0.
Proof.
  intros Hd Hj. unfold heightOf. rewrite (Z.log2_unique j d); [lia | lia |].
  rewrite Z.pow_succ_r by lia. lia.
Qed.

Lemma firstOf_leaf j : 0 <= d -> L <= j < 2 * L -> firstOf d j = j - L.
Proof. intros Hd Hj. unfold firstOf. rewrite heightOf_leaf by lia. simpl. lia. Qed.

Lemma heightOf_root : 0 <= d -> heightOf d 1 = d.
Proof. intros Hd. unfold heightOf. simpl. lia. Qed.

Lemma firstOf_root : 0 <= d -> firstOf d 1 = 0.
Proof. intros Hd. unfold firstOf. rewrite heightOf_root by lia. lia. Qed.
End Heights.

(** One more element is below [x + 1] when [x] is an index. *)
Lemma below_succ : forall I x,
  strictlyAscending I = true ->
  below I (x + 1) = below I x + (if existsb (fun i => i =? x) I then 1 else 0).
Proof.
  induction I as [| a l IH]; intros x Hasc; [reflexivity |].
  pose proof (strictly_head_lt _ _ Hasc) as Hlt.
  pose proof (strictly_tail _ _ Hasc) as Hl.
  specialize (IH x Hl). unfold below in *. cbn [filter existsb].
  destruct (Z.eqb_spec a x) as [-> | Hne].
  - rewrite (filter_above x x l Hlt) by lia.
    assert (Hf : filter (fun i => i <? x + 1) l = []).
    { clear -Hlt. induction Hlt as [| y l Hy _ IH]; [reflexivity |].
      cbn [filter]. destruct (Z.ltb_spec y (x + 1)); [lia | exact IH]. }
    rewrite Hf. destruct (Z.ltb_spec x (x + 1)); [| lia].
    destruct (Z.ltb_spec x x); [lia |]. reflexivity.
  - cbn [orb]. destruct (Z.ltb_spec a (x + 1)), (Z.ltb_spec a x); cbn [length]; lia.
Qed.

Lemma nth_below I j x :
  strictlyAscending I = true -> 0 <= j < Z.of_nat (length I) ->
  nth (Z.to_nat j) I 0 < x <-> j < below I x.
Proof.
  intros Hasc Hj. rewrite (below_spec I x (Z.to_nat j) Hasc) by lia.
  rewrite Z2Nat.id by lia. reflexivity.
Qed.

(** ** The leaves below the nodes *)

Section Groups.
Variable d : Z.
Variable I : list Z.
Hypothesis Hd : 0 <= d <= 30.
Hypothesis Hasc : strictlyAscending I = true.

Local Abbreviation L := (2 ^ d).
Local Abbreviation m := (Z.of_nat (length I)).
Local Abbreviation G := (leavesOf d I).
Local Abbreviation lo := (firstOf d).
Local Abbreviation h := (heightOf d).
Local Abbreviation b := (below I).

Lemma leavesOf_nil i : (b (lo i) <? b (lo i + 2 ^ h i)) = false -> G i = [].
Proof.
  clear Hd Hasc.
  intros H. apply Z.ltb_ge in H. unfold leavesOf.
  replace (Z.to_nat _) with 0%nat by lia. reflexivity.
Qed.

Lemma leavesOf_cons i :
  (b (lo i) <? b (lo i + 2 ^ h i)) = true ->
  exists l g, G i = l :: g /\ position l = b (lo i + 2 ^ h i) - 1.
Proof.
  clear Hd Hasc.
  intros H. apply Z.ltb_lt in H. unfold leavesOf.
  destruct (Z.to_nat _) as [| n] eqn:E; [lia |].
  cbn [down map]. eexists _, _. split; reflexivity.
Qed.

Lemma leavesOf_last i :
  (b (lo i) <? b (lo i + 2 ^ h i)) = true ->
  exists l g, rev (G i) = l :: g /\ position l = b (lo i).
Proof.
  clear Hd Hasc.
  intros H. apply Z.ltb_lt in H. unfold leavesOf.
  destruct (Z.to_nat _) as [| n] eqn:E; [lia |].
  replace (S n) with (n + 1)%nat by lia.
  rewrite down_app, map_app, rev_app_distr. cbn [down map rev app].
  eexists _, _. split; [reflexivity |]. cbn [position]. lia.
Qed.

(** The leaves below a node are those below its right child, with one
    more bit set, followed by those below its left child. *)
Lemma leavesOf_split i :
  1 <= i < L -> G i = push true (G (2 * i + 1)) ++ push false (G (2 * i)).
Proof.
  intros Hi. pose proof (heightOf_inner d i (proj1 Hd) Hi) as Hk.
  unfold leavesOf.
  rewrite heightOf_right, heightOf_left, firstOf_left, firstOf_right by lia.
  set (k := h i) in *. set (x := lo i).
  replace (x + 2 ^ (k - 1) + 2 ^ (k - 1)) with (x + 2 ^ k)
    by (unfold k; rewrite (pow_height d i (proj1 Hd) Hi); lia).
  assert (Hp : 0 < 2 ^ (k - 1)) by (apply Z.pow_pos_nonneg; lia).
  assert (Hp2 : 2 ^ k = 2 * 2 ^ (k - 1))
    by (unfold k; apply (pow_height d i (proj1 Hd) Hi)).
  pose proof (below_mono I x (x + 2 ^ (k - 1)) ltac:(lia)) as H1.
  pose proof (below_mono I (x + 2 ^ (k - 1)) (x + 2 ^ k) ltac:(lia)) as H2.
  pose proof (below_bounds I x) as H3.
  pose proof (below_bounds I (x + 2 ^ k)) as H4.
  replace (Z.to_nat (b (x + 2 ^ k) - b x))
    with (Z.to_nat (b (x + 2 ^ k) - b (x + 2 ^ (k - 1)))
          + Z.to_nat (b (x + 2 ^ (k - 1)) - b x))%nat by lia.
  rewrite down_app, map_app. unfold push. rewrite !map_map. f_equal.
  - apply map_ext_in. intros j Hj. apply in_down in Hj.
    unfold pushLeaf. cbn [position found pushed].
    assert (Hj' : 0 <= j < m) by lia.
    pose proof (nth_below I j (x + 2 ^ (k - 1)) Hasc Hj') as Ha.
    pose proof (nth_below I j (x + 2 ^ k) Hasc Hj') as Hb.
    rewrite push_bit by lia. f_equal; lia.
  - rewrite Z2Nat.id by lia.
    replace (b (x + 2 ^ k) - 1 - (b (x + 2 ^ k) - b (x + 2 ^ (k - 1))))
      with (b (x + 2 ^ (k - 1)) - 1) by lia.
    apply map_ext. intros j. unfold pushLeaf. cbn [position found pushed].
    f_equal. lia.
Qed.

(** The truth of [known] at a node, by the leaves below its children. *)
Lemma below_children i :
  1 <= i < L ->
  (b (lo i) <? b (lo i + 2 ^ h i))
  = (b (lo (2 * i)) <? b (lo (2 * i) + 2 ^ h (2 * i)))
    || (b (lo (2 * i + 1)) <? b (lo (2 * i + 1) + 2 ^ h (2 * i + 1))).
Proof.
  intros Hi. pose proof (heightOf_inner d i (proj1 Hd) Hi) as Hk.
  rewrite heightOf_right, heightOf_left, firstOf_left, firstOf_right by lia.
  set (k := h i) in *. set (x := lo i).
  assert (Hp : 0 < 2 ^ (k - 1)) by (apply Z.pow_pos_nonneg; lia).
  assert (Hp2 : 2 ^ k = 2 * 2 ^ (k - 1))
    by (unfold k; apply (pow_height d i (proj1 Hd) Hi)).
  replace (x + 2 ^ (k - 1) + 2 ^ (k - 1)) with (x + 2 ^ k) by lia.
  pose proof (below_mono I x (x + 2 ^ (k - 1)) ltac:(lia)) as H1.
  pose proof (below_mono I (x + 2 ^ (k - 1)) (x + 2 ^ k) ltac:(lia)) as H2.
  destruct (Z.ltb_spec (b x) (b (x + 2 ^ k))),
    (Z.ltb_spec (b x) (b (x + 2 ^ (k - 1)))),
    (Z.ltb_spec (b (x + 2 ^ (k - 1))) (b (x + 2 ^ k))); cbn [orb]; lia.
Qed.

Lemma adjacent_children i :
  1 <= i < L ->
  (b (lo (2 * i)) <? b (lo (2 * i) + 2 ^ h (2 * i))) = true ->
  (b (lo (2 * i + 1)) <? b (lo (2 * i + 1) + 2 ^ h (2 * i + 1))) = true ->
  adjacent (G (2 * i + 1)) (G (2 * i)) = true.
Proof.
  intros Hi Hl Hr.
  destruct (leavesOf_cons _ Hl) as (y & g & Hy & Hpy).
  destruct (leavesOf_last _ Hr) as (z & g' & Hz & Hpz).
  unfold adjacent. rewrite Hy, Hz, Hpy, Hpz.
  rewrite heightOf_left, firstOf_left, firstOf_right by lia.
  apply Z.eqb_eq. lia.
Qed.

(** The marks of the first loop are the leaves of the proof. *)
Lemma knownLeaf_below j :
  L <= j < 2 * L -> knownLeaf L I j = (b (lo j) <? b (lo j + 2 ^ h j)).
Proof.
  intros Hj. rewrite heightOf_leaf, firstOf_leaf by lia. change (2 ^ 0) with 1.
  rewrite below_succ by assumption. unfold knownLeaf.
  assert (He : existsb (fun index => L + index =? j) I
               = existsb (fun i => i =? j - L) I).
  { clear. induction I as [| a l IH]; [reflexivity |]. cbn [existsb]. rewrite IH.
    destruct (Z.eqb_spec (2 ^ d + a) j), (Z.eqb_spec a (j - 2 ^ d)); try reflexivity; lia. }
  rewrite He. clear He.
  destruct (existsb _ I); [apply eq_sym, Z.ltb_lt | apply eq_sym, Z.ltb_ge]; lia.
Qed.

Lemma knownBelow_step n i s tree :
  i = Z.of_nat n + 1 -> i < L ->
  known s i = false ->
  knownBelow d L I (S n) s -> knownBelow d L I n (genStep tree i s).
Proof.
  intros Hi HiL Hki H j Hj.
  assert (Hk : known (genStep tree i s) = upd (known s) i (known s (2 * i) || known s (2 * i + 1))).
  { assert (L <= 2 ^ 30) by (apply Z.pow_le_mono_r; lia).
    rewrite genStep_eq by lia. cbv zeta. destruct (relevant s i); reflexivity. }
  rewrite Hk. unfold upd. destruct (Z.eqb_spec i j) as [<- | Hne].
  - rewrite !H by lia. symmetry. apply below_children. lia.
  - apply H. lia.
Qed.

End Groups.

(* ================================================================= *)
(** * Index inference on generated proofs *)

(** ** The generator and the queue of groups *)

Section GenGroups.
Variable keccak : Buffer -> Buffer -> Buffer.
Variable sortedHash : bool.
Variable Tv : Z -> option Buffer.
Variable tree : list (option Buffer).
Variable d : Z.
Variable I : list Z.

Local Abbreviation L := (2 ^ d).
Local Abbreviation parentOf := (parentOf keccak sortedHash).
Local Abbreviation Inv := (Inv Tv tree L).
Local Abbreviation G := (leavesOf d I).
Local Abbreviation Gv := (groupOf d I).
Local Abbreviation KB := (knownBelow d L I).

Hypothesis Hd : 0 <= d <= 30.
Hypothesis Hasc : strictlyAscending I = true.
Hypothesis Hnode : forall i, 1 <= i < L -> Tv i = parentOf (Tv (2 * i)) (Tv (2 * i + 1)).
Hypothesis Hgnode : forall i, 1 <= i < L ->
  getOpt tree i = parentOf (getOpt tree (2 * i)) (getOpt tree (2 * i + 1)).
Hypothesis Hshape : forall j, getOpt tree j = None <-> Tv j = None.
Hypothesis Hsib : forall i, 1 <= i < L -> Tv (2 * i + 1) <> None -> Tv (2 * i) <> None.

Lemma L_range : 1 <= L <= 2 ^ 30.
Proof. split; [apply L_pos; lia | apply Z.pow_le_mono_r; lia]. Qed.

Lemma gen_groups n : forall s,
  Inv n s -> KB n s -> Z.of_nat n < L ->
  let o := genLoop tree n (clearOut s) in
  KB 0%nat o /\
  grun (genFlags o) (genSkips o) (genOrders o) (queueAt Gv (known s) n)
    = Some (queueAt Gv (known o) 0).
Proof.
  pose proof L_range as HL.
  induction n as [| n IH]; intros s HInv HKB HnL.
  - cbn [genLoop]. split; [exact HKB | reflexivity].
  - set (i := Z.of_nat n + 1).
    assert (Hi : i = Z.of_nat n + 1) by reflexivity. clearbody i.
    cbn [genLoop]. replace (Z.of_nat (S n)) with i in * by lia.
    rewrite genLoop_app.
    set (s1 := genStep tree i (clearOut s)).
    assert (HInv1 : Inv n s1)
      by (apply (Inv_step keccak sortedHash Tv tree L HL Hnode Hgnode Hsib n (clearOut s) i Hi HInv);
          lia).
    pose proof (Inv_known_false _ _ _ _ _ i HInv ltac:(lia)) as Hki.
    assert (HKB1 : KB n s1).
    { apply (knownBelow_step d I Hd n i (clearOut s) tree Hi ltac:(lia) Hki HKB). }
    destruct (IH s1 HInv1 HKB1 ltac:(lia)) as (HKB0 & Hrun).
    set (o' := genLoop tree n (clearOut s1)) in *.
    pose proof (Inv_relevant _ _ _ _ _ i HInv ltac:(lia)) as Hrel.
    pose proof (HKB (2 * i) ltac:(lia)) as Hbl.
    pose proof (HKB (2 * i + 1) ltac:(lia)) as Hbr.
    set (l := known s (2 * i)) in *. set (r := known s (2 * i + 1)) in *.
    assert (Hr : r = true -> exists v, Tv (2 * i + 1) = Some v)
      by (intros E; now apply (Inv_known_defined _ _ _ _ _ _ HInv)).
    assert (Hunk : forall j, i < j < 2 * L -> known s j = false -> getOpt tree j = Tv j).
    { intros j Hj1 Hj3. destruct HInv as (_ & _ & H3). apply H3; [lia | assumption]. }
    assert (Hk1 : known s1 = upd (known s) i (l || r)).
    { subst s1. rewrite genStep_eq by lia. cbv zeta. cbn [clearOut known relevant].
      destruct (relevant s i); reflexivity. }
    rewrite Hk1 in Hrun. rewrite queue_next in Hrun by assumption.
    rewrite (queue_split _ _ _ i) by assumption.
    set (mid := rev (knownVals Gv (known s) (i + 1) n)) in *.
    assert (Hs1 : genFlags s1 = (if l || r then [Bool.eqb l r] else []) /\
                  genSkips s1 = (if l || r then [isUndefined (getOpt tree (2 * i + Z.b2z l))]
                                 else []) /\
                  genOrders s1 = (if l || r then [l] else [])).
    { subst s1. rewrite genStep_eq by lia. cbv zeta.
      cbn [clearOut known relevant genFlags genSkips genOrders genDecommitments].
      rewrite Hrel. fold l. fold r. destruct l, r; repeat split; reflexivity. }
    destruct Hs1 as (Hf & Hsk & Ho).
    split; [exact HKB0 |].
    unfold appOut. cbn [known relevant genFlags genSkips genOrders genDecommitments].
    unfold Gen.kv. fold l. fold r. unfold Gen.kv in Hrun. rewrite upd_eq in Hrun.
    unfold groupOf in *.
    pose proof (leavesOf_split d I Hd Hasc i ltac:(lia)) as Hsplit.
    destruct l eqn:El, r eqn:Er; cbn [orb xorb Bool.eqb Z.b2z] in Hf, Hsk, Ho, Hrun;
      rewrite Hf, Hsk, Ho.
    + (* both children known *)
      destruct (Hr eq_refl) as [v Hv].
      assert (Hsib' : isUndefined (getOpt tree (2 * i + 1)) = false).
      { destruct (getOpt tree (2 * i + 1)) eqn:E; [reflexivity |].
        apply Hshape in E. congruence. }
      rewrite Hsib'. cbn [app grun hd tl gstep].
      rewrite (adjacent_children d I Hd i) by (try lia; now symmetry).
      cbn [negb]. rewrite <- Hsplit. exact Hrun.
    + (* left child known *)
      rewrite (leavesOf_nil d I (2 * i + 1)) in Hsplit by (now symmetry).
      cbn [push map app] in Hsplit.
      destruct (isUndefined _); cbn [app grun hd tl gstep negb];
        rewrite <- Hsplit; exact Hrun.
    + (* right child known *)
      destruct (Hr eq_refl) as [v Hv].
      assert (Hg : isUndefined (getOpt tree (2 * i + 0)) = false).
      { rewrite Z.add_0_r. destruct (getOpt tree (2 * i)) eqn:E; [reflexivity |].
        apply Hshape in E. exfalso. apply (Hsib i); [lia | congruence | assumption]. }
      rewrite Hg.
      rewrite (leavesOf_nil d I (2 * i)) in Hsplit by (now symmetry).
      cbn [push map] in Hsplit. rewrite app_nil_r in Hsplit.
      cbn [app grun hd tl gstep negb]. rewrite <- Hsplit. exact Hrun.
    + (* no child known *)
      cbn [app]. rewrite app_nil_r in Hrun. exact Hrun.
Qed.

End GenGroups.

(** ** The first and the last queue *)

Lemma rev_zseq n : forall lo, rev (zseq lo n) = down (lo + Z.of_nat n - 1) n.
Proof.
  induction n as [| n IH]; intros lo; [reflexivity |].
  replace (S n) with (n + 1)%nat at 1 by lia.
  rewrite zseq_app, rev_app_distr. cbn [zseq seq map rev app down].
  rewrite IH. f_equal; [lia | f_equal; lia].
Qed.

Lemma map_nth_zseq (l : list Z) :
  map (fun j => nth (Z.to_nat j) l 0) (zseq 0 (length l)) = l.
Proof.
  apply nth_error_ext. intros n.
  destruct (Nat.lt_ge_cases n (length l)) as [Hn | Hn].
  - rewrite nth_error_map, zseq_nth_error by assumption. cbn [option_map].
    rewrite (nth_error_nth' l 0 Hn). do 2 f_equal. lia.
  - rewrite (proj2 (nth_error_None l n)) by assumption.
    apply nth_error_None. now rewrite length_map, zseq_length.
Qed.

Lemma inRange_weaken N N' l : N <= N' -> inRange N l = true -> inRange N' l = true.
Proof.
  intros HN. unfold inRange. rewrite !forallb_forall. intros H x Hx.
  specialize (H x Hx). apply andb_true_iff in H. destruct H as [H1 H2].
  apply Z.ltb_lt in H2. rewrite H1. apply Z.ltb_lt. lia.
Qed.

Lemma positions_fresh n : forall hi,
  map position (concat (map fresh (down hi n))) = down hi n.
Proof.
  induction n as [| n IH]; intros hi; [reflexivity |].
  cbn [down map concat fresh app position]. now rewrite IH.
Qed.

Lemma start_irepr (I : list Z) :
  I <> [] ->
  irepr (Z.of_nat (length I)) (initIndex (Z.of_nat (length I)))
        (map fresh (down (Z.of_nat (length I) - 1) (length I))).
Proof.
  intros HI.
  assert (Hm : 1 <= Z.of_nat (length I)) by (destruct I; [congruence | cbn [length]; lia]).
  set (m := Z.of_nat (length I)) in *.
  unfold irepr. cbn [leafIndex initIndex]. split; [lia |]. split.
  - replace (Z.to_nat (m - 1 - (m - 1))) with 0%nat by lia.
    replace (Z.to_nat (m - 1 + 1)) with (length I) by lia.
    cbn [down]. rewrite app_nil_r.
    apply positions_fresh.
  - apply Forall_forall. intros g Hg. apply in_map_iff in Hg.
    destruct Hg as (p & <- & Hp). apply in_down in Hp.
    unfold sound, fresh. split; [discriminate |]. split; [reflexivity |].
    split; [right; reflexivity |].
    constructor; [| constructor]. cbn [position]. split; [lia |].
    unfold holds. cbn [initIndex indices bitsPushed position found pushed].
    split; [reflexivity |].
    destruct (Z.leb_spec 0 p), (Z.ltb_spec p m); try lia. reflexivity.
Qed.

Section Ends.
Variable d : Z.
Variable I : list Z.
Hypothesis Hd : 0 <= d <= 30.
Hypothesis Hasc : strictlyAscending I = true.
Hypothesis Hrange : inRange (2 ^ d) I = true.

Local Abbreviation L := (2 ^ d).
Local Abbreviation m := (Z.of_nat (length I)).
Local Abbreviation G := (leavesOf d I).
Local Abbreviation Gv := (groupOf d I).
Local Abbreviation b := (below I).

Lemma leavesOf_leaf a :
  0 <= a < L -> b a < b (a + 1) -> G (L + a) = fresh (b a).
Proof.
  intros Ha Hlt. unfold leavesOf.
  rewrite heightOf_leaf, firstOf_leaf by lia. change (2 ^ 0) with 1.
  replace (L + a - L) with a by lia.
  pose proof (below_succ I a Hasc) as Hs.
  pose proof (below_bounds I a) as H1. pose proof (below_bounds I (a + 1)) as H2.
  assert (He : b (a + 1) = b a + 1) by (destruct (existsb _ I); lia).
  rewrite He. replace (Z.to_nat (b a + 1 - b a)) with 1%nat by lia.
  cbn [down map]. unfold fresh. replace (b a + 1 - 1) with (b a) by lia.
  pose proof (nth_below I (b a) a Hasc ltac:(lia)) as Hx.
  pose proof (nth_below I (b a) (a + 1) Hasc ltac:(lia)) as Hy.
  do 2 f_equal. lia.
Qed.

Lemma knownVals_leaves k :
  (forall j, k j = knownLeaf L I j) ->
  forall n a, 0 <= a -> a + Z.of_nat n <= L ->
  knownVals Gv k (L + a) n
  = map fresh (zseq (b a) (Z.to_nat (b (a + Z.of_nat n) - b a))).
Proof.
  intros Hk. induction n as [| n IH]; intros a Ha Hn.
  - rewrite Z.add_0_r, Z.sub_diag. reflexivity.
  - unfold knownVals. rewrite zseq_S. cbn [flat_map]. fold (knownVals Gv k (L + a + 1) n).
    replace (L + a + 1) with (L + (a + 1)) by lia.
    rewrite IH by lia. replace (a + 1 + Z.of_nat n) with (a + Z.of_nat (S n)) by lia.
    pose proof (below_succ I a Hasc) as Hs.
    pose proof (below_mono I (a + 1) (a + Z.of_nat (S n)) ltac:(lia)) as Hm.
    unfold kv. rewrite Hk, (knownLeaf_below d I Hd Hasc) by lia.
    rewrite heightOf_leaf, firstOf_leaf by lia. change (2 ^ 0) with 1.
    replace (L + a - L) with a by lia.
    destruct (Z.ltb_spec (b a) (b (a + 1))) as [Hlt | Hge].
    + unfold groupOf. rewrite leavesOf_leaf by lia.
      assert (He : b (a + 1) = b a + 1) by (destruct (existsb _ I); lia).
      replace (Z.to_nat (b (a + Z.of_nat (S n)) - b a))
        with (S (Z.to_nat (b (a + Z.of_nat (S n)) - b (a + 1)))) by lia.
      rewrite zseq_S. cbn [map app]. now rewrite He.
    + assert (He : b (a + 1) = b a) by (destruct (existsb _ I); lia).
      rewrite He. reflexivity.
Qed.

Lemma start_groups k :
  (forall j, k j = knownLeaf L I j) ->
  queueAt Gv k (Z.to_nat (L - 1)) = map fresh (down (m - 1) (length I)).
Proof.
  intros Hk. pose proof (L_pos d ltac:(lia)) as HL.
  destruct (below_all I L Hrange) as [Hall H0].
  unfold queueAt. rewrite Z2Nat.id by lia.
  replace (L - 1 + 1) with (L + 0) by lia.
  rewrite (knownVals_leaves k Hk) by lia.
  replace (0 + Z.of_nat (S (Z.to_nat (L - 1)))) with L by lia.
  rewrite Hall, H0, Z.sub_0_r, Nat2Z.id, <- map_rev, rev_zseq.
  f_equal.
Qed.

Lemma leavesOf_root :
  G 1 = map (fun j => mkLeaf j (nth (Z.to_nat j) I 0) d) (down (m - 1) (length I)).
Proof.
  destruct (below_all I L Hrange) as [Hall H0].
  unfold leavesOf. rewrite heightOf_root, firstOf_root by lia.
  rewrite Z.add_0_l, Hall, H0, Z.sub_0_r, Nat2Z.id.
  apply map_ext. intros j. now rewrite Z.sub_0_r.
Qed.

Lemma final_elements s :
  irepr m s [G 1] -> elementsOf m s = I.
Proof.
  intros (_ & _ & Hs). inversion Hs as [| g Q (_ & _ & _ & Hh) _]; subst.
  rewrite leavesOf_root in Hh. rewrite Forall_map, Forall_forall in Hh.
  unfold elementsOf. rewrite Nat2Z.id.
  rewrite <- (map_nth_zseq I) at 2. apply map_ext_in. intros j Hj.
  apply in_zseq in Hj. specialize (Hh j). cbn [position found] in Hh.
  apply Hh. apply in_down. lia.
Qed.

End Ends.

(** ** The loop over the bit sets *)

Section IndexBits.
Variable m : Z.
Variables fl sl ol : list bool.
Hypothesis Hns : noStop fl sl.

Lemma indexBitsLoop_sim : forall k i s Q Q' fuel,
  irepr m s Q -> (i + k = length fl)%nat -> (k + Z.to_nat m < fuel)%nat ->
  grun (skipn i fl) (skipn i sl) (skipn i ol) Q = Some Q' ->
  exists s',
    indexBitsLoop fuel (withStop fl) (withStop sl) (toBigIntBoolSet ol) m
                  (2 ^ Z.of_nat i) s = Some s' /\
    irepr m s' Q'.
Proof.
  induction k as [| k IH]; intros i s Q Q' fuel Hr Hik Hfuel Hrun;
    (destruct fuel as [| fuel]; [lia |]); cbn [indexBitsLoop];
    destruct (noStop_nth fl sl i Hns) as [Hl Hn];
    rewrite !nonzero_land_pow2, !testbit_withStop, testbit_boolset by lia.
  - replace (length sl =? i)%nat with true by (symmetry; apply Nat.eqb_eq; lia).
    replace (length fl =? i)%nat with true by (symmetry; apply Nat.eqb_eq; lia).
    rewrite !orb_true_r. cbn [andb].
    rewrite skipn_all2 in Hrun by lia. cbn [grun] in Hrun. injection Hrun as <-.
    exists s. split; [reflexivity | exact Hr].
  - replace (length sl =? i)%nat with false by (symmetry; apply Nat.eqb_neq; lia).
    replace (length fl =? i)%nat with false by (symmetry; apply Nat.eqb_neq; lia).
    rewrite !orb_false_r. fold (truthy fl i). fold (truthy sl i). fold (truthy ol i).
    rewrite andb_comm, Hn.
    destruct (skipn i fl) as [| f fl'] eqn:Efl.
    { apply (f_equal (@length bool)) in Efl. rewrite length_skipn in Efl.
      cbn [length] in Efl. lia. }
    cbn [grun] in Hrun.
    destruct (gstep f (hd false (skipn i sl)) (hd false (skipn i ol)) Q)
      as [Q1 |] eqn:Hstep; [| discriminate].
    assert (Hf : truthy fl i = f) by (rewrite truthy_hd, Efl; reflexivity).
    rewrite Hf, !truthy_hd.
    destruct (indexStep_sim m fuel _ _ _ s Q Q1 Hr Hstep ltac:(lia)) as (s1 & Hs1 & Hr1).
    rewrite Hs1, shiftl_pow2 by lia.
    replace (Z.of_nat i + 1) with (Z.of_nat (S i)) by lia.
    apply (IH (S i) s1 Q1 Q' fuel Hr1); [lia | lia |].
    rewrite !skipn_tl, Efl. exact Hrun.
Qed.

End IndexBits.

(** ** Index inference on a generated proof *)

Section Inferred.
Variable keccak : Buffer -> Buffer -> Buffer.
Variable E : list Buffer.
Variable I : list Z.

Local Abbreviation N := (Z.of_nat (length E)).
Local Abbreviation d := (Z.log2_up (Z.max (Z.of_nat (length E)) 1)).
Local Abbreviation L := (leafCountOf (Z.of_nat (length E))).
Local Abbreviation m := (Z.of_nat (length I)).
Local Abbreviation tree := (buildTree keccak false E).
Local Abbreviation Tv := (nodesOf keccak false E).
Local Abbreviation Gv := (groupOf d I).

Hypothesis HN : N <= 2 ^ 30.
Hypothesis HI : I <> [].
Hypothesis Hasc : strictlyAscending I = true.
Hypothesis Hrange : inRange N I = true.

Lemma depth_bounds : 0 <= d <= 30.
Proof. split; [apply Z.log2_up_nonneg | apply Z.log2_up_le_pow2; lia]. Qed.

Lemma depth_positive : 2 <= N -> 1 <= d.
Proof.
  intros H2. assert (0 < d); [| lia].
  apply Z.log2_up_lt_pow2; [lia |]. change (2 ^ 0) with 1. lia.
Qed.

(** The streams of the generator take the queue of the fresh leaves to
    the group of the root. *)
Lemma generated_groups k r :
  (forall j, k j = knownLeaf L I j) ->
  (forall j, r j = relevantParent L I j) ->
  let o := genLoop tree (Z.to_nat (L - 1)) (mkGen k r [] [] [] []) in
  noStop (genFlags o) (genSkips o) /\
  length (genOrders o) = length (genFlags o) /\
  (2 <= N -> genFlags o <> []) /\
  grun (genFlags o) (genSkips o) (genOrders o) (map fresh (down (m - 1) (length I)))
    = Some [leavesOf d I 1].
Proof.
  intros Hk Hr o.
  pose proof depth_bounds as Hd.
  assert (HL : 1 <= L <= 2 ^ 30) by (apply (L_bounds E E eq_refl); lia).
  assert (HNL : N <= L) by apply leafCountOf_ge.
  assert (HrL : inRange (2 ^ d) I = true) by (apply (inRange_weaken N); assumption).
  pose proof (start_Inv keccak false E E I eq_refl ltac:(lia) Hrange
                        (fun _ _ _ => eq_refl) k r Hk Hr) as HInv.
  assert (HKB : knownBelow d L I (Z.to_nat (L - 1)) (mkGen k r [] [] [] [])).
  { intros j Hj. cbn [known]. rewrite Hk. apply (knownLeaf_below d I Hd Hasc).
    change (2 ^ d) with L. lia. }
  destruct (gen_sound keccak false Tv tree L HL (Tv_node keccak false E E eq_refl)
                      (tree_node keccak false E) (tree_shape keccak false E E eq_refl)
                      (Tv_sibling keccak false E E eq_refl)
                      (Z.to_nat (L - 1)) _ HInv ltac:(lia))
    as (_ & _ & Hns & Hlo & _ & _).
  assert (Hlt : Z.of_nat (Z.to_nat (L - 1)) < 2 ^ d) by (change (2 ^ d) with L; lia).
  destruct (gen_groups keccak false Tv tree d I Hd Hasc
                       (Tv_node keccak false E E eq_refl)
                       (tree_node keccak false E) (tree_shape keccak false E E eq_refl)
                       (Tv_sibling keccak false E E eq_refl)
                       (Z.to_nat (L - 1)) _ HInv HKB Hlt)
    as (HKB0 & Hrun).
  change (clearOut (mkGen k r [] [] [] [])) with (mkGen k r [] [] [] [])
    in Hns, Hlo, HKB0, Hrun.
  cbn [known] in Hrun. fold o in Hns, Hlo, HKB0, Hrun.
  pose proof (start_groups d I Hd Hasc HrL k Hk) as Hstart.
  change (2 ^ d) with L in Hstart. rewrite Hstart in Hrun.
  destruct (below_all I (2 ^ d) HrL) as [Hall H0].
  assert (Hm : 1 <= m) by (destruct I; [congruence | cbn [length]; lia]).
  assert (Hlast : queueAt Gv (known o) 0 = [leavesOf d I 1]).
  { unfold queueAt, knownVals. rewrite zseq_S. cbn [zseq seq map flat_map rev app].
    rewrite app_nil_r. change (Z.of_nat 0 + 1) with 1. unfold kv.
    rewrite (HKB0 1) by (change (Z.of_nat 0) with 0; lia).
    rewrite heightOf_root, firstOf_root by lia. rewrite Z.add_0_l.
    rewrite Hall, H0. destruct (Z.ltb_spec 0 m); [reflexivity | lia]. }
  rewrite Hlast in Hrun.
  repeat split; try assumption.
  intros H2 Hnil. pose proof (depth_positive H2) as Hd1.
  rewrite Hnil in Hrun. cbn [grun] in Hrun. injection Hrun as Hq.
  rewrite (leavesOf_root d I Hd HrL) in Hq.
  destruct (length I) as [| n]; [lia |]. cbn [down map] in Hq.
  apply (f_equal (fun q : list group =>
                    match q with (l :: _) :: _ => pushed l | _ => 0 end)) in Hq.
  cbn [fresh pushed] in Hq. lia.
Qed.

(** What the generator returns, by the arrays of its second loop. *)
Lemma generated_arrays :
  exists k r,
    (forall j, k j = knownLeaf L I j) /\
    (forall j, r j = relevantParent L I j) /\
    let o := genLoop tree (Z.to_nat (L - 1)) (mkGen k r [] [] [] []) in
    generateBooleans false tree N I =
      Ok (mkProof [] N (defined (genDecommitments o)) (genFlags o) (genSkips o)
                  (Some (genOrders o))).
Proof.
  assert (HL : 1 <= L <= 2 ^ 30) by (apply (L_bounds E E eq_refl); lia).
  unfold generateBooleans. rewrite buildTree_length.
  rewrite ushr_1 by lia. replace (2 * L / 2) with L by (rewrite Z.mul_comm, Z.div_mul; lia).
  destruct (markLeaves_ok L I None (fun _ => false) (fun _ => false)
                          (strictly_ascending _ Hasc)) as (k & r & Hm & Hk & Hr).
  rewrite Hm. cbn [bind fst snd]. exists k, r.
  split; [intros j; rewrite Hk; apply orb_false_r |].
  split; [intros j; rewrite Hr; apply orb_false_r | reflexivity].
Qed.

(** With the ordered hash, index inference over the boolean arrays of
    the proof generated for a non-empty, strictly ascending index list
    of a tree of two elements or more returns that list. *)
Theorem index_inference (fuel : nat) :
  2 <= N -> (length I <= fuel)%nat ->
  exists p,
    generate false false tree N I = Ok p /\
    getIndices fuel (Z.of_nat (length I)) (compactProof p) (flags p) (skips p)
               (match orders p with Some o => o | None => [] end) = Some (Ok I).
Proof.
  intros H2 Hfuel. destruct generated_arrays as (k & r & Hk & Hr & Hg). cbv zeta in Hg.
  destruct (generated_groups k r Hk Hr) as (_ & Hlo & Hne & Hrun).
  set (o := genLoop tree (Z.to_nat (L - 1)) (mkGen k r [] [] [] [])) in *.
  pose proof depth_bounds as Hd.
  assert (HrL : inRange (2 ^ d) I = true)
    by (apply (inRange_weaken N); [apply leafCountOf_ge | assumption]).
  eexists. split; [exact Hg |]. cbn [compactProof flags skips orders getIndices].
  unfold getIndicesWithBooleans.
  destruct (Nat.eqb_spec (length (genOrders o)) 0) as [Hz | _].
  { rewrite Hlo in Hz. specialize (Hne H2). destruct (genFlags o); [congruence | discriminate]. }
  destruct (indexLoop_sim m fuel (genFlags o) (genSkips o) (genOrders o)
              (length (genFlags o)) 0 (initIndex m) _ _
              (start_irepr I HI) ltac:(lia) eq_refl Hrun) as (s' & Hloop & Hrepr).
  rewrite Hloop. do 2 f_equal. apply (final_elements d I Hd HrL). exact Hrepr.
Qed.

(** With the ordered hash, index inference over the compact proof
    generated for a non-empty, strictly ascending index list returns
    that list. *)
Theorem index_inference_compact (fuel : nat) (q : proof) :
  (256 + length I < fuel)%nat ->
  generate false true tree N I = Ok q ->
  getIndices fuel (Z.of_nat (length I)) (compactProof q) (flags q) (skips q) []
    = Some (Ok I).
Proof.
  intros Hfuel Hq. destruct generated_arrays as (k & r & Hk & Hr & Hg). cbv zeta in Hg.
  destruct (generated_groups k r Hk Hr) as (Hns & Hlo & _ & Hrun).
  set (o := genLoop tree (Z.to_nat (L - 1)) (mkGen k r [] [] [] [])) in *.
  pose proof depth_bounds as Hd.
  assert (HrL : inRange (2 ^ d) I = true)
    by (apply (inRange_weaken N); [apply leafCountOf_ge | assumption]).
  unfold generate, generateBits in Hq. rewrite Hg in Hq.
  cbn [bind flags skips orders decommitments elementCount] in Hq.
  destruct (Z.gtb_spec (Z.of_nat (length (genFlags o))) 255) as [Hbig | H255];
    [discriminate |].
  injection Hq as <-. cbn [compactProof flags skips app getIndices].
  destruct (noStop_nth _ _ O Hns) as [Hl _].
  destruct (indexBitsLoop_sim m (genFlags o) (genSkips o) (genOrders o) Hns
              (length (genFlags o)) 0 (initIndex m) _ _ fuel
              (start_irepr I HI) eq_refl ltac:(lia) Hrun) as (s' & Hloop & Hrepr).
  change (2 ^ Z.of_nat 0) with 1 in Hloop.
  unfold getIndicesWithBits, word, bufferFrom, get, bufferToBigInt, to32ByteBoolBuffer,
    bigIntTo32ByteBuffer, to32ByteBuffer.
  change (Z.to_nat 1) with 1%nat. change (Z.to_nat 2) with 2%nat.
  change (Z.to_nat 3) with 3%nat. cbn [nth_error Z.ltb Z.compare].
  unfold withStop in Hloop. rewrite Hl in Hloop. rewrite Hloop.
  do 2 f_equal. apply (final_elements d I Hd HrL). exact Hrepr.
Qed.

End Inferred.

Lemma index_inference_witness :
  exists p,
    generate false false (buildTree toy false sample) (Z.of_nat (length sample)) [1; 3] = Ok p /\
    getIndices 2 (Z.of_nat (length [1; 3])) (compactProof p) (flags p) (skips p)
               (match orders p with Some o => o | None => [] end) = Some (Ok [1; 3]).
Proof. apply (index_inference toy sample [1; 3]); evaluate. Defined.

Lemma index_inference_compact_witness :
  exists q,
    generate false true (buildTree toy false sample) (Z.of_nat (length sample)) [1; 3] = Ok q /\
    getIndices 300 (Z.of_nat (length [1; 3])) (compactProof q) (flags q) (skips q) []
      = Some (Ok [1; 3]).
Proof.
  eexists. split; [vm_compute; reflexivity |].
  apply (index_inference_compact toy sample [1; 3]); evaluate.
Defined.

(* ================================================================= *)
(** * Appending without the old root *)

Import AppendProofs.

Section AppendSingle.
Variable keccak : Buffer -> Buffer -> Buffer.
Variable sortedHash : bool.

(** The loop of [appendSingle] follows the new root of
    [getNewRootSingle]. *)
Lemma appendSingleLoop_follows decommitments : forall n a h reads h' a' reads',
  newRootLoop keccak sortedHash n decommitments (Some a) h reads
    = (Ok (h', a'), reads') ->
  exists v, a' = Some v /\ appendSingleLoop keccak sortedHash n decommitments a = Ok v.
Proof.
  induction n as [| n IH]; intros a h reads h' a' reads' H.
  - cbn [newRootLoop] in H. injection H as _ Ha _. subst a'. exists a. split; reflexivity.
  - cbn [newRootLoop appendSingleLoop] in *.
    destruct (callHash keccak sortedHash (get decommitments (Z.of_nat n)) (Some a))
      as [a1 | e]; [| discriminate].
    destruct (callHash keccak sortedHash (get decommitments (Z.of_nat n)) h)
      as [h1 | e]; [| discriminate].
    cbn [bind]. exact (IH _ _ _ _ _ _ H).
Qed.

(** Whenever [getNewRootSingle] returns, [appendSingle] returns its new
    root. *)
Theorem appendSingle_agrees (appendLeaf : Buffer) (elementCount : Z)
        (decommitments : list Buffer) (r : newRootResult) (reads : list Z) :
  getNewRootSingle keccak sortedHash appendLeaf [] elementCount decommitments
    = (Ok r, reads) ->
  exists v, newRoot r = Some v /\
            appendSingle keccak sortedHash appendLeaf elementCount decommitments = Ok v.
Proof.
  unfold getNewRootSingle, appendSingle. cbn [unpack].
  pose proof (bitCount32_bounds elementCount) as Hb.
  destruct (Z.eq_dec (bitCount32 elementCount) 0) as [H0 | H0].
  - rewrite H0. cbn. discriminate.
  - destruct (Z.to_nat (bitCount32 elementCount)) as [| n] eqn:Ei; [lia |].
    replace (bitCount32 elementCount - 1) with (Z.of_nat n) by lia.
    rewrite Nat2Z.id. cbn [appendSingleLoop].
    destruct (callHash keccak sortedHash (get decommitments (Z.of_nat n))
                       (Some appendLeaf)) as [a1 | e]; [| discriminate].
    cbn [bind].
    destruct (newRootLoop keccak sortedHash n decommitments (Some a1) _ _)
      as [[[h' a'] | e] reads'] eqn:Hloop; [| discriminate].
    intros H. injection H as Hr _. subst r. cbn [newRoot].
    exact (appendSingleLoop_follows _ _ _ _ _ _ _ _ Hloop).
Qed.

End AppendSingle.

Section AppendGenerated.
Variable keccak : Buffer -> Buffer -> Buffer.
Variable sortedHash : bool.
Local Abbreviation buildTree := (buildTree keccak sortedHash).
Local Abbreviation leafImage := (leafImage keccak).
Local Abbreviation frontier := (frontier keccak sortedHash).

(** The proof generated for the tree without elements has no
    decommitment. *)
Lemma generate_empty compact fuel :
  (1 <= fuel)%nat ->
  generate fuel compact (buildTree []) 0
    = Some (Ok (if compact then mkProof [to32ByteBuffer 0] 0 [] else mkProof [] 0 [])).
Proof.
  intros Hfuel. destruct fuel as [| fuel]; [lia |]. destruct compact; reflexivity.
Qed.

(** An append proof has as many decommitments as the element count has
    bits set; the compact form has the count in front of them. *)
Theorem append_proof_size (elements : list Buffer) (compact : bool) (fuel : nat) :
  Z.of_nat (length elements) < 2 ^ 30 ->
  (33 <= fuel)%nat ->
  exists p,
    generate fuel compact (buildTree elements) (Z.of_nat (length elements)) = Some (Ok p) /\
    Z.of_nat (length (if compact then tl (compactProof p) else decommitments p))
      = bitCount32 (Z.of_nat (length elements)) /\
    (if compact then hd 0 (compactProof p) else elementCount p)
      = Z.of_nat (length elements).
Proof.
  intros HN Hfuel. destruct elements as [| e E].
  - rewrite generate_empty by lia. eexists. split; [reflexivity |].
    destruct compact; split; reflexivity.
  - set (El := e :: E) in *.
    assert (HN1 : 1 <= Z.of_nat (length El)) by (cbn [El length]; lia).
    rewrite (generate_spec keccak sortedHash El HN1 ltac:(lia) compact fuel Hfuel).
    eexists. split; [reflexivity |].
    pose proof (F_length keccak sortedHash El HN1 HN) as Hl.
    destruct compact; cbn [compactProof decommitments elementCount tl hd];
      rewrite length_rev; split; (exact Hl || reflexivity).
Qed.

(** [getRoot] on the generated proof returns the root of the tree. *)
Theorem append_root_roundtrip (elements : list Buffer) (compact : bool) (fuel : nat) :
  1 <= Z.of_nat (length elements) < 2 ^ 30 ->
  (33 <= fuel)%nat ->
  exists p r reads,
    generate fuel compact (buildTree elements) (Z.of_nat (length elements)) = Some (Ok p) /\
    getOpt (buildTree elements) 1 = Some r /\
    getRoot keccak sortedHash (compactProof p) (elementCount p) (decommitments p)
      = (Ok (mkRoot (Some r) (Z.of_nat (length elements))), reads).
Proof.
  intros [HN1 HN] Hfuel.
  destruct (root_defined keccak sortedHash elements HN1) as [r Hr].
  pose proof (generate_spec keccak sortedHash elements HN1 ltac:(lia) compact fuel Hfuel)
    as Hg.
  pose proof (unpack_generated compact (Z.of_nat (length elements))
                (rev (frontier elements 32 0 (Z.of_nat (length elements)))) ltac:(lia))
    as Hu.
  cbv zeta in Hu.
  destruct (F_nonempty keccak sortedHash elements HN1 HN) as (f & F' & HF).
  pose proof (F_length keccak sortedHash elements HN1 HN) as Hl.
  pose proof (old_root keccak sortedHash elements HN1 ltac:(lia)) as Hold.
  rewrite HF in *. cbn [length rev] in *.
  destruct (rootLoop_fold keccak sortedHash F' f [f] [Z.of_nat (length F')])
    as [reads Hloop].
  eexists _, r, reads. split; [exact Hg |]. rewrite buildTree_get. split; [exact Hr |].
  unfold getRoot. rewrite Hu.
  replace (bitCount32 (Z.of_nat (length elements)) - 1) with (Z.of_nat (length F')) by lia.
  rewrite get_rev_middle, Nat2Z.id, Hloop.
  change (rootFrom keccak sortedHash (Some f) F')
    with (rootFrom keccak sortedHash None (f :: F')).
  rewrite Hold, Hr. reflexivity.
Qed.

(** [appendSingle] on the decommitments of the generated proof returns
    the root of the tree with the element appended, also when the tree
    had no element. *)
Theorem appendSingle_root (elements : list Buffer) (x : Buffer) (fuel : nat) :
  Z.of_nat (length elements) < 2 ^ 30 ->
  (33 <= fuel)%nat ->
  exists p r',
    generate fuel false (buildTree elements) (Z.of_nat (length elements)) = Some (Ok p) /\
    getOpt (buildTree (elements ++ [x])) 1 = Some r' /\
    appendSingle keccak sortedHash (leafImage x) (elementCount p) (decommitments p)
      = Ok r'.
Proof.
  intros HN Hfuel. destruct elements as [| e E].
  - rewrite generate_empty by lia. eexists _, (leafImage x).
    split; [reflexivity |]. split; reflexivity.
  - set (El := e :: E) in *.
    assert (HN1 : 1 <= Z.of_nat (length El)) by (cbn [El length]; lia).
    destruct (root_defined keccak sortedHash (El ++ [x])) as [r' Hr'].
    { rewrite length_app. lia. }
    pose proof (generate_spec keccak sortedHash El HN1 ltac:(lia) false fuel Hfuel) as Hg.
    destruct (single_roots keccak sortedHash El HN1 HN x [] (Z.of_nat (length El))
                           (rev (frontier El 32 0 (Z.of_nat (length El)))) eq_refl)
      as [reads Hs].
    eexists _, r'. split; [exact Hg |]. rewrite buildTree_get. split; [exact Hr' |].
    cbn [elementCount decommitments].
    revert Hs. unfold getNewRootSingle, appendSingle. cbn [unpack].
    assert (Hb32 : 1 <= Z.of_nat (length El) < 2 ^ 32) by lia.
    pose proof (bitCount32_pos _ Hb32) as Hb.
    destruct (Z.eq_dec (bitCount32 (Z.of_nat (length El))) 0) as [H0 | _]; [lia |].
    destruct (Z.to_nat (bitCount32 (Z.of_nat (length El)))) as [| n] eqn:Ei; [lia |].
    replace (bitCount32 (Z.of_nat (length El)) - 1) with (Z.of_nat n) by lia.
    rewrite Nat2Z.id. cbn [appendSingleLoop].
    destruct (callHash keccak sortedHash (get _ (Z.of_nat n)) (Some (leafImage x)))
      as [a1 | err]; [| discriminate].
    cbn [bind].
    destruct (newRootLoop keccak sortedHash n _ (Some a1) _ _)
      as [[[h' a'] | err] reads'] eqn:Hloop; [| discriminate].
    intros H. injection H as _ Ha' _.
    destruct (appendSingleLoop_follows keccak sortedHash _ _ _ _ _ _ _ _ Hloop)
      as (v & Hv & Ha).
    rewrite Ha. unfold El in Hr'. cbn [app] in Hr'. congruence.
Qed.

End AppendGenerated.

Section AppendMulti.
Variable keccak : Buffer -> Buffer -> Buffer.
Variable sortedHash : bool.

(** A turn of [getNewRootMulti] that succeeds is a turn of
    [appendMulti]. *)
Lemma appendStep_follows decommitments s reads s' reads' :
  multiStep keccak sortedHash decommitments s reads = (Ok s', reads') ->
  appendStep keccak sortedHash decommitments (forget s) = Ok (forget s').
Proof.
  unfold multiStep, appendStep, forget.
  cbn [appendDecommitmentIndex appendedHashes appendUpperBound appendWriteIndex
       appendReadIndex appendOffset appendIndex].
  destruct ((writeIndex s =? 0) && negb (band (index s) 1 =? 0)).
  - destruct (callHash keccak sortedHash (get decommitments (decommitmentIndex s))
                       (appendHashes s (readIndex s))) as [a | e]; [| discriminate].
    cbn [bind].
    destruct (decommitmentIndex s - 1 >=? 0).
    + destruct (callHash keccak sortedHash (get decommitments (decommitmentIndex s - 1))
                         (hash s)) as [h | e]; [| discriminate].
      cbn [index upperBound appendIndex appendUpperBound appendedHashes appendWriteIndex
           appendReadIndex appendOffset appendDecommitmentIndex decommitmentIndex
           appendHashes writeIndex readIndex offset hash].
      destruct (index s + 1 >=? upperBound s); intros H; injection H as <- _; reflexivity.
    + cbn [index upperBound appendIndex appendUpperBound appendedHashes appendWriteIndex
           appendReadIndex appendOffset appendDecommitmentIndex decommitmentIndex
           appendHashes writeIndex readIndex offset hash].
      destruct (index s + 1 >=? upperBound s); intros H; injection H as <- _; reflexivity.
  - destruct (index s <? upperBound s).
    + destruct (callHash keccak sortedHash (appendHashes s (readIndex s))
                         (appendHashes s (readIndex s + 1))) as [a | e]; [| discriminate].
      cbn [bind index upperBound appendIndex appendUpperBound appendedHashes
           appendWriteIndex appendReadIndex appendOffset appendDecommitmentIndex
           decommitmentIndex appendHashes writeIndex readIndex offset hash].
      destruct (index s + 2 >=? upperBound s); intros H; injection H as <- _; reflexivity.
    + cbn [bind appendIndex appendUpperBound appendedHashes appendWriteIndex
           appendReadIndex appendOffset appendDecommitmentIndex].
      destruct (index s >=? upperBound s); intros H; injection H as <- _; reflexivity.
Qed.

Lemma appendLoop_follows decommitments : forall fuel s reads s' reads',
  multiLoop keccak sortedHash fuel decommitments s reads = Some (Ok s', reads') ->
  appendLoop keccak sortedHash fuel decommitments (forget s) = Some (Ok (forget s')).
Proof.
  induction fuel as [| fuel IH]; intros s reads s' reads' H; [discriminate |].
  cbn [multiLoop appendLoop] in *.
  change (appendUpperBound (forget s)) with (upperBound s).
  destruct (upperBound s >? 0).
  - destruct (multiStep keccak sortedHash decommitments s reads) as [[s1 | e] reads1] eqn:Hs;
      [| discriminate].
    rewrite (appendStep_follows _ _ _ _ _ Hs). exact (IH _ _ _ _ H).
  - injection H as <- _. reflexivity.
Qed.

(** Whenever [getNewRootMulti] returns, [appendMulti] returns its new
    root. *)
Theorem appendMulti_agrees (fuel : nat) (appendLeafs : list Buffer) (elementCount : Z)
        (decommitments : list Buffer) (r : newRootResult) (reads : list Z) :
  getNewRootMulti keccak sortedHash fuel appendLeafs [] elementCount decommitments
    = Some (Ok r, reads) ->
  appendMulti keccak sortedHash fuel appendLeafs elementCount decommitments
    = Some (Ok (newRoot r)).
Proof.
  unfold getNewRootMulti, appendMulti. cbn [unpack].
  destruct (multiLoop keccak sortedHash fuel decommitments _ _)
    as [[[s' | e] reads'] |] eqn:Hloop; try discriminate.
  intros H. injection H as <- _.
  apply appendLoop_follows in Hloop. unfold forget at 1 in Hloop.
  cbn [decommitmentIndex appendHashes upperBound writeIndex readIndex offset index] in Hloop.
  unfold arrayOf in Hloop. rewrite Hloop. reflexivity.
Qed.

(** [appendMulti] on the decommitments of the generated proof returns
    the root of the tree with the elements appended. *)
Theorem appendMulti_root (elements appended : list Buffer) (fuel : nat) :
  1 <= Z.of_nat (length elements) ->
  appended <> [] ->
  Z.of_nat (length elements) + Z.of_nat (length appended) <= 2 ^ 30 ->
  (33 <= fuel)%nat ->
  3 * (Z.of_nat (length elements) + Z.of_nat (length appended)) <= Z.of_nat fuel ->
  exists p r',
    generate fuel false (buildTree keccak sortedHash elements) (Z.of_nat (length elements))
      = Some (Ok p) /\
    getOpt (buildTree keccak sortedHash (elements ++ appended)) 1 = Some r' /\
    appendMulti keccak sortedHash fuel (map (leafImage keccak) appended)
                (elementCount p) (decommitments p) = Some (Ok (Some r')).
Proof.
  intros HN1 HA HN2 Hgen Hfuel.
  assert (HlenA : 1 <= Z.of_nat (length appended)).
  { destruct appended; [contradiction | cbn [length]; lia]. }
  destruct (root_defined keccak sortedHash (elements ++ appended)) as [r' Hr'].
  { rewrite length_app. lia. }
  pose proof (generate_spec keccak sortedHash elements HN1 ltac:(lia) false fuel Hgen) as Hg.
  destruct (multi_roots keccak sortedHash elements appended HN1 HlenA HN2 fuel []
                        (Z.of_nat (length elements))
                        (rev (frontier keccak sortedHash elements 32 0
                                       (Z.of_nat (length elements))))
                        eq_refl Hfuel) as [reads Hm].
  eexists _, r'. split; [exact Hg |]. rewrite buildTree_get. split; [exact Hr' |].
  cbn [elementCount decommitments].
  revert Hm. unfold getNewRootMulti, appendMulti. cbn [unpack].
  destruct (multiLoop keccak sortedHash fuel _ _ _)
    as [[[s' | err] reads'] |] eqn:Hloop; try discriminate.
  intros H. injection H as _ Ha' _.
  apply appendLoop_follows in Hloop. unfold forget at 1 in Hloop.
  cbn [decommitmentIndex appendHashes upperBound writeIndex readIndex offset index] in Hloop.
  unfold arrayOf in Hloop. rewrite Hloop. cbn [appendedHashes forget].
  rewrite Ha', Hr'. reflexivity.
Qed.

End AppendMulti.

Lemma appendSingle_agrees_witness :
  exists r reads,
    getNewRootSingle toy false 9 [] 5 [21; 22] = (Ok r, reads) /\
    exists v, newRoot r = Some v /\ appendSingle toy false 9 5 [21; 22] = Ok v.
Proof.
  eexists _, _. split; [vm_compute; reflexivity |].
  eapply (appendSingle_agrees toy false 9 5 [21; 22]). evaluate.
Defined.

Lemma append_proof_size_witness :
  exists p,
    generate 40 true (buildTree toy false sample) (Z.of_nat (length sample)) = Some (Ok p) /\
    Z.of_nat (length (tl (compactProof p))) = bitCount32 (Z.of_nat (length sample)) /\
    hd 0 (compactProof p) = Z.of_nat (length sample).
Proof. apply (append_proof_size toy false sample true 40); evaluate. Defined.

Lemma append_root_roundtrip_witness :
  exists p r reads,
    generate 40 false (buildTree toy true sample) (Z.of_nat (length sample)) = Some (Ok p) /\
    getOpt (buildTree toy true sample) 1 = Some r /\
    getRoot toy true (compactProof p) (elementCount p) (decommitments p)
      = (Ok (mkRoot (Some r) (Z.of_nat (length sample))), reads).
Proof. apply (append_root_roundtrip toy true sample false 40); [cbn; lia | lia]. Defined.

Lemma appendSingle_root_witness :
  exists p r',
    generate 40 false (buildTree toy false sample) (Z.of_nat (length sample)) = Some (Ok p) /\
    getOpt (buildTree toy false (sample ++ [66])) 1 = Some r' /\
    appendSingle toy false (leafImage toy 66) (elementCount p) (decommitments p) = Ok r'.
Proof. apply (appendSingle_root toy false sample 66 40); evaluate. Defined.

Lemma appendMulti_agrees_witness :
  exists r reads,
    getNewRootMulti toy false 40 [7; 8; 9] [] 5 [21; 22] = Some (Ok r, reads) /\
    appendMulti toy false 40 [7; 8; 9] 5 [21; 22] = Some (Ok (newRoot r)).
Proof.
  eexists _, _. split; [vm_compute; reflexivity |].
  eapply (appendMulti_agrees toy false 40 [7; 8; 9] 5 [21; 22]). evaluate.
Defined.

Lemma appendMulti_root_witness :
  exists p r',
    generate 40 false (buildTree toy false sample) (Z.of_nat (length sample)) = Some (Ok p) /\
    getOpt (buildTree toy false (sample ++ [66; 77; 88])) 1 = Some r' /\
    appendMulti toy false 40 (map (leafImage toy) [66; 77; 88])
                (elementCount p) (decommitments p) = Some (Ok (Some r')).
Proof. apply (appendMulti_root toy false sample [66; 77; 88] 40); evaluate. Defined.

(* ================================================================= *)
(** * Appending to the empty tree *)

Section EmptyTree.
Variable keccak : Buffer -> Buffer -> Buffer.
Variable sortedHash : bool.
Variable A : list Buffer.
Variable decs : list Buffer.
Local Abbreviation sub := (sub keccak sortedHash A).
Local Abbreviation hashFunction := (hashFunction keccak sortedHash).
Local Abbreviation M := (Z.of_nat (length A)).
Local Abbreviation u := (boundAt [] A).
Local Abbreviation Fresh := (Fresh keccak sortedHash A).
Hypothesis HA : 1 <= M.
Hypothesis HM : M <= 2 ^ 30.

Lemma u_S k : u (S k) = u k / 2.
Proof.
  unfold boundAt. pose proof (pow2_pos k). rewrite Z.div_div by lia.
  now rewrite pow2_S, Z.mul_comm.
Qed.

Lemma u_bounds k : 0 <= u k < 2 ^ 30.
Proof.
  unfold boundAt. cbn [length Z.of_nat]. pose proof (pow2_pos k). split.
  - apply Z.div_pos; lia.
  - apply Z.div_lt_upper_bound; [lia |]. nia.
Qed.

Lemma u_floor k : u k * 2 ^ Z.of_nat k < M <= (u k + 1) * 2 ^ Z.of_nat k.
Proof.
  unfold boundAt. cbn [length Z.of_nat].
  pose proof (floor_div (0 + M - 1) k ltac:(lia)). lia.
Qed.

Lemma level_defined k t : 0 <= t <= u k -> exists v, sub k t = Some v.
Proof.
  intros Ht. apply sub_some; [lia |].
  pose proof (u_floor k). pose proof (pow2_pos k). nia.
Qed.

Lemma level_end k t : u k < t -> sub k t = None.
Proof.
  intros Ht. pose proof (u_bounds k). apply sub_undefined; [lia |].
  pose proof (u_floor k). pose proof (pow2_pos k). nia.
Qed.

(** One turn of the loop keeps the invariant and brings the end nearer. *)
Lemma appendStep_fresh k s :
  Fresh k s -> 0 < u k ->
  exists k' s', appendStep keccak sortedHash decs s = Ok s' /\ Fresh k' s' /\
                2 * appendUpperBound s' - appendIndex s'
                < 2 * appendUpperBound s - appendIndex s.
Proof.
  destruct s as [di ah ub w r off i].
  intros [Hoff Hbd Hw Hidx Hrd [Hle Hlt] Hout Hin] Hu.
  cbn [appendOffset appendUpperBound appendIndex appendReadIndex appendWriteIndex
       appendedHashes appendDecommitmentIndex] in *.
  subst off ub r i. specialize (Hlt Hu).
  pose proof (u_bounds k) as Hb. pose proof (u_S k) as HuS.
  pose proof (Z.div_mod (u k) 2 ltac:(lia)) as Hdu.
  pose proof (Z.mod_pos_bound (u k) 2 ltac:(lia)) as Hmu.
  unfold appendStep.
  cbn [appendOffset appendUpperBound appendIndex appendReadIndex appendWriteIndex
       appendedHashes appendDecommitmentIndex].
  rewrite band_1. replace (2 * w mod 2) with 0
    by (rewrite Z.mul_comm, Z.mod_mul; lia).
  cbn [Z.eqb negb]. rewrite andb_false_r.
  destruct (Z.ltb_spec (2 * w) (u k)) as [_ | Hge]; [| lia].
  destruct (level_defined k (2 * w) ltac:(lia)) as [a Ha].
  destruct (level_defined k (2 * w + 1) ltac:(lia)) as [b Hb'].
  rewrite (Hin (2 * w)), (Hin (2 * w + 1)), Ha, Hb' by lia.
  cbn [Common.callHash bind].
  cbn [appendOffset appendUpperBound appendIndex appendReadIndex appendWriteIndex
       appendedHashes appendDecommitmentIndex].
  assert (Hnew : sub (S k) w = Some (hashFunction a b)).
  { cbn [Subtrees.sub]. rewrite Ha, Hb'. reflexivity. }
  assert (Hout1 : forall t, 0 <= t < w + 1 -> upd ah w (Some (hashFunction a b)) t = sub (S k) t).
  { intros t Ht. destruct (Z.eq_dec t w) as [-> | Hne].
    - now rewrite upd_eq.
    - rewrite upd_neq by lia. apply Hout. lia. }
  rewrite Z.geb_leb. destruct (Z.leb_spec (u k) (2 * w + 2)) as [Hup | Hstay].
  - exists (S k). eexists. split; [reflexivity |].
    rewrite !ushr_1 by lia. change (0 / 2) with 0.
    split; [| cbn [appendUpperBound appendIndex]; lia].
    constructor;
      cbn [appendOffset appendUpperBound appendIndex appendReadIndex appendWriteIndex
           appendedHashes appendDecommitmentIndex]; try lia.
    + intros t Ht.
      destruct (Z.eqb_spec (2 * w + 2) (u k)) as [Heq | Hne].
      * destruct (Z.eq_dec t (w + 1)) as [-> | Hn1].
        -- rewrite upd_eq, upd_neq by lia. rewrite (Hin (2 * w + 2)) by lia.
           cbn [Subtrees.sub]. replace (2 * (w + 1)) with (2 * w + 2) by lia.
           rewrite (level_end k (2 * w + 2 + 1)) by lia.
           destruct (level_defined k (2 * w + 2) ltac:(lia)) as [c Hc]. rewrite Hc.
           reflexivity.
        -- rewrite upd_neq by lia. apply Hout1. lia.
      * apply Hout1. lia.
  - eexists k, _. split; [reflexivity |].
    split; [| cbn [appendUpperBound appendIndex]; lia].
    constructor;
      cbn [appendOffset appendUpperBound appendIndex appendReadIndex appendWriteIndex
           appendedHashes appendDecommitmentIndex]; try lia.
    + exact Hout1.
    + intros t Ht. rewrite upd_neq by lia. apply Hin. lia.
Qed.

(** The loop ends, in a state that still satisfies the invariant. *)
Lemma appendLoop_fresh : forall fuel k s,
  Fresh k s -> 2 * appendUpperBound s - appendIndex s < Z.of_nat fuel ->
  exists k' s',
    appendLoop keccak sortedHash fuel decs s = Some (Ok s') /\
    Fresh k' s' /\ appendUpperBound s' = 0.
Proof.
  induction fuel as [| fuel IH]; intros k s Hf Hfuel.
  - destruct Hf as [_ Hbd _ _ _ [Hle _] _ _]. pose proof (u_bounds k). lia.
  - cbn [appendLoop]. pose proof (u_bounds k) as Hb.
    pose proof (f_bound _ _ _ _ _ Hf) as Hu.
    destruct (Z.gtb_spec (appendUpperBound s) 0) as [Hpos | Hzero].
    + destruct (appendStep_fresh k s Hf ltac:(lia)) as (k' & s' & Hs & Hf' & Hm).
      rewrite Hs. apply (IH k' s' Hf'). lia.
    + exists k, s. split; [reflexivity |]. split; [exact Hf | lia].
Qed.

Lemma fresh_start :
  Fresh O (mkAppend (bitCount32 0 - 1) (get (map (leafImage keccak) A))
                    (0 + Z.of_nat (length (map (leafImage keccak) A)) - 1) 0 0 0 0).
Proof.
  assert (Hu0 : u 0 = M - 1)
    by (unfold boundAt; cbn [length Z.of_nat]; change (2 ^ Z.of_nat 0) with 1;
        rewrite Z.div_1_r; lia).
  rewrite length_map.
  constructor;
    cbn [appendOffset appendUpperBound appendIndex appendReadIndex appendWriteIndex
         appendedHashes appendDecommitmentIndex]; rewrite ?Hu0; try lia.
  intros t Ht. unfold get.
  destruct (Z.ltb_spec t 0); [lia |].
  rewrite nth_error_map. cbn [Subtrees.sub].
  destruct (Z.leb_spec 0 t); [| lia].
  destruct (Z.ltb_spec t M); [| lia]. cbn [andb].
  rewrite (nth_error_nth' A 0) by lia. reflexivity.
Qed.

Lemma fresh_final k s :
  Fresh k s -> appendUpperBound s = 0 ->
  appendedHashes s 0 = nodesOf keccak sortedHash A 1.
Proof.
  intros [Hoff Hbd Hw Hidx Hrd [Hle Hlt] Hout Hin] Hu.
  rewrite (Hin 0) by lia.
  apply sub_root. pose proof (u_floor k). lia.
Qed.

(** On the empty tree [appendMulti] reads no decommitment and returns
    the root of the tree of the appended elements. *)
Theorem appendMulti_empty_tree (fuel : nat) :
  2 * M <= Z.of_nat fuel ->
  appendMulti keccak sortedHash fuel (map (leafImage keccak) A) 0 decs
    = Some (Ok (getOpt (buildTree keccak sortedHash A) 1)).
Proof.
  intros Hfuel. unfold appendMulti.
  destruct (appendLoop_fresh fuel O _ fresh_start) as (k' & s' & Hs & Hf' & Hz).
  { cbn [appendUpperBound appendIndex]. rewrite length_map. lia. }
  rewrite Hs, (fresh_final k' s' Hf' Hz), buildTree_get. reflexivity.
Qed.

End EmptyTree.

Lemma appendMulti_empty_tree_witness :
  appendMulti toy false 20 (map (leafImage toy) sample) 0 [7; 8]
    = Some (Ok (getOpt (buildTree toy false sample) 1)).
Proof. apply (appendMulti_empty_tree toy false sample [7; 8]); evaluate. Defined.

(* ================================================================= *)
(** * Compact updates *)

Import MultiProofs.

Section CompactUpdate.
Variable keccak : Buffer -> Buffer -> Buffer.
Variable sortedHash : bool.
Local Abbreviation newBitsLoop := (newBitsLoop keccak sortedHash).
Local Abbreviation newRootLoop := (newRootLoop keccak sortedHash).
Local Abbreviation buildTree := (buildTree keccak sortedHash).
Local Abbreviation leafsAt := (leafsAt keccak).

(** On streams in which no step carries both bits, the loop over the
    words does what the loop over the arrays does, and then returns. *)
Lemma newBitsLoop_equiv fl sl orders decs m N :
  noStop fl sl ->
  forall k i s fuel,
    (i + k = length fl)%nat -> (k < fuel)%nat ->
    newBitsLoop fuel (withStop fl) (withStop sl) (ordersWord orders) decs m N
                (2 ^ Z.of_nat i) s =
    match newRootLoop fl sl (match orders with Some o => o | None => [] end) decs m k i s
    with
    | Ok s' => Some (rootsOf m N s')
    | Throw e => Some (Throw e)
    end.
Proof.
  intros Hns. induction k as [| k IH]; intros i s fuel Hik Hfuel;
    (destruct fuel as [| fuel]; [lia |]);
    cbn [MultiProofs.newBitsLoop MultiProofs.newRootLoop].
  - destruct (noStop_nth fl sl i Hns) as [Hl _].
    rewrite !nonzero_land_pow2, !testbit_withStop by lia.
    replace (length sl =? i)%nat with true by (symmetry; apply Nat.eqb_eq; lia).
    replace (length fl =? i)%nat with true by (symmetry; apply Nat.eqb_eq; lia).
    rewrite !orb_true_r. reflexivity.
  - destruct (noStop_nth fl sl i Hns) as [Hl Hn].
    rewrite !nonzero_land_pow2, !testbit_withStop by lia.
    replace (length sl =? i)%nat with false by (symmetry; apply Nat.eqb_neq; lia).
    replace (length fl =? i)%nat with false by (symmetry; apply Nat.eqb_neq; lia).
    rewrite !orb_false_r. fold (truthy fl i). fold (truthy sl i).
    rewrite andb_comm, Hn. rewrite order_bit.
    destruct (newRootStep keccak sortedHash decs m (truthy fl i) (truthy sl i) _ s)
      as [s' | e]; cbn [bind]; [| reflexivity].
    rewrite shiftl_pow2 by lia. replace (Z.of_nat i + 1) with (Z.of_nat (S i)) by lia.
    apply IH; lia.
Qed.

(** [getNewRootBits] on the words [generateBits] makes of a boolean proof. *)
Lemma getNewRootBits_generated fuel leafs updateLeafs N fl sl ol decs :
  0 <= N < 2 ^ 32 -> noStop fl sl -> (length fl < fuel)%nat ->
  let orders := if sortedHash then None else Some ol in
  getNewRootBits keccak sortedHash fuel leafs updateLeafs
    ([to32ByteBuffer N;
      bigIntTo32ByteBuffer (Z.lor (toBigIntBoolSet fl) (Z.shiftl 1 (Z.of_nat (length fl))));
      bigIntTo32ByteBuffer (Z.lor (toBigIntBoolSet sl) (Z.shiftl 1 (Z.of_nat (length fl))))]
       ++ match orders with
          | Some o => to32ByteBoolBuffer o :: decs
          | None => decs
          end) =
  match newRootLoop fl sl (match orders with Some o => o | None => [] end) decs
                    (Z.of_nat (length leafs)) (length fl) 0
                    (mkNewState (ofList (rev leafs)) (ofList (rev updateLeafs))
                                (Int 0) (Int 0) 0) with
  | Ok s' => Some (rootsOf (Z.of_nat (length leafs)) N s')
  | Throw e => Some (Throw e)
  end.
Proof.
  intros HN Hns Hfuel orders.
  destruct (noStop_nth fl sl O Hns) as [Hl _].
  pose proof (newBitsLoop_equiv fl sl orders decs (Z.of_nat (length leafs)) N
                Hns (length fl) O
                (mkNewState (ofList (rev leafs)) (ofList (rev updateLeafs)) (Int 0) (Int 0) 0)
                fuel eq_refl Hfuel) as Heq.
  change (2 ^ Z.of_nat 0) with 1 in Heq. rewrite <- Heq.
  unfold getNewRootBits, word, bufferFrom, get, bufferToBigInt, bigIntTo32ByteBuffer,
    from32ByteBuffer, to32ByteBuffer, withStop, ordersWord, orders.
  cbn [app nth_error Z.ltb Z.to_nat Z.compare Pos.to_nat Pos.iter_op Init.Nat.add].
  rewrite Z.mod_small by lia. rewrite Hl.
  destruct sortedHash; reflexivity.
Qed.

(** The generated proof runs the queue automaton on the old leaves and
    on the new ones, to the roots of the two trees. *)
Lemma generated_twice (E R : list Buffer) (I : list Z) :
  Z.of_nat (length E) <= 2 ^ 30 ->
  I <> [] ->
  strictlyAscending I = true ->
  inRange (Z.of_nat (length E)) I = true ->
  length R = length I ->
  exists o v v',
    generateBooleans sortedHash (buildTree E) (Z.of_nat (length E)) I =
      Ok (mkProof [] (Z.of_nat (length E)) (defined (genDecommitments o))
                  (genFlags o) (genSkips o)
                  (if sortedHash then None else Some (genOrders o))) /\
    qrun keccak sortedHash (genFlags o) (genSkips o) (seen sortedHash (genOrders o))
         (rev (leafsAt E I)) (defined (genDecommitments o)) = Some ([v], []) /\
    qrun keccak sortedHash (genFlags o) (genSkips o) (seen sortedHash (genOrders o))
         (rev (map (leafImage keccak) R)) (defined (genDecommitments o)) = Some ([v'], []) /\
    nodesOf keccak sortedHash E 1 = Some v /\
    nodesOf keccak sortedHash (updateElements E I R) 1 = Some v' /\
    noStop (genFlags o) (genSkips o) /\
    length (genOrders o) = length (genFlags o).
Proof.
  intros HN HI Hasc Hrange Hlen.
  set (E' := updateElements E I R).
  assert (HlenE : length E' = length E) by apply updateElements_length.
  assert (Hagree : forall t, 0 <= t < Z.of_nat (length E) -> ~ In t I ->
                             elementAt E' t = elementAt E t).
  { intros t Ht Hn. unfold E'. rewrite updateElements_at by assumption.
    now rewrite replacement_absent. }
  destruct (generated keccak sortedHash E E I eq_refl HN Hasc Hrange
                      (fun _ _ _ => eq_refl)) as (o & Hg & Hrun & Hns & Hlo & _ & Hroot).
  destruct (generated keccak sortedHash E E' I HlenE HN Hasc Hrange Hagree)
    as (o' & Hg' & Hrun' & _ & _ & _ & Hroot').
  destruct (Hroot HI) as (v & Hq & Hv). destruct (Hroot' HI) as (v' & Hq' & Hv').
  rewrite Hq in Hrun. rewrite Hq' in Hrun'.
  rewrite Hg in Hg'. injection Hg' as Hd Hf Hs Ho.
  apply (seen_eq sortedHash) in Ho. rewrite <- Hd, <- Hf, <- Hs, <- Ho in Hrun'.
  unfold E' in Hrun'. rewrite (leafsAt_updated keccak) in Hrun' by assumption.
  exists o, v, v'. repeat split; assumption.
Qed.

(** For a non-empty, strictly ascending list of indices within range
    and as many new elements, [getNewRoot] on the old and the new leaf
    images with the compact proof returns the internal root of the
    tree and the internal root of the tree with the positions
    replaced. *)
Theorem multi_proof_update_compact (elements : list Buffer) (indices : list Z)
        (newElements : list Buffer) (fuel : nat) (q : proof) :
  Z.of_nat (length elements) <= 2 ^ 30 ->
  indices <> [] ->
  strictlyAscending indices = true ->
  inRange (Z.of_nat (length elements)) indices = true ->
  length newElements = length indices ->
  (256 <= fuel)%nat ->
  generate sortedHash true (buildTree elements) (Z.of_nat (length elements)) indices
    = Ok q ->
  exists r r',
    getNewRoot keccak sortedHash fuel (leafsAt elements indices)
               (map (leafImage keccak) newElements) (compactProof q)
               (elementCount q) (flags q) (skips q) (orders q) (decommitments q)
      = Some (Ok (mkNewRoot (Some r) (Some r') (Z.of_nat (length elements)))) /\
    getOpt (buildTree elements) 1 = Some r /\
    getOpt (buildTree (updateElements elements indices newElements)) 1 = Some r'.
Proof.
  intros HN HI Hasc Hrange Hlen Hfuel Hq.
  destruct (generated_twice elements newElements indices HN HI Hasc Hrange Hlen)
    as (o & v & v' & Hg & Hrun & Hrun' & Hv & Hv' & Hns & Hlo).
  unfold generate, generateBits in Hq. rewrite Hg in Hq.
  cbn [bind flags skips orders decommitments elementCount] in Hq.
  destruct (Z.gtb_spec (Z.of_nat (length (genFlags o))) 255) as [Hbig | H255];
    [discriminate |].
  injection Hq as <-. cbn [compactProof flags skips orders decommitments elementCount].
  assert (Hleafs : leafsAt elements indices <> []).
  { unfold Inputs.leafsAt. destruct indices; [congruence | discriminate]. }
  assert (Hnew : map (leafImage keccak) newElements <> []).
  { destruct newElements, indices; try discriminate; congruence. }
  assert (Hm : length (map (leafImage keccak) newElements)
               = length (leafsAt elements indices)).
  { now rewrite length_map, (leafsAt_length keccak). }
  pose proof (repr_init _ Hleafs) as Hr1. pose proof (repr_init _ Hnew) as Hr2.
  rewrite Hm in Hr2.
  destruct (newRootLoop_sim keccak sortedHash (genFlags o) (genSkips o)
              (seen sortedHash (genOrders o)) (defined (genDecommitments o))
              (Z.of_nat (length (leafsAt elements indices)))
              (length (genFlags o)) 0 _ _ 0 0 0 _ _ _ _ _ _ eq_refl Hr1 Hr2
              ltac:(lia) Hrun Hrun')
    as (hs1 & hs1' & r1 & w1 & di1 & Hloop & Hrepr & Hrepr').
  exists v, v'. split; [| split; now apply root_slot].
  unfold getNewRoot. cbn [app].
  pose proof (getNewRootBits_generated fuel (leafsAt elements indices)
                (map (leafImage keccak) newElements)
                (Z.of_nat (length elements)) (genFlags o) (genSkips o) (genOrders o)
                (defined (genDecommitments o)) ltac:(lia) Hns ltac:(lia)) as Hbits.
  cbv zeta in Hbits. cbn [app] in Hbits. rewrite Hbits.
  replace (match (if sortedHash then None else Some (genOrders o)) with
           | Some o0 => o0 | None => [] end) with (seen sortedHash (genOrders o))
    by (unfold seen; destruct sortedHash; reflexivity).
  rewrite Hloop. unfold rootsOf. cbn [newWriteIndex oldHashes updateHashes].
  rewrite (repr_last _ _ r1 w1 [] v Hrepr), (repr_last _ _ r1 w1 [] v' Hrepr').
  reflexivity.
Qed.

End CompactUpdate.

Lemma multi_proof_update_compact_witness :
  exists q,
    generate false true (buildTree toy false sample) (Z.of_nat (length sample)) [1; 3] = Ok q /\
    exists r r',
      getNewRoot toy false 300 (leafsAt toy sample [1; 3]) (map (leafImage toy) [77; 88])
                 (compactProof q) (elementCount q) (flags q) (skips q) (orders q)
                 (decommitments q)
        = Some (Ok (mkNewRoot (Some r) (Some r') (Z.of_nat (length sample)))) /\
      getOpt (buildTree toy false sample) 1 = Some r /\
      getOpt (buildTree toy false (updateElements sample [1; 3] [77; 88])) 1 = Some r'.
Proof.
  eexists. split; [vm_compute; reflexivity |].
  apply (multi_proof_update_compact toy false sample [1; 3] [77; 88] 300); evaluate.
Defined.

(* ================================================================= *)
(** * The size of a proof *)

Section Capacity.
Variable sortedHash : bool.

Lemma genStep_flags tree i s :
  (length (genFlags (genStep tree i s)) <= S (length (genFlags s)))%nat.
Proof.
  unfold genStep. destruct (relevant s i); cbn [genFlags]; [| lia].
  rewrite length_app. cbn [length]. lia.
Qed.

Lemma genLoop_flags tree : forall n s,
  (length (genFlags (genLoop tree n s)) <= length (genFlags s) + n)%nat.
Proof.
  induction n as [| n IH]; intros s; cbn [genLoop]; [lia |].
  specialize (IH (genStep tree (Z.of_nat (S n)) s)).
  pose proof (genStep_flags tree (Z.of_nat (S n)) s). lia.
Qed.

(** A proof has fewer hash steps than the tree has leaf slots. *)
Theorem hash_count_bound (tree : list (option Buffer)) (N : Z) (I : list Z) (p : proof) :
  generateBooleans sortedHash tree N I = Ok p ->
  Z.of_nat (length (flags p)) <= Z.max 0 (ushr (Z.of_nat (length tree)) 1 - 1).
Proof.
  unfold generateBooleans.
  destruct (markLeaves _ None I _ _) as [marked | e]; [| discriminate].
  cbn [bind]. intros H. injection H as <-. cbn [flags].
  pose proof (genLoop_flags tree (Z.to_nat (ushr (Z.of_nat (length tree)) 1 - 1))
                (mkGen (fst marked) (snd marked) [] [] [] [])) as Hb.
  cbn [genFlags length] in Hb. lia.
Qed.

(** The compact form of a proof exists for every tree of at most 256
    leaf slots: the capacity error needs a larger tree. *)
Theorem compact_generation_capacity (tree : list (option Buffer)) (N : Z) (I : list Z) :
  Z.of_nat (length tree) <= 512 ->
  ascending I = true ->
  exists q, generate sortedHash true tree N I = Ok q.
Proof.
  intros Hlen Hasc.
  destruct (proj2 (generateBooleans_succeeds sortedHash tree N I) Hasc) as [p Hp].
  assert (Hu : ushr (Z.of_nat (length tree)) 1 <= 256).
  { rewrite ushr_1 by lia. apply Z.div_le_upper_bound; lia. }
  unfold generate, generateBits. rewrite Hp. cbn [bind].
  destruct (Z.gtb_spec (Z.of_nat (length (flags p))) 255) as [Hbig | _];
    [| eexists; reflexivity].
  exfalso. revert Hp. unfold generateBooleans.
  destruct (markLeaves _ None I _ _) as [marked | e]; [| discriminate].
  cbn [bind]. intros H. injection H as <-. cbn [flags] in Hbig.
  pose proof (genLoop_flags tree (Z.to_nat (ushr (Z.of_nat (length tree)) 1 - 1))
                (mkGen (fst marked) (snd marked) [] [] [] [])) as Hb.
  cbn [genFlags length] in Hb. lia.
Qed.

End Capacity.

Section StopBit.
Variable keccak : Buffer -> Buffer -> Buffer.
Variable sortedHash : bool.

(** In the compact proof generated for a tree, the flags word and the
    skips word have a bit in common at one position only, the number
    of hash steps: no step before it can be taken for the stop bit. *)
Theorem stop_bit_position (elements : list Buffer) (indices : list Z) (q : proof) :
  Z.of_nat (length elements) <= 2 ^ 30 ->
  strictlyAscending indices = true ->
  inRange (Z.of_nat (length elements)) indices = true ->
  generate sortedHash true (buildTree keccak sortedHash elements)
           (Z.of_nat (length elements)) indices = Ok q ->
  exists p w1 w2 rest,
    generate sortedHash false (buildTree keccak sortedHash elements)
             (Z.of_nat (length elements)) indices = Ok p /\
    compactProof q = to32ByteBuffer (Z.of_nat (length elements)) :: w1 :: w2 :: rest /\
    length (skips p) = length (flags p) /\
    forall i : nat,
      Z.testbit (bufferToBigInt w1) (Z.of_nat i) && Z.testbit (bufferToBigInt w2) (Z.of_nat i)
      = (i =? length (flags p))%nat.
Proof.
  intros HN Hasc Hrange Hq.
  destruct (generated keccak sortedHash elements elements indices eq_refl HN Hasc Hrange
                      (fun _ _ _ => eq_refl)) as (o & Hg & _ & Hns & _).
  unfold generate, generateBits in Hq. unfold generate. rewrite Hg in *.
  cbn [bind flags skips orders decommitments elementCount] in Hq.
  destruct (Z.of_nat (length (genFlags o)) >? 255); [discriminate |].
  injection Hq as <-. cbn [compactProof app].
  destruct (noStop_nth _ _ O Hns) as [Hl _].
  eexists _, _, _, _. split; [reflexivity |]. split; [reflexivity |].
  cbn [flags skips]. split; [exact Hl |].
  intros i. unfold bufferToBigInt, bigIntTo32ByteBuffer.
  pose proof (testbit_withStop (genFlags o) i) as Hf.
  pose proof (testbit_withStop (genSkips o) i) as Hs.
  unfold withStop in Hf, Hs. rewrite Hl in Hs. rewrite Hf, Hs.
  destruct (noStop_nth _ _ i Hns) as [_ Hn]. unfold truthy in Hn.
  destruct (Nat.eqb_spec (length (genFlags o)) i) as [He | Hne].
  - rewrite !orb_true_r. symmetry. apply Nat.eqb_eq. lia.
  - rewrite !orb_false_r, Hn. symmetry. apply Nat.eqb_neq. lia.
Qed.

End StopBit.

Lemma hash_count_bound_witness :
  exists p,
    generateBooleans false (buildTree toy false sample) 5 [1; 3] = Ok p /\
    Z.of_nat (length (flags p))
      <= Z.max 0 (ushr (Z.of_nat (length (buildTree toy false sample))) 1 - 1).
Proof.
  eexists. split; [vm_compute; reflexivity |].
  apply (hash_count_bound false (buildTree toy false sample) 5 [1; 3]). evaluate.
Defined.

Lemma compact_generation_capacity_witness :
  exists q, generate true true (buildTree toy true sample) 5 [1; 1; 3] = Ok q.
Proof.
  apply (compact_generation_capacity true (buildTree toy true sample) 5 [1; 1; 3]); evaluate.
Defined.

Lemma stop_bit_position_witness :
  exists q,
    generate false true (buildTree toy false sample) (Z.of_nat (length sample)) [1; 3] = Ok q /\
    exists p w1 w2 rest,
      generate false false (buildTree toy false sample) (Z.of_nat (length sample)) [1; 3]
        = Ok p /\
      compactProof q = to32ByteBuffer (Z.of_nat (length sample)) :: w1 :: w2 :: rest /\
      length (skips p) = length (flags p) /\
      forall i : nat,
        Z.testbit (bufferToBigInt w1) (Z.of_nat i) && Z.testbit (bufferToBigInt w2) (Z.of_nat i)
        = (i =? length (flags p))%nat.
Proof.
  eexists. split; [vm_compute; reflexivity |].
  apply (stop_bit_position toy false sample [1; 3]); evaluate.
Defined.

(* ================================================================= *)
(** * The contract's verify *)

(** ** Memory arrays as circular buffers *)

Section Memory.
Import Flag_Multi_Proofs.

Lemma load_some (hs : list Z) i v : ofList hs (Int i) = Some v -> load hs i = Returned v.
Proof. unfold load, get. cbn [ofList]. now intros ->. Qed.

Lemma load_get (l : list Z) i v : get l i = Some v -> load l i = Returned v.
Proof. unfold load. now intros ->. Qed.

Lemma storeAt_spec v : forall (hs : list Z) i,
  (i < length hs)%nat ->
  exists hs', storeAt hs i v = Some hs' /\ length hs' = length hs /\
              forall k, nth_error hs' k = if (k =? i)%nat then Some v else nth_error hs k.
Proof.
  induction hs as [| x hs IH]; intros i Hi; [cbn [length] in Hi; lia |].
  destruct i as [| i]; cbn [storeAt].
  - eexists. split; [reflexivity |]. split; [reflexivity |].
    intros [| k]; reflexivity.
  - destruct (IH i ltac:(cbn [length] in Hi; lia)) as (hs' & -> & Hl & Hk).
    eexists. split; [reflexivity |]. split; [cbn [length]; lia |].
    intros [| k]; [reflexivity |]. cbn [nth_error]. rewrite Hk. reflexivity.
Qed.

Lemma store_spec (hs : list Z) w v m :
  Z.of_nat (length hs) = m -> 0 <= w < m ->
  exists hs', store hs w v = Returned hs' /\ Z.of_nat (length hs') = m /\
              forall k, ofList hs' k = set (ofList hs) (Int w) (Some v) k.
Proof.
  intros Hm Hw. unfold store. destruct (Z.ltb_spec w 0); [lia |].
  destruct (storeAt_spec v hs (Z.to_nat w) ltac:(lia)) as (hs' & -> & Hl & Hk).
  exists hs'. split; [reflexivity |]. split; [lia |].
  intros [z |]; [| reflexivity]. unfold set. cbn [num_eqb ofList].
  destruct (Z.ltb_spec z 0).
  - destruct (Z.eqb_spec w z); [lia | reflexivity].
  - rewrite Hk. destruct (Nat.eqb_spec (Z.to_nat z) (Z.to_nat w)), (Z.eqb_spec w z);
      try reflexivity; lia.
Qed.

Lemma repr_ext m (hs hs' : array Buffer) r w q :
  (forall k, hs' k = hs k) -> repr m hs r w q -> repr m hs' r w q.
Proof.
  intros He (H1 & H2 & H3 & H4).
  split; [exact H1 | split; [exact H2 | split; [exact H3 |]]].
  intros k Hk. rewrite He. now apply H4.
Qed.

Lemma modulo_next r m : 0 <= r < m -> m < 2 ^ 256 ->
  modulo (wrap (r + 1)) m = Returned ((r + 1) mod m).
Proof.
  intros Hr Hm. unfold modulo, wrap. destruct (Z.eqb_spec m 0); [lia |].
  rewrite (Z.mod_small (r + 1)) by lia. reflexivity.
Qed.

Lemma modulo_same r m : 0 <= r < m -> modulo r m = Returned r.
Proof.
  intros Hr. unfold modulo. destruct (Z.eqb_spec m 0); [lia |].
  now rewrite Z.mod_small.
Qed.

Lemma land_pow2_eqb x i : 0 <= i -> (Z.land x (2 ^ i) =? 2 ^ i) = Z.testbit x i.
Proof.
  intros Hi. pose proof (nonzero_land_pow2 x i Hi) as Hn. unfold nonzero in Hn.
  assert (Hp : 0 < 2 ^ i) by (apply Z.pow_pos_nonneg; lia).
  destruct (Z.testbit x i) eqn:E.
  - apply Z.eqb_eq. apply Z.bits_inj'. intros n Hn'.
    rewrite Z.land_spec, Z.pow2_bits_eqb by lia.
    destruct (Z.eqb_spec i n) as [<- | Hne]; [now rewrite E | apply andb_false_r].
  - apply negb_false_iff in Hn. apply Z.eqb_eq in Hn. rewrite Hn.
    apply Z.eqb_neq. lia.
Qed.

Lemma wrap_shift i : 0 <= i -> wrap (Z.shiftl (2 ^ i) 1) = wrap (2 ^ (i + 1)).
Proof. intros Hi. now rewrite shiftl_pow2. Qed.

Lemma wrap_pow2 i : 0 <= i < 256 -> wrap (2 ^ i) = 2 ^ i.
Proof.
  intros Hi. unfold wrap. apply Z.mod_small. split; [apply Z.pow_nonneg; lia |].
  apply Z.pow_lt_mono_r; lia.
Qed.

End Memory.

(** ** The on-chain verifier runs the queue automaton *)

Section OnChainVerify.
Import Flag_Multi_Proofs.
Variable keccak : Z -> Z -> Z.

Lemma hash_pair_sorted a b : hash_pair keccak a b = hashFunction keccak true a b.
Proof.
  unfold hash_pair, hash_node. cbn [hashFunction]. unfold sortHashNode.
  destruct (Z.ltb_spec a b).
  - now rewrite Z.min_l, Z.max_r by lia.
  - now rewrite Z.min_r, Z.max_l by lia.
Qed.

Lemma sorted_comm a b : hashFunction keccak true a b = hashFunction keccak true b a.
Proof. cbn [hashFunction]. unfold sortHashNode. now rewrite Z.min_comm, Z.max_comm. Qed.

Lemma pick_sorted (o : bool) x y :
  (if o then sortHashNode keccak y x else sortHashNode keccak x y) = hash_pair keccak x y.
Proof.
  rewrite hash_pair_sorted. cbn [hashFunction].
  destruct o; [apply (sorted_comm y x) | reflexivity].
Qed.

Lemma verifyStep_sim decs m flags skips hs r w di i q ds q' ds' o :
  Z.of_nat (length hs) = m -> m < 2 ^ 256 ->
  repr m (ofList hs) r w q ->
  0 <= di <= i -> skipn (Z.to_nat di) decs = ds ->
  0 <= i < 256 ->
  qstep keccak true (Z.testbit flags i) (Z.testbit skips i) o q ds = Some (q', ds') ->
  exists hs' r' w' di',
    verifyStep keccak m flags skips decs (mkLoop hs r w di (wrap (2 ^ i)))
      = Returned (mkLoop hs' r' w' di' (wrap (2 ^ (i + 1)))) /\
    Z.of_nat (length hs') = m /\ repr m (ofList hs') r' w' q' /\
    0 <= di' <= i + 1 /\ skipn (Z.to_nat di') decs = ds'.
Proof.
  intros Hlen Hm256 Hrepr Hdi Hds Hi Hq.
  assert (Hm : 0 < m) by (destruct Hrepr; lia).
  assert (Hr : 0 <= r < m) by (destruct Hrepr; lia).
  assert (Hw : 0 <= w < m).
  { destruct Hrepr as (_ & _ & -> & _). apply Z.mod_pos_bound. lia. }
  unfold verifyStep.
  cbn [hashes hash_read_index hash_write_index decommitment_index bit_check].
  rewrite (wrap_pow2 i) by lia. rewrite !land_pow2_eqb, wrap_shift by lia.
  unfold qstep in Hq. destruct (Z.testbit skips i).
  - (* skip *)
    destruct q as [| x q0]; [discriminate |]. injection Hq as <- <-.
    destruct (repr_pop _ _ _ _ _ _ Hrepr) as (Hx & Hrepr').
    rewrite (load_some _ _ _ Hx).
    destruct (store_spec hs w x m Hlen Hw) as (hs' & -> & Hlen' & Hset).
    rewrite !modulo_next by lia.
    eexists _, _, _, _. split; [reflexivity |]. split; [exact Hlen' |].
    split; [| split; [lia | exact Hds]].
    apply (repr_ext _ _ _ _ _ _ Hset). apply repr_push; [assumption |].
    destruct Hrepr as (_ & Hl & _). cbn [length] in Hl. lia.
  - destruct (Z.testbit flags i).
    + (* both operands from the buffer *)
      destruct q as [| x [| y q0]]; try discriminate. injection Hq as <- <-.
      destruct (repr_pop _ _ _ _ _ _ Hrepr) as (Hx & Hrepr1).
      destruct (repr_pop _ _ _ _ _ _ Hrepr1) as (Hy & Hrepr2).
      rewrite (load_some _ _ _ Hx). rewrite modulo_next by lia.
      rewrite (load_some _ _ _ Hy).
      destruct (store_spec hs w (hash_pair keccak x y) m Hlen Hw) as (hs' & -> & Hlen' & Hset).
      pose proof (Z.mod_pos_bound (r + 1) m Hm) as Hr1.
      rewrite !modulo_next by lia.
      eexists _, _, _, _. split; [reflexivity |]. split; [exact Hlen' |].
      split; [| split; [lia | exact Hds]].
      apply (repr_ext _ _ _ _ _ _ Hset).
      rewrite pick_sorted.
      apply repr_push; [assumption |].
      destruct Hrepr as (_ & Hl & _). cbn [length] in Hl. lia.
    + (* the first operand from the decommitments *)
      destruct q as [| y q0]; [discriminate |].
      destruct ds as [| d ds0]; [discriminate |]. injection Hq as <- <-.
      destruct (repr_pop _ _ _ _ _ _ Hrepr) as (Hy & Hrepr1).
      destruct (get_skipn _ _ _ _ (proj1 Hdi) Hds) as (Hd & Hrest).
      rewrite (load_get _ _ _ Hd). rewrite modulo_same by lia.
      rewrite (load_some _ _ _ Hy).
      destruct (store_spec hs w (hash_pair keccak d y) m Hlen Hw) as (hs' & -> & Hlen' & Hset).
      rewrite !modulo_next by lia.
      eexists _, _, _, _. split; [reflexivity |]. split; [exact Hlen' |].
      split; [| split].
      * apply (repr_ext _ _ _ _ _ _ Hset).
        rewrite pick_sorted.
        apply repr_push; [assumption |].
        destruct Hrepr as (_ & Hl & _). cbn [length] in Hl. lia.
      * unfold wrap. rewrite Z.mod_small by lia. lia.
      * unfold wrap. rewrite Z.mod_small by lia. exact Hrest.
Qed.

Section Loop.
Variables flags skips : Z.
Variables fl sl ol : list bool.
Variable decs : list Z.
Variable m : Z.
Hypothesis Hlen : length sl = length fl.
Hypothesis Hcap : (length fl <= 256)%nat.
Hypothesis Hflags : forall j, (j < length fl)%nat ->
  Z.testbit flags (Z.of_nat j) = nth j fl false.
Hypothesis Hskips : forall j, (j < length fl)%nat ->
  Z.testbit skips (Z.of_nat j) = nth j sl false.
Hypothesis Hm : m < 2 ^ 256.

Lemma hd_skipn (l : list bool) i : hd false (skipn i l) = nth i l false.
Proof.
  revert l. induction i as [| i IH]; intros [| b l]; try reflexivity.
  cbn [skipn nth]. apply IH.
Qed.

Lemma verifyLoop_sim : forall k i hs r w di q q' ds',
  (i + k = length fl)%nat ->
  Z.of_nat (length hs) = m -> repr m (ofList hs) r w q ->
  0 <= di <= Z.of_nat i ->
  qrun keccak true (skipn i fl) (skipn i sl) (skipn i ol) q (skipn (Z.to_nat di) decs)
    = Some (q', ds') ->
  exists hs' r' w' di',
    verifyLoop keccak k m flags skips decs (mkLoop hs r w di (wrap (2 ^ Z.of_nat i)))
      = Returned (mkLoop hs' r' w' di' (wrap (2 ^ Z.of_nat (i + k)))) /\
    Z.of_nat (length hs') = m /\ repr m (ofList hs') r' w' q'.
Proof.
  induction k as [| k IH]; intros i hs r w di q q' ds' Hik Hl Hrepr Hdi Hq.
  - rewrite skipn_all2 in Hq by lia. cbn [qrun] in Hq. injection Hq as <- _.
    cbn [verifyLoop]. rewrite Nat.add_0_r. eauto 10.
  - destruct (skipn i fl) as [| f fl'] eqn:Efl.
    { apply (f_equal (@length bool)) in Efl. rewrite length_skipn in Efl.
      cbn [length] in Efl. lia. }
    cbn [qrun] in Hq.
    destruct (qstep keccak true f (hd false (skipn i sl)) (hd false (skipn i ol)) q
                    (skipn (Z.to_nat di) decs)) as [[q1 ds1] |] eqn:Hstep; [| discriminate].
    assert (Hf : Z.testbit flags (Z.of_nat i) = f).
    { rewrite Hflags by lia. rewrite <- hd_skipn, Efl. reflexivity. }
    assert (Hs : Z.testbit skips (Z.of_nat i) = hd false (skipn i sl)).
    { rewrite Hskips by lia. now rewrite hd_skipn. }
    rewrite <- Hf, <- Hs in Hstep.
    destruct (verifyStep_sim decs m flags skips hs r w di (Z.of_nat i) q _ q1 ds1 _
                             Hl Hm Hrepr Hdi eq_refl ltac:(lia) Hstep)
      as (hs1 & r1 & w1 & di1 & Hs1 & Hl1 & Hrepr1 & Hdi1 & Hds1).
    cbn [verifyLoop]. rewrite Hs1.
    replace (Z.of_nat i + 1) with (Z.of_nat (S i)) by lia.
    destruct (IH (S i) hs1 r1 w1 di1 q1 q' ds' ltac:(lia) Hl1 Hrepr1 ltac:(lia))
      as (hs' & r' & w' & di' & Hloop & Hl' & Hrepr').
    { rewrite !skipn_S_tl, Efl. subst ds1. exact Hq. }
    rewrite Hloop. replace (S i + k)%nat with (i + S k)%nat by lia. eauto 10.
Qed.

End Loop.

End OnChainVerify.

Lemma ascending_length : forall I a N,
  strictlyAscending I = true -> (forall x, In x I -> a <= x < N) ->
  Z.of_nat (length I) <= Z.max 0 (N - a).
Proof.
  induction I as [| x I IH]; intros a N Hasc Hin; [cbn [length]; lia |].
  pose proof (strictly_head_lt _ _ Hasc) as Hlt. rewrite Forall_forall in Hlt.
  pose proof (Hin x (or_introl eq_refl)) as Hx.
  specialize (IH (x + 1) N (strictly_tail _ _ Hasc)).
  cbn [length]. rewrite Nat2Z.inj_succ.
  assert (Z.of_nat (length I) <= Z.max 0 (N - (x + 1))); [| lia].
  apply IH. intros y Hy. specialize (Hlt y Hy). specialize (Hin y (or_intror Hy)). lia.
Qed.

Lemma strictly_bounded I N :
  strictlyAscending I = true -> inRange N I = true -> Z.of_nat (length I) <= Z.max 0 N.
Proof.
  intros Hasc Hrange. pose proof (ascending_length I 0 N Hasc) as H.
  rewrite Z.sub_0_r in H. apply H. intros x Hx. exact (inRange_forall _ _ x Hrange Hx).
Qed.

Section OnChainProperties.
Import Flag_Multi_Proofs.
Variable keccak : Z -> Z -> Z.
Local Abbreviation tree := (buildTree keccak true).

(** The elements of a proof as the contract takes them: highest index
    first. *)
Lemma hashes_of_elements (E : list Buffer) (I : list Z) :
  map (fun element => hash_node keccak 0 element) (rev (map (elementAt E) I))
  = rev (leafsAt keccak E I).
Proof. unfold leafsAt. rewrite map_rev, map_map. reflexivity. Qed.

Lemma withStop_bits (l : list bool) j :
  (j < length l)%nat -> Z.testbit (withStop l) (Z.of_nat j) = nth j l false.
Proof.
  intros Hj. rewrite testbit_withStop.
  destruct (Nat.eqb_spec (length l) j); [lia | apply orb_false_r].
Qed.

Lemma root_index m w : 0 <= w < m -> m < 2 ^ 256 ->
  Int (wrap ((if w =? 0 then m else w) - 1)) = rootIndexOf m (Int w).
Proof.
  intros Hw Hm. unfold rootIndexOf, isZero, decr, wrap.
  destruct (Z.eqb_spec w 0); rewrite Z.mod_small by lia; reflexivity.
Qed.

(** What [verify] returns on the words and the decommitments of a
    sorted-hash proof of [steps] steps, when the length guard lets it
    through. *)
Lemma verify_generated (root : Z) (E : list Buffer) (I : list Z) (o : genState) (v : Z) :
  I <> [] ->
  Z.of_nat (length I) < 2 ^ 256 ->
  noStop (genFlags o) (genSkips o) ->
  length (genFlags o) = 32%nat ->
  qrun keccak true (genFlags o) (genSkips o) [] (rev (leafsAt keccak E I))
       (defined (genDecommitments o)) = Some ([v], []) ->
  forall N,
  verify keccak root N (rev (map (elementAt E) I)) 32
         (withStop (genFlags o)) (withStop (genSkips o)) (defined (genDecommitments o))
    = Returned (hash_node keccak N v =? root).
Proof.
  intros HI Hm Hns H32 Hrun N.
  destruct (noStop_nth _ _ O Hns) as [Hl _].
  assert (Hleafs : leafsAt keccak E I <> []).
  { unfold leafsAt. destruct I; [congruence | discriminate]. }
  pose proof (repr_init _ Hleafs) as Hr0.
  unfold verify. cbn [bytes32_length Z.eqb Pos.eqb negb andb].
  rewrite hashes_of_elements.
  rewrite length_rev, length_map. rewrite (leafsAt_length keccak) in Hr0.
  assert (Hcap : (length (genFlags o) <= 256)%nat) by lia.
  assert (Hbs : forall j, (j < length (genFlags o))%nat ->
                Z.testbit (withStop (genSkips o)) (Z.of_nat j) = nth j (genSkips o) false).
  { intros j Hj. apply withStop_bits. lia. }
  assert (Hlh : Z.of_nat (length (rev (leafsAt keccak E I))) = Z.of_nat (length I)).
  { now rewrite length_rev, (leafsAt_length keccak). }
  assert (Hsteps : (0 + 32 = length (genFlags o))%nat) by lia.
  assert (Hd0 : 0 <= 0 <= Z.of_nat 0) by (cbn; lia).
  destruct (verifyLoop_sim keccak (withStop (genFlags o)) (withStop (genSkips o))
              (genFlags o) (genSkips o) [] (defined (genDecommitments o))
              (Z.of_nat (length I)) Hl Hcap
              (fun j Hj => withStop_bits _ j Hj) Hbs
              Hm 32%nat 0%nat (rev (leafsAt keccak E I)) 0 0 0 _ _ _
              Hsteps Hlh Hr0 Hd0 Hrun)
    as (hs' & r' & w' & di' & Hloop & Hl' & Hrepr).
  change (wrap (2 ^ Z.of_nat 0)) with 1 in Hloop.
  change (Z.to_nat 32) with 32%nat. rewrite Hloop.
  cbn [hashes hash_write_index].
  assert (Hw : 0 <= w' < Z.of_nat (length I)).
  { destruct Hrepr as (Hr & _ & -> & _). apply Z.mod_pos_bound. lia. }
  pose proof (repr_last _ _ r' w' [] v Hrepr) as Hlast.
  rewrite <- (root_index _ _ Hw Hm) in Hlast.
  rewrite (load_some _ _ _ Hlast). reflexivity.
Qed.

(** The compact form of a sorted-hash proof of at most 255 steps. *)
Lemma compact_sorted (nodes : list (option Buffer)) (N : Z) (I : list Z) (o : genState) :
  generateBooleans true nodes N I =
    Ok (mkProof [] N (defined (genDecommitments o)) (genFlags o) (genSkips o) None) ->
  length (genSkips o) = length (genFlags o) ->
  (length (genFlags o) <= 255)%nat ->
  generate true true nodes N I =
    Ok (mkProof (to32ByteBuffer N :: withStop (genFlags o) :: withStop (genSkips o)
                   :: defined (genDecommitments o)) N [] [] [] None).
Proof.
  intros Hg Hl Hcap. unfold generate, generateBits. rewrite Hg.
  cbn [bind flags skips orders decommitments elementCount].
  destruct (Z.gtb_spec (Z.of_nat (length (genFlags o))) 255) as [Hbig | _]; [lia |].
  unfold withStop. rewrite Hl. reflexivity.
Qed.

End OnChainProperties.

(* ================================================================= *)
(** * The contract's update: the queue of pairs *)

(** ** The on-chain update runs the queue of pairs *)

Section OnChainUpdate.
Import Flag_Multi_Proofs.
Variable keccak : Z -> Z -> Z.

Lemma updateStep_sim decs m flags skips hs hs' r w di i q ds q' ds' :
  Z.of_nat (length hs) = m -> Z.of_nat (length hs') = m -> m < 2 ^ 256 ->
  repr m (ofList hs) r w (map fst q) -> repr m (ofList hs') r w (map snd q) ->
  0 <= di <= i -> skipn (Z.to_nat di) decs = ds ->
  0 <= i < 256 ->
  ustep keccak (Z.testbit flags i) (Z.testbit skips i) q ds = Some (q', ds') ->
  exists hs1 hs1' r1 w1 di1,
    updateStep keccak m flags skips decs (mkUpdate hs hs' r w di (wrap (2 ^ i)))
      = Returned (mkUpdate hs1 hs1' r1 w1 di1 (wrap (2 ^ (i + 1)))) /\
    Z.of_nat (length hs1) = m /\ Z.of_nat (length hs1') = m /\
    repr m (ofList hs1) r1 w1 (map fst q') /\ repr m (ofList hs1') r1 w1 (map snd q') /\
    0 <= di1 <= i + 1 /\ skipn (Z.to_nat di1) decs = ds'.
Proof.
  intros Hlen Hlen' Hm256 Hrepr Hrepr' Hdi Hds Hi Hq.
  assert (Hm : 0 < m) by (destruct Hrepr; lia).
  assert (Hr : 0 <= r < m) by (destruct Hrepr; lia).
  assert (Hw : 0 <= w < m).
  { destruct Hrepr as (_ & _ & -> & _). apply Z.mod_pos_bound. lia. }
  unfold updateStep.
  cbn [old_hashes new_hashes read_index write_index next_decommitment check].
  rewrite (wrap_pow2 i) by lia. rewrite !land_pow2_eqb, wrap_shift by lia.
  unfold ustep in Hq. destruct (Z.testbit skips i).
  - (* skip *)
    destruct q as [| [x x'] q0]; [discriminate |]. injection Hq as <- <-.
    cbn [map fst snd] in Hrepr, Hrepr'.
    destruct (repr_pop _ _ _ _ _ _ Hrepr) as (Hx & Hrepr1).
    destruct (repr_pop _ _ _ _ _ _ Hrepr') as (Hx' & Hrepr1').
    rewrite (load_some _ _ _ Hx). cbn [andThen].
    destruct (store_spec hs w x m Hlen Hw) as (hs1 & -> & Hlen1 & Hset).
    cbn [andThen]. rewrite (load_some _ _ _ Hx'). cbn [andThen].
    destruct (store_spec hs' w x' m Hlen' Hw) as (hs1' & -> & Hlen1' & Hset').
    cbn [andThen]. rewrite !modulo_next by lia. cbn [andThen].
    eexists _, _, _, _, _. split; [reflexivity |].
    split; [exact Hlen1 |]. split; [exact Hlen1' |].
    rewrite !map_app. cbn [map fst snd].
    assert (Hl : Z.of_nat (length (map fst q0)) < m).
    { destruct Hrepr as (_ & Hl & _). cbn [length] in Hl. lia. }
    assert (Hl' : Z.of_nat (length (map snd q0)) < m).
    { rewrite length_map in *. exact Hl. }
    split; [apply (repr_ext _ _ _ _ _ _ Hset); now apply repr_push |].
    split; [apply (repr_ext _ _ _ _ _ _ Hset'); now apply repr_push |].
    split; [lia | exact Hds].
  - destruct (Z.testbit flags i).
    + (* both operands from the buffer *)
      destruct q as [| [x x'] [| [y y'] q0]]; try discriminate. injection Hq as <- <-.
      cbn [map fst snd] in Hrepr, Hrepr'.
      destruct (repr_pop _ _ _ _ _ _ Hrepr) as (Hx & Hrepr1).
      destruct (repr_pop _ _ _ _ _ _ Hrepr1) as (Hy & Hrepr2).
      destruct (repr_pop _ _ _ _ _ _ Hrepr') as (Hx' & Hrepr1').
      destruct (repr_pop _ _ _ _ _ _ Hrepr1') as (Hy' & Hrepr2').
      rewrite (load_some _ _ _ Hx). cbn [andThen].
      rewrite modulo_next by lia. cbn [andThen].
      rewrite (load_some _ _ _ Hy). cbn [andThen].
      destruct (store_spec hs w (hash_pair keccak x y) m Hlen Hw)
        as (hs1 & -> & Hlen1 & Hset).
      cbn [andThen]. rewrite (load_some _ _ _ Hy'). cbn [andThen].
      destruct (store_spec hs' w (hash_pair keccak x y') m Hlen' Hw)
        as (hs1' & -> & Hlen1' & Hset').
      cbn [andThen].
      pose proof (Z.mod_pos_bound (r + 1) m Hm) as Hr1.
      rewrite !modulo_next by lia. cbn [andThen].
      eexists _, _, _, _, _. split; [reflexivity |].
      split; [exact Hlen1 |]. split; [exact Hlen1' |].
      rewrite !map_app. cbn [map fst snd].
      assert (Hl : Z.of_nat (length (map fst q0)) < m).
      { destruct Hrepr as (_ & Hl & _). cbn [length] in Hl. lia. }
      assert (Hl' : Z.of_nat (length (map snd q0)) < m).
      { rewrite length_map in *. exact Hl. }
      split; [apply (repr_ext _ _ _ _ _ _ Hset); now apply repr_push |].
      split; [apply (repr_ext _ _ _ _ _ _ Hset'); now apply repr_push |].
      split; [lia | exact Hds].
    + (* the first operand from the decommitments *)
      destruct q as [| [y y'] q0]; [discriminate |].
      destruct ds as [| d ds0]; [discriminate |]. injection Hq as <- <-.
      cbn [map fst snd] in Hrepr, Hrepr'.
      destruct (repr_pop _ _ _ _ _ _ Hrepr) as (Hy & Hrepr1).
      destruct (repr_pop _ _ _ _ _ _ Hrepr') as (Hy' & Hrepr1').
      destruct (get_skipn _ _ _ _ (proj1 Hdi) Hds) as (Hd & Hrest).
      rewrite (load_get _ _ _ Hd). cbn [andThen].
      rewrite modulo_same by lia. cbn [andThen].
      rewrite (load_some _ _ _ Hy). cbn [andThen].
      destruct (store_spec hs w (hash_pair keccak d y) m Hlen Hw)
        as (hs1 & -> & Hlen1 & Hset).
      cbn [andThen]. rewrite (load_some _ _ _ Hy'). cbn [andThen].
      destruct (store_spec hs' w (hash_pair keccak d y') m Hlen' Hw)
        as (hs1' & -> & Hlen1' & Hset').
      cbn [andThen]. rewrite !modulo_next by lia. cbn [andThen].
      eexists _, _, _, _, _. split; [reflexivity |].
      split; [exact Hlen1 |]. split; [exact Hlen1' |].
      rewrite !map_app. cbn [map fst snd].
      assert (Hl : Z.of_nat (length (map fst q0)) < m).
      { destruct Hrepr as (_ & Hl & _). cbn [length] in Hl. lia. }
      assert (Hl' : Z.of_nat (length (map snd q0)) < m).
      { rewrite length_map in *. exact Hl. }
      split; [apply (repr_ext _ _ _ _ _ _ Hset); now apply repr_push |].
      split; [apply (repr_ext _ _ _ _ _ _ Hset'); now apply repr_push |].
      unfold wrap. rewrite Z.mod_small by lia. split; [lia | exact Hrest].
Qed.

Section Loop.
Variables flags skips : Z.
Variables fl sl : list bool.
Variable decs : list Z.
Variable m : Z.
Hypothesis Hlen : length sl = length fl.
Hypothesis Hcap : (length fl <= 256)%nat.
Hypothesis Hflags : forall j, (j < length fl)%nat ->
  Z.testbit flags (Z.of_nat j) = nth j fl false.
Hypothesis Hskips : forall j, (j < length fl)%nat ->
  Z.testbit skips (Z.of_nat j) = nth j sl false.
Hypothesis Hm : m < 2 ^ 256.

Lemma updateLoop_sim : forall k i hs hs' r w di q q' ds',
  (i + k = length fl)%nat ->
  Z.of_nat (length hs) = m -> Z.of_nat (length hs') = m ->
  repr m (ofList hs) r w (map fst q) -> repr m (ofList hs') r w (map snd q) ->
  0 <= di <= Z.of_nat i ->
  urun keccak (skipn i fl) (skipn i sl) q (skipn (Z.to_nat di) decs) = Some (q', ds') ->
  exists hs1 hs1' r1 w1 di1,
    updateLoop keccak k m flags skips decs
               (mkUpdate hs hs' r w di (wrap (2 ^ Z.of_nat i)))
      = Returned (mkUpdate hs1 hs1' r1 w1 di1 (wrap (2 ^ Z.of_nat (i + k)))) /\
    Z.of_nat (length hs1) = m /\ Z.of_nat (length hs1') = m /\
    repr m (ofList hs1) r1 w1 (map fst q') /\ repr m (ofList hs1') r1 w1 (map snd q').
Proof.
  induction k as [| k IH]; intros i hs hs' r w di q q' ds' Hik Hl Hl' Hrepr Hrepr' Hdi Hq.
  - rewrite skipn_all2 in Hq by lia. cbn [urun] in Hq. injection Hq as <- _.
    cbn [updateLoop]. rewrite Nat.add_0_r. eauto 12.
  - destruct (skipn i fl) as [| f fl'] eqn:Efl.
    { apply (f_equal (@length bool)) in Efl. rewrite length_skipn in Efl.
      cbn [length] in Efl. lia. }
    cbn [urun] in Hq.
    destruct (ustep keccak f (hd false (skipn i sl)) q (skipn (Z.to_nat di) decs))
      as [[q1 ds1] |] eqn:Hstep; [| discriminate].
    assert (Hf : Z.testbit flags (Z.of_nat i) = f).
    { rewrite Hflags by lia. rewrite <- hd_skipn, Efl. reflexivity. }
    assert (Hs : Z.testbit skips (Z.of_nat i) = hd false (skipn i sl)).
    { rewrite Hskips by lia. now rewrite hd_skipn. }
    rewrite <- Hf, <- Hs in Hstep.
    destruct (updateStep_sim decs m flags skips hs hs' r w di (Z.of_nat i) q _ q1 ds1
                             Hl Hl' Hm Hrepr Hrepr' Hdi eq_refl ltac:(lia) Hstep)
      as (hs1 & hs1' & r1 & w1 & di1 & Hs1 & Hl1 & Hl1' & Hrepr1 & Hrepr1' & Hdi1 & Hds1).
    cbn [updateLoop]. rewrite Hs1. cbn [andThen].
    replace (Z.of_nat i + 1) with (Z.of_nat (S i)) by lia.
    destruct (IH (S i) hs1 hs1' r1 w1 di1 q1 q' ds' ltac:(lia) Hl1 Hl1' Hrepr1 Hrepr1'
                 ltac:(lia))
      as (hs2 & hs2' & r2 & w2 & di2 & Hloop & Hl2 & Hl2' & Hrepr2 & Hrepr2').
    { rewrite !skipn_S_tl, Efl. subst ds1. exact Hq. }
    rewrite Hloop. replace (S i + k)%nat with (i + S k)%nat by lia. eauto 12.
Qed.

End Loop.

End OnChainUpdate.

(** ** Paths in the tree *)

Section Paths.
Variable d : Z.
Variable I : list Z.
Variable x : Z.
Hypothesis Hd : 0 <= d <= 30.
Hypothesis Hasc : strictlyAscending I = true.
Hypothesis Hx : In x I.
Hypothesis Hmin : forall y, In y I -> x <= y.

Local Abbreviation L := (2 ^ d).
Local Abbreviation lo := (firstOf d).
Local Abbreviation h := (heightOf d).
Local Abbreviation b := (below I).

Lemma below_member y : In y I -> b (y + 1) = b y + 1.
Proof.
  intros Hy. rewrite below_succ by assumption.
  replace (existsb (fun i => i =? y) I) with true; [reflexivity |].
  symmetry. apply existsb_exists. exists y. split; [assumption | apply Z.eqb_refl].
Qed.

Lemma below_least z : z <= x -> b z = 0.
Proof.
  intros Hz. unfold below. clear Hasc Hx.
  induction I as [| a l IH]; [reflexivity |].
  cbn [filter]. pose proof (Hmin a (or_introl eq_refl)).
  destruct (Z.ltb_spec a z); [lia |].
  apply IH. intros y Hy. apply Hmin. now right.
Qed.

(** A node on the path has a leaf of the proof below it. *)
Lemma onPath_known j : onPath d x j -> (b (lo j) <? b (lo j + 2 ^ h j)) = true.
Proof.
  unfold onPath. intros Hp. apply Z.ltb_lt.
  pose proof (below_mono I (lo j) x ltac:(lia)).
  pose proof (below_mono I (x + 1) (lo j + 2 ^ h j) ltac:(lia)).
  pose proof (below_member x Hx). lia.
Qed.

Lemma onPath_left i :
  1 <= i < L -> onPath d x i ->
  (b (lo (2 * i)) <? b (lo (2 * i) + 2 ^ h (2 * i))) = true -> onPath d x (2 * i).
Proof.
  unfold onPath. intros Hi Hp Hk. apply Z.ltb_lt in Hk. revert Hk.
  rewrite heightOf_left, firstOf_left by lia. intros Hk.
  pose proof (pow_height d i (proj1 Hd) Hi) as Hp2.
  destruct (Z.lt_ge_cases x (lo i + 2 ^ (h i - 1))) as [Hlt | Hge]; [lia |].
  rewrite (below_least (lo i + 2 ^ (h i - 1))) in Hk by lia.
  pose proof (below_bounds I (lo i)). lia.
Qed.

Lemma onPath_children i :
  1 <= i < L -> onPath d x i -> onPath d x (2 * i) \/ onPath d x (2 * i + 1).
Proof.
  unfold onPath. intros Hi Hp.
  rewrite heightOf_left, heightOf_right, firstOf_left, firstOf_right by lia.
  pose proof (pow_height d i (proj1 Hd) Hi) as Hp2. lia.
Qed.

Lemma onPath_one i : 1 <= i < L -> onPath d x (2 * i) -> onPath d x (2 * i + 1) -> False.
Proof.
  unfold onPath. intros Hi.
  rewrite heightOf_left, heightOf_right, firstOf_left, firstOf_right by lia. lia.
Qed.

End Paths.

(** ** Runs of the queue of pairs *)

Lemma Forall2_cons_l {A B} (P : A -> B -> Prop) x l q :
  Forall2 P (x :: l) q -> exists y q', q = y :: q' /\ P x y /\ Forall2 P l q'.
Proof. intros H. inversion H; subst. eauto. Qed.

Section Runs.
Variable keccak : Z -> Z -> Z.

Lemma ustep_more f sk q ds q' ds' more :
  ustep keccak f sk q ds = Some (q', ds') ->
  ustep keccak f sk q (ds ++ more) = Some (q', ds' ++ more).
Proof.
  unfold ustep. destruct sk.
  - destruct q; intros H; inversion H. reflexivity.
  - destruct f.
    + destruct q as [| [a a'] [| [c c'] q0]]; intros H; inversion H. reflexivity.
    + destruct q as [| [c c'] q0], ds as [| v ds0]; intros H; inversion H. reflexivity.
Qed.

Lemma urun_app f1 : forall s1 f2 s2 q ds1 ds2 q1 out,
  urun keccak f1 s1 q ds1 = Some (q1, []) ->
  urun keccak f2 s2 q1 ds2 = Some out ->
  length s1 = length f1 ->
  urun keccak (f1 ++ f2) (s1 ++ s2) q (ds1 ++ ds2) = Some out.
Proof.
  induction f1 as [| f f1 IH]; intros s1 f2 s2 q ds1 ds2 q1 out H1 H2 Hlen.
  - destruct s1; [| discriminate]. cbn [urun] in H1. inversion H1; subst. exact H2.
  - destruct s1 as [| sk s1]; [discriminate |].
    cbn [urun app hd tl] in *.
    destruct (ustep keccak f sk q ds1) as [[q0 ds0] |] eqn:E; [| discriminate].
    rewrite (ustep_more _ _ _ _ _ _ ds2 E).
    apply (IH s1 f2 s2 q0 ds0 ds2 q1 out H1 H2). now inversion Hlen.
Qed.
End Runs.

(** ** What the generator emits, the queue of pairs consumes *)

Section Mixed.
Import Flag_Multi_Proofs.
Variable keccak : Z -> Z -> Z.
Variables Tv T1 : Z -> option Buffer.
Variable tree : list (option Buffer).
Variable d : Z.
Variable I : list Z.
Variable x : Z.

Local Abbreviation L := (2 ^ d).
Local Abbreviation parentOf := (parentOf keccak true).
Local Abbreviation Inv := (Inv Tv tree L).
Local Abbreviation KB := (knownBelow d L I).
Local Abbreviation ids := (fun j : Z => Some j).
Local Abbreviation R := (standsFor Tv T1 d x).

Hypothesis Hd : 0 <= d <= 30.
Hypothesis Hasc : strictlyAscending I = true.
Hypothesis Hx : In x I.
Hypothesis Hmin : forall y, In y I -> x <= y.
Hypothesis Hnode : forall i, 1 <= i < L -> Tv i = parentOf (Tv (2 * i)) (Tv (2 * i + 1)).
Hypothesis Hnode1 : forall i, 1 <= i < L -> T1 i = parentOf (T1 (2 * i)) (T1 (2 * i + 1)).
Hypothesis Hgnode : forall i, 1 <= i < L ->
  getOpt tree i = parentOf (getOpt tree (2 * i)) (getOpt tree (2 * i + 1)).
Hypothesis Hshape : forall j, getOpt tree j = None <-> Tv j = None.
Hypothesis Hsib : forall i, 1 <= i < L -> Tv (2 * i + 1) <> None -> Tv (2 * i) <> None.
Hypothesis Hoff : forall j, 1 <= j < 2 * L -> ~ onPath d x j -> T1 j = Tv j.

Lemma kv_ids known j : kv ids known j = if known j then [j] else [].
Proof. reflexivity. Qed.

Lemma parent_pair a c : parentOf (Some a) (Some c) = Some (hash_pair keccak c a).
Proof.
  cbn [Common.parentOf]. rewrite hash_pair_sorted. f_equal. apply sorted_comm.
Qed.

Lemma gen_mixed n : forall s q,
  Inv n s -> KB n s -> Z.of_nat n < L ->
  Forall2 R (queueAt ids (known s) n) q ->
  let o := genLoop tree n (clearOut s) in
  exists q',
    urun keccak (genFlags o) (genSkips o) q (defined (genDecommitments o)) = Some (q', []) /\
    Forall2 R (queueAt ids (known o) 0) q'.
Proof.
  pose proof (L_range d Hd) as HL.
  induction n as [| n IH]; intros s q HInv HKB HnL HQ.
  - cbn [genLoop]. exists q. split; [reflexivity | exact HQ].
  - set (i := Z.of_nat n + 1).
    assert (Hi : i = Z.of_nat n + 1) by reflexivity. clearbody i.
    cbn [genLoop]. replace (Z.of_nat (S n)) with i in * by lia.
    rewrite genLoop_app.
    set (s1 := genStep tree i (clearOut s)).
    assert (HInv1 : Inv n s1)
      by (apply (Inv_step keccak true Tv tree L HL Hnode Hgnode Hsib n (clearOut s) i Hi HInv);
          lia).
    pose proof (Inv_known_false _ _ _ _ _ i HInv ltac:(lia)) as Hki.
    assert (HKB1 : KB n s1).
    { apply (knownBelow_step d I Hd n i (clearOut s) tree Hi ltac:(lia) Hki HKB). }
    pose proof (Inv_relevant _ _ _ _ _ i HInv ltac:(lia)) as Hrel.
    pose proof (HKB (2 * i) ltac:(lia)) as Hbl.
    pose proof (HKB (2 * i + 1) ltac:(lia)) as Hbr.
    assert (Hunk : forall j, i < j < 2 * L -> known s j = false -> getOpt tree j = Tv j).
    { intros j Hj1 Hj3. destruct HInv as (_ & _ & H3). apply H3; [lia | assumption]. }
    assert (Hdef : forall j, known s j = true -> exists v, Tv j = Some v)
      by (intros j E; now apply (Inv_known_defined _ _ _ _ _ _ HInv)).
    set (l := known s (2 * i)) in *. set (r := known s (2 * i + 1)) in *.
    assert (Hk1 : known s1 = upd (known s) i (l || r)).
    { subst s1. rewrite genStep_eq by lia. cbv zeta. cbn [clearOut known relevant].
      destruct (relevant s i); reflexivity. }
    assert (Hs1 : genFlags s1 = (if l || r then [Bool.eqb l r] else []) /\
                  genSkips s1 = (if l || r then [isUndefined (getOpt tree (2 * i + Z.b2z l))]
                                 else []) /\
                  genDecommitments s1 =
                    (if xorb l r then [getOpt tree (2 * i + Z.b2z l)] else [])).
    { subst s1. rewrite genStep_eq by lia. cbv zeta.
      cbn [clearOut known relevant genFlags genSkips genOrders genDecommitments].
      rewrite Hrel. fold l. fold r. destruct l, r; repeat split; reflexivity. }
    destruct Hs1 as (Hf & Hsk & Hds).
    rewrite (queue_split ids _ _ i Hi) in HQ. rewrite !kv_ids in HQ. fold l r in HQ.
    set (mid := rev (knownVals ids (known s) (i + 1) n)) in *.
    assert (Hnext : queueAt ids (known s1) n = mid ++ (if l || r then [i] else [])).
    { rewrite Hk1, (queue_next ids _ _ i _ Hi), kv_ids, upd_eq. reflexivity. }
    assert (Hpar : Tv i = parentOf (Tv (2 * i)) (Tv (2 * i + 1))) by (apply Hnode; lia).
    assert (Hpar1 : T1 i = parentOf (T1 (2 * i)) (T1 (2 * i + 1))) by (apply Hnode1; lia).
    (* the step of the queue and the pair it leaves for node [i] *)
    assert (Hstep : exists q1,
              urun keccak (genFlags s1) (genSkips s1) q (defined (genDecommitments s1))
                = Some (q1, []) /\
              Forall2 R (queueAt ids (known s1) n) q1).
    { rewrite Hf, Hsk, Hds, Hnext.
      destruct l eqn:El, r eqn:Er; cbn [orb xorb Bool.eqb Z.b2z app] in *.
      - (* both children known *)
        destruct (Forall2_cons_l _ _ _ _ HQ) as ([a a'] & q0 & -> & [Ha Ha'] & HQ0).
        destruct (Forall2_cons_l _ _ _ _ HQ0) as ([c c'] & qm & -> & [Hc Hc'] & HQm).
        cbn [fst snd] in *.
        assert (Hsib' : isUndefined (getOpt tree (2 * i + 1)) = false).
        { destruct (getOpt tree (2 * i + 1)) eqn:E; [reflexivity |].
          apply Hshape in E. congruence. }
        rewrite Hsib'. cbn [defined urun hd tl ustep].
        eexists. split; [reflexivity |].
        apply Forall2_app; [exact HQm |]. constructor; [| constructor].
        split; cbn [fst snd].
        + rewrite Hpar, Hc, Ha. apply parent_pair.
        + intros Hp.
          assert (Hpl : onPath d x (2 * i))
            by (eapply onPath_left; first [eassumption | symmetry; exact Hbl | lia]).
          assert (Hnr : ~ onPath d x (2 * i + 1))
            by (intros Hpr; eapply (onPath_one d x); [| | exact Hpl | exact Hpr];
                first [eassumption | lia]).
          rewrite Hpar1, (Hc' Hpl), (Hoff (2 * i + 1) ltac:(lia) Hnr), Ha.
          apply parent_pair.
      - (* left child known *)
        destruct (Forall2_cons_l _ _ _ _ HQ) as ([c c'] & qm & -> & [Hc Hc'] & HQm).
        cbn [fst snd] in *.
        assert (Hnr : ~ onPath d x (2 * i + 1)).
        { intros Hpr.
          assert (Hk : (below I (firstOf d (2 * i + 1)) <?
                        below I (firstOf d (2 * i + 1) + 2 ^ heightOf d (2 * i + 1))) = true)
            by (eapply onPath_known; eassumption).
          congruence. }
        assert (Hpl : onPath d x i -> onPath d x (2 * i)).
        { intros Hp.
          assert (Hch : onPath d x (2 * i) \/ onPath d x (2 * i + 1))
            by (eapply onPath_children; first [eassumption | lia]).
          tauto. }
        pose proof (Hunk (2 * i + 1) ltac:(lia) Er) as Hg. rewrite Hg.
        destruct (Tv (2 * i + 1)) as [a |] eqn:Ha;
          cbn [isUndefined defined urun hd tl ustep];
          (eexists; split; [reflexivity |]);
          (apply Forall2_app; [exact HQm |]); (constructor; [| constructor]);
          split; cbn [fst snd].
        + rewrite Hpar, Hc. apply parent_pair.
        + intros Hp. rewrite Hpar1, (Hc' (Hpl Hp)), (Hoff (2 * i + 1) ltac:(lia) Hnr), Ha.
          apply parent_pair.
        + rewrite Hpar, Hc. reflexivity.
        + intros Hp. rewrite Hpar1, (Hc' (Hpl Hp)), (Hoff (2 * i + 1) ltac:(lia) Hnr), Ha.
          reflexivity.
      - (* right child known *)
        destruct (Forall2_cons_l _ _ _ _ HQ) as ([a a'] & qm & -> & [Ha Ha'] & HQm).
        cbn [fst snd] in *.
        assert (Hnl : ~ onPath d x (2 * i)).
        { intros Hpl.
          assert (Hk : (below I (firstOf d (2 * i)) <?
                        below I (firstOf d (2 * i) + 2 ^ heightOf d (2 * i))) = true)
            by (eapply onPath_known; eassumption).
          congruence. }
        assert (Hpr : onPath d x i -> onPath d x (2 * i + 1)).
        { intros Hp.
          assert (Hch : onPath d x (2 * i) \/ onPath d x (2 * i + 1))
            by (eapply onPath_children; first [eassumption | lia]).
          tauto. }
        assert (Hc : exists c, Tv (2 * i) = Some c).
        { destruct (Tv (2 * i)) as [c |] eqn:E; [eauto |].
          exfalso. apply (Hsib i); [lia | congruence | assumption]. }
        destruct Hc as [c Hc].
        pose proof (Hunk (2 * i) ltac:(lia) El) as Hg. rewrite Z.add_0_r, Hg, Hc.
        cbn [isUndefined defined urun hd tl ustep].
        eexists. split; [reflexivity |].
        apply Forall2_app; [exact HQm |]. constructor; [| constructor].
        split; cbn [fst snd].
        + rewrite Hpar, Hc, Ha. cbn [Common.parentOf]. rewrite hash_pair_sorted. reflexivity.
        + intros Hp. rewrite Hpar1, (Ha' (Hpr Hp)), (Hoff (2 * i) ltac:(lia) Hnl), Hc.
          cbn [Common.parentOf]. rewrite hash_pair_sorted. reflexivity.
      - (* no child known *)
        cbn [defined urun]. exists q. split; [reflexivity |].
        rewrite app_nil_r. exact HQ. }
    destruct Hstep as (q1 & Hrun1 & HQ1).
    destruct (IH s1 q1 HInv1 HKB1 ltac:(lia) HQ1) as (q' & Hrun & HQ').
    exists q'. split; [| exact HQ'].
    unfold appOut. cbn [known relevant genFlags genSkips genOrders genDecommitments].
    rewrite defined_app.
    apply (urun_app keccak _ _ _ _ _ _ _ _ _ Hrun1 Hrun).
    rewrite Hf, Hsk. destruct (l || r); reflexivity.
Qed.

End Mixed.

(* ================================================================= *)
(** * The contract's update: the root it stores *)

(** ** The first queue of pairs *)

Lemma fst_combine {A B} (a : list A) : forall (b : list B),
  length a = length b -> map fst (combine a b) = a.
Proof.
  induction a as [| x a IH]; intros [| y b] H; try discriminate; [reflexivity |].
  cbn [combine map fst]. f_equal. apply IH. now inversion H.
Qed.

Lemma snd_combine {A B} (a : list A) : forall (b : list B),
  length a = length b -> map snd (combine a b) = b.
Proof.
  induction a as [| x a IH]; intros [| y b] H; try discriminate; [reflexivity |].
  cbn [combine map snd]. f_equal. apply IH. now inversion H.
Qed.

Lemma Forall2_snoc {A B} (P : A -> B -> Prop) l q x y :
  Forall2 P l q -> P x y -> Forall2 P (l ++ [x]) (q ++ [y]).
Proof. intros H Hxy. apply Forall2_app; [assumption | constructor; [assumption | constructor]]. Qed.

Lemma Forall2_reversed {A B} (P : A -> B -> Prop) l q :
  Forall2 P l q -> Forall2 P (rev l) (rev q).
Proof.
  induction 1 as [| x y l q Hxy _ IH]; [constructor |].
  cbn [rev]. now apply Forall2_snoc.
Qed.

Lemma knownVals_ids L k : forall n a J,
  (forall j, L + a <= j -> k j = knownLeaf L J j) ->
  strictlyAscending J = true ->
  Forall (fun x => a <= x < a + Z.of_nat n) J ->
  knownVals (fun j => Some j) k (L + a) n = map (fun y => L + y) J.
Proof.
  induction n as [| n IH]; intros a J Hk HJ HF.
  - destruct J as [| x J]; [reflexivity |]. inversion HF; subst. lia.
  - unfold knownVals. rewrite zseq_S. cbn [flat_map].
    fold (knownVals (fun j => Some j) k (L + a + 1) n).
    replace (L + a + 1) with (L + (a + 1)) by lia.
    destruct J as [| x J].
    + unfold kv. rewrite Hk by lia. cbn [knownLeaf existsb app].
      apply (IH (a + 1) []); [intros j Hj; apply Hk; lia | reflexivity | constructor].
    + inversion HF as [| ? ? Hx1 HF']; subst.
      pose proof (strictly_head_lt _ _ HJ) as Hlt.
      destruct (Z.eq_dec x a) as [-> | Hne].
      * unfold kv. rewrite Hk by lia. unfold knownLeaf at 1. cbn [existsb].
        rewrite Z.eqb_refl. cbn [orb app map].
        f_equal. apply IH.
        -- intros j Hj. rewrite Hk by lia. unfold knownLeaf. cbn [existsb].
           destruct (Z.eqb_spec (L + a) j); [lia | reflexivity].
        -- eapply strictly_tail; eassumption.
        -- rewrite Forall_forall in *. intros y Hy. specialize (HF' y Hy).
           specialize (Hlt y Hy). lia.
      * assert (Hka : k (L + a) = false).
        { rewrite Hk by lia. destruct (knownLeaf L (x :: J) (L + a)) eqn:Ek; [| reflexivity].
          apply knownLeaf_true in Ek. destruct Ek as (y & [-> | Hy] & He); [lia |].
          rewrite Forall_forall in Hlt. specialize (Hlt y Hy). lia. }
        unfold kv. rewrite Hka. cbn [app]. apply IH.
        -- intros j Hj. apply Hk. lia.
        -- assumption.
        -- constructor; [lia |]. rewrite Forall_forall in *. intros y Hy.
           specialize (HF' y Hy). specialize (Hlt y Hy). lia.
Qed.

Lemma onPath_leaf d x y : 0 <= d -> 0 <= y < 2 ^ d -> onPath d x (2 ^ d + y) <-> y = x.
Proof.
  intros Hd Hy. unfold onPath.
  rewrite heightOf_leaf, firstOf_leaf by lia. change (2 ^ 0) with 1. lia.
Qed.

Lemma onPath_parent d x i :
  0 <= d -> 1 <= i < 2 ^ d -> onPath d x (2 * i) \/ onPath d x (2 * i + 1) -> onPath d x i.
Proof.
  unfold onPath. intros Hd Hi.
  rewrite heightOf_left, heightOf_right, firstOf_left, firstOf_right by lia.
  pose proof (pow_height d i Hd Hi) as Hp2.
  assert (0 < 2 ^ (heightOf d i - 1)); [| lia].
  pose proof (heightOf_inner d i Hd Hi). apply Z.pow_pos_nonneg; lia.
Qed.

Lemma onPath_root d x : 0 <= d -> 0 <= x < 2 ^ d -> onPath d x 1.
Proof.
  intros Hd Hx. unfold onPath. rewrite heightOf_root, firstOf_root by lia. lia.
Qed.

(** ** Two trees that differ at one element *)

Section OneElement.
Variable keccak : Z -> Z -> Z.
Variable sortedHash : bool.
Variables E E1 : list Buffer.
Variable x : Z.

Local Abbreviation N := (Z.of_nat (length E)).
Local Abbreviation d := (Z.log2_up (Z.max (Z.of_nat (length E)) 1)).
Local Abbreviation L := (leafCountOf (Z.of_nat (length E))).

Hypothesis Hlen : length E1 = length E.
Hypothesis HN : N <= 2 ^ 30.
Hypothesis Hagree : forall t, 0 <= t < N -> t <> x -> elementAt E1 t = elementAt E t.

(** Off the path of [x] the nodes of the two trees are the same. *)
Lemma off_path : forall (n : nat) j,
  2 * L - j <= Z.of_nat n -> 1 <= j < 2 * L -> ~ onPath d x j ->
  nodesOf keccak sortedHash E1 j = nodesOf keccak sortedHash E j.
Proof.
  pose proof (depth_bounds E HN) as Hd.
  assert (HL : 1 <= L <= 2 ^ 30) by (apply (L_bounds E E eq_refl); lia).
  induction n as [| n IH]; intros j Hn Hj Hoff; [lia |].
  destruct (Z.lt_ge_cases j L) as [Hin | Hleaf].
  - rewrite (Tv_node keccak sortedHash E E1 Hlen j) by lia.
    rewrite (Tv_node keccak sortedHash E E eq_refl j) by lia.
    rewrite (IH (2 * j)), (IH (2 * j + 1)); try lia; try reflexivity.
    + intros Hp. apply Hoff. apply onPath_parent; [lia | change (2 ^ d) with L; lia | tauto].
    + intros Hp. apply Hoff. apply onPath_parent; [lia | change (2 ^ d) with L; lia | tauto].
  - replace j with (L + (j - L)) in * by lia.
    destruct (Z.lt_ge_cases (j - L) N) as [Hlt | Hge].
    + rewrite (Tv_leaf keccak sortedHash E E1 Hlen) by lia.
      rewrite (Tv_leaf keccak sortedHash E E eq_refl) by lia.
      do 2 f_equal. apply Hagree; [lia |]. intros He. apply Hoff.
      change L with (2 ^ d). apply onPath_leaf; [lia | change (2 ^ d) with L; lia | exact He].
    + rewrite !nodesOf_absent; [reflexivity | lia | rewrite Hlen; lia].
Qed.
End OneElement.

(** ** The pairs of the leaves *)

Lemma lowest_index (I : list Z) :
  I <> [] -> strictlyAscending I = true ->
  In (hd 0 I) I /\ forall y, In y I -> hd 0 I <= y.
Proof.
  intros HI Hasc. destruct I as [| x I']; [congruence |]. cbn [hd]. split; [now left |].
  intros y [<- | Hy]; [lia |].
  pose proof (strictly_head_lt _ _ Hasc) as Hlt. rewrite Forall_forall in Hlt.
  specialize (Hlt y Hy). lia.
Qed.

Section LeafPairs.
Variable keccak : Z -> Z -> Z.
Variable E : list Buffer.

Local Abbreviation N := (Z.of_nat (length E)).
Local Abbreviation d := (Z.log2_up (Z.max (Z.of_nat (length E)) 1)).
Local Abbreviation L := (leafCountOf (Z.of_nat (length E))).
Local Abbreviation Tv := (nodesOf keccak true E).

Hypothesis HN : N <= 2 ^ 30.

Lemma one_replaced x e t :
  0 <= t < N -> t <> x -> elementAt (updateElements E [x] [e]) t = elementAt E t.
Proof.
  intros Ht Hne. rewrite updateElements_at by assumption. cbn [replacement].
  destruct (Z.eqb_spec x t); [congruence | reflexivity].
Qed.

Lemma one_replaced_at x e : 0 <= x < N -> elementAt (updateElements E [x] [e]) x = e.
Proof.
  intros Ht. rewrite updateElements_at by assumption. cbn [replacement].
  now rewrite Z.eqb_refl.
Qed.

Lemma later_pairs (T1 : Z -> option Buffer) x : forall J Q,
  Forall (fun y => x < y /\ 0 <= y < N) J -> length Q = length J ->
  Forall2 (standsFor Tv T1 d x) (map (fun y => L + y) J)
          (combine (leafsAt keccak E J) (map (leafImage keccak) Q)).
Proof.
  pose proof (depth_bounds E HN) as Hd.
  assert (HNL : N <= L) by apply leafCountOf_ge.
  induction J as [| y J IH]; intros [| e Q] HF HQ; try discriminate; [constructor |].
  inversion HF as [| ? ? [Hy1 Hy2] HF']; subst.
  cbn [map leafsAt combine]. constructor; [| apply IH; [assumption | now inversion HQ]].
  split; cbn [fst snd].
  - apply (Tv_leaf keccak true E E eq_refl). lia.
  - intros Hp. change L with (2 ^ d) in Hp. apply onPath_leaf in Hp; [lia | lia |].
    change (2 ^ d) with L. lia.
Qed.

Lemma first_pairs (I : list Z) (R : list Buffer) :
  I <> [] -> strictlyAscending I = true -> inRange N I = true -> length R = length I ->
  Forall2 (standsFor Tv (nodesOf keccak true (updateElements E [hd 0 I] [hd 0 R])) d (hd 0 I))
          (map (fun y => L + y) I)
          (combine (leafsAt keccak E I) (map (leafImage keccak) R)).
Proof.
  intros HI Hasc Hrange HR.
  pose proof (depth_bounds E HN) as Hd.
  assert (HNL : N <= L) by apply leafCountOf_ge.
  destruct I as [| x J]; [congruence |]. destruct R as [| e Q]; [discriminate |].
  cbn [hd] in *.
  assert (Hx : 0 <= x < N) by (apply (inRange_forall _ _ x Hrange); now left).
  cbn [map leafsAt combine]. constructor.
  - split; cbn [fst snd].
    + apply (Tv_leaf keccak true E E eq_refl). lia.
    + intros _.
      rewrite (Tv_leaf keccak true E (updateElements E [x] [e])
                       (updateElements_length E [x] [e])) by lia.
      do 2 f_equal. now apply one_replaced_at.
  - apply later_pairs; [| now inversion HR].
    pose proof (strictly_head_lt _ _ Hasc) as Hlt.
    rewrite Forall_forall in *. intros y Hy. split; [now apply Hlt |].
    apply (inRange_forall _ _ y Hrange). now right.
Qed.
End LeafPairs.

(** ** The root the on-chain update stores *)

Section OnChainRoots.
Import Flag_Multi_Proofs.
Variable keccak : Z -> Z -> Z.
Variable E : list Buffer.
Variable I : list Z.
Variable R : list Buffer.

Local Abbreviation N := (Z.of_nat (length E)).
Local Abbreviation d := (Z.log2_up (Z.max (Z.of_nat (length E)) 1)).
Local Abbreviation L := (leafCountOf (Z.of_nat (length E))).
Local Abbreviation tree := (buildTree keccak true E).
Local Abbreviation Tv := (nodesOf keccak true E).
(** The elements with the lowest proved index replaced. *)
Local Abbreviation E1 := (updateElements E [hd 0 I] [hd 0 R]).
Local Abbreviation T1 := (nodesOf keccak true (updateElements E [hd 0 I] [hd 0 R])).

Hypothesis HN : N <= 2 ^ 30.
Hypothesis HI : I <> [].
Hypothesis Hasc : strictlyAscending I = true.
Hypothesis Hrange : inRange N I = true.
Hypothesis HR : length R = length I.

(** The streams of a sorted-hash proof take the pairs of the leaves to
    the pair of the two roots. *)
Lemma generated_pairs :
  exists o v v',
    generateBooleans true tree N I =
      Ok (mkProof [] N (defined (genDecommitments o)) (genFlags o) (genSkips o) None) /\
    noStop (genFlags o) (genSkips o) /\
    Tv 1 = Some v /\ T1 1 = Some v' /\
    urun keccak (genFlags o) (genSkips o)
         (rev (combine (leafsAt keccak E I) (map (leafImage keccak) R)))
         (defined (genDecommitments o)) = Some ([(v, v')], []).
Proof.
  pose proof (depth_bounds E HN) as Hd.
  assert (HL : 1 <= L <= 2 ^ 30) by (apply (L_bounds E E eq_refl); lia).
  assert (HNL : N <= L) by apply leafCountOf_ge.
  assert (HrL : inRange (2 ^ d) I = true) by (apply (inRange_weaken N); assumption).
  destruct (lowest_index I HI Hasc) as [Hx Hmin].
  assert (Hx0 : 0 <= hd 0 I < N) by (apply (inRange_forall _ _ _ Hrange Hx)).
  unfold generateBooleans. rewrite buildTree_length.
  rewrite ushr_1 by lia. replace (2 * L / 2) with L by (rewrite Z.mul_comm, Z.div_mul; lia).
  destruct (markLeaves_ok L I None (fun _ => false) (fun _ => false)
                          (strictly_ascending _ Hasc)) as (k & r & Hm & Hk & Hr).
  rewrite Hm. cbn [bind fst snd].
  assert (Hk' : forall j, k j = knownLeaf L I j) by (intros j; rewrite Hk; apply orb_false_r).
  assert (Hr' : forall j, r j = relevantParent L I j) by (intros j; rewrite Hr; apply orb_false_r).
  pose proof (start_Inv keccak true E E I eq_refl HN Hrange (fun _ _ _ => eq_refl)
                        k r Hk' Hr') as HInv.
  assert (HKB : knownBelow d L I (Z.to_nat (L - 1)) (mkGen k r [] [] [] [])).
  { intros j Hj. cbn [known]. rewrite Hk'. apply (knownLeaf_below d I Hd Hasc).
    change (2 ^ d) with L. lia. }
  assert (Hlt : Z.of_nat (Z.to_nat (L - 1)) < 2 ^ d) by (change (2 ^ d) with L; lia).
  destruct (gen_sound keccak true Tv tree L HL (Tv_node keccak true E E eq_refl)
                      (tree_node keccak true E) (tree_shape keccak true E E eq_refl)
                      (Tv_sibling keccak true E E eq_refl)
                      (Z.to_nat (L - 1)) _ HInv ltac:(lia))
    as (_ & _ & Hns & _).
  destruct (gen_groups keccak true Tv tree d I Hd Hasc
                       (Tv_node keccak true E E eq_refl)
                       (tree_node keccak true E) (tree_shape keccak true E E eq_refl)
                       (Tv_sibling keccak true E E eq_refl)
                       (Z.to_nat (L - 1)) _ HInv HKB Hlt)
    as (HKB0 & _).
  assert (Hstart : Forall2 (standsFor Tv T1 d (hd 0 I))
                     (queueAt (fun j => Some j) k (Z.to_nat (L - 1)))
                     (rev (combine (leafsAt keccak E I) (map (leafImage keccak) R)))).
  { unfold queueAt. apply Forall2_reversed. rewrite Z2Nat.id by lia.
    replace (L - 1 + 1) with (L + 0) by lia.
    rewrite (knownVals_ids L k _ 0 I); [now apply first_pairs | intros; apply Hk' | assumption |].
    rewrite Forall_forall. intros y Hy. pose proof (inRange_forall _ _ _ Hrange Hy). lia. }
  assert (Hoff : forall j, 1 <= j < 2 * 2 ^ d -> ~ onPath d (hd 0 I) j -> T1 j = Tv j).
  { intros j Hj Hp.
    apply (off_path keccak true E E1 (hd 0 I) (updateElements_length _ _ _) HN
                    (one_replaced E (hd 0 I) (hd 0 R))
                    (Z.to_nat (2 * L - j))); [lia | exact Hj | exact Hp]. }
  destruct (gen_mixed keccak Tv T1 tree d I (hd 0 I) Hd Hasc Hx Hmin
                      (Tv_node keccak true E E eq_refl)
                      (Tv_node keccak true E E1 (updateElements_length _ _ _))
                      (tree_node keccak true E) (tree_shape keccak true E E eq_refl)
                      (Tv_sibling keccak true E E eq_refl) Hoff
                      (Z.to_nat (L - 1)) _ _ HInv HKB Hlt Hstart)
    as (q' & Hrun & Hend).
  change (clearOut (mkGen k r [] [] [] [])) with (mkGen k r [] [] [] [])
    in Hns, HKB0, Hrun, Hend.
  set (o := genLoop tree (Z.to_nat (L - 1)) (mkGen k r [] [] [] [])) in *.
  destruct (below_all I (2 ^ d) HrL) as [Hall H0].
  assert (Hm1 : 1 <= Z.of_nat (length I)) by (destruct I; [congruence | cbn [length]; lia]).
  assert (Hlast : queueAt (fun j => Some j) (known o) 0 = [1]).
  { unfold queueAt, knownVals. rewrite zseq_S. cbn [zseq seq map flat_map rev app].
    rewrite app_nil_r. change (Z.of_nat 0 + 1) with 1. unfold kv.
    rewrite (HKB0 1) by (change (Z.of_nat 0) with 0; lia).
    rewrite heightOf_root, firstOf_root by lia. rewrite Z.add_0_l.
    rewrite Hall, H0. destruct (Z.ltb_spec 0 (Z.of_nat (length I))); [reflexivity | lia]. }
  rewrite Hlast in Hend.
  destruct (Forall2_cons_l _ _ _ _ Hend) as ([v v'] & q0 & -> & [Hv Hv'] & Hnil).
  inversion Hnil; subst. cbn [fst snd] in *.
  exists o, v, v'. split; [reflexivity |]. split; [exact Hns |].
  split; [exact Hv |]. split; [| exact Hrun].
  apply Hv'. apply onPath_root; [lia |]. change (2 ^ d) with L. lia.
Qed.

(** What [update] returns on the words and the decommitments of a
    sorted-hash proof. *)
Lemma update_generated (root : Z) (o : genState) (v v' : Z) :
  noStop (genFlags o) (genSkips o) ->
  (length (genFlags o) <= 255)%nat ->
  urun keccak (genFlags o) (genSkips o)
       (rev (combine (leafsAt keccak E I) (map (leafImage keccak) R)))
       (defined (genDecommitments o)) = Some ([(v, v')], []) ->
  update keccak root N (rev (map (elementAt E) I)) (rev R)
         (Z.of_nat (length (genFlags o)))
         (withStop (genFlags o)) (withStop (genSkips o)) (defined (genDecommitments o))
    = if hash_node keccak N v =? root then Returned (hash_node keccak N v') else Reverted.
Proof.
  intros Hns Hcap Hrun.
  destruct (noStop_nth _ _ O Hns) as [Hl _].
  assert (Hleafs : leafsAt keccak E I <> []).
  { unfold leafsAt. destruct I; [congruence | discriminate]. }
  assert (Hnew : map (leafImage keccak) R <> []).
  { destruct R; [| discriminate]. destruct I; [congruence | discriminate]. }
  pose proof (repr_init _ Hleafs) as Hr0. pose proof (repr_init _ Hnew) as Hr0'.
  rewrite (leafsAt_length keccak) in Hr0. rewrite length_map, HR in Hr0'.
  assert (Hm : Z.of_nat (length I) < 2 ^ 256).
  { assert (H1 : Z.of_nat (length I) <= 2 ^ 30); [| lia].
    pose proof (strictly_bounded I N Hasc Hrange). lia. }
  unfold update. rewrite !length_rev, length_map, HR, Nat.ltb_irrefl.
  rewrite firstn_all2 by (rewrite length_rev; lia).
  rewrite hashes_of_elements.
  replace (map (fun element => hash_node keccak 0 element) (rev R))
    with (rev (map (leafImage keccak) R)) by (rewrite map_rev; reflexivity).
  rewrite Nat2Z.id.
  assert (Hq1 : map fst (rev (combine (leafsAt keccak E I) (map (leafImage keccak) R)))
                = rev (leafsAt keccak E I)).
  { rewrite map_rev, fst_combine; [reflexivity |].
    now rewrite (leafsAt_length keccak), length_map. }
  assert (Hq2 : map snd (rev (combine (leafsAt keccak E I) (map (leafImage keccak) R)))
                = rev (map (leafImage keccak) R)).
  { rewrite map_rev, snd_combine; [reflexivity |].
    now rewrite (leafsAt_length keccak), length_map. }
  rewrite <- Hq1 in Hr0 at 2. rewrite <- Hq2 in Hr0' at 2.
  assert (Hbs : forall j, (j < length (genFlags o))%nat ->
                Z.testbit (withStop (genSkips o)) (Z.of_nat j) = nth j (genSkips o) false).
  { intros j Hj. apply withStop_bits. lia. }
  assert (Hcap' : (length (genFlags o) <= 256)%nat) by lia.
  assert (Hlh : Z.of_nat (length (rev (leafsAt keccak E I))) = Z.of_nat (length I)).
  { now rewrite length_rev, (leafsAt_length keccak). }
  assert (Hlh' : Z.of_nat (length (rev (map (leafImage keccak) R))) = Z.of_nat (length I)).
  { now rewrite length_rev, length_map, HR. }
  assert (Hd0 : 0 <= 0 <= Z.of_nat 0) by (cbn; lia).
  destruct (updateLoop_sim keccak (withStop (genFlags o)) (withStop (genSkips o))
              (genFlags o) (genSkips o) (defined (genDecommitments o))
              (Z.of_nat (length I)) Hl Hcap'
              (fun j Hj => withStop_bits _ j Hj) Hbs
              Hm (length (genFlags o)) 0%nat
              (rev (leafsAt keccak E I)) (rev (map (leafImage keccak) R)) 0 0 0 _ _ _
              eq_refl Hlh Hlh' Hr0 Hr0' Hd0 Hrun)
    as (hs1 & hs1' & r1 & w1 & di1 & Hloop & Hl1 & Hl1' & Hrepr & Hrepr').
  change (wrap (2 ^ Z.of_nat 0)) with 1 in Hloop.
  rewrite Hloop. cbn [andThen write_index old_hashes new_hashes map fst snd] in *.
  assert (Hw : 0 <= w1 < Z.of_nat (length I)).
  { destruct Hrepr as (Hr & _ & -> & _). apply Z.mod_pos_bound. lia. }
  pose proof (repr_last _ _ r1 w1 [] v Hrepr) as Hlast.
  pose proof (repr_last _ _ r1 w1 [] v' Hrepr') as Hlast'.
  rewrite <- (root_index _ _ Hw Hm) in Hlast, Hlast'.
  rewrite (load_some _ _ _ Hlast). cbn [andThen].
  destruct (hash_node keccak N v =? root); [| reflexivity].
  rewrite (load_some _ _ _ Hlast'). reflexivity.
Qed.

End OnChainRoots.

(** ** The transactions of the contract on a generated proof *)

Lemma hd_rev {A} (l : list A) a : hd a (rev l) = last l a.
Proof.
  induction l as [| x l _] using rev_ind; [reflexivity |].
  now rewrite rev_app_distr, last_last.
Qed.

Section Transactions.
Import Flag_Multi_Proofs.
Variable keccak : Z -> Z -> Z.
Variable root : Z.
Local Abbreviation tree := (buildTree keccak true).

Lemma usedSoFar_length : forall elements a, length (usedSoFar keccak a elements) = length elements.
Proof. induction elements as [| e l IH]; intros a; cbn [usedSoFar length]; auto. Qed.

Lemma usedSoFar_last : forall elements a,
  elements <> [] ->
  last (usedSoFar keccak a elements) 0 = fold_left (hash_node keccak) elements a.
Proof.
  induction elements as [| e l IH]; intros a Hne; [congruence |].
  cbn [usedSoFar fold_left]. destruct l as [| e' l]; [reflexivity |].
  rewrite <- IH by discriminate. reflexivity.
Qed.

End Transactions.

(* ================================================================= *)
(** * The contract on the proofs of the generator *)

(** ** The contract on the proofs of the generator *)

Section ContractTheorems.
Import Flag_Multi_Proofs.
Variable keccak : Z -> Z -> Z.
Variable root : Z.
Local Abbreviation tree := (buildTree keccak true).

(** The contract's [verify] accepts the compact sorted-hash proof of a
    tree, given the elements highest index first, the words and the
    decommitments of the proof, exactly when the stored root is the root
    of the tree; a proof gets past the length guard only with 32 hash
    steps. *)
Theorem onchain_verify (elements : list Buffer) (indices : list Z) (p : proof) :
  Z.of_nat (length elements) <= 2 ^ 30 ->
  indices <> [] ->
  strictlyAscending indices = true ->
  inRange (Z.of_nat (length elements)) indices = true ->
  generate true false (tree elements) (Z.of_nat (length elements)) indices = Ok p ->
  length (flags p) = 32%nat ->
  exists q w1 w2 decs,
    generate true true (tree elements) (Z.of_nat (length elements)) indices = Ok q /\
    compactProof q = to32ByteBuffer (Z.of_nat (length elements)) :: w1 :: w2 :: decs /\
    verify keccak root (Z.of_nat (length elements))
           (rev (map (elementAt elements) indices)) 32 w1 w2 decs
      = Returned (rootOf keccak (Z.of_nat (length elements)) (getOpt (tree elements) 1)
                  =? root).
Proof.
  intros HN HI Hasc Hrange Hp H32.
  destruct (generated keccak true elements elements indices eq_refl HN Hasc Hrange
                      (fun _ _ _ => eq_refl)) as (o & Hg & Hrun & Hns & _ & _ & Hroot).
  destruct (Hroot HI) as (v & Hq & Hv). rewrite Hq in Hrun.
  unfold generate in Hp. rewrite Hg in Hp. injection Hp as <-. cbn [flags] in H32.
  destruct (noStop_nth _ _ O Hns) as [Hl _].
  eexists _, _, _, _.
  split; [apply (compact_sorted _ _ _ o Hg Hl); lia |]. cbn [compactProof].
  split; [reflexivity |].
  assert (HlenI : Z.of_nat (length indices) < 2 ^ 256).
  { assert (H1 : Z.of_nat (length indices) <= 2 ^ 30); [| lia].
    pose proof (strictly_bounded indices (Z.of_nat (length elements)) Hasc Hrange). lia. }
  rewrite (verify_generated keccak root elements indices o v HI HlenI Hns H32 Hrun).
  f_equal. rewrite buildTree_get, Hv. unfold rootOf.
  assert (H0 : 0 < Z.of_nat (length elements)).
  { destruct indices as [| x I']; [congruence |].
    pose proof (inRange_forall _ _ x Hrange (or_introl eq_refl)). lia. }
  destruct (Z.ltb_spec 0 (Z.of_nat (length elements))); [reflexivity | lia].
Qed.

(** [use] on such a proof of 32 hash steps returns the chained hash of
    the elements it was given when the stored root is the root of the
    tree, and reverts otherwise. *)
Theorem onchain_use (elements : list Buffer) (indices : list Z) (p : proof) :
  Z.of_nat (length elements) <= 2 ^ 30 ->
  indices <> [] ->
  strictlyAscending indices = true ->
  inRange (Z.of_nat (length elements)) indices = true ->
  generate true false (tree elements) (Z.of_nat (length elements)) indices = Ok p ->
  length (flags p) = 32%nat ->
  exists q w1 w2 decs,
    generate true true (tree elements) (Z.of_nat (length elements)) indices = Ok q /\
    compactProof q = to32ByteBuffer (Z.of_nat (length elements)) :: w1 :: w2 :: decs /\
    use keccak root (Z.of_nat (length elements))
        (rev (map (elementAt elements) indices)) 32 w1 w2 decs
      = if rootOf keccak (Z.of_nat (length elements)) (getOpt (tree elements) 1) =? root
        then Returned (dataUsed keccak (rev (map (elementAt elements) indices)))
        else Reverted.
Proof.
  intros HN HI Hasc Hrange Hp H32.
  destruct (generated keccak true elements elements indices eq_refl HN Hasc Hrange
                      (fun _ _ _ => eq_refl)) as (o & Hg & Hrun & Hns & _ & _ & Hroot).
  destruct (Hroot HI) as (v & Hq & Hv). rewrite Hq in Hrun.
  unfold generate in Hp. rewrite Hg in Hp. injection Hp as <-. cbn [flags] in H32.
  destruct (noStop_nth _ _ O Hns) as [Hl _].
  eexists _, _, _, _.
  split; [apply (compact_sorted _ _ _ o Hg Hl); lia |]. cbn [compactProof].
  split; [reflexivity |].
  assert (HlenI : Z.of_nat (length indices) < 2 ^ 256).
  { assert (H1 : Z.of_nat (length indices) <= 2 ^ 30); [| lia].
    pose proof (strictly_bounded indices (Z.of_nat (length elements)) Hasc Hrange). lia. }
  unfold use.
  rewrite (verify_generated keccak root elements indices o v HI HlenI Hns H32 Hrun).
  cbn [andThen]. rewrite buildTree_get, Hv. unfold rootOf.
  assert (H0 : 0 < Z.of_nat (length elements)).
  { destruct indices as [| x I']; [congruence |].
    pose proof (inRange_forall _ _ x Hrange (or_introl eq_refl)). lia. }
  destruct (Z.ltb_spec 0 (Z.of_nat (length elements))); [| lia].
  destruct (_ =? root); reflexivity.
Qed.

(** [use] reverts whenever [hash_count] is not 32, whatever the proof:
    [verify] then returns false at its length guard. *)
Theorem use_needs_32_steps (element_count : Z) (elements : list Z) (hash_count : Z)
        (flags skips : Z) (decommitments : list Z) :
  hash_count <> 32 ->
  use keccak root element_count elements hash_count flags skips decommitments = Reverted.
Proof.
  intros Hne. unfold use, verify, bytes32_length.
  destruct (Z.eqb_spec 32 hash_count); [congruence | reflexivity].
Qed.

(** [verify] on no elements reverts when it gets past the length
    guard, and returns false otherwise. *)
Theorem verify_no_elements (element_count hash_count flags skips : Z)
        (decommitments : list Z) :
  verify keccak root element_count [] hash_count flags skips decommitments
    = if hash_count =? 32 then Reverted else Returned false.
Proof.
  unfold verify, bytes32_length. rewrite (Z.eqb_sym 32 hash_count).
  destruct (Z.eqb_spec hash_count 32) as [-> | _]; [| reflexivity].
  cbn [negb andb map length]. change (Z.to_nat 32) with 32%nat.
  cbn [verifyLoop]. unfold verifyStep at 1. cbn [hashes hash_read_index bit_check].
  destruct (Z.land skips 1 =? 1); [reflexivity |].
  destruct (Z.land flags 1 =? 1); [reflexivity |].
  cbn [decommitment_index]. destruct (load decommitments 0); reflexivity.
Qed.

(** [update] on no elements reverts, whatever the other arguments. *)
Theorem update_no_elements (element_count : Z) (new_elements : list Z)
        (hash_count flags skips : Z) (decommitments : list Z) :
  update keccak root element_count [] new_elements hash_count flags skips decommitments
    = Reverted.
Proof.
  unfold update. cbn [length map firstn]. 
  replace (length new_elements <? 0)%nat with false by (symmetry; apply Nat.ltb_ge; lia).
  destruct (Z.to_nat hash_count) as [| n]; [reflexivity |].
  cbn [updateLoop]. unfold updateStep at 1.
  cbn [old_hashes new_hashes read_index write_index next_decommitment check].
  destruct (Z.land skips 1 =? 1); [reflexivity |].
  destruct (Z.land flags 1 =? 1); [reflexivity |].
  destruct (load decommitments 0); reflexivity.
Qed.

(** [update] on the compact sorted-hash proof of a tree, given the
    elements and the new elements highest index first: when the stored
    root is the root of the tree, the root it stores is the root of the
    tree in which only the element of the lowest proved index is
    replaced (the other new elements are hashed with the old hashes of
    their siblings and dropped); otherwise it reverts. *)
Theorem onchain_update (elements newElements : list Buffer) (indices : list Z) (p : proof) :
  Z.of_nat (length elements) <= 2 ^ 30 ->
  indices <> [] ->
  strictlyAscending indices = true ->
  inRange (Z.of_nat (length elements)) indices = true ->
  length newElements = length indices ->
  generate true false (tree elements) (Z.of_nat (length elements)) indices = Ok p ->
  (length (flags p) <= 255)%nat ->
  exists q w1 w2 decs,
    generate true true (tree elements) (Z.of_nat (length elements)) indices = Ok q /\
    compactProof q = to32ByteBuffer (Z.of_nat (length elements)) :: w1 :: w2 :: decs /\
    update keccak root (Z.of_nat (length elements))
           (rev (map (elementAt elements) indices)) (rev newElements)
           (Z.of_nat (length (flags p))) w1 w2 decs
      = if rootOf keccak (Z.of_nat (length elements)) (getOpt (tree elements) 1) =? root
        then Returned
               (rootOf keccak (Z.of_nat (length elements))
                  (getOpt (tree (updateElements elements [hd 0 indices] [hd 0 newElements]))
                          1))
        else Reverted.
Proof.
  intros HN HI Hasc Hrange HR Hp Hcap.
  destruct (generated_pairs keccak elements indices newElements HN HI Hasc Hrange HR)
    as (o & v & v' & Hg & Hns & Hv & Hv' & Hrun).
  unfold generate in Hp. rewrite Hg in Hp. injection Hp as <-. cbn [flags] in *.
  destruct (noStop_nth _ _ O Hns) as [Hl _].
  eexists _, _, _, _.
  split; [apply (compact_sorted _ _ _ o Hg Hl Hcap) |]. cbn [compactProof].
  split; [reflexivity |].
  rewrite (update_generated keccak elements indices newElements HN HI Hasc Hrange HR
                            root o v v' Hns Hcap Hrun).
  rewrite !buildTree_get, Hv, Hv'. unfold rootOf.
  assert (H0 : 0 < Z.of_nat (length elements)).
  { destruct indices as [| x I']; [congruence |].
    pose proof (inRange_forall _ _ x Hrange (or_introl eq_refl)). lia. }
  destruct (Z.ltb_spec 0 (Z.of_nat (length elements))); [reflexivity | lia].
Qed.

(** [use_and_update] on such a proof: when the stored root is the root
    of the tree, it stores the root of the tree in which the element of
    the lowest proved index is replaced by the chained hash of all the
    elements it was given, and emits that hash; otherwise it reverts. *)
Theorem onchain_use_and_update (elements : list Buffer) (indices : list Z) (p : proof) :
  Z.of_nat (length elements) <= 2 ^ 30 ->
  indices <> [] ->
  strictlyAscending indices = true ->
  inRange (Z.of_nat (length elements)) indices = true ->
  generate true false (tree elements) (Z.of_nat (length elements)) indices = Ok p ->
  (length (flags p) <= 255)%nat ->
  let given := rev (map (elementAt elements) indices) in
  let used := dataUsed keccak given in
  exists q w1 w2 decs,
    generate true true (tree elements) (Z.of_nat (length elements)) indices = Ok q /\
    compactProof q = to32ByteBuffer (Z.of_nat (length elements)) :: w1 :: w2 :: decs /\
    use_and_update keccak root (Z.of_nat (length elements)) given
                   (Z.of_nat (length (flags p))) w1 w2 decs
      = if rootOf keccak (Z.of_nat (length elements)) (getOpt (tree elements) 1) =? root
        then Returned
               (rootOf keccak (Z.of_nat (length elements))
                  (getOpt (tree (updateElements elements [hd 0 indices] [used])) 1),
                used)
        else Reverted.
Proof.
  intros HN HI Hasc Hrange Hp Hcap given used.
  assert (Hgiven : given <> []).
  { unfold given. destruct indices as [| x I']; [congruence |]. cbn [map rev].
    intros Hc. apply app_eq_nil in Hc. destruct Hc; discriminate. }
  assert (HR : length (rev (usedSoFar keccak 0 given)) = length indices).
  { unfold given. now rewrite length_rev, usedSoFar_length, length_rev, length_map. }
  assert (Hused : hd 0 (rev (usedSoFar keccak 0 given)) = used).
  { now rewrite hd_rev, (usedSoFar_last keccak given 0 Hgiven). }
  destruct (generated_pairs keccak elements indices (rev (usedSoFar keccak 0 given))
                            HN HI Hasc Hrange HR)
    as (o & v & v' & Hg & Hns & Hv & Hv' & Hrun).
  unfold generate in Hp. rewrite Hg in Hp. injection Hp as <-. cbn [flags] in *.
  destruct (noStop_nth _ _ O Hns) as [Hl _].
  eexists _, _, _, _.
  split; [apply (compact_sorted _ _ _ o Hg Hl Hcap) |]. cbn [compactProof].
  split; [reflexivity |].
  pose proof (update_generated keccak elements indices (rev (usedSoFar keccak 0 given))
                               HN HI Hasc Hrange HR root o v v' Hns Hcap Hrun) as Hup.
  rewrite rev_involutive in Hup. fold given in Hup.
  unfold use_and_update. rewrite Hup. rewrite Hused in Hv'.
  rewrite !buildTree_get, Hv, Hv'. unfold rootOf.
  assert (H0 : 0 < Z.of_nat (length elements)).
  { destruct indices as [| x I']; [congruence |].
    pose proof (inRange_forall _ _ x Hrange (or_introl eq_refl)). lia. }
  destruct (Z.ltb_spec 0 (Z.of_nat (length elements))); [| lia].
  destruct (_ =? root); reflexivity.
Qed.

End ContractTheorems.

Lemma onchain_verify_witness :
  exists q w1 w2 decs,
    generate true true (buildTree toy true (many 64)) (Z.of_nat (length (many 64))) (zseq 0 31)
      = Ok q /\
    compactProof q = to32ByteBuffer (Z.of_nat (length (many 64))) :: w1 :: w2 :: decs /\
    Flag_Multi_Proofs.verify toy 5 (Z.of_nat (length (many 64)))
      (rev (map (elementAt (many 64)) (zseq 0 31))) 32 w1 w2 decs
      = Flag_Multi_Proofs.Returned
          (rootOf toy (Z.of_nat (length (many 64))) (getOpt (buildTree toy true (many 64)) 1)
           =? 5).
Proof. eapply (onchain_verify toy 5 (many 64) (zseq 0 31)); evaluate. Defined.

Lemma onchain_use_witness :
  exists q w1 w2 decs,
    generate true true (buildTree toy true (many 64)) (Z.of_nat (length (many 64))) (zseq 0 31)
      = Ok q /\
    compactProof q = to32ByteBuffer (Z.of_nat (length (many 64))) :: w1 :: w2 :: decs /\
    Flag_Multi_Proofs.use toy 5 (Z.of_nat (length (many 64)))
      (rev (map (elementAt (many 64)) (zseq 0 31))) 32 w1 w2 decs
      = if rootOf toy (Z.of_nat (length (many 64))) (getOpt (buildTree toy true (many 64)) 1)
           =? 5
        then Flag_Multi_Proofs.Returned
               (Flag_Multi_Proofs.dataUsed toy (rev (map (elementAt (many 64)) (zseq 0 31))))
        else Flag_Multi_Proofs.Reverted.
Proof. eapply (onchain_use toy 5 (many 64) (zseq 0 31)); evaluate. Defined.

Lemma use_needs_32_steps_witness :
  Flag_Multi_Proofs.use toy 5 3 [11; 22; 33] 2 1 2 [] = Flag_Multi_Proofs.Reverted.
Proof. apply (use_needs_32_steps toy 5 3 [11; 22; 33] 2 1 2 []). evaluate. Defined.

Lemma onchain_update_witness :
  exists p,
    generate true false (buildTree toy true sample) (Z.of_nat (length sample)) [1; 3] = Ok p /\
    exists q w1 w2 decs,
      generate true true (buildTree toy true sample) (Z.of_nat (length sample)) [1; 3] = Ok q /\
      compactProof q = to32ByteBuffer (Z.of_nat (length sample)) :: w1 :: w2 :: decs /\
      Flag_Multi_Proofs.update toy 5 (Z.of_nat (length sample))
        (rev (map (elementAt sample) [1; 3])) (rev [77; 88])
        (Z.of_nat (length (flags p))) w1 w2 decs
        = if rootOf toy (Z.of_nat (length sample)) (getOpt (buildTree toy true sample) 1) =? 5
          then Flag_Multi_Proofs.Returned
                 (rootOf toy (Z.of_nat (length sample))
                    (getOpt (buildTree toy true
                               (updateElements sample [hd 0 [1; 3]] [hd 0 [77; 88]])) 1))
          else Flag_Multi_Proofs.Reverted.
Proof.
  eexists. split; [vm_compute; reflexivity |].
  apply (onchain_update toy 5 sample [77; 88] [1; 3]); evaluate.
Defined.

Lemma onchain_use_and_update_witness :
  exists p,
    generate true false (buildTree toy true sample) (Z.of_nat (length sample)) [1; 3] = Ok p /\
    let given := rev (map (elementAt sample) [1; 3]) in
    let used := Flag_Multi_Proofs.dataUsed toy given in
    exists q w1 w2 decs,
      generate true true (buildTree toy true sample) (Z.of_nat (length sample)) [1; 3] = Ok q /\
      compactProof q = to32ByteBuffer (Z.of_nat (length sample)) :: w1 :: w2 :: decs /\
      Flag_Multi_Proofs.use_and_update toy 5 (Z.of_nat (length sample)) given
        (Z.of_nat (length (flags p))) w1 w2 decs
        = if rootOf toy (Z.of_nat (length sample)) (getOpt (buildTree toy true sample) 1) =? 5
          then Flag_Multi_Proofs.Returned
                 (rootOf toy (Z.of_nat (length sample))
                    (getOpt (buildTree toy true (updateElements sample [hd 0 [1; 3]] [used])) 1),
                  used)
          else Flag_Multi_Proofs.Reverted.
Proof.
  eexists. split; [vm_compute; reflexivity |].
  apply (onchain_use_and_update toy 5 sample [1; 3]); evaluate.
Defined.

(* ================================================================= *)
(** * The contract's length guard *)

Section StopTurn.
Variable keccak : Buffer -> Buffer -> Buffer.

(** A turn on the stop bit is a skip: it leaves a queue of one node as
    it is. *)
Lemma qrun_stop : forall fl sl q ds v,
  length sl = length fl ->
  qrun keccak true fl sl [] q ds = Some ([v], []) ->
  qrun keccak true (fl ++ [true]) (sl ++ [true]) [] q ds = Some ([v], []).
Proof.
  induction fl as [| f fl IH]; intros [| s sl] q ds v Hlen Hrun; try discriminate.
  - cbn [qrun] in Hrun. injection Hrun as -> ->. reflexivity.
  - cbn [app qrun hd tl] in *.
    destruct (qstep keccak true f s false q ds) as [[q1 ds1] |]; [| discriminate].
    apply IH; [now inversion Hlen | exact Hrun].
Qed.

(** The bits of a word up to its stop bit. *)
Lemma withStop_stop (l : list bool) j :
  (j <= length l)%nat -> Z.testbit (withStop l) (Z.of_nat j) = nth j (l ++ [true]) false.
Proof.
  intros Hj. rewrite testbit_withStop.
  destruct (Nat.eqb_spec (length l) j) as [<- | Hne].
  - rewrite nth_overflow by lia. rewrite app_nth2, Nat.sub_diag by lia. reflexivity.
  - rewrite orb_false_r. rewrite app_nth1 by lia. reflexivity.
Qed.
End StopTurn.

Section LengthGuard.
Import Flag_Multi_Proofs.
Variable keccak : Z -> Z -> Z.
Variable root : Z.
Local Abbreviation tree := (buildTree keccak true).

(** [verify] with [hash_count] 32 on the words of a proof of 31 steps:
    the last turn reads the stop bit. *)
Lemma verify_past_stop (E : list Buffer) (I : list Z) (o : genState) (v : Z) :
  I <> [] ->
  Z.of_nat (length I) < 2 ^ 256 ->
  noStop (genFlags o) (genSkips o) ->
  length (genFlags o) = 31%nat ->
  qrun keccak true (genFlags o) (genSkips o) [] (rev (leafsAt keccak E I))
       (defined (genDecommitments o)) = Some ([v], []) ->
  forall N,
  verify keccak root N (rev (map (elementAt E) I)) 32
         (withStop (genFlags o)) (withStop (genSkips o)) (defined (genDecommitments o))
    = Returned (hash_node keccak N v =? root).
Proof.
  intros HI Hm Hns H31 Hrun N.
  destruct (noStop_nth _ _ O Hns) as [Hl _].
  assert (Hleafs : leafsAt keccak E I <> []).
  { unfold leafsAt. destruct I; [congruence | discriminate]. }
  pose proof (repr_init _ Hleafs) as Hr0.
  unfold verify. cbn [bytes32_length Z.eqb Pos.eqb negb andb].
  rewrite hashes_of_elements.
  rewrite length_rev, length_map. rewrite (leafsAt_length keccak) in Hr0.
  set (fl := genFlags o ++ [true]). set (sl := genSkips o ++ [true]).
  assert (Hlen : length sl = length fl) by (unfold fl, sl; rewrite !length_app; lia).
  assert (Hfl : length fl = 32%nat) by (unfold fl; rewrite length_app; cbn [length]; lia).
  assert (Hcap : (length fl <= 256)%nat) by lia.
  assert (Hfs : forall j, (j < length fl)%nat ->
                Z.testbit (withStop (genFlags o)) (Z.of_nat j) = nth j fl false).
  { intros j Hj. apply withStop_stop. lia. }
  assert (Hbs : forall j, (j < length fl)%nat ->
                Z.testbit (withStop (genSkips o)) (Z.of_nat j) = nth j sl false).
  { intros j Hj. apply withStop_stop. lia. }
  assert (Hlh : Z.of_nat (length (rev (leafsAt keccak E I))) = Z.of_nat (length I)).
  { now rewrite length_rev, (leafsAt_length keccak). }
  assert (Hsteps : (0 + 32 = length fl)%nat) by lia.
  assert (Hd0 : 0 <= 0 <= Z.of_nat 0) by (cbn; lia).
  pose proof (qrun_stop keccak _ _ _ _ _ Hl Hrun) as Hrun'. fold fl sl in Hrun'.
  destruct (verifyLoop_sim keccak (withStop (genFlags o)) (withStop (genSkips o))
              fl sl [] (defined (genDecommitments o))
              (Z.of_nat (length I)) Hlen Hcap Hfs Hbs
              Hm 32%nat 0%nat (rev (leafsAt keccak E I)) 0 0 0 _ _ _
              Hsteps Hlh Hr0 Hd0 Hrun')
    as (hs' & r' & w' & di' & Hloop & Hl' & Hrepr).
  change (wrap (2 ^ Z.of_nat 0)) with 1 in Hloop.
  change (Z.to_nat 32) with 32%nat. rewrite Hloop.
  cbn [hashes hash_write_index].
  assert (Hw : 0 <= w' < Z.of_nat (length I)).
  { destruct Hrepr as (Hr & _ & -> & _). apply Z.mod_pos_bound. lia. }
  pose proof (repr_last _ _ r' w' [] v Hrepr) as Hlast.
  rewrite <- (root_index _ _ Hw Hm) in Hlast.
  rewrite (load_some _ _ _ Hlast). reflexivity.
Qed.

(** C9: the length guard of [verify] does not see the length of the
    streams.  On the compact proof of a tree with 31 hash steps, both
    words ending at the stop bit of position 31, [verify] called with
    [hash_count] 32 gets past the guard and returns true when the stored
    root is the root of the tree; called with [hash_count] 31, the
    length of both streams, it returns false. *)
Theorem verify_length_unchecked (elements : list Buffer) (indices : list Z) (p : proof) :
  Z.of_nat (length elements) <= 2 ^ 30 ->
  indices <> [] ->
  strictlyAscending indices = true ->
  inRange (Z.of_nat (length elements)) indices = true ->
  generate true false (tree elements) (Z.of_nat (length elements)) indices = Ok p ->
  length (flags p) = 31%nat ->
  exists q w1 w2 decs,
    generate true true (tree elements) (Z.of_nat (length elements)) indices = Ok q /\
    compactProof q = to32ByteBuffer (Z.of_nat (length elements)) :: w1 :: w2 :: decs /\
    (forall i : nat, Z.testbit w1 (Z.of_nat i) && Z.testbit w2 (Z.of_nat i) = (i =? 31)%nat) /\
    verify keccak root (Z.of_nat (length elements))
           (rev (map (elementAt elements) indices)) 32 w1 w2 decs
      = Returned (rootOf keccak (Z.of_nat (length elements)) (getOpt (tree elements) 1)
                  =? root) /\
    verify keccak root (Z.of_nat (length elements))
           (rev (map (elementAt elements) indices)) 31 w1 w2 decs
      = Returned false.
Proof.
  intros HN HI Hasc Hrange Hp H31.
  destruct (generated keccak true elements elements indices eq_refl HN Hasc Hrange
                      (fun _ _ _ => eq_refl)) as (o & Hg & Hrun & Hns & _ & _ & Hroot).
  destruct (Hroot HI) as (v & Hq & Hv). rewrite Hq in Hrun.
  unfold generate in Hp. rewrite Hg in Hp. injection Hp as <-. cbn [flags] in H31.
  destruct (noStop_nth _ _ O Hns) as [Hl _].
  eexists _, _, _, _.
  split; [apply (compact_sorted _ _ _ o Hg Hl); lia |]. cbn [compactProof].
  split; [reflexivity |].
  split.
  { intros i. rewrite !testbit_withStop, Hl, H31.
    destruct (noStop_nth _ _ i Hns) as [_ Hn]. unfold truthy in Hn.
    destruct (Nat.eqb_spec 31 i) as [<- | Hne].
    - rewrite !orb_true_r. reflexivity.
    - rewrite !orb_false_r, Hn. symmetry. apply Nat.eqb_neq. lia. }
  assert (HlenI : Z.of_nat (length indices) < 2 ^ 256).
  { assert (H1 : Z.of_nat (length indices) <= 2 ^ 30); [| lia].
    pose proof (strictly_bounded indices (Z.of_nat (length elements)) Hasc Hrange). lia. }
  split.
  - rewrite (verify_past_stop elements indices o v HI HlenI Hns H31 Hrun).
    f_equal. rewrite buildTree_get, Hv. unfold rootOf.
    assert (H0 : 0 < Z.of_nat (length elements)).
    { destruct indices as [| x I']; [congruence |].
      pose proof (inRange_forall _ _ x Hrange (or_introl eq_refl)). lia. }
    destruct (Z.ltb_spec 0 (Z.of_nat (length elements))); [reflexivity | lia].
  - reflexivity.
Qed.

End LengthGuard.

Lemma verify_length_unchecked_witness :
  exists q w1 w2 decs,
    generate true true (buildTree toy true (many 32)) (Z.of_nat (length (many 32))) (zseq 0 32)
      = Ok q /\
    compactProof q = to32ByteBuffer (Z.of_nat (length (many 32))) :: w1 :: w2 :: decs /\
    (forall i : nat, Z.testbit w1 (Z.of_nat i) && Z.testbit w2 (Z.of_nat i) = (i =? 31)%nat) /\
    Flag_Multi_Proofs.verify toy 17012 (Z.of_nat (length (many 32)))
      (rev (map (elementAt (many 32)) (zseq 0 32))) 32 w1 w2 decs
      = Flag_Multi_Proofs.Returned true /\
    Flag_Multi_Proofs.verify toy 17012 (Z.of_nat (length (many 32)))
      (rev (map (elementAt (many 32)) (zseq 0 32))) 31 w1 w2 decs
      = Flag_Multi_Proofs.Returned false.
Proof. eapply (verify_length_unchecked toy 17012 (many 32) (zseq 0 32)); evaluate. Defined.
